(** * SyntaxTree: a shallow embedding of the tokenizer, the parser, the
    structural pre-check and the layout / arrow routing of the tree module,
    with the properties of the specification stated over it.

    Conventions of the embedding.
    - A JavaScript string is a [string]: a sequence of code units below 256.
      A text handed to the canvas for measuring is a [Js.Text], a sequence
      of UTF-16 code units of any value: one text of the program holds the
      ellipsis U+2026.
    - [null] and [undefined] of an optional string field are [None]; the
      truthiness test of such a field is [truthy].
    - A thrown exception is an [Err] result; reading a property of
      [undefined] (an index past the end of the token array) is the
      error [TypeError].
    - The loops of the program recurse on a fuel argument; [OutOfFuel] is a
      separate result, and the lemmas [parseValue_total], [parse_total] and
      [tokenize_total] show that the entry points never produce it.
    - Numbers that are pixel measures are rationals ([Q]); a depth is an
      integer or [+Infinity] ([Depth]); a coordinate is a rational, an
      infinity or [NaN] ([Num]).  The program computes them as binary
      floating-point numbers, whose sums are rounded: the properties stated
      of measures are equalities between values the program computes by the
      same expression and order relations, which rounding keeps because it
      is monotone; no property states that two sums taken in different
      orders are equal. *)

From Stdlib Require Import List String Ascii ZArith QArith Qminmax Lia Bool Arith.
From Stdlib Require Import DecimalString Lqa.
Import ListNotations.
Set Warnings "-register-all".
Open Scope string_scope.
Open Scope list_scope.

(** ** Results of functions that may throw *)

Inductive result (E A : Type) : Type :=
| OK (a : A)
| Err (e : E)
| OutOfFuel.
Arguments OK {E A} a.
Arguments Err {E A} e.
Arguments OutOfFuel {E A}.

(** ** JavaScript helpers *)

Module Js.

(** [!!s] for a field holding a string, [null] or [undefined]. *)
Definition truthy (o : option string) : bool :=
  match o with
  | Some s => negb (String.eqb s "")
  | None => false
  end.

(** ['' + n] for a non-negative integer. *)
Definition decimal (n : nat) : string := NilEmpty.string_of_uint (Nat.to_uint n).

(** [s.substring(n)]. *)
Fixpoint drop (n : nat) (s : string) : string :=
  match n, s with
  | O, _ => s
  | S n', String _ r => drop n' r
  | S _, EmptyString => EmptyString
  end.

(** [s.substring(0, n)]. *)
Fixpoint take (n : nat) (s : string) : string :=
  match n, s with
  | O, _ => EmptyString
  | S n', String c r => String c (take n' r)
  | S _, EmptyString => EmptyString
  end.

(** [a.join(sep)] for an array of strings. *)
Fixpoint join (sep : string) (l : list string) : string :=
  match l with
  | [] => ""
  | [s] => s
  | s :: r => (s ++ sep ++ join sep r)%string
  end.

Definition code (c : ascii) : nat := nat_of_ascii c.

(** The double quote character. *)
Definition dquote : ascii := ascii_of_nat 34.

(** Line terminators, the characters [.] does not match: LF and CR. *)
Definition isLineTerminator (c : ascii) : bool :=
  (code c =? 10)%nat || (code c =? 13)%nat.

(** The class [\s], also what [trim] removes: TAB, LF, VT, FF, CR, space
    and the no-break space. *)
Definition isSpace (c : ascii) : bool :=
  ((9 <=? code c)%nat && (code c <=? 13)%nat) || (code c =? 32)%nat || (code c =? 160)%nat.

Fixpoint all (p : ascii -> bool) (s : string) : bool :=
  match s with
  | EmptyString => true
  | String c r => p c && all p r
  end.

Fixpoint rev_onto (s acc : string) : string :=
  match s with
  | EmptyString => acc
  | String c r => rev_onto r (String c acc)
  end.

Definition rev (s : string) : string := rev_onto s "".

Fixpoint trimStart (s : string) : string :=
  match s with
  | String c r => if isSpace c then trimStart r else s
  | EmptyString => EmptyString
  end.

(** [s.trim()]. *)
Definition trim (s : string) : string := rev (trimStart (rev (trimStart s))).

(** A text as the canvas measures it: its UTF-16 code units. *)
Definition Text : Set := list N.

(** The code units of a string. *)
Definition units (s : string) : Text := map N_of_ascii (list_ascii_of_string s).

(** Does [s] end with the character [c]? *)
Fixpoint endsWithChar (c : ascii) (s : string) : bool :=
  match s with
  | EmptyString => false
  | String d EmptyString => Ascii.eqb c d
  | String _ r => endsWithChar c r
  end.

End Js.

(** ** tokenizer.js *)

Module Tokenizer.

Inductive TokenType : Set :=
| BRACKET_OPEN
| BRACKET_CLOSE
| STRING
| NUMBER
| QUOTED_STRING
| SUBSCRIPT_PREFIX
| SUPERSCRIPT_PREFIX
| ARROW_TO
| ARROW_FROM
| ARROW_BOTH
| ARROW_DOTTED_TO.

Definition eqb (a b : TokenType) : bool :=
  match a, b with
  | BRACKET_OPEN, BRACKET_OPEN | BRACKET_CLOSE, BRACKET_CLOSE
  | STRING, STRING | NUMBER, NUMBER | QUOTED_STRING, QUOTED_STRING
  | SUBSCRIPT_PREFIX, SUBSCRIPT_PREFIX | SUPERSCRIPT_PREFIX, SUPERSCRIPT_PREFIX
  | ARROW_TO, ARROW_TO | ARROW_FROM, ARROW_FROM | ARROW_BOTH, ARROW_BOTH
  | ARROW_DOTTED_TO, ARROW_DOTTED_TO => true
  | _, _ => false
  end.

(** The [value] of a token: [null], a string (STRING, QUOTED_STRING) or the
    result of [parseInt] on a run of digits (NUMBER). *)
Inductive TokenValue : Set :=
| VNull
| VString (s : string)
| VNumber (n : nat).

Record Token : Set := mkToken { type : TokenType; value : TokenValue }.

(** The string a token value stands for where the parser uses it as text.
    STRING and QUOTED_STRING tokens always carry a string; [join] maps
    [null] to the empty string and a number to its decimal form. *)
Definition text (v : TokenValue) : string :=
  match v with
  | VString s => s
  | VNull => ""
  | VNumber n => Js.decimal n
  end.

Inductive TokenizeError : Set :=
| UnableToParse (rest : string)        (* 'Unable to parse [' + rest + '] ...' *)
| UnterminatedQuotedString (input : string).
                                       (* 'Unterminated quoted string. Missing ... after [' + input + ']' *)

Definition isWhitespace (c : ascii) : bool :=
  let n := Js.code c in
  (n =? 32)%nat || (n =? 8)%nat || (n =? 12)%nat || (n =? 10)%nat ||
  (n =? 13)%nat || (n =? 9)%nat || (n =? 11)%nat.

Definition isControlCharacter (c : ascii) : bool :=
  Ascii.eqb c "[" || Ascii.eqb c "]" || Ascii.eqb c "^" || Ascii.eqb c "_" ||
  Ascii.eqb c Js.dquote.

Definition isNumber (c : ascii) : bool :=
  (48 <=? Js.code c)%nat && (Js.code c <=? 57)%nat.

(** Length of the longest prefix of [s] whose characters satisfy [p]. *)
Fixpoint span (p : ascii -> bool) (s : string) : nat :=
  match s with
  | String c r => if p c then S (span p r) else O
  | EmptyString => O
  end.

Definition ParseFn : Type := string -> result TokenizeError (option Token * nat).

Definition skipWhitespace : ParseFn :=
  fun input => OK (None, span isWhitespace input).

Definition parseControlCharacters : ParseFn :=
  fun input =>
    match input with
    | String "_" _ => OK (Some (mkToken SUBSCRIPT_PREFIX VNull), 1%nat)
    | String "^" _ => OK (Some (mkToken SUPERSCRIPT_PREFIX VNull), 1%nat)
    | String "[" _ => OK (Some (mkToken BRACKET_OPEN VNull), 1%nat)
    | String "]" _ => OK (Some (mkToken BRACKET_CLOSE VNull), 1%nat)
    | _ => OK (None, O)
    end.

Definition parseArrows : ParseFn :=
  fun input =>
    match input with
    | String "-" (String ">" _) => OK (Some (mkToken ARROW_TO VNull), 2%nat)
    | String "<" (String "-" _) => OK (Some (mkToken ARROW_FROM VNull), 2%nat)
    | String "<" (String ">" _) => OK (Some (mkToken ARROW_BOTH VNull), 2%nat)
    | String "." (String ">" _) => OK (Some (mkToken ARROW_DOTTED_TO VNull), 2%nat)
    | _ => OK (None, O)
    end.

(** [parseInt] of a string of decimal digits. *)
Fixpoint parseIntFrom (acc : nat) (s : string) : nat :=
  match s with
  | String c r => parseIntFrom (10 * acc + (Js.code c - 48)) r
  | EmptyString => acc
  end.

Definition parseNumber : ParseFn :=
  fun input =>
    let consumed := span isNumber input in
    if (0 <? consumed)%nat
    then OK (Some (mkToken NUMBER (VNumber (parseIntFrom 0 (Js.take consumed input)))), consumed)
    else OK (None, O).

Definition parseString : ParseFn :=
  fun input =>
    let consumed := span (fun c => negb (isWhitespace c) && negb (isControlCharacter c)) input in
    if (0 <? consumed)%nat
    then OK (Some (mkToken STRING (VString (Js.take consumed input))), consumed)
    else OK (None, O).

Definition parseQuotedString : ParseFn :=
  fun input =>
    match input with
    | String c r =>
        if Ascii.eqb c Js.dquote then
          let consumed := S (span (fun c => negb (Ascii.eqb c Js.dquote)) r) in
          match Js.drop consumed input with
          | String c' _ =>
              if Ascii.eqb c' Js.dquote
              then OK (Some (mkToken QUOTED_STRING (VString (Js.take (consumed - 1) r))),
                       S consumed)
              else Err (UnterminatedQuotedString input)
          | EmptyString => Err (UnterminatedQuotedString input)
          end
        else OK (None, O)
    | EmptyString => OK (None, O)
    end.

Definition parsers : list ParseFn :=
  [skipWhitespace; parseControlCharacters; parseArrows; parseNumber;
   parseString; parseQuotedString].

(** The inner [for] loop over the parser functions, with its [break]. *)
Fixpoint runParsers (ps : list ParseFn) (input : string) (offset : nat)
    (tokens : list Token) : result TokenizeError (nat * list Token) :=
  match ps with
  | [] => OK (offset, tokens)
  | parse_fn :: ps' =>
      match parse_fn (Js.drop offset input) with
      | OK (token, consumed) =>
          let offset := (offset + consumed)%nat in
          let tokens := match token with Some t => tokens ++ [t] | None => tokens end in
          if (String.length input <=? offset)%nat then OK (offset, tokens)
          else runParsers ps' input offset tokens
      | Err e => Err e
      | OutOfFuel => OutOfFuel
      end
  end.

(** The outer [while (offset < input.length)] loop. *)
Fixpoint tokenizeLoop (fuel : nat) (input : string) (offset : nat)
    (tokens : list Token) : result TokenizeError (list Token) :=
  if (offset <? String.length input)%nat then
    match fuel with
    | O => OutOfFuel
    | S fuel' =>
        match runParsers parsers input offset tokens with
        | OK (offset', tokens') =>
            if (offset' =? offset)%nat then Err (UnableToParse (Js.drop offset' input))
            else tokenizeLoop fuel' input offset' tokens'
        | Err e => Err e
        | OutOfFuel => OutOfFuel
        end
    end
  else OK tokens.

Definition tokenize (input : string) : result TokenizeError (list Token) :=
  tokenizeLoop (String.length input) input 0 [].

End Tokenizer.

(** ** syntaxtree.js: the structural pre-check *)

Module SyntaxTree.
Import Tokenizer.

Inductive ValidationError : Set :=
| PhraseTooShort                 (* 'Phrase too short' *)
| MissingWrappingBrackets        (* 'Phrase must start with [ and end with ]' *)
| BracketsOpen (n : Z)           (* n + ' bracket(s) open [' *)
| TooManyClosed (n : Z).         (* n + ' too many closed bracket(s) ]' *)

Definition countOpenBrackets (tokens : list Token) : Z :=
  fold_left
    (fun o token =>
       let o := if eqb (type token) BRACKET_OPEN then (o + 1)%Z else o in
       if eqb (type token) BRACKET_CLOSE then (o - 1)%Z else o)
    tokens 0%Z.

(** [tokens[i].type != ty], for an index inside the array. *)
Definition typeIsNot (tokens : list Token) (i : nat) (ty : TokenType) : bool :=
  match nth_error tokens i with
  | Some t => negb (eqb (type t) ty)
  | None => true
  end.

(** [None] is the normal return ([null]), [Some e] a throw. *)
Definition validateTokens (tokens : list Token) : option ValidationError :=
  if (List.length tokens <? 3)%nat then Some PhraseTooShort
  else if typeIsNot tokens 0 BRACKET_OPEN ||
          typeIsNot tokens (List.length tokens - 1) BRACKET_CLOSE
  then Some MissingWrappingBrackets
  else
    let brackets := countOpenBrackets tokens in
    if (0 <? brackets)%Z then Some (BracketsOpen brackets)
    else if (brackets <? 0)%Z then Some (TooManyClosed (Z.abs brackets))
    else None.

End SyntaxTree.

(** ** parser.js *)

Module Parser.

Inductive NodeType : Set := ROOT | NODE | VALUE.

Definition eqb (a b : NodeType) : bool :=
  match a, b with
  | ROOT, ROOT | NODE, NODE | VALUE, VALUE => true
  | _, _ => false
  end.

(** An element of a leaf's [arrows] array:
    [{ends: {to, from}, target, label, dotted}]. *)
Record Ends : Set := mkEnds { to : bool; from : bool }.

Record ArrowDirective : Set := mkArrowDirective {
  ends : Ends;
  target : Tokenizer.TokenValue;
  arrow_label : option string;
  dotted : bool
}.

(** The objects built by [parse], [parseNode] and [parseValue].  A field an
    object does not have is [None] (or the empty list for [values] and
    [features]); [arrows] is [None] where the source stores [undefined]. *)
Inductive SyntaxNode : Type := mkSyntaxNode {
  type : NodeType;
  label : string;
  subscript : option string;
  superscript : option string;
  values : list SyntaxNode;
  features : list string;
  caseFeature : option string;
  arrows : option (list ArrowDirective)
}.

Inductive ParseError : Set :=
| MissingLabel                               (* 'Missing label after [' *)
| ExpectedLabel                              (* 'Expected label string after [' *)
| ExpectedNodeSubscript (current : nat)      (* current + ': Expected subscript string after _ or ^' *)
| ExpectedValueSubscript (current : nat)     (* current + ': Expected subscript string after _/^' *)
| ExpectedColumnNumber (current : nat)       (* current + ': Expected column number after arrow' *)
| MissingClosingBracket (current : nat)      (* current + ': Missing closing bracket ] ...' *)
| UnexpectedToken (ty : Tokenizer.TokenType) (current : nat)
                                             (* 'Unexpected ' + ty + ' at idx ' + current *)
| TypeError.                                 (* a property of undefined was read *)

Definition Parsed (A : Type) : Type := result ParseError (nat * A).

(** *** The regular expressions *)

(** [/^\+/.test(s)]. *)
Definition testFeature (s : string) : bool :=
  match s with
  | String "+" _ => true
  | _ => false
  end.

Definition notLineTerminator (c : ascii) : bool := negb (Js.isLineTerminator c).

(** [\{.*\}$] matched at the start of [s]: an opening brace, then a text
    without line terminator that ends the string with a closing brace. *)
Definition braced (s : string) : bool :=
  match s with
  | String "{" r => Js.endsWithChar "}" r && Js.all notLineTerminator r
  | _ => false
  end.

(** [/^\{.*\}$/.test(s)]. *)
Definition testCase (s : string) : bool := braced s.

(** Backtracking over a greedy quantifier: the longest repetition first. *)
Fixpoint tryFrom {A : Type} (n : nat) (f : nat -> option A) : option A :=
  match f n with
  | Some x => Some x
  | None =>
      match n with
      | O => None
      | S n' => tryFrom n' f
      end
  end.

(** White space and then a braced text up to the end, [\s*G2$] with
    [G2 = \{.*\}], matched at the start of [s]: the text of [G2]. *)
Definition spacesThenBraced (s : string) : option string :=
  tryFrom (Tokenizer.span Js.isSpace s)
    (fun k => if braced (Js.drop k s) then Some (Js.drop k s) else None).

(** [s.match(/^G1\s*G2$/)] with the groups [G1 = .*] and [G2 = \{.*\}]:
    the texts of the two groups. *)
Definition matchCase (s : string) : option (string * string) :=
  tryFrom (Tokenizer.span notLineTerminator s)
    (fun p =>
       match spacesThenBraced (Js.drop p s) with
       | Some g2 => Some (Js.take p s, g2)
       | None => None
       end).

(** *** parseValue *)

Definition isString (ty : Tokenizer.TokenType) : bool :=
  Tokenizer.eqb ty Tokenizer.STRING || Tokenizer.eqb ty Tokenizer.QUOTED_STRING.

Definition isPrefix (ty : Tokenizer.TokenType) : bool :=
  Tokenizer.eqb ty Tokenizer.SUBSCRIPT_PREFIX || Tokenizer.eqb ty Tokenizer.SUPERSCRIPT_PREFIX.

(** [arrowTypes.includes(ty)]. *)
Definition isArrowType (ty : Tokenizer.TokenType) : bool :=
  Tokenizer.eqb ty Tokenizer.ARROW_TO || Tokenizer.eqb ty Tokenizer.ARROW_FROM ||
  Tokenizer.eqb ty Tokenizer.ARROW_BOTH || Tokenizer.eqb ty Tokenizer.ARROW_DOTTED_TO.

(** [i < tokens.length && p(tokens[i].type)]. *)
Definition typeAt (tokens : list Tokenizer.Token) (i : nat)
    (p : Tokenizer.TokenType -> bool) : bool :=
  match nth_error tokens i with
  | Some t => p (Tokenizer.type t)
  | None => false
  end.

(** The values pushed by
    [while (current < tokens.length && tokens[current].type === STRING)],
    [rest] being the tokens from [current] on. *)
Fixpoint stringRun (rest : list Tokenizer.Token) : list Tokenizer.TokenValue :=
  match rest with
  | t :: r =>
      if Tokenizer.eqb (Tokenizer.type t) Tokenizer.STRING
      then Tokenizer.value t :: stringRun r
      else []
  | [] => []
  end.

(** The optional sub/superscript of a node or a value; [err] is the error
    thrown when the prefix is not followed by a string. *)
Definition parseScript (err : nat -> ParseError) (tokens : list Tokenizer.Token)
    (current : nat) : Parsed (option string * option string) :=
  if (S current <? List.length tokens)%nat && typeAt tokens current isPrefix then
    let is_super := typeAt tokens current
                      (fun ty => Tokenizer.eqb ty Tokenizer.SUPERSCRIPT_PREFIX) in
    let current := S current in
    match nth_error tokens current with
    | None => Err TypeError
    | Some subscript_token =>
        if negb (isString (Tokenizer.type subscript_token)) then Err (err current)
        else
          let text := Some (Tokenizer.text (Tokenizer.value subscript_token)) in
          if is_super then OK (S current, (None, text))
          else OK (S current, (text, None))
    end
  else OK (current, (None, None)).

(** The directive pushed for an arrow token of type [ty]. *)
Definition mkDirective (ty : Tokenizer.TokenType) (target_value : Tokenizer.TokenValue)
    (label_text : option string) : ArrowDirective :=
  {| ends := {| to := Tokenizer.eqb ty Tokenizer.ARROW_TO ||
                      Tokenizer.eqb ty Tokenizer.ARROW_BOTH ||
                      Tokenizer.eqb ty Tokenizer.ARROW_DOTTED_TO;
                from := Tokenizer.eqb ty Tokenizer.ARROW_FROM ||
                        Tokenizer.eqb ty Tokenizer.ARROW_BOTH |};
     target := target_value;
     arrow_label := label_text;
     dotted := Tokenizer.eqb ty Tokenizer.ARROW_DOTTED_TO |}.

(** [current < tokens.length && tokens[current].type === STRING &&
    tokens[current].value === ',']. *)
Definition isComma (tokens : list Tokenizer.Token) (current : nat) : bool :=
  match nth_error tokens current with
  | Some t =>
      Tokenizer.eqb (Tokenizer.type t) Tokenizer.STRING &&
      match Tokenizer.value t with
      | Tokenizer.VString s => String.eqb s ","
      | _ => false
      end
  | None => false
  end.

(** The inner loop [while (arrowTypes.includes(tokens[current].type))]: the
    position and the directives when the loop is left. *)
Fixpoint arrowRun (fuel : nat) (tokens : list Tokenizer.Token) (current : nat)
    (arrows : list ArrowDirective) : Parsed (list ArrowDirective) :=
  match fuel with
  | O => OutOfFuel
  | S fuel' =>
      match nth_error tokens current with
      | None => Err TypeError
      | Some token =>
          if isArrowType (Tokenizer.type token) then
            let ty := Tokenizer.type token in
            let current := S current in
            match nth_error tokens current with
            | None => Err TypeError
            | Some target_token =>
                if negb (Tokenizer.eqb (Tokenizer.type target_token) Tokenizer.NUMBER)
                then Err (ExpectedColumnNumber current)
                else
                  let target_value := Tokenizer.value target_token in
                  let current := S current in
                  let '(label_text, current) :=
                    match nth_error tokens current with
                    | Some t =>
                        if isString (Tokenizer.type t)
                        then (Some (Tokenizer.text (Tokenizer.value t)), S current)
                        else (None, current)
                    | None => (None, current)
                    end in
                  let arrows := arrows ++ [mkDirective ty target_value label_text] in
                  if isComma tokens current
                  then arrowRun fuel' tokens (S current) arrows
                  else OK (current, arrows)
            end
          else OK (current, arrows)
      end
  end.

(** The outer loop [while (current < tokens.length - 1)]. *)
Fixpoint arrowLoop (fuel : nat) (tokens : list Tokenizer.Token) (current : nat)
    (arrows : list ArrowDirective) : Parsed (list ArrowDirective) :=
  match fuel with
  | O => OutOfFuel
  | S fuel' =>
      if (S current <? List.length tokens)%nat then
        if typeAt tokens current isArrowType then
          match arrowRun (S (List.length tokens)) tokens current arrows with
          | OK (current', arrows') => arrowLoop fuel' tokens current' arrows'
          | Err e => Err e
          | OutOfFuel => OutOfFuel
          end
        else OK (current, arrows)
      else OK (current, arrows)
  end.

(** The arrow part of [parseValue], from the position [current]. *)
Definition parseArrows (tokens : list Tokenizer.Token) (current : nat)
    (arrows : list ArrowDirective) : Parsed (list ArrowDirective) :=
  arrowLoop (S (List.length tokens)) tokens current arrows.

Definition parseValue (tokens : list Tokenizer.Token) (current : nat) : Parsed SyntaxNode :=
  match nth_error tokens current with
  | None => Err TypeError
  | Some token =>
      let '(label, current) :=
        if Tokenizer.eqb (Tokenizer.type token) Tokenizer.STRING then
          let values := stringRun (skipn current tokens) in
          (Js.join " " (map Tokenizer.text values), (current + List.length values)%nat)
        else (Tokenizer.text (Tokenizer.value token), S current) in
      match parseScript ExpectedValueSubscript tokens current with
      | OK (current, (subscript, superscript)) =>
          match parseArrows tokens current [] with
          | OK (current, arrows) =>
              let caseFeature := if testCase label then Some label else None in
              OK (current,
                  {| type := VALUE;
                     label := label;
                     subscript := subscript;
                     superscript := superscript;
                     values := [];
                     features := [];
                     caseFeature := caseFeature;
                     arrows := if (0 <? List.length arrows)%nat then Some arrows else None |})
          | Err e => Err e
          | OutOfFuel => OutOfFuel
          end
      | Err e => Err e
      | OutOfFuel => OutOfFuel
      end
  end.

(** *** parseNode *)

Definition setLabelCase (v : SyntaxNode) (l : string) (c : option string) : SyntaxNode :=
  {| type := type v; label := l; subscript := subscript v; superscript := superscript v;
     values := values v; features := features v; caseFeature := c; arrows := arrows v |}.

Definition setCase (v : SyntaxNode) (c : option string) : SyntaxNode :=
  setLabelCase v (label v) c.

Definition setValues (n : SyntaxNode) (vs : list SyntaxNode) : SyntaxNode :=
  {| type := type n; label := label n; subscript := subscript n;
     superscript := superscript n; values := vs; features := features n;
     caseFeature := caseFeature n; arrows := arrows n |}.

Definition pushFeature (n : SyntaxNode) (f : string) : SyntaxNode :=
  {| type := type n; label := label n; subscript := subscript n;
     superscript := superscript n; values := values n; features := features n ++ [f];
     caseFeature := caseFeature n; arrows := arrows n |}.

(** The update of [prev = node.values[node.values.length - 1]] made when a
    bare case leaf [value] follows it. *)
Definition attachCase (prev value : SyntaxNode) : SyntaxNode :=
  if negb (Js.truthy (caseFeature prev)) && eqb (type prev) VALUE then
    match matchCase (label prev) with
    | Some (g1, g2) => setLabelCase prev (Js.trim g1) (Some g2)
    | None => setCase prev (Some (label value))
    end
  else prev.

(** The body of the children loop of [parseNode] after [parseToken]
    returned [value]. *)
Definition fileChild (node value : SyntaxNode) : SyntaxNode :=
  if eqb (type value) VALUE && testFeature (label value) then
    pushFeature node (label value)
  else if eqb (type value) VALUE && testCase (label value) then
    match List.rev (values node) with
    | prev :: before => setValues node (List.rev before ++ [attachCase prev value])
    | [] => node
    end
  else
    let value :=
      match matchCase (label value) with
      | Some (g1, g2) => setLabelCase value (Js.trim g1) (Some g2)
      | None => value
      end in
    setValues node (values node ++ [value]).

Fixpoint parseToken (fuel : nat) (tokens : list Tokenizer.Token) (current : nat)
    {struct fuel} : Parsed SyntaxNode :=
  match fuel with
  | O => OutOfFuel
  | S fuel' =>
      match nth_error tokens current with
      | None => Err TypeError
      | Some token =>
          match Tokenizer.type token with
          | Tokenizer.BRACKET_OPEN => parseNode fuel' tokens current
          | Tokenizer.STRING | Tokenizer.QUOTED_STRING => parseValue tokens current
          | ty => Err (UnexpectedToken ty current)
          end
      end
  end

with parseNode (fuel : nat) (tokens : list Tokenizer.Token) (current : nat)
    {struct fuel} : Parsed SyntaxNode :=
  match fuel with
  | O => OutOfFuel
  | S fuel' =>
      if (List.length tokens <? current + 2)%nat then Err MissingLabel
      else
        let current := S current in
        match nth_error tokens current with
        | None => Err TypeError
        | Some label_token =>
            if negb (isString (Tokenizer.type label_token)) then Err ExpectedLabel
            else
              let label := Tokenizer.text (Tokenizer.value label_token) in
              let current := S current in
              match parseScript ExpectedNodeSubscript tokens current with
              | OK (current, (subscript, superscript)) =>
                  parseChildren fuel' tokens current
                    {| type := NODE; label := label; subscript := subscript;
                       superscript := superscript; values := []; features := [];
                       caseFeature := None; arrows := None |}
              | Err e => Err e
              | OutOfFuel => OutOfFuel
              end
        end
  end

(** The children loop of [parseNode] and the code after it. *)
with parseChildren (fuel : nat) (tokens : list Tokenizer.Token) (current : nat)
    (node : SyntaxNode) {struct fuel} : Parsed SyntaxNode :=
  match fuel with
  | O => OutOfFuel
  | S fuel' =>
      if (current <? List.length tokens)%nat &&
         negb (typeAt tokens current (fun ty => Tokenizer.eqb ty Tokenizer.BRACKET_CLOSE))
      then
        match parseToken fuel' tokens current with
        | OK (current, value) => parseChildren fuel' tokens current (fileChild node value)
        | Err e => Err e
        | OutOfFuel => OutOfFuel
        end
      else if (List.length tokens <=? current)%nat
      then Err (MissingClosingBracket (current - 1))
      else OK (S current, node)
  end.

(** The loop of [parse]: [values] is [root.values]. *)
Fixpoint parseLoop (fuel : nat) (tokens : list Tokenizer.Token) (current : nat)
    (values : list SyntaxNode) : result ParseError (list SyntaxNode) :=
  if (current <? List.length tokens)%nat then
    match fuel with
    | O => OutOfFuel
    | S fuel' =>
        match parseToken (2 * List.length tokens + 1) tokens current with
        | OK (current, node) => parseLoop fuel' tokens current (values ++ [node])
        | Err e => Err e
        | OutOfFuel => OutOfFuel
        end
    end
  else OK values.

Definition mkRoot (values : list SyntaxNode) : SyntaxNode :=
  {| type := ROOT; label := "__ROOT__"; subscript := None; superscript := None;
     values := values; features := []; caseFeature := None; arrows := None |}.

Definition parse (tokens : list Tokenizer.Token) : result ParseError SyntaxNode :=
  match parseLoop (List.length tokens) tokens 0 [] with
  | OK values => OK (mkRoot values)
  | Err e => Err e
  | OutOfFuel => OutOfFuel
  end.

End Parser.

(** The tokenizer followed by the parser. *)
Inductive PhraseError : Set :=
| TokenizeFailed (e : Tokenizer.TokenizeError)
| ParseFailed (e : Parser.ParseError).

Definition parsePhrase (phrase : string) : result PhraseError Parser.SyntaxNode :=
  match Tokenizer.tokenize phrase with
  | OK tokens =>
      match Parser.parse tokens with
      | OK root => OK root
      | Err e => Err (ParseFailed e)
      | OutOfFuel => OutOfFuel
      end
  | Err e => Err (TokenizeFailed e)
  | OutOfFuel => OutOfFuel
  end.

(** ** tree.js: layout and arrow routing *)

Module Tree.

Definition NODE_PADDING : Q := 20.

(** The drawing surface as far as the layout uses it: [canvas.textWidth]
    and [canvas.fontsize] (canvas.js is not part of the sources). *)
Record Canvas : Type := mkCanvas { textWidth : Js.Text -> Q; fontsize : Q }.

(** A depth: an integer, or the [Infinity] that [Math.min()] returns for an
    empty argument list. *)
Inductive Depth : Set :=
| Fin (z : Z)
| Infinity.

Definition depthSucc (d : Depth) : Depth :=
  match d with Fin z => Fin (z + 1) | Infinity => Infinity end.

Definition depthPred (d : Depth) : Depth :=
  match d with Fin z => Fin (z - 1) | Infinity => Infinity end.

(** [Math.max(a, b)] and [Math.min(a, b)] on depths. *)
Definition depthMax (a b : Depth) : Depth :=
  match a, b with
  | Fin x, Fin y => Fin (Z.max x y)
  | _, _ => Infinity
  end.

Definition depthMin (a b : Depth) : Depth :=
  match a, b with
  | Fin x, Fin y => Fin (Z.min x y)
  | Fin x, Infinity => Fin x
  | Infinity, y => y
  end.

(** [d !== 0]. *)
Definition depthNonZero (d : Depth) : bool :=
  match d with Fin z => negb (z =? 0)%Z | Infinity => true end.

(** [d >= 0]. *)
Definition depthNonNeg (d : Depth) : bool :=
  match d with Fin z => (0 <=? z)%Z | Infinity => true end.

(** A coordinate: a rational, an infinity or [NaN].  A coordinate that was
    never assigned ([undefined]) is [NaN]: it makes every comparison false
    and every sum and [Math.max] [NaN], as [undefined] does. *)
Inductive Num : Type :=
| Val (q : Q)
| PosInf
| NegInf
| NaN.

Definition Qlt_bool (a b : Q) : bool := negb (Qle_bool b a).

(** [d * k] for a depth [d]. *)
Definition depthTimes (d : Depth) (k : Q) : Num :=
  match d with
  | Fin z => Val (inject_Z z * k)
  | Infinity => if Qlt_bool 0 k then PosInf else if Qlt_bool k 0 then NegInf else NaN
  end.

(** [a + q] and [k * a] for a finite [q] and [k]. *)
Definition numAdd (a : Num) (q : Q) : Num :=
  match a with Val x => Val (x + q) | _ => a end.

Definition numScale (k : Q) (a : Num) : Num :=
  match a with
  | Val x => Val (k * x)
  | PosInf => if Qlt_bool 0 k then PosInf else if Qlt_bool k 0 then NegInf else NaN
  | NegInf => if Qlt_bool 0 k then NegInf else if Qlt_bool k 0 then PosInf else NaN
  | NaN => NaN
  end.

(** [Math.max(a, b)], [Math.min(a, b)] and [a <= b]. *)
Definition numMax (a b : Num) : Num :=
  match a, b with
  | NaN, _ => NaN
  | _, NaN => NaN
  | PosInf, _ => PosInf
  | _, PosInf => PosInf
  | NegInf, y => y
  | x, NegInf => x
  | Val x, Val y => Val (Qmax x y)
  end.

Definition numMin (a b : Num) : Num :=
  match a, b with
  | NaN, _ => NaN
  | _, NaN => NaN
  | NegInf, _ => NegInf
  | _, NegInf => NegInf
  | PosInf, y => y
  | x, PosInf => x
  | Val x, Val y => Val (Qmin x y)
  end.

Definition numLe (a b : Num) : bool :=
  match a, b with
  | NaN, _ => false
  | _, NaN => false
  | NegInf, _ => true
  | _, PosInf => true
  | PosInf, _ => false
  | _, NegInf => false
  | Val x, Val y => Qle_bool x y
  end.

Inductive Drawable : Type := mkDrawable {
  label : string;
  subscript : option string;
  superscript : option string;
  width : Q;
  depth : Depth;
  is_leaf : bool;
  arrows : list Parser.ArrowDirective;
  features : list string;
  caseFeature : option string;
  children : list Drawable;
  top : Num;
  left : Num
}.

(** *** Building the drawable tree *)

(** [{...node, label: l}]. *)
Definition withLabel (node : Parser.SyntaxNode) (l : string) : Parser.SyntaxNode :=
  Parser.setLabelCase node l (Parser.caseFeature node).

(** [s.slice(1, -1)]. *)
Definition slice1 (s : string) : string := Js.take (String.length s - 2) (Js.drop 1 s).

(** The code unit of the ellipsis, U+2026, and of the closing bracket. *)
Definition ELLIPSIS : N := 8230.
Definition RBRACKET : N := 93.

(** The text measured for a case feature: a text of more than 100 code
    units is cut to its first 100, followed by the ellipsis and a closing
    bracket. *)
Definition caseTextOf (caseFeature : string) : Js.Text :=
  let caseText := ("[" ++ slice1 caseFeature ++ "]")%string in
  if (100 <? String.length caseText)%nat
  then Js.units (Js.take 100 caseText) ++ [ELLIPSIS; RBRACKET]
  else Js.units caseText.

Fixpoint getNodeWidth (canvas : Canvas) (node : Parser.SyntaxNode) : Q :=
  let label_width :=
    if negb (Parser.eqb (Parser.type node) Parser.ROOT)
    then textWidth canvas (Js.units (Parser.label node)) + NODE_PADDING
    else 0 in
  let label_width :=
    match Parser.subscript node, Parser.superscript node with
    | Some sub, sup =>
        if Js.truthy (Some sub) then label_width + textWidth canvas (Js.units sub) * 3 / 4 * 2
        else match sup with
             | Some sup' =>
                 if Js.truthy (Some sup')
                 then label_width + textWidth canvas (Js.units sup') * 3 / 4 * 2
                 else label_width
             | None => label_width
             end
    | None, Some sup =>
        if Js.truthy (Some sup) then label_width + textWidth canvas (Js.units sup) * 3 / 4 * 2
        else label_width
    | None, None => label_width
    end in
  let label_width :=
    if (0 <? List.length (Parser.features node))%nat
    then Qmax label_width
           (textWidth canvas
              (Js.units ("[" ++ Js.join ", " (Parser.features node) ++ "]")%string))
    else label_width in
  let label_width :=
    match Parser.caseFeature node with
    | Some cf =>
        if Parser.eqb (Parser.type node) Parser.VALUE && Js.truthy (Some cf) then
          let caseWidth := textWidth canvas (caseTextOf cf) * 0.7 + NODE_PADDING in
          Qmax label_width caseWidth
        else label_width
    | None => label_width
    end in
  if negb (Parser.eqb (Parser.type node) Parser.VALUE)
  then Qmax label_width
         (fold_left (fun sum child => sum + getNodeWidth canvas child)
            (Parser.values node) 0)
  else label_width.

Definition getChildWidth (canvas : Canvas) (node : Parser.SyntaxNode) : Q :=
  if Parser.eqb (Parser.type node) Parser.VALUE then 0
  else fold_left (fun sum child => sum + getNodeWidth canvas child) (Parser.values node) 0.

(** The character DEL, U+007F.  The regular expression of the guard of
    [drawableFromNode] holds two of them, which do not show in print. *)
Definition DEL : ascii := ascii_of_nat 127.

(** [/^D.*D$/.test(s)] with [D] the character DEL: [s] begins with a DEL,
    ends with another one, and holds no line terminator between them. *)
Definition testDelimited (s : string) : bool :=
  match s with
  | String c r =>
      Ascii.eqb c DEL && Js.endsWithChar DEL r && Js.all Parser.notLineTerminator r
  | EmptyString => false
  end.

(** [s.replace(/\s*\{.*\}$/, '')]: the leftmost match is removed. *)
Fixpoint replaceCase (s : string) : string :=
  match Parser.spacesThenBraced s with
  | Some _ => ""
  | None =>
      match s with
      | String c r => String c (replaceCase r)
      | EmptyString => ""
      end
  end.

(** The guard of the case-feature branch of [drawableFromNode]. *)
Definition caseGuard (isLeaf : bool) (node : Parser.SyntaxNode) : bool :=
  isLeaf && Js.truthy (Parser.caseFeature node) &&
  negb (String.eqb (Parser.label node) "") && negb (testDelimited (Parser.label node)).

Definition drawableLabelOf (isLeaf : bool) (node : Parser.SyntaxNode) : string :=
  if caseGuard isLeaf node then Js.trim (replaceCase (Parser.label node))
  else Parser.label node.

Fixpoint drawableFromNode (canvas : Canvas) (node : Parser.SyntaxNode) (depth : Depth)
    (forceLeaf : bool) : Drawable :=
  let isLeaf :=
    if forceLeaf
    then negb (Parser.eqb (Parser.type node) Parser.ROOT) &&
         negb (Parser.eqb (Parser.type node) Parser.NODE)
    else Parser.eqb (Parser.type node) Parser.VALUE in
  let caseFeature := if caseGuard isLeaf node then Parser.caseFeature node else None in
  let drawableLabel := drawableLabelOf isLeaf node in
  let arrows := match Parser.arrows node with Some a => a | None => [] end in
  {| label := drawableLabel;
     subscript := Parser.subscript node;
     superscript := Parser.superscript node;
     width := getNodeWidth canvas (withLabel node drawableLabel);
     depth := depth;
     is_leaf := isLeaf;
     arrows := arrows;
     features := Parser.features node;
     caseFeature := caseFeature;
     children :=
       if negb (Parser.eqb (Parser.type node) Parser.VALUE)
       then map (fun child => drawableFromNode canvas child (depthSucc depth) false)
              (Parser.values node)
       else [];
     top := NaN;
     left := NaN |}.

(** *** Alignment *)

Definition setDepth (d : Drawable) (x : Depth) : Drawable :=
  {| label := label d; subscript := subscript d; superscript := superscript d;
     width := width d; depth := x; is_leaf := is_leaf d; arrows := arrows d;
     features := features d; caseFeature := caseFeature d; children := children d;
     top := top d; left := left d |}.

Definition setChildren (d : Drawable) (cs : list Drawable) : Drawable :=
  {| label := label d; subscript := subscript d; superscript := superscript d;
     width := width d; depth := depth d; is_leaf := is_leaf d; arrows := arrows d;
     features := features d; caseFeature := caseFeature d; children := cs;
     top := top d; left := left d |}.

Definition setSubscript (d : Drawable) (x : option string) : Drawable :=
  {| label := label d; subscript := x; superscript := superscript d;
     width := width d; depth := depth d; is_leaf := is_leaf d; arrows := arrows d;
     features := features d; caseFeature := caseFeature d; children := children d;
     top := top d; left := left d |}.

Fixpoint getMaxDepth (drawable : Drawable) : Depth :=
  fold_left (fun max child => depthMax max (getMaxDepth child))
    (children drawable) (depth drawable).

Fixpoint moveLeafsToBottom (drawable : Drawable) (bottom : Depth) : Drawable :=
  let drawable' := if is_leaf drawable then setDepth drawable bottom else drawable in
  setChildren drawable'
    (map (fun child => moveLeafsToBottom child bottom) (children drawable)).

(** [Math.min(...l)]. *)
Definition minOf (l : list Depth) : Depth := fold_left depthMin l Infinity.

Fixpoint moveParentsDown (drawable : Drawable) : Drawable :=
  if is_leaf drawable then drawable
  else
    let cs := map moveParentsDown (children drawable) in
    let drawable' := setChildren drawable cs in
    if depthNonZero (depth drawable)
    then setDepth drawable' (minOf (map (fun c => depthPred (depth c)) cs))
    else drawable'.

(** *** Auto-subscript *)

(** A [Map] from strings to numbers, in insertion order. *)
Definition CountMap : Set := list (string * nat).

Fixpoint mapGet (m : CountMap) (key : string) : option nat :=
  match m with
  | (k, v) :: r => if String.eqb k key then Some v else mapGet r key
  | [] => None
  end.

Fixpoint mapSet (m : CountMap) (key : string) (value : nat) : CountMap :=
  match m with
  | (k, v) :: r => if String.eqb k key then (k, value) :: r else (k, v) :: mapSet r key value
  | [] => [(key, value)]
  end.

(** [map.get(key) || 0]. *)
Definition getOr0 (m : CountMap) (key : string) : nat :=
  match mapGet m key with Some v => v | None => O end.

Definition mapInc (m : CountMap) (key : string) : CountMap :=
  mapSet m key (getOr0 m key + 1).

Definition mapMerge (a b : CountMap) : CountMap :=
  fold_left (fun a kv => mapSet a (fst kv) (getOr0 a (fst kv) + snd kv)) b a.

Fixpoint countNodes (drawable : Drawable) : CountMap :=
  if is_leaf drawable then []
  else
    let map0 := if negb (Js.truthy (subscript drawable))
                then mapInc [] (label drawable) else [] in
    fold_left (fun m child => mapMerge m (countNodes child)) (children drawable) map0.

(** [keys.includes(s)]. *)
Definition includes (keys : list string) (s : string) : bool :=
  existsb (String.eqb s) keys.

Fixpoint assignSubscripts (drawable : Drawable) (keys : list string) (tally : CountMap)
    : Drawable * CountMap :=
  let '(drawable', tally) :=
    if negb (is_leaf drawable) && negb (Js.truthy (subscript drawable)) &&
       negb (Js.truthy (superscript drawable)) && includes keys (label drawable)
    then
      let tally := mapInc tally (label drawable) in
      (setSubscript drawable (Some (Js.decimal (getOr0 tally (label drawable)))), tally)
    else (drawable, tally) in
  let '(cs, tally) :=
    (fix each (cs : list Drawable) (tally : CountMap) : list Drawable * CountMap :=
       match cs with
       | [] => ([], tally)
       | child :: rest =>
           let '(child', tally) := assignSubscripts child keys tally in
           let '(rest', tally) := each rest tally in
           (child' :: rest', tally)
       end) (children drawable) tally in
  (setChildren drawable' cs, tally).

Definition calculateAutoSubscript (drawables : Drawable) : Drawable :=
  let map := countNodes drawables in
  let map := filter (fun kv => negb (snd kv =? 1)%nat) map in
  fst (assignSubscripts drawables (List.map fst map) []).

(** *** Positions *)

Definition getDrawableChildWidth (drawable : Drawable) : Q :=
  fold_left (fun sum child => sum + width child) (children drawable) 0.

Definition place (d : Drawable) (t l : Num) (w : Q) : Drawable :=
  {| label := label d; subscript := subscript d; superscript := superscript d;
     width := w; depth := depth d; is_leaf := is_leaf d; arrows := arrows d;
     features := features d; caseFeature := caseFeature d; children := children d;
     top := t; left := l |}.

(** Returns the positioned drawable and [hasArrow].  The source assigns
    [top], [left] and [width] of a child before it descends into it; the
    descent reads none of the three but [width], and that only to choose
    between [scale = 1] and [scale = 1], so here the child is descended into
    first and the three fields are set on the result. *)
Fixpoint calculateDrawablePositions (canvas : Canvas) (drawable : Drawable) (vscaler : Q)
    (parent_offset : Q) : Drawable * bool :=
  let scale : Q :=
    if depthNonNeg (depth drawable) then
      let child_width := getDrawableChildWidth drawable in
      if Qlt_bool child_width (width drawable) then 1 else 1
    else 1 in
  let hasArrow := (0 <? List.length (arrows drawable))%nat in
  let '(cs, _, hasArrow) :=
    (fix each (cs : list Drawable) (offset : Q) (hasArrow : bool)
       : list Drawable * Q * bool :=
       match cs with
       | [] => ([], offset, hasArrow)
       | child :: rest =>
           let child_top :=
             numAdd (depthTimes (depth child) (fontsize canvas * 3 * vscaler))
               (NODE_PADDING / 2) in
           let child_left := offset + parent_offset in
           let '(child', child_has_arrow) :=
             calculateDrawablePositions canvas child vscaler child_left in
           let child := place child' child_top (Val child_left) (width child * scale) in
           let hasArrow := if child_has_arrow then true else hasArrow in
           let '(rest', offset', hasArrow') := each rest (offset + width child) hasArrow in
           (child :: rest', offset', hasArrow')
       end) (children drawable) 0 hasArrow in
  (setChildren drawable cs, hasArrow).

(** *** Arrow routing *)

Module Arrow.
Record t : Type := mk {
  from_x : Num;
  from_y : Num;
  to_x : Num;
  to_y : Num;
  bottom : Num;
  ends_to : bool;
  ends_from : bool;
  label : option string;
  dotted : bool
}.
End Arrow.

(** [x || null] for a string or [null]. *)
Definition orNull (x : option string) : option string :=
  if Js.truthy x then x else None.

(** [new Arrow(...)]. *)
Definition newArrow (from_x from_y to_x to_y bottom : Num) (ends_to ends_from : bool)
    (label : option string) (dotted : bool) : Arrow.t :=
  Arrow.mk from_x from_y to_x to_y bottom ends_to ends_from (orNull label)
    (dotted || false).

Module ArrowSet.
Record t : Type := mk { arrows : list Arrow.t; maxBottom : Num }.

(** [new ArrowSet()]. *)
Definition empty : t := mk [] (Val 0).

Definition add (s : t) (arrow : Arrow.t) : t :=
  mk (arrows s ++ [arrow]) (numMax (maxBottom s) (Arrow.bottom arrow)).

Definition concatenate (s arrowSet : t) : t :=
  mk (arrows s ++ arrows arrowSet) (numMax (maxBottom s) (maxBottom arrowSet)).
End ArrowSet.

(** [++count === arrow_idx] for the incremented [count]. *)
Definition isIndex (arrow_idx : Tokenizer.TokenValue) (count : nat) : bool :=
  match arrow_idx with
  | Tokenizer.VNumber n => (count =? n)%nat
  | _ => false
  end.

Fixpoint findTargetLeaf (drawable : Drawable) (arrow_idx : Tokenizer.TokenValue)
    (count : nat) : nat * option Drawable :=
  let count := if is_leaf drawable then S count else count in
  if is_leaf drawable && isIndex arrow_idx count then (count, Some drawable)
  else
    (fix each (cs : list Drawable) (count : nat) : nat * option Drawable :=
       match cs with
       | [] => (count, None)
       | child :: rest =>
           let '(count, target) := findTargetLeaf child arrow_idx count in
           match target with
           | Some t => (count, Some t)
           | None => each rest count
           end
       end) (children drawable) count.

Definition findTarget (drawable : Drawable) (arrow_idx : Tokenizer.TokenValue)
    : option Drawable :=
  snd (findTargetLeaf drawable arrow_idx 0).

Definition getDrawableCenter (drawable : Drawable) : Num :=
  numAdd (left drawable) (width drawable / 2).

Fixpoint findMaxDepthBetween (drawable : Drawable) (left_ right_ : Num) (max_y : Num)
    : Num :=
  let max_y :=
    fold_left
      (fun max_y child => numMax (findMaxDepthBetween child left_ right_ max_y) max_y)
      (children drawable) max_y in
  if is_leaf drawable && numLe left_ (left drawable) && numLe (left drawable) right_
  then numMax (top drawable) max_y
  else max_y.

(** [String(s).split(/\\n|\n/).length]: one more than the number of
    separators, a separator being a backslash followed by [n], or a line
    feed. *)
Fixpoint countLines (s : string) : nat :=
  match s with
  | EmptyString => 1
  | String "\" (String "n" r) => S (countLines r)
  | String c r => if (Js.code c =? 10)%nat then S (countLines r) else countLines r
  end.

(** The anchor height of an arrow end below the label block of [d]. *)
Definition anchorY (d : Drawable) (fontsize : Q) : Num :=
  let labelHeight := inject_Z (Z.of_nat (countLines (label d))) * fontsize * 1.1 in
  numAdd (numAdd (numAdd (top d) labelHeight) 2)
    (if Js.truthy (caseFeature d) then fontsize * 0.7 + 2 else 0).

(** The body of the loop over [drawable.arrows]: the routed arrow, or
    [None] where the source does [continue]. *)
Definition routeArrow (root drawable : Drawable) (fontsize : Q)
    (arrowObj : Parser.ArrowDirective) : option Arrow.t :=
  match findTarget root (Parser.target arrowObj) with
  | None => None
  | Some target =>
      let bottom :=
        numScale 1.4
          (findMaxDepthBetween root
             (numMin (left drawable) (left target))
             (numMax (left drawable) (left target)) (Val 0)) in
      Some (newArrow (getDrawableCenter drawable) (anchorY drawable fontsize)
              (getDrawableCenter target) (anchorY target fontsize) bottom
              (Parser.to (Parser.ends arrowObj)) (Parser.from (Parser.ends arrowObj))
              (orNull (Parser.arrow_label arrowObj)) (Parser.dotted arrowObj || false))
  end.

Fixpoint makeArrowSetOn (root drawable : Drawable) (fontsize : Q) : ArrowSet.t :=
  let arrowSet :=
    fold_left
      (fun arrowSet child => ArrowSet.concatenate arrowSet (makeArrowSetOn root child fontsize))
      (children drawable) ArrowSet.empty in
  if negb (is_leaf drawable) || (List.length (arrows drawable) =? 0)%nat then arrowSet
  else
    fold_left
      (fun arrowSet arrowObj =>
         match routeArrow root drawable fontsize arrowObj with
         | None => arrowSet
         | Some arrow => ArrowSet.add arrowSet arrow
         end)
      (arrows drawable) arrowSet.

Definition makeArrowSet (root : Drawable) (fontsize : Q) : ArrowSet.t :=
  makeArrowSetOn root root fontsize.

(** *** Arrows drawn from features (drawLabel) *)

(** A character of the class [[^\s]]. *)
Definition notSpace (c : ascii) : bool := negb (Js.isSpace c).

(** Digits up to the end, one at least: [\d+$] matched at the start of
    [s]. *)
Definition digitsToEnd (s : string) : bool :=
  negb (String.eqb s "") && Js.all Tokenizer.isNumber s.

(** The optional group of the feature regular expression with the end
    behind it, matched at the start of [s]: white space, an arrow [->] or
    [.>], and digits up to the end.  The texts of the arrow and of the
    digits. *)
Definition arrowGroup (s : string) : option (string * string) :=
  Parser.tryFrom (Tokenizer.span Js.isSpace s)
    (fun k =>
       match Js.drop k s with
       | String a (String ">" r) =>
           if (Ascii.eqb a "-" || Ascii.eqb a ".") && digitsToEnd r
           then Some (String a ">", r)
           else None
       | _ => None
       end).

(** The match of the feature regular expression of [drawLabel] on [feat]:
    a [+], one character or more that are no white space (as many as
    possible), then the optional group or nothing, and the end.  [None]
    where there is no match; else the first group and, where the optional
    group took part, its arrow and digits. *)
Definition matchFeature (feat : string) : option (string * option (string * string)) :=
  match feat with
  | String "+" r =>
      Parser.tryFrom (Tokenizer.span notSpace r)
        (fun k =>
           if (k =? 0)%nat then None
           else
             match arrowGroup (Js.drop k r) with
             | Some g => Some (String "+" (Js.take k r), Some g)
             | None =>
                 if String.eqb (Js.drop k r) "" then Some (String "+" (Js.take k r), None)
                 else None
             end)
  | _ => None
  end.

(** The leaf an arrow is drawn to from the feature [feat] of [drawable]:
    [findTarget(this.rootDrawable || drawable, parseInt(digits))] where the
    match has an arrow and digits.  No code of the program assigns
    [rootDrawable]; it is an argument here. *)
Definition featureArrowTarget (rootDrawable : option Drawable) (drawable : Drawable)
    (feat : string) : option Drawable :=
  match matchFeature feat with
  | Some (_, Some (_, digits)) =>
      let root := match rootDrawable with Some r => r | None => drawable end in
      findTarget root (Tokenizer.VNumber (Tokenizer.parseIntFrom 0 digits))
  | _ => None
  end.

(** *** The computation of [draw] before it touches the canvas *)

(** The depth adjustment chosen by [alignment]. *)
Definition align (alignment : nat) (drawables : Drawable) : Drawable :=
  let max_depth := getMaxDepth drawables in
  let drawables :=
    if (0 <? alignment)%nat then moveLeafsToBottom drawables max_depth else drawables in
  if (1 <? alignment)%nat then moveParentsDown drawables else drawables.

Record Layout : Type := mkLayout {
  drawables : Drawable;
  max_depth : Depth;
  has_arrow : bool;
  arrowSet : ArrowSet.t
}.

Definition layout (canvas : Canvas) (alignment : nat) (autoSubscript : bool)
    (vscaler treeFontsize : Q) (syntax_tree : Parser.SyntaxNode) : Layout :=
  let drawables := drawableFromNode canvas syntax_tree (Fin (-1)) false in
  let max_depth := getMaxDepth drawables in
  let drawables := align alignment drawables in
  let drawables := if autoSubscript then calculateAutoSubscript drawables else drawables in
  let '(drawables, has_arrow) := calculateDrawablePositions canvas drawables vscaler 0 in
  let arrowSet := makeArrowSet drawables treeFontsize in
  mkLayout drawables max_depth has_arrow arrowSet.

End Tree.

(** ** syntaxtree.js: update *)

(** What [update] shows in the place of the parse error. *)
Inductive UpdateError : Set :=
| TokenizerError (e : Tokenizer.TokenizeError)
| InvalidTokens (e : SyntaxTree.ValidationError)
| ParserError (e : Parser.ParseError).

(** The body of the [try] of [update] for the text [phrase] of the input
    field, the settings of the tree being arguments: the layout [tree.draw]
    computes for the phrase, or the error that is caught and shown. *)
Definition update (canvas : Tree.Canvas) (alignment : nat) (autoSubscript : bool)
    (vscaler treeFontsize : Q) (phrase : string) : result UpdateError Tree.Layout :=
  match Tokenizer.tokenize phrase with
  | OK tokens =>
      match SyntaxTree.validateTokens tokens with
      | Some e => Err (InvalidTokens e)
      | None =>
          match Parser.parse tokens with
          | OK syntax_tree =>
              OK (Tree.layout canvas alignment autoSubscript vscaler treeFontsize syntax_tree)
          | Err e => Err (ParserError e)
          | OutOfFuel => OutOfFuel
          end
      end
  | Err e => Err (TokenizerError e)
  | OutOfFuel => OutOfFuel
  end.

(** * Properties *)

(** ** Notions used in the statements *)

(** A phrase between double quotes. *)
Definition quoted (s : string) : string :=
  String Js.dquote (s ++ String Js.dquote "")%string.

(** The line feed as a string. *)
Definition LF : string := String (ascii_of_nat 10) "".

(** All drawables of a tree, parents before children. *)
Fixpoint nodes (d : Tree.Drawable) : list Tree.Drawable :=
  d :: flat_map nodes (Tree.children d).

(** The leaves in the order of [findTargetLeaf]. *)
Definition leaves (d : Tree.Drawable) : list Tree.Drawable :=
  filter Tree.is_leaf (nodes d).

(** All nodes of a syntax tree. *)
Fixpoint syntaxNodes (n : Parser.SyntaxNode) : list Parser.SyntaxNode :=
  n :: flat_map syntaxNodes (Parser.values n).

(** Number of tokens of type [ty]. *)
Definition countType (ty : Tokenizer.TokenType) (tokens : list Tokenizer.Token) : nat :=
  List.length (filter (fun t => Tokenizer.eqb (Tokenizer.type t) ty) tokens).

(** The order on depths, [Infinity] on top. *)
Definition depthLe (a b : Tree.Depth) : Prop :=
  match a, b with
  | Tree.Fin x, Tree.Fin y => (x <= y)%Z
  | _, Tree.Infinity => True
  | Tree.Infinity, Tree.Fin _ => False
  end.

Definition depthLt (a b : Tree.Depth) : Prop :=
  match a, b with
  | Tree.Fin x, Tree.Fin y => (x < y)%Z
  | Tree.Fin _, Tree.Infinity => True
  | Tree.Infinity, _ => False
  end.

(** Induction on a drawable with the hypothesis for all children. *)
Fixpoint Drawable_forall_ind (P : Tree.Drawable -> Prop)
    (H : forall d, Forall P (Tree.children d) -> P d) (d : Tree.Drawable) : P d :=
  H d ((fix go (cs : list Tree.Drawable) : Forall P cs :=
          match cs with
          | [] => Forall_nil P
          | c :: r => Forall_cons c (Drawable_forall_ind P H c) (go r)
          end) (Tree.children d)).

Fixpoint SyntaxNode_forall_ind (P : Parser.SyntaxNode -> Prop)
    (H : forall n, Forall P (Parser.values n) -> P n) (n : Parser.SyntaxNode) : P n :=
  H n ((fix go (cs : list Parser.SyntaxNode) : Forall P cs :=
          match cs with
          | [] => Forall_nil P
          | c :: r => Forall_cons c (SyntaxNode_forall_ind P H c) (go r)
          end) (Parser.values n)).

Lemma eqb_true_iff (a b : Tokenizer.TokenType) : Tokenizer.eqb a b = true <-> a = b.
Proof. destruct a, b; simpl; split; intro H; try reflexivity; discriminate. Qed.

Lemma eqb_false_iff (a b : Tokenizer.TokenType) : Tokenizer.eqb a b = false <-> a <> b.
Proof.
  split.
  - intros H E. apply eqb_true_iff in E. congruence.
  - intro H. destruct (Tokenizer.eqb a b) eqn:E; [apply eqb_true_iff in E; contradiction | reflexivity].
Qed.

(** Only a closing bracket is the last token. *)
Definition closedAtEnd (tokens : list Tokenizer.Token) : Prop :=
  forall i t, nth_error tokens i = Some t ->
              Tokenizer.type t <> Tokenizer.BRACKET_CLOSE -> (S i < List.length tokens)%nat.

(** ** The structural pre-check (syntaxtree.js) *)

Lemma countOpenBrackets_from (tokens : list Tokenizer.Token) (o : Z) :
  fold_left
    (fun o token =>
       let o := if Tokenizer.eqb (Tokenizer.type token) Tokenizer.BRACKET_OPEN
                then (o + 1)%Z else o in
       if Tokenizer.eqb (Tokenizer.type token) Tokenizer.BRACKET_CLOSE
       then (o - 1)%Z else o)
    tokens o
  = (o + Z.of_nat (countType Tokenizer.BRACKET_OPEN tokens)
       - Z.of_nat (countType Tokenizer.BRACKET_CLOSE tokens))%Z.
Proof.
  revert o. induction tokens as [|t r IH]; intro o.
  - unfold countType. simpl. lia.
  - cbn [fold_left]. rewrite IH. unfold countType. cbn [filter].
    destruct (Tokenizer.type t); cbn [Tokenizer.eqb List.length]; lia.
Qed.

Lemma countOpenBrackets_signed (tokens : list Tokenizer.Token) :
  SyntaxTree.countOpenBrackets tokens
  = (Z.of_nat (countType Tokenizer.BRACKET_OPEN tokens)
     - Z.of_nat (countType Tokenizer.BRACKET_CLOSE tokens))%Z.
Proof. unfold SyntaxTree.countOpenBrackets. rewrite countOpenBrackets_from. lia. Qed.

(** The sequence starts with a bracket-open and ends with a bracket-close. *)
Definition wrapped (tokens : list Tokenizer.Token) : Prop :=
  (exists t, nth_error tokens 0 = Some t /\ Tokenizer.type t = Tokenizer.BRACKET_OPEN) /\
  (exists t, nth_error tokens (List.length tokens - 1) = Some t /\
             Tokenizer.type t = Tokenizer.BRACKET_CLOSE).

Lemma typeIsNot_false (tokens : list Tokenizer.Token) (i : nat) (ty : Tokenizer.TokenType) :
  SyntaxTree.typeIsNot tokens i ty = false <->
  exists t, nth_error tokens i = Some t /\ Tokenizer.type t = ty.
Proof.
  unfold SyntaxTree.typeIsNot. destruct (nth_error tokens i) as [t|].
  - split.
    + intro H. exists t. split; [reflexivity|].
      apply eqb_true_iff. destruct (Tokenizer.eqb (Tokenizer.type t) ty); [reflexivity|discriminate].
    + intros [t' [E H]]. inversion E; subst t'. apply eqb_true_iff in H. rewrite H. reflexivity.
  - split; [discriminate | intros [t [E _]]; discriminate].
Qed.

Lemma wrapped_iff (tokens : list Tokenizer.Token) :
  wrapped tokens <->
  SyntaxTree.typeIsNot tokens 0 Tokenizer.BRACKET_OPEN ||
  SyntaxTree.typeIsNot tokens (List.length tokens - 1) Tokenizer.BRACKET_CLOSE = false.
Proof.
  unfold wrapped. rewrite orb_false_iff, !typeIsNot_false. reflexivity.
Qed.

(** C9, amended.  The pre-check accepts a token sequence exactly when it has at least
    three tokens, starts with a bracket-open, ends with a bracket-close and
    its count of opens minus closes is 0.  The checks are made in this
    order: a sequence of fewer than three tokens is rejected as too short;
    a longer one that is not wrapped in brackets is rejected for its missing
    wrapping brackets; a wrapped one with a positive count [n] is rejected
    with the message for [n] open brackets, and one with a negative count
    with the message for [|n|] closed brackets too many.  The count is the
    number of bracket-open tokens minus the number of bracket-close
    tokens. *)
Theorem validateTokens_spec (tokens : list Tokenizer.Token) :
  let n := SyntaxTree.countOpenBrackets tokens in
  n = (Z.of_nat (countType Tokenizer.BRACKET_OPEN tokens)
       - Z.of_nat (countType Tokenizer.BRACKET_CLOSE tokens))%Z /\
  (SyntaxTree.validateTokens tokens = None <->
   (3 <= List.length tokens)%nat /\ wrapped tokens /\ n = 0%Z) /\
  (SyntaxTree.validateTokens tokens = Some SyntaxTree.PhraseTooShort <->
   (List.length tokens < 3)%nat) /\
  (SyntaxTree.validateTokens tokens = Some SyntaxTree.MissingWrappingBrackets <->
   (3 <= List.length tokens)%nat /\ ~ wrapped tokens) /\
  (forall k, SyntaxTree.validateTokens tokens = Some (SyntaxTree.BracketsOpen k) <->
   (3 <= List.length tokens)%nat /\ wrapped tokens /\ (0 < n)%Z /\ k = n) /\
  (forall k, SyntaxTree.validateTokens tokens = Some (SyntaxTree.TooManyClosed k) <->
   (3 <= List.length tokens)%nat /\ wrapped tokens /\ (n < 0)%Z /\ k = Z.abs n).
Proof.
  intro n. split; [apply countOpenBrackets_signed|].
  unfold SyntaxTree.validateTokens. fold n.
  pose proof (wrapped_iff tokens) as Hw.
  destruct (Nat.ltb_spec (List.length tokens) 3) as [Hl|Hl];
    [|destruct (SyntaxTree.typeIsNot tokens 0 Tokenizer.BRACKET_OPEN ||
                SyntaxTree.typeIsNot tokens (List.length tokens - 1)
                  Tokenizer.BRACKET_CLOSE) eqn:W;
      [|destruct (Z.ltb_spec 0 n) as [Hp|Hp];
        [|destruct (Z.ltb_spec n 0) as [Hn|Hn]]]];
    repeat match goal with
      | |- _ /\ _ => split
      | |- forall _, _ => intro
      | |- _ <-> _ => split; intro
      | H : _ /\ _ |- _ => destruct H
      | H : Some _ = Some _ |- _ => inversion H; clear H
      | H : wrapped tokens |- _ => apply Hw in H
      | |- wrapped tokens => apply Hw
      | |- ~ wrapped tokens => rewrite Hw
      | H : ~ wrapped tokens |- _ => rewrite Hw in H
      end;
    try discriminate; try reflexivity; try congruence; try lia;
    try (exfalso; lia); try (subst; reflexivity).
Qed.

(** The tokens of the unclosed phrase [[A [B]. *)
Definition unclosedTokens : list Tokenizer.Token :=
  [Tokenizer.mkToken Tokenizer.BRACKET_OPEN Tokenizer.VNull;
   Tokenizer.mkToken Tokenizer.STRING (Tokenizer.VString "A");
   Tokenizer.mkToken Tokenizer.BRACKET_OPEN Tokenizer.VNull;
   Tokenizer.mkToken Tokenizer.STRING (Tokenizer.VString "B")].

(** The claim C9 fails where it gives every positive count the message for
    open brackets: the tokens of [[A [B] have the count 2, and the pre-check
    rejects them for their missing wrapping brackets, the check it makes
    before it counts. *)
Lemma unclosed_phrase_is_not_wrapped :
  Tokenizer.tokenize "[A [B" = OK unclosedTokens /\
  SyntaxTree.countOpenBrackets unclosedTokens = 2%Z /\
  SyntaxTree.validateTokens unclosedTokens = Some SyntaxTree.MissingWrappingBrackets /\
  SyntaxTree.validateTokens unclosedTokens <> Some (SyntaxTree.BracketsOpen 2).
Proof.
  split; [vm_compute; reflexivity|]. split; [reflexivity|].
  split; [reflexivity | discriminate].
Qed.

(** ** The case-feature guard of [drawableFromNode] (tree.js) *)

Lemma all_false_iff (p : ascii -> bool) (s : string) :
  Js.all p s = false <-> exists c, In c (list_ascii_of_string s) /\ p c = false.
Proof.
  induction s as [|c r IH]; simpl.
  - split; [discriminate | intros [c [[] _]]].
  - rewrite andb_false_iff, IH. split.
    + intros [H | [c' [Hin H]]]; [exists c | exists c']; auto.
    + intros [c' [[E | Hin] H]]; [subst; left; exact H | right; exists c'; auto].
Qed.










(** ** Alignment (tree.js) *)

Section DepthOrder.

Lemma depthLe_refl (a : Tree.Depth) : depthLe a a.
Proof. destruct a; simpl; [lia | exact I]. Qed.

Lemma depthLe_trans (a b c : Tree.Depth) : depthLe a b -> depthLe b c -> depthLe a c.
Proof. destruct a, b, c; simpl; try lia; tauto. Qed.

Lemma depthMax_le_l (a b : Tree.Depth) : depthLe a (Tree.depthMax a b).
Proof. destruct a, b; simpl; try lia; exact I. Qed.

Lemma depthMax_le_r (a b : Tree.Depth) : depthLe b (Tree.depthMax a b).
Proof. destruct a, b; simpl; try lia; exact I. Qed.

Lemma depthMax_cases (a b : Tree.Depth) : Tree.depthMax a b = a \/ Tree.depthMax a b = b.
Proof.
  destruct a as [x|], b as [y|]; simpl; auto.
  destruct (Z.max_spec x y) as [[_ E]|[_ E]]; rewrite E; auto.
Qed.

Lemma depthMin_le_l (a b : Tree.Depth) : depthLe (Tree.depthMin a b) a.
Proof. destruct a, b; simpl; try lia; exact I. Qed.

Lemma depthMin_le_r (a b : Tree.Depth) : depthLe (Tree.depthMin a b) b.
Proof. destruct a, b; simpl; try lia; exact I. Qed.

Lemma depthMin_glb (a b c : Tree.Depth) :
  depthLe c a -> depthLe c b -> depthLe c (Tree.depthMin a b).
Proof. destruct a, b, c; simpl; try lia; tauto. Qed.

Lemma minOf_from_le (l : list Tree.Depth) (a : Tree.Depth) :
  depthLe (fold_left Tree.depthMin l a) a /\
  forall x, In x l -> depthLe (fold_left Tree.depthMin l a) x.
Proof.
  revert a. induction l as [|y r IH]; intro a; simpl.
  - split; [apply depthLe_refl | intros x []].
  - destruct (IH (Tree.depthMin a y)) as [H1 H2]. split.
    + eapply depthLe_trans; [exact H1 | apply depthMin_le_l].
    + intros x [E|Hin]; [subst x | auto].
      eapply depthLe_trans; [exact H1 | apply depthMin_le_r].
Qed.

Lemma minOf_le (l : list Tree.Depth) (x : Tree.Depth) :
  In x l -> depthLe (Tree.minOf l) x.
Proof. apply minOf_from_le. Qed.

Lemma minOf_from_glb (l : list Tree.Depth) (a c : Tree.Depth) :
  depthLe c a -> (forall x, In x l -> depthLe c x) ->
  depthLe c (fold_left Tree.depthMin l a).
Proof.
  revert a. induction l as [|y r IH]; intros a Ha Hl; simpl; [exact Ha|].
  apply IH.
  - apply depthMin_glb; [exact Ha | apply Hl; left; reflexivity].
  - intros x Hin. apply Hl. right. exact Hin.
Qed.

Lemma minOf_glb (l : list Tree.Depth) (c : Tree.Depth) :
  (forall x, In x l -> depthLe c x) -> depthLe c (Tree.minOf l).
Proof.
  intro H. apply minOf_from_glb; [destruct c; exact I | exact H].
Qed.

Lemma depthPred_lt (c : Tree.Depth) (z : Z) :
  depthLe (Tree.Fin z) (Tree.depthPred c) -> depthLt (Tree.Fin z) c.
Proof. destruct c; simpl; [lia | tauto]. Qed.

End DepthOrder.

Lemma fold_depthMax_spec (f : Tree.Drawable -> Tree.Depth) (l : list Tree.Drawable)
    (a : Tree.Depth) :
  let r := fold_left (fun max child => Tree.depthMax max (f child)) l a in
  depthLe a r /\ (forall c, In c l -> depthLe (f c) r) /\
  (r = a \/ exists c, In c l /\ r = f c).
Proof.
  revert a. induction l as [|y l IH]; intro a; simpl.
  - split; [apply depthLe_refl | split; [intros c [] | left; reflexivity]].
  - destruct (IH (Tree.depthMax a (f y))) as [H1 [H2 H3]]. split; [|split].
    + eapply depthLe_trans; [apply depthMax_le_l | exact H1].
    + intros c [E|Hin]; [subst c | auto].
      eapply depthLe_trans; [apply depthMax_le_r | exact H1].
    + destruct H3 as [E | [c [Hin E]]].
      * destruct (depthMax_cases a (f y)) as [E'|E'].
        -- left. rewrite E. exact E'.
        -- right. exists y. split; [left; reflexivity | rewrite E; exact E'].
      * right. exists c. split; [right; exact Hin | exact E].
Qed.

Lemma nodes_unfold (d : Tree.Drawable) :
  nodes d = d :: flat_map nodes (Tree.children d).
Proof. destruct d; reflexivity. Qed.

Lemma getMaxDepth_unfold (d : Tree.Drawable) :
  Tree.getMaxDepth d =
  fold_left (fun max child => Tree.depthMax max (Tree.getMaxDepth child))
    (Tree.children d) (Tree.depth d).
Proof. destruct d; reflexivity. Qed.

(** [getMaxDepth] is the greatest depth of the tree. *)
Lemma getMaxDepth_upper (d x : Tree.Drawable) :
  In x (nodes d) -> depthLe (Tree.depth x) (Tree.getMaxDepth d).
Proof.
  revert x. induction d as [d IH] using Drawable_forall_ind. intros x Hx.
  rewrite nodes_unfold in Hx. rewrite getMaxDepth_unfold.
  destruct (fold_depthMax_spec Tree.getMaxDepth (Tree.children d) (Tree.depth d))
    as [H1 [H2 _]].
  destruct Hx as [E|Hx]; [subst x; exact H1|].
  apply in_flat_map in Hx. destruct Hx as [c [Hc Hx]].
  rewrite Forall_forall in IH.
  eapply depthLe_trans; [apply (IH c Hc x Hx) | apply H2; exact Hc].
Qed.

Lemma getMaxDepth_attained (d : Tree.Drawable) :
  exists x, In x (nodes d) /\ Tree.depth x = Tree.getMaxDepth d.
Proof.
  induction d as [d IH] using Drawable_forall_ind.
  rewrite getMaxDepth_unfold.
  destruct (fold_depthMax_spec Tree.getMaxDepth (Tree.children d) (Tree.depth d))
    as [_ [_ [E | [c [Hc E]]]]].
  - exists d. split; [rewrite nodes_unfold; left; reflexivity | symmetry; exact E].
  - rewrite Forall_forall in IH. destruct (IH c Hc) as [x [Hx Ex]].
    exists x. split.
    + rewrite nodes_unfold. right. apply in_flat_map. exists c. auto.
    + rewrite Ex. symmetry. exact E.
Qed.

Lemma moveLeafsToBottom_unfold (d : Tree.Drawable) (b : Tree.Depth) :
  Tree.moveLeafsToBottom d b =
  Tree.setChildren (if Tree.is_leaf d then Tree.setDepth d b else d)
    (map (fun child => Tree.moveLeafsToBottom child b) (Tree.children d)).
Proof. destruct d; reflexivity. Qed.

Lemma moveParentsDown_unfold (d : Tree.Drawable) :
  Tree.moveParentsDown d =
  if Tree.is_leaf d then d
  else
    let cs := map Tree.moveParentsDown (Tree.children d) in
    let d' := Tree.setChildren d cs in
    if Tree.depthNonZero (Tree.depth d)
    then Tree.setDepth d' (Tree.minOf (map (fun c => Tree.depthPred (Tree.depth c)) cs))
    else d'.
Proof. destruct d; reflexivity. Qed.

Lemma moveLeafsToBottom_leaf (d : Tree.Drawable) (b : Tree.Depth) (x : Tree.Drawable) :
  In x (nodes (Tree.moveLeafsToBottom d b)) -> Tree.is_leaf x = true -> Tree.depth x = b.
Proof.
  revert x. induction d as [d IH] using Drawable_forall_ind. intros x Hx Hl.
  rewrite moveLeafsToBottom_unfold, nodes_unfold in Hx.
  destruct Hx as [E|Hx].
  - subst x. destruct d as [l sub sup w dp lf ar fs cf cs t lt].
    destruct lf; simpl in *; [reflexivity | discriminate].
  - assert (Ec : Tree.children (Tree.setChildren (if Tree.is_leaf d then Tree.setDepth d b else d)
                   (map (fun child => Tree.moveLeafsToBottom child b) (Tree.children d)))
                 = map (fun child => Tree.moveLeafsToBottom child b) (Tree.children d))
      by reflexivity.
    rewrite Ec in Hx. apply in_flat_map in Hx. destruct Hx as [c' [Hc' Hx]].
    apply in_map_iff in Hc'. destruct Hc' as [c [E Hc]]. subst c'.
    rewrite Forall_forall in IH. exact (IH c Hc x Hx Hl).
Qed.

(** [moveParentsDown] leaves every leaf as it is. *)
Lemma moveParentsDown_leaf (d x : Tree.Drawable) :
  In x (nodes (Tree.moveParentsDown d)) -> Tree.is_leaf x = true -> In x (nodes d).
Proof.
  revert x. induction d as [d IH] using Drawable_forall_ind. intros x Hx Hl.
  rewrite moveParentsDown_unfold in Hx.
  destruct (Tree.is_leaf d) eqn:Ed; [exact Hx|].
  cbv zeta in Hx.
  assert (Hx' : x = Tree.moveParentsDown d \/
                In x (flat_map nodes (map Tree.moveParentsDown (Tree.children d)))).
  { destruct (Tree.depthNonZero (Tree.depth d)); rewrite nodes_unfold in Hx;
      destruct Hx as [E|Hx]; auto; left; subst x;
      rewrite moveParentsDown_unfold, Ed; cbv zeta.
    - destruct (Tree.depthNonZero (Tree.depth d)) eqn:E0; simpl in Hl; congruence.
    - simpl in Hl. congruence. }
  destruct Hx' as [E|Hx'].
  - subst x. rewrite moveParentsDown_unfold, Ed in Hl. cbv zeta in Hl.
    destruct (Tree.depthNonZero (Tree.depth d)); simpl in Hl; congruence.
  - apply in_flat_map in Hx'. destruct Hx' as [c' [Hc' Hx']].
    apply in_map_iff in Hc'. destruct Hc' as [c [E Hc]]. subst c'.
    rewrite Forall_forall in IH. rewrite nodes_unfold. right.
    apply in_flat_map. exists c. split; [exact Hc | exact (IH c Hc x Hx' Hl)].
Qed.

(** The shape of a tree built by [drawableFromNode]: finite depths, each
    child one level below its parent, no children under a leaf. *)
Inductive Ranked : Tree.Drawable -> Prop :=
| Ranked_intro (d : Tree.Drawable) (z : Z) :
    Tree.depth d = Tree.Fin z ->
    (Tree.is_leaf d = true -> Tree.children d = []) ->
    Forall (fun c => Tree.depth c = Tree.Fin (z + 1)) (Tree.children d) ->
    Forall Ranked (Tree.children d) ->
    Ranked d.

Lemma drawableFromNode_depth canvas node depth forceLeaf :
  Tree.depth (Tree.drawableFromNode canvas node depth forceLeaf) = depth.
Proof. destruct node; reflexivity. Qed.

Lemma drawableFromNode_is_leaf canvas node depth :
  Tree.is_leaf (Tree.drawableFromNode canvas node depth false)
  = Parser.eqb (Parser.type node) Parser.VALUE.
Proof. destruct node; reflexivity. Qed.

Lemma drawableFromNode_children canvas node depth forceLeaf :
  Tree.children (Tree.drawableFromNode canvas node depth forceLeaf)
  = if negb (Parser.eqb (Parser.type node) Parser.VALUE)
    then map (fun child => Tree.drawableFromNode canvas child (Tree.depthSucc depth) false)
           (Parser.values node)
    else [].
Proof. destruct node; reflexivity. Qed.

Lemma drawableFromNode_Ranked canvas node z :
  Ranked (Tree.drawableFromNode canvas node (Tree.Fin z) false).
Proof.
  revert z. induction node as [node IH] using SyntaxNode_forall_ind. intro z.
  apply (Ranked_intro _ z).
  - apply drawableFromNode_depth.
  - rewrite drawableFromNode_is_leaf, drawableFromNode_children. intro H. rewrite H. reflexivity.
  - rewrite drawableFromNode_children.
    destruct (negb (Parser.eqb (Parser.type node) Parser.VALUE)); [|constructor].
    apply Forall_map. apply Forall_forall. intros c _. apply drawableFromNode_depth.
  - rewrite drawableFromNode_children.
    destruct (negb (Parser.eqb (Parser.type node) Parser.VALUE)); [|constructor].
    apply Forall_map. rewrite Forall_forall in *. intros c Hc. apply (IH c Hc).
Qed.

Lemma moveParentsDown_length (d : Tree.Drawable) :
  List.length (nodes (Tree.moveParentsDown d)) = List.length (nodes d).
Proof.
  induction d as [d IH] using Drawable_forall_ind.
  rewrite moveParentsDown_unfold. destruct (Tree.is_leaf d); [reflexivity|]. cbv zeta.
  assert (E : List.length (flat_map nodes (map Tree.moveParentsDown (Tree.children d)))
              = List.length (flat_map nodes (Tree.children d))).
  { induction (Tree.children d) as [|c r IHr]; [reflexivity|].
    simpl. rewrite !length_app. inversion IH; subst. rewrite IHr by assumption. congruence. }
  rewrite (nodes_unfold d).
  destruct (Tree.depthNonZero (Tree.depth d)); rewrite nodes_unfold; simpl; rewrite E; reflexivity.
Qed.

Lemma combine_app_same {A B : Type} (l1 l2 : list A) (k1 k2 : list B) :
  List.length l1 = List.length k1 ->
  combine (l1 ++ l2) (k1 ++ k2) = combine l1 k1 ++ combine l2 k2.
Proof.
  revert k1. induction l1 as [|a l1 IH]; intros [|b k1] H; simpl in *; try discriminate.
  - reflexivity.
  - rewrite IH by lia. reflexivity.
Qed.

Lemma In_combine_flat_map (f : Tree.Drawable -> Tree.Drawable) (cs : list Tree.Drawable)
    (x x' : Tree.Drawable) :
  (forall c, List.length (nodes c) = List.length (nodes (f c))) ->
  In (x, x') (combine (flat_map nodes cs) (flat_map nodes (map f cs))) ->
  exists c, In c cs /\ In (x, x') (combine (nodes c) (nodes (f c))).
Proof.
  intro Hlen. induction cs as [|c r IH]; simpl; [intros []|].
  rewrite combine_app_same by apply Hlen. intro H. apply in_app_or in H.
  destruct H as [H|H].
  - exists c. auto.
  - destruct (IH H) as [c' [Hc' H']]. exists c'. auto.
Qed.

Lemma depthNonZero_false (a : Tree.Depth) :
  Tree.depthNonZero a = false <-> a = Tree.Fin 0.
Proof.
  destruct a as [z|]; simpl.
  - rewrite negb_false_iff, Z.eqb_eq. split; [intro; subst; reflexivity | intro E; inversion E; reflexivity].
  - split; discriminate.
Qed.

(** What [moveParentsDown] does to each drawable [x] of a tree without
    children under leaves, [x'] being the drawable in its place afterwards. *)
Lemma moveParentsDown_paired (d x x' : Tree.Drawable) :
  (forall y, In y (nodes d) -> Tree.is_leaf y = true -> Tree.children y = []) ->
  In (x, x') (combine (nodes d) (nodes (Tree.moveParentsDown d))) ->
  (Tree.is_leaf x = true -> x' = x) /\
  (Tree.is_leaf x = false -> Tree.depth x <> Tree.Fin 0 ->
   Tree.depth x' =
   Tree.minOf (map (fun c => Tree.depthPred (Tree.depth c)) (Tree.children x'))) /\
  (Tree.is_leaf x = false -> Tree.depth x = Tree.Fin 0 -> Tree.depth x' = Tree.Fin 0).
Proof.
  revert x x'. induction d as [d IH] using Drawable_forall_ind. intros x x' Hlc Hin.
  rewrite moveParentsDown_unfold in Hin.
  destruct (Tree.is_leaf d) eqn:Ed.
  - rewrite nodes_unfold in Hin. rewrite (Hlc d) in Hin;
      [|rewrite nodes_unfold; left; reflexivity | exact Ed].
    simpl in Hin. destruct Hin as [E|[]]. inversion E; subst x x'.
    split; [reflexivity | split; intro H; congruence].
  - cbv zeta in Hin. rewrite (nodes_unfold d) in Hin.
    assert (Hin' : (x = d /\ x' = Tree.moveParentsDown d) \/
                   In (x, x') (combine (flat_map nodes (Tree.children d))
                                 (flat_map nodes (map Tree.moveParentsDown (Tree.children d))))).
    { rewrite (moveParentsDown_unfold d), Ed. cbv zeta.
      destruct (Tree.depthNonZero (Tree.depth d)); rewrite nodes_unfold in Hin;
        simpl in Hin; destruct Hin as [E|Hin]; auto; inversion E; auto. }
    clear Hin. destruct Hin' as [[Ex Ex']|Hin].
    + subst x x'. rewrite moveParentsDown_unfold, Ed. cbv zeta.
      split; [congruence|]. split; intros _ H0.
      * assert (E0 : Tree.depthNonZero (Tree.depth d) = true).
        { destruct (Tree.depthNonZero (Tree.depth d)) eqn:E0; [reflexivity|].
          apply depthNonZero_false in E0. contradiction. }
        rewrite E0. reflexivity.
      * assert (E0 : Tree.depthNonZero (Tree.depth d) = false)
          by (apply depthNonZero_false; exact H0).
        rewrite E0. exact H0.
    + apply In_combine_flat_map in Hin; [|intro c; symmetry; apply moveParentsDown_length].
      destruct Hin as [c [Hc Hin]]. rewrite Forall_forall in IH.
      apply (IH c Hc x x'); [|exact Hin].
      intros y Hy. apply Hlc. rewrite nodes_unfold. right. apply in_flat_map. exists c. auto.
Qed.

Lemma Ranked_leaves_childless (d y : Tree.Drawable) :
  Ranked d -> In y (nodes d) -> Tree.is_leaf y = true -> Tree.children y = [].
Proof.
  revert y. induction d as [d IH] using Drawable_forall_ind. intros y Hr Hy Hl.
  inversion Hr as [d0 z Hz Hc Hd Hcs]; subst d0.
  rewrite nodes_unfold in Hy. destruct Hy as [E|Hy]; [subst y; auto|].
  apply in_flat_map in Hy. destruct Hy as [c [Hc' Hy]].
  rewrite Forall_forall in IH, Hcs. exact (IH c Hc' y (Hcs c Hc') Hy Hl).
Qed.

Lemma moveLeafsToBottom_childless (d : Tree.Drawable) (b : Tree.Depth) :
  (forall y, In y (nodes d) -> Tree.is_leaf y = true -> Tree.children y = []) ->
  forall y, In y (nodes (Tree.moveLeafsToBottom d b)) -> Tree.is_leaf y = true ->
            Tree.children y = [].
Proof.
  induction d as [d IH] using Drawable_forall_ind. intros Hd y Hy Hl.
  rewrite moveLeafsToBottom_unfold, nodes_unfold in Hy. destruct Hy as [E|Hy].
  - subst y.
    assert (El : Tree.is_leaf d = true)
      by (destruct d as [? ? ? ? ? lf ? ? ? ? ? ?]; destruct lf; simpl in *; congruence).
    assert (Ec : Tree.children d = [])
      by (apply Hd; [rewrite nodes_unfold; left; reflexivity | exact El]).
    destruct d; simpl in *. rewrite Ec. reflexivity.
  - assert (Ec : forall d0 cs, Tree.children (Tree.setChildren d0 cs) = cs) by reflexivity.
    rewrite Ec in Hy. apply in_flat_map in Hy. destruct Hy as [c' [Hc' Hy]].
    apply in_map_iff in Hc'. destruct Hc' as [c [E Hc]]. subst c'.
    rewrite Forall_forall in IH. apply (IH c Hc); [|exact Hy|exact Hl].
    intros y' Hy'. apply Hd. rewrite nodes_unfold. right. apply in_flat_map. exists c. auto.
Qed.

(** After both adjustments a drawable is not above its place in the built
    tree, and a non-leaf drawable with a finite depth is strictly above
    each of its children. *)
Lemma bottomAligned_strict (d : Tree.Drawable) (M : Tree.Depth) :
  Ranked d ->
  (forall x, In x (nodes d) -> depthLe (Tree.depth x) M) ->
  let d' := Tree.moveParentsDown (Tree.moveLeafsToBottom d M) in
  depthLe (Tree.depth d) (Tree.depth d') /\
  forall x', In x' (nodes d') -> Tree.is_leaf x' = false ->
    forall z, Tree.depth x' = Tree.Fin z ->
    forall c, In c (Tree.children x') -> depthLt (Tree.Fin z) (Tree.depth c).
Proof.
  induction d as [d IH] using Drawable_forall_ind. intros Hr HM.
  inversion Hr as [d0 z Hz Hlc Hd Hcs]; subst d0. cbv zeta.
  rewrite moveLeafsToBottom_unfold.
  destruct (Tree.is_leaf d) eqn:Ed.
  - rewrite (Hlc eq_refl). simpl map.
    assert (El : Tree.is_leaf (Tree.setChildren (Tree.setDepth d M) []) = true)
      by (destruct d; simpl in *; exact Ed).
    rewrite moveParentsDown_unfold, El. split.
    + simpl. apply HM. rewrite nodes_unfold. left. reflexivity.
    + intros x' Hx' Hx'l. rewrite nodes_unfold in Hx'. simpl in Hx'.
      destruct Hx' as [E|[]]. subst x'. congruence.
  - set (cs' := map Tree.moveParentsDown
                  (map (fun child => Tree.moveLeafsToBottom child M) (Tree.children d))).
    assert (Hchild : forall c', In c' cs' ->
              depthLe (Tree.Fin (z + 1)) (Tree.depth c') /\
              forall x', In x' (nodes c') -> Tree.is_leaf x' = false ->
                forall z0, Tree.depth x' = Tree.Fin z0 ->
                forall c, In c (Tree.children x') -> depthLt (Tree.Fin z0) (Tree.depth c)).
    { intros c' Hc'. unfold cs' in Hc'. rewrite map_map in Hc'.
      apply in_map_iff in Hc'. destruct Hc' as [c [E Hc]]. subst c'.
      rewrite Forall_forall in IH, Hd, Hcs.
      destruct (IH c Hc (Hcs c Hc)) as [H1 H2].
      - intros x Hx. apply HM. rewrite nodes_unfold. right. apply in_flat_map. exists c. auto.
      - rewrite (Hd c Hc) in H1. split; [exact H1 | exact H2]. }
    rewrite moveParentsDown_unfold.
    assert (El : Tree.is_leaf (Tree.setChildren d
                   (map (fun child => Tree.moveLeafsToBottom child M) (Tree.children d))) = false)
      by (destruct d; simpl in *; exact Ed).
    rewrite El. cbv zeta.
    assert (Ec : forall d0 cs, Tree.children (Tree.setChildren d0 cs) = cs) by reflexivity.
    assert (Edp : forall d0 cs, Tree.depth (Tree.setChildren d0 cs) = Tree.depth d0) by reflexivity.
    rewrite !Ec, !Edp. fold cs'.
    assert (Hmin : depthLe (Tree.Fin z)
                     (Tree.minOf (map (fun c => Tree.depthPred (Tree.depth c)) cs'))).
    { apply minOf_glb. intros p Hp. apply in_map_iff in Hp. destruct Hp as [c' [E Hc']].
      subst p. destruct (Hchild c' Hc') as [H1 _].
      destruct (Tree.depth c'); simpl in *; [lia | exact I]. }
    destruct (Tree.depthNonZero (Tree.depth d)) eqn:E0.
    + split; [rewrite Hz; exact Hmin|].
      intros x' Hx' Hx'l z0 Hz0 c Hc. rewrite nodes_unfold in Hx'.
      destruct Hx' as [E|Hx'].
      * subst x'. simpl in Hz0, Hc. apply depthPred_lt. rewrite <- Hz0.
        apply minOf_le. apply in_map_iff. exists c. auto.
      * simpl in Hx'. apply in_flat_map in Hx'. destruct Hx' as [c' [Hc' Hx']].
        destruct (Hchild c' Hc') as [_ H2]. exact (H2 x' Hx' Hx'l z0 Hz0 c Hc).
    + split; [simpl; apply depthLe_refl|].
      intros x' Hx' Hx'l z0 Hz0 c Hc. rewrite nodes_unfold in Hx'.
      destruct Hx' as [E|Hx'].
      * subst x'. simpl in Hz0, Hc. apply depthNonZero_false in E0.
        rewrite E0 in Hz, Hz0. inversion Hz; inversion Hz0; subst.
        destruct (Hchild c Hc) as [H1 _]. destruct (Tree.depth c); simpl in *; [lia | exact I].
      * simpl in Hx'. apply in_flat_map in Hx'. destruct Hx' as [c' [Hc' Hx']].
        destruct (Hchild c' Hc') as [_ H2]. exact (H2 x' Hx' Hx'l z0 Hz0 c Hc).
Qed.

(** The claim C3 fails under BottomAligned for a drawable at depth 0: the
    phrase [[A a][B [C c]]] passes the pre-check and parses to two top-level
    nodes; after the adjustment the leaf [a] is at depth 2, and the internal
    node [A] is still at depth 0, which is not [min(child.depth) - 1 = 1]. *)
Lemma bottomAligned_keeps_depth_zero :
  exists tokens root,
    Tokenizer.tokenize "[A a][B [C c]]" = OK tokens /\
    SyntaxTree.validateTokens tokens = None /\
    Parser.parse tokens = OK root /\
    forall canvas,
      let d := Tree.align 2 (Tree.drawableFromNode canvas root (Tree.Fin (-1)) false) in
      exists x,
        In x (nodes d) /\ Tree.label x = "A" /\ Tree.is_leaf x = false /\
        Tree.depth x = Tree.Fin 0 /\
        map Tree.depth (Tree.children x) = [Tree.Fin 2] /\
        Tree.depth x <> Tree.depthPred (Tree.minOf (map Tree.depth (Tree.children x))).
Proof.
  eexists. eexists.
  split; [vm_compute; reflexivity|].
  split; [vm_compute; reflexivity|].
  split; [vm_compute; reflexivity|].
  intro canvas. cbv zeta. eexists. split.
  - cbn. right. left. reflexivity.
  - cbn. repeat split. discriminate.
Qed.

(** C3, amended.  For the tree [d0] built from a syntax tree, with the
    maximum depth [getMaxDepth d0] taken before the adjustment as [draw]
    does:
    - [getMaxDepth d0] is the greatest depth of [d0];
    - under LeavesAligned (1) and BottomAligned (2) every leaf is at depth
      [getMaxDepth d0];
    - under BottomAligned, for a drawable [x] after [moveLeafsToBottom] and
      the drawable [x'] in its place after [moveParentsDown]: a leaf is
      unchanged; a non-leaf whose depth is not 0 gets the minimum over its
      children of [child.depth - 1] (the [Infinity] of [Math.min()] when it
      has no child); a non-leaf at depth 0 stays at depth 0;
    - under BottomAligned a non-leaf drawable with a finite depth is
      strictly above each of its children. *)
Theorem alignment_depths (canvas : Tree.Canvas) (tree : Parser.SyntaxNode) :
  let d0 := Tree.drawableFromNode canvas tree (Tree.Fin (-1)) false in
  let M := Tree.getMaxDepth d0 in
  ((forall x, In x (nodes d0) -> depthLe (Tree.depth x) M) /\
   (exists x, In x (nodes d0) /\ Tree.depth x = M)) /\
  (forall alignment x,
     alignment = 1%nat \/ alignment = 2%nat ->
     In x (nodes (Tree.align alignment d0)) -> Tree.is_leaf x = true ->
     Tree.depth x = M) /\
  (forall x x',
     In (x, x') (combine (nodes (Tree.moveLeafsToBottom d0 M)) (nodes (Tree.align 2 d0))) ->
     (Tree.is_leaf x = true -> x' = x) /\
     (Tree.is_leaf x = false -> Tree.depth x <> Tree.Fin 0 ->
      Tree.depth x' =
      Tree.minOf (map (fun c => Tree.depthPred (Tree.depth c)) (Tree.children x'))) /\
     (Tree.is_leaf x = false -> Tree.depth x = Tree.Fin 0 -> Tree.depth x' = Tree.Fin 0)) /\
  (forall x', In x' (nodes (Tree.align 2 d0)) -> Tree.is_leaf x' = false ->
     forall z, Tree.depth x' = Tree.Fin z ->
     forall c, In c (Tree.children x') -> depthLt (Tree.depth x') (Tree.depth c)).
Proof.
  intros d0 M.
  assert (Hr : Ranked d0) by apply drawableFromNode_Ranked.
  assert (Hup : forall x, In x (nodes d0) -> depthLe (Tree.depth x) M)
    by (intros x Hx; apply getMaxDepth_upper; exact Hx).
  assert (E2 : Tree.align 2 d0 = Tree.moveParentsDown (Tree.moveLeafsToBottom d0 M))
    by reflexivity.
  assert (E1 : Tree.align 1 d0 = Tree.moveLeafsToBottom d0 M) by reflexivity.
  split; [split; [exact Hup | apply getMaxDepth_attained]|].
  split; [|split].
  - intros alignment x [E|E] Hx Hl; subst alignment.
    + rewrite E1 in Hx. exact (moveLeafsToBottom_leaf d0 M x Hx Hl).
    + rewrite E2 in Hx. apply moveParentsDown_leaf in Hx; [|exact Hl].
      exact (moveLeafsToBottom_leaf d0 M x Hx Hl).
  - intros x x' Hin. rewrite E2 in Hin.
    apply (moveParentsDown_paired (Tree.moveLeafsToBottom d0 M)); [|exact Hin].
    apply moveLeafsToBottom_childless. intros y. apply Ranked_leaves_childless. exact Hr.
  - intros x' Hx' Hl z Hz c Hc. rewrite E2 in Hx'. rewrite Hz.
    destruct (bottomAligned_strict d0 M Hr Hup) as [_ H].
    exact (H x' Hx' Hl z Hz c Hc).
Qed.

(** ** Arrow routing (tree.js) *)


(** The loop over the children in [findTargetLeaf]. *)
Definition findAmong (f : Tree.Drawable -> nat -> nat * option Tree.Drawable)
    : list Tree.Drawable -> nat -> nat * option Tree.Drawable :=
  fix each (cs : list Tree.Drawable) (count : nat) : nat * option Tree.Drawable :=
    match cs with
    | [] => (count, None)
    | child :: rest =>
        let '(count, target) := f child count in
        match target with
        | Some t => (count, Some t)
        | None => each rest count
        end
    end.

Lemma findTargetLeaf_unfold (d : Tree.Drawable) (idx : Tokenizer.TokenValue) (count : nat) :
  Tree.findTargetLeaf d idx count =
  let count := if Tree.is_leaf d then S count else count in
  if Tree.is_leaf d && Tree.isIndex idx count then (count, Some d)
  else findAmong (fun c => Tree.findTargetLeaf c idx) (Tree.children d) count.
Proof. destruct d; reflexivity. Qed.

(** The leaf of 1-based index [idx] in the list [ls], counting from
    [count] leaves already passed. *)
Definition pick (ls : list Tree.Drawable) (idx : Tokenizer.TokenValue) (count : nat)
    : nat * option Tree.Drawable :=
  match idx with
  | Tokenizer.VNumber n =>
      if (count <? n)%nat && (n <=? count + List.length ls)%nat
      then (n, nth_error ls (n - count - 1))
      else ((count + List.length ls)%nat, None)
  | _ => ((count + List.length ls)%nat, None)
  end.

Lemma pick_app (l1 l2 : list Tree.Drawable) (idx : Tokenizer.TokenValue) (count : nat) :
  pick (l1 ++ l2) idx count =
  match pick l1 idx count with
  | (count', Some t) => (count', Some t)
  | (count', None) => pick l2 idx count'
  end.
Proof.
  unfold pick. destruct idx as [|s|n]; rewrite ?length_app;
    try (f_equal; lia).
  destruct (Nat.ltb_spec count n) as [H1|H1]; cbn [andb].
  - destruct (Nat.leb_spec n (count + List.length l1)) as [H2|H2].
    + destruct (Nat.leb_spec n (count + (List.length l1 + List.length l2))) as [H3|H3];
        [|exfalso; lia].
      assert (Hn : (n - count - 1 < List.length l1)%nat) by lia.
      rewrite (nth_error_app1 l1 l2 Hn).
      destruct (nth_error l1 (n - count - 1)) eqn:E; [reflexivity|].
      apply nth_error_None in E. exfalso. lia.
    + destruct (Nat.ltb_spec (count + List.length l1) n) as [H4|H4]; [|exfalso; lia].
      cbn [andb].
      destruct (Nat.leb_spec n (count + (List.length l1 + List.length l2))) as [H3|H3];
        destruct (Nat.leb_spec n (count + List.length l1 + List.length l2)) as [H5|H5];
        try (exfalso; lia).
      * assert (Hn : (List.length l1 <= n - count - 1)%nat) by lia.
        rewrite (nth_error_app2 l1 l2 Hn). do 2 f_equal. lia.
      * f_equal. lia.
  - destruct (Nat.ltb_spec (count + List.length l1) n) as [H4|H4]; [exfalso; lia|].
    cbn [andb]. f_equal. lia.
Qed.

Lemma leaves_unfold (d : Tree.Drawable) :
  leaves d = (if Tree.is_leaf d then [d] else []) ++
             filter Tree.is_leaf (flat_map nodes (Tree.children d)).
Proof. unfold leaves. rewrite nodes_unfold. simpl. destruct (Tree.is_leaf d); reflexivity. Qed.

Lemma findAmong_pick (f : Tree.Drawable -> nat -> nat * option Tree.Drawable)
    (idx : Tokenizer.TokenValue) (cs : list Tree.Drawable) (count : nat) :
  Forall (fun c => forall count, f c count = pick (leaves c) idx count) cs ->
  findAmong f cs count = pick (filter Tree.is_leaf (flat_map nodes cs)) idx count.
Proof.
  intro H. revert count. induction H as [|c r Hc Hr IH]; intro count.
  - simpl. unfold pick. destruct idx; simpl; try (f_equal; lia).
    destruct ((count <? n)%nat && (n <=? count + 0)%nat) eqn:E; [|f_equal; lia].
    apply andb_true_iff in E. destruct E as [E1 E2].
    apply Nat.ltb_lt in E1. apply Nat.leb_le in E2. lia.
  - simpl. rewrite filter_app, pick_app. fold (leaves c). rewrite Hc.
    destruct (pick (leaves c) idx count) as [count' [t|]]; [reflexivity | apply IH].
Qed.

(** [findTargetLeaf] counts the leaves in the order of [leaves]. *)
Lemma findTargetLeaf_pick (d : Tree.Drawable) (idx : Tokenizer.TokenValue) (count : nat) :
  Tree.findTargetLeaf d idx count = pick (leaves d) idx count.
Proof.
  revert count. induction d as [d IH] using Drawable_forall_ind. intro count.
  rewrite findTargetLeaf_unfold, leaves_unfold. cbv zeta.
  rewrite pick_app.
  destruct (Tree.is_leaf d) eqn:Ed; cbn [andb].
  - unfold pick at 1. destruct idx as [|s|n]; cbn [Tree.isIndex List.length].
    + rewrite (findAmong_pick _ Tokenizer.VNull) by exact IH. f_equal. lia.
    + rewrite (findAmong_pick _ (Tokenizer.VString s)) by exact IH. f_equal. lia.
    + destruct (Nat.eqb_spec (S count) n) as [E|E].
      * subst n.
        assert (E1 : (count <? S count)%nat = true) by (apply Nat.ltb_lt; lia).
        assert (E2 : (S count <=? count + 1)%nat = true) by (apply Nat.leb_le; lia).
        rewrite E1, E2. cbn [andb].
        replace (S count - count - 1)%nat with 0%nat by lia. reflexivity.
      * rewrite (findAmong_pick _ (Tokenizer.VNumber n)) by exact IH.
        destruct ((count <? n)%nat && (n <=? count + 1)%nat) eqn:E1.
        -- apply andb_true_iff in E1. destruct E1 as [E1 E2].
           apply Nat.ltb_lt in E1. apply Nat.leb_le in E2. lia.
        -- f_equal. lia.
  - rewrite (findAmong_pick _ idx) by exact IH.
    unfold pick at 2. destruct idx as [|s|n]; cbn [List.length].
    + f_equal. lia.
    + f_equal. lia.
    + destruct ((count <? n)%nat && (n <=? count + 0)%nat) eqn:E1.
      * apply andb_true_iff in E1. destruct E1 as [E1 E2].
        apply Nat.ltb_lt in E1. apply Nat.leb_le in E2. lia.
      * f_equal. lia.
Qed.

Lemma findTarget_nth (root : Tree.Drawable) (idx : Tokenizer.TokenValue) :
  Tree.findTarget root idx =
  match idx with
  | Tokenizer.VNumber n =>
      if (1 <=? n)%nat && (n <=? List.length (leaves root))%nat
      then nth_error (leaves root) (n - 1)
      else None
  | _ => None
  end.
Proof.
  unfold Tree.findTarget. rewrite findTargetLeaf_pick. unfold pick.
  destruct idx as [|s|n]; try reflexivity.
  replace (0 <? n)%nat with (1 <=? n)%nat by (destruct n; reflexivity).
  cbn [Nat.add]. replace (n - 0 - 1)%nat with (n - 1)%nat by lia.
  destruct ((1 <=? n)%nat && (n <=? List.length (leaves root))%nat); reflexivity.
Qed.

Lemma findTarget_In (root : Tree.Drawable) (idx : Tokenizer.TokenValue) (t : Tree.Drawable) :
  Tree.findTarget root idx = Some t -> In t (leaves root).
Proof.
  rewrite findTarget_nth. destruct idx as [|s|n]; try discriminate.
  destruct ((1 <=? n)%nat && (n <=? List.length (leaves root))%nat); [|discriminate].
  apply nth_error_In.
Qed.

(** The drawables in the order in which [makeArrowSetOn] emits their
    arrows: children first. *)
Fixpoint postorder (d : Tree.Drawable) : list Tree.Drawable :=
  flat_map postorder (Tree.children d) ++ [d].

Definition optionList {A : Type} (o : option A) : list A :=
  match o with Some x => [x] | None => [] end.

(** The arrows a drawable emits by itself: for a leaf, one for each of its
    directives that [routeArrow] routes, in their order. *)
Definition routedBy (root : Tree.Drawable) (fontsize : Q) (d : Tree.Drawable)
    : list Tree.Arrow.t :=
  if Tree.is_leaf d
  then flat_map (fun a => optionList (Tree.routeArrow root d fontsize a)) (Tree.arrows d)
  else [].

Lemma postorder_unfold (d : Tree.Drawable) :
  postorder d = flat_map postorder (Tree.children d) ++ [d].
Proof. destruct d; reflexivity. Qed.

Lemma makeArrowSetOn_unfold (root d : Tree.Drawable) (fontsize : Q) :
  Tree.makeArrowSetOn root d fontsize =
  let arrowSet :=
    fold_left
      (fun arrowSet child =>
         Tree.ArrowSet.concatenate arrowSet (Tree.makeArrowSetOn root child fontsize))
      (Tree.children d) Tree.ArrowSet.empty in
  if negb (Tree.is_leaf d) || (List.length (Tree.arrows d) =? 0)%nat then arrowSet
  else
    fold_left
      (fun arrowSet arrowObj =>
         match Tree.routeArrow root d fontsize arrowObj with
         | None => arrowSet
         | Some arrow => Tree.ArrowSet.add arrowSet arrow
         end)
      (Tree.arrows d) arrowSet.
Proof. destruct d; reflexivity. Qed.

Lemma fold_concatenate_arrows {A : Type} (g : A -> Tree.ArrowSet.t) (cs : list A)
    (s0 : Tree.ArrowSet.t) :
  Tree.ArrowSet.arrows
    (fold_left (fun s c => Tree.ArrowSet.concatenate s (g c)) cs s0)
  = Tree.ArrowSet.arrows s0 ++ flat_map (fun c => Tree.ArrowSet.arrows (g c)) cs.
Proof.
  revert s0. induction cs as [|c r IH]; intro s0; simpl.
  - rewrite app_nil_r. reflexivity.
  - rewrite IH. simpl. rewrite app_assoc. reflexivity.
Qed.

Lemma fold_add_arrows {A : Type} (r : A -> option Tree.Arrow.t) (ds : list A)
    (s0 : Tree.ArrowSet.t) :
  Tree.ArrowSet.arrows
    (fold_left (fun s a => match r a with None => s | Some x => Tree.ArrowSet.add s x end)
       ds s0)
  = Tree.ArrowSet.arrows s0 ++ flat_map (fun a => optionList (r a)) ds.
Proof.
  revert s0. induction ds as [|a ds IH]; intro s0; simpl.
  - rewrite app_nil_r. reflexivity.
  - rewrite IH. destruct (r a); simpl; [rewrite <- app_assoc|]; reflexivity.
Qed.

(** The arrows of the set, in order: those each drawable emits, the
    drawables taken children first. *)
Lemma makeArrowSetOn_arrows (root d : Tree.Drawable) (fontsize : Q) :
  Tree.ArrowSet.arrows (Tree.makeArrowSetOn root d fontsize)
  = flat_map (routedBy root fontsize) (postorder d).
Proof.
  induction d as [d IH] using Drawable_forall_ind.
  rewrite makeArrowSetOn_unfold, postorder_unfold. cbv zeta.
  rewrite flat_map_app.
  change (flat_map (routedBy root fontsize) [d]) with (routedBy root fontsize d ++ []).
  rewrite app_nil_r.
  assert (Ecs : Tree.ArrowSet.arrows
                  (fold_left
                     (fun arrowSet child =>
                        Tree.ArrowSet.concatenate arrowSet
                          (Tree.makeArrowSetOn root child fontsize))
                     (Tree.children d) Tree.ArrowSet.empty)
                = flat_map (routedBy root fontsize) (flat_map postorder (Tree.children d))).
  { rewrite fold_concatenate_arrows. simpl.
    induction IH as [|c r Hc Hr IHr]; simpl; [reflexivity|].
    rewrite flat_map_app, Hc, IHr. reflexivity. }
  unfold routedBy at 2.
  destruct (Tree.is_leaf d); cbn [negb orb].
  - destruct (Nat.eqb_spec (List.length (Tree.arrows d)) 0) as [E|E].
    + rewrite Ecs. destruct (Tree.arrows d); [|discriminate]. simpl. rewrite app_nil_r. reflexivity.
    + rewrite fold_add_arrows, Ecs. reflexivity.
  - rewrite Ecs, app_nil_r. reflexivity.
Qed.

(** C8. Routing is a total function, so no directive raises an error.  The
    target index of a directive is resolved against the leaves counted from
    1 in the order of the traversal; a directive is routed to an arrow
    exactly when its index resolves to a leaf, that is when it is a number
    between 1 and the number of leaves; the arrows of the set are, leaf by
    leaf and directive by directive in order, the arrows of the directives
    that resolve, so an unresolved directive contributes nothing and does not
    affect the others. *)
Theorem unresolved_directives_are_dropped (root : Tree.Drawable) (fontsize : Q) :
  (forall idx,
     Tree.findTarget root idx =
     match idx with
     | Tokenizer.VNumber n =>
         if (1 <=? n)%nat && (n <=? List.length (leaves root))%nat
         then nth_error (leaves root) (n - 1)
         else None
     | _ => None
     end) /\
  (forall d a,
     Tree.routeArrow root d fontsize a = None <->
     Tree.findTarget root (Parser.target a) = None) /\
  (forall d a,
     Tree.routeArrow root d fontsize a = None <->
     ~ exists n, Parser.target a = Tokenizer.VNumber n /\
                 (1 <= n <= List.length (leaves root))%nat) /\
  (forall d,
     Tree.ArrowSet.arrows (Tree.makeArrowSetOn root d fontsize)
     = flat_map (routedBy root fontsize) (postorder d)) /\
  (forall d before a after,
     Tree.is_leaf d = true ->
     Tree.arrows d = before ++ a :: after ->
     Tree.findTarget root (Parser.target a) = None ->
     routedBy root fontsize d =
     flat_map (fun a => optionList (Tree.routeArrow root d fontsize a)) before ++
     flat_map (fun a => optionList (Tree.routeArrow root d fontsize a)) after).
Proof.
  assert (Hroute : forall d a,
            Tree.routeArrow root d fontsize a = None <->
            Tree.findTarget root (Parser.target a) = None).
  { intros d a. unfold Tree.routeArrow.
    destruct (Tree.findTarget root (Parser.target a)); split; intro H;
      try reflexivity; discriminate. }
  split; [apply findTarget_nth|]. split; [exact Hroute|]. split; [|split].
  - intros d a. rewrite Hroute, findTarget_nth.
    destruct (Parser.target a) as [|s|n].
    + split; [intros _ [n [E _]]; discriminate | reflexivity].
    + split; [intros _ [n [E _]]; discriminate | reflexivity].
    + destruct ((1 <=? n)%nat && (n <=? List.length (leaves root))%nat) eqn:E.
      * apply andb_true_iff in E. destruct E as [E1 E2].
        apply Nat.leb_le in E1. apply Nat.leb_le in E2.
        split.
        -- intro H. apply nth_error_None in H. lia.
        -- intro H. exfalso. apply H. exists n. split; [reflexivity | lia].
      * split; [|reflexivity]. intros _ [m [Em Hm]]. inversion Em; subst m.
        apply andb_false_iff in E. destruct E as [E|E]; apply Nat.leb_gt in E; lia.
  - intro d. apply makeArrowSetOn_arrows.
  - intros d before a after Hl Ha Hnone. unfold routedBy. rewrite Hl, Ha.
    rewrite flat_map_app. simpl.
    apply Hroute with (d := d) in Hnone. rewrite Hnone. reflexivity.
Qed.

(** *** The control height of a routed arrow *)

(** The horizontal position of [l] lies between [lo] and [hi], inclusive. *)
Definition between (lo hi : Tree.Num) (l : Tree.Drawable) : bool :=
  Tree.numLe lo (Tree.left l) && Tree.numLe (Tree.left l) hi.

(** Every leaf has a finite top, not negative, and a finite left: what
    [calculateDrawablePositions] assigns to a leaf at a depth of 0 or more
    for a positive font size and a positive spacing
    ([layout_leafCoordsOk]). *)
Definition leafCoordsOk (d : Tree.Drawable) : Prop :=
  forall l, In l (leaves d) ->
    exists t x, Tree.top l = Tree.Val t /\ Tree.left l = Tree.Val x /\ 0 <= t.

Lemma findMaxDepthBetween_unfold (d : Tree.Drawable) (lo hi max_y : Tree.Num) :
  Tree.findMaxDepthBetween d lo hi max_y =
  let max_y :=
    fold_left
      (fun max_y child => Tree.numMax (Tree.findMaxDepthBetween child lo hi max_y) max_y)
      (Tree.children d) max_y in
  if Tree.is_leaf d && Tree.numLe lo (Tree.left d) && Tree.numLe (Tree.left d) hi
  then Tree.numMax (Tree.top d) max_y
  else max_y.
Proof. destruct d; reflexivity. Qed.

(** [m] is the result of a search that started from [m0] over the leaves
    [ls]: an upper bound of [m0] and of the tops of the leaves between [lo]
    and [hi], equal to [m0] or to one of these tops. *)
Definition maxOver (ls : list Tree.Drawable) (lo hi : Tree.Num) (m0 m : Q) : Prop :=
  m0 <= m /\
  (forall l t, In l ls -> between lo hi l = true -> Tree.top l = Tree.Val t -> t <= m) /\
  (m == m0 \/
   exists l t, In l ls /\ between lo hi l = true /\ Tree.top l = Tree.Val t /\ t == m).

Lemma maxOver_nil (lo hi : Tree.Num) (m0 : Q) : maxOver [] lo hi m0 m0.
Proof.
  split; [lra|]. split; [intros l t []|]. left. reflexivity.
Qed.

Lemma maxOver_app (l1 l2 : list Tree.Drawable) (lo hi : Tree.Num) (m0 m1 m1' m2 : Q) :
  maxOver l1 lo hi m0 m1 -> m1' == m1 -> maxOver l2 lo hi m1' m2 ->
  maxOver (l1 ++ l2) lo hi m0 m2.
Proof.
  intros [A1 [A2 A3]] E [B1 [B2 B3]]. split; [lra|]. split.
  - intros l t Hin Hb Ht. apply in_app_or in Hin. destruct Hin as [Hin|Hin].
    + specialize (A2 l t Hin Hb Ht). lra.
    + exact (B2 l t Hin Hb Ht).
  - destruct B3 as [B3 | [l [t [Hin [Hb [Ht Et]]]]]].
    + destruct A3 as [A3 | [l [t [Hin [Hb [Ht Et]]]]]].
      * left. lra.
      * right. exists l, t. repeat split; auto; [apply in_or_app; auto | lra].
    + right. exists l, t. repeat split; auto. apply in_or_app; auto.
Qed.

Lemma numMax_Val (a b : Q) : Tree.numMax (Tree.Val a) (Tree.Val b) = Tree.Val (Qmax a b).
Proof. reflexivity. Qed.

Lemma findMaxDepthBetween_children (lo hi : Tree.Num) (cs : list Tree.Drawable) (m0 : Q) :
  Forall (fun c => forall m0, leafCoordsOk c ->
            exists m, Tree.findMaxDepthBetween c lo hi (Tree.Val m0) = Tree.Val m /\
                      maxOver (leaves c) lo hi m0 m) cs ->
  (forall c, In c cs -> leafCoordsOk c) ->
  exists m,
    fold_left
      (fun max_y child => Tree.numMax (Tree.findMaxDepthBetween child lo hi max_y) max_y)
      cs (Tree.Val m0) = Tree.Val m /\
    maxOver (filter Tree.is_leaf (flat_map nodes cs)) lo hi m0 m.
Proof.
  intro H. revert m0. induction H as [|c r Hc Hr IH]; intros m0 Hok.
  - exists m0. split; [reflexivity | apply maxOver_nil].
  - destruct (Hc m0) as [m1 [E1 M1]]; [apply Hok; left; reflexivity|].
    cbn [fold_left]. rewrite E1, numMax_Val.
    destruct (IH (Qmax m1 m0)) as [m2 [E2 M2]]; [intros c' Hc'; apply Hok; right; exact Hc'|].
    exists m2. split; [exact E2|].
    cbn [flat_map]. rewrite filter_app. fold (leaves c).
    apply (maxOver_app _ _ _ _ m0 m1 (Qmax m1 m0) m2); [exact M1 | | exact M2].
    destruct M1 as [A1 _]. apply Q.max_l. exact A1.
Qed.

Lemma leafCoordsOk_child (d c : Tree.Drawable) :
  leafCoordsOk d -> In c (Tree.children d) -> leafCoordsOk c.
Proof.
  intros H Hc l Hl. apply H. unfold leaves in *. rewrite nodes_unfold.
  apply filter_In in Hl. destruct Hl as [Hl1 Hl2]. apply filter_In. split; [|exact Hl2].
  right. apply in_flat_map. exists c. auto.
Qed.

(** [findMaxDepthBetween] from [m0]: the maximum of [m0] and the tops of the
    leaves between [lo] and [hi]. *)
Lemma findMaxDepthBetween_maxOver (d : Tree.Drawable) (lo hi : Tree.Num) (m0 : Q) :
  leafCoordsOk d ->
  exists m, Tree.findMaxDepthBetween d lo hi (Tree.Val m0) = Tree.Val m /\
            maxOver (leaves d) lo hi m0 m.
Proof.
  revert m0. induction d as [d IH] using Drawable_forall_ind. intros m0 Hok.
  rewrite findMaxDepthBetween_unfold. cbv zeta.
  destruct (findMaxDepthBetween_children lo hi (Tree.children d) m0 IH) as [m1 [E1 M1]];
    [intros c Hc; exact (leafCoordsOk_child d c Hok Hc)|].
  rewrite E1. rewrite leaves_unfold.
  destruct (Tree.is_leaf d) eqn:Ed; cbn [andb].
  - destruct (Hok d) as [t [x [Ht [Hx Ht0]]]];
      [rewrite leaves_unfold, Ed; left; reflexivity|].
    fold (between lo hi d). destruct (between lo hi d) eqn:Eb.
    + rewrite Ht, numMax_Val. exists (Qmax t m1). split; [reflexivity|].
      destruct M1 as [A1 [A2 A3]]. pose proof (Q.le_max_l t m1). pose proof (Q.le_max_r t m1).
      split; [lra|]. split.
      * intros l t' [E|Hin] Hb Ht'.
        -- subst l. rewrite Ht in Ht'. inversion Ht'; subst. assumption.
        -- specialize (A2 l t' Hin Hb Ht'). lra.
      * destruct (Q.max_spec t m1) as [[Hlt Em]|[Hle Em]].
        -- destruct A3 as [A3 | [l [t' [Hin [Hb [Ht' Et]]]]]].
           ++ left. lra.
           ++ right. exists l, t'. repeat split; auto; [right; exact Hin | lra].
        -- right. exists d, t. repeat split; auto; [left; reflexivity | lra].
    + exists m1. split; [reflexivity|]. destruct M1 as [A1 [A2 A3]]. split; [exact A1|]. split.
      * intros l t' [E|Hin] Hb Ht'; [subst l; congruence | exact (A2 l t' Hin Hb Ht')].
      * destruct A3 as [A3 | [l [t' [Hin [Hb [Ht' Et]]]]]]; [left; exact A3|].
        right. exists l, t'. repeat split; auto. right. exact Hin.
  - exists m1. split; [reflexivity | exact M1].
Qed.

(** [m] is the greatest top among the leaves of [root] whose position lies
    between those of [src] and [tgt], inclusive. *)
Definition greatestTopBetween (root src tgt : Tree.Drawable) (m : Q) : Prop :=
  let lo := Tree.numMin (Tree.left src) (Tree.left tgt) in
  let hi := Tree.numMax (Tree.left src) (Tree.left tgt) in
  (forall l t, In l (leaves root) -> between lo hi l = true ->
               Tree.top l = Tree.Val t -> t <= m) /\
  (exists l t, In l (leaves root) /\ between lo hi l = true /\
               Tree.top l = Tree.Val t /\ t == m).

Lemma source_between (a b : Q) :
  Tree.numLe (Tree.numMin (Tree.Val a) (Tree.Val b)) (Tree.Val a) &&
  Tree.numLe (Tree.Val a) (Tree.numMax (Tree.Val a) (Tree.Val b)) = true.
Proof.
  simpl. apply andb_true_iff. split; apply Qle_bool_iff;
    [apply Q.le_min_l | apply Q.le_max_l].
Qed.

Lemma routeArrow_bottom (root src tgt : Tree.Drawable) (fontsize : Q)
    (a : Parser.ArrowDirective) :
  leafCoordsOk root -> In src (leaves root) ->
  Tree.findTarget root (Parser.target a) = Some tgt ->
  exists arrow m,
    Tree.routeArrow root src fontsize a = Some arrow /\
    Tree.Arrow.bottom arrow = Tree.Val (1.4 * m) /\ 0 <= m /\
    greatestTopBetween root src tgt m.
Proof.
  intros Hok Hsrc Htgt. unfold Tree.routeArrow. rewrite Htgt.
  pose proof (findTarget_In root _ tgt Htgt) as Hin.
  destruct (Hok src Hsrc) as [ts [xs [Hts [Hxs Hts0]]]].
  destruct (Hok tgt Hin) as [tt [xt [Htt [Hxt Htt0]]]].
  set (lo := Tree.numMin (Tree.left src) (Tree.left tgt)).
  set (hi := Tree.numMax (Tree.left src) (Tree.left tgt)).
  destruct (findMaxDepthBetween_maxOver root lo hi 0 Hok) as [m [Em [M1 [M2 M3]]]].
  eexists. exists m. split; [reflexivity|]. rewrite Em. cbn [Tree.newArrow Tree.Arrow.bottom Tree.numScale].
  split; [reflexivity|]. split; [exact M1|]. split; [exact M2|].
  assert (Hb : between lo hi src = true).
  { unfold between, lo, hi. rewrite Hxs, Hxt. apply source_between. }
  destruct M3 as [E | [l [t [Hl [Hbl [Ht Et]]]]]].
  - exists src, ts. repeat split; auto. specialize (M2 src ts Hsrc Hb Hts). lra.
  - exists l, t. repeat split; auto.
Qed.

(** The invariant of an arrow set: its maximum is finite, bounds the control
    heights of its arrows, which are not negative, and is 0 or one of
    them. *)
Definition boundedSet (s : Tree.ArrowSet.t) : Prop :=
  exists mb,
    Tree.ArrowSet.maxBottom s = Tree.Val mb /\
    (forall a, In a (Tree.ArrowSet.arrows s) ->
               exists b, Tree.Arrow.bottom a = Tree.Val b /\ 0 <= b /\ b <= mb) /\
    (mb == 0 \/
     exists a b, In a (Tree.ArrowSet.arrows s) /\ Tree.Arrow.bottom a = Tree.Val b /\ b == mb).

Lemma boundedSet_empty : boundedSet Tree.ArrowSet.empty.
Proof.
  exists 0. split; [reflexivity|]. split; [intros a []|]. left. reflexivity.
Qed.

Lemma boundedSet_add (s : Tree.ArrowSet.t) (arrow : Tree.Arrow.t) (b : Q) :
  boundedSet s -> Tree.Arrow.bottom arrow = Tree.Val b -> 0 <= b ->
  boundedSet (Tree.ArrowSet.add s arrow).
Proof.
  intros [mb [Em [H1 H2]]] Eb Hb. exists (Qmax mb b). unfold Tree.ArrowSet.add. simpl.
  rewrite Em, Eb. split; [reflexivity|].
  pose proof (Q.le_max_l mb b). pose proof (Q.le_max_r mb b). split.
  - intros a Ha. apply in_app_or in Ha. destruct Ha as [Ha|[E|[]]].
    + destruct (H1 a Ha) as [b' [E1 [E2 E3]]]. exists b'. repeat split; auto. lra.
    + subst a. exists b. repeat split; auto.
  - right. destruct (Q.max_spec mb b) as [[Hlt Em']|[Hle Em']].
    + exists arrow, b. repeat split; auto; [apply in_or_app; right; left; reflexivity | lra].
    + destruct H2 as [H2 | [a [b' [Ha [E1 E2]]]]].
      * exists arrow, b. repeat split; auto; [apply in_or_app; right; left; reflexivity | lra].
      * exists a, b'. repeat split; auto; [apply in_or_app; left; exact Ha | lra].
Qed.

Lemma boundedSet_concatenate (s s' : Tree.ArrowSet.t) :
  boundedSet s -> boundedSet s' -> boundedSet (Tree.ArrowSet.concatenate s s').
Proof.
  intros [mb [Em [H1 H2]]] [mb' [Em' [H1' H2']]]. exists (Qmax mb mb').
  unfold Tree.ArrowSet.concatenate. simpl. rewrite Em, Em'. split; [reflexivity|].
  pose proof (Q.le_max_l mb mb'). pose proof (Q.le_max_r mb mb'). split.
  - intros a Ha. apply in_app_or in Ha. destruct Ha as [Ha|Ha].
    + destruct (H1 a Ha) as [b [E1 [E2 E3]]]. exists b. repeat split; auto. lra.
    + destruct (H1' a Ha) as [b [E1 [E2 E3]]]. exists b. repeat split; auto. lra.
  - destruct (Q.max_spec mb mb') as [[Hlt Em2]|[Hle Em2]].
    + destruct H2' as [H2' | [a [b [Ha [E1 E2]]]]].
      * destruct H2 as [H2 | [a [b [Ha [E1 E2]]]]]; [left; lra|].
        destruct (H1 a Ha) as [b' [E1' [E2' E3']]]. rewrite E1 in E1'. inversion E1'; subst b'.
        exfalso. lra.
      * right. exists a, b. repeat split; auto; [apply in_or_app; right; exact Ha | lra].
    + destruct H2 as [H2 | [a [b [Ha [E1 E2]]]]].
      * destruct H2' as [H2' | [a [b [Ha [E1 E2]]]]]; [left; lra|].
        destruct (H1' a Ha) as [b' [E1' [E2' E3']]]. rewrite E1 in E1'. inversion E1'; subst b'.
        right. exists a, b. repeat split; auto; [apply in_or_app; right; exact Ha | lra].
      * right. exists a, b. repeat split; auto; [apply in_or_app; left; exact Ha | lra].
Qed.

Lemma In_leaves (d x : Tree.Drawable) :
  In x (leaves d) <-> In x (nodes d) /\ Tree.is_leaf x = true.
Proof. unfold leaves. apply filter_In. Qed.

Lemma makeArrowSetOn_bounded (root d : Tree.Drawable) (fontsize : Q) :
  leafCoordsOk root -> (forall x, In x (nodes d) -> In x (nodes root)) ->
  boundedSet (Tree.makeArrowSetOn root d fontsize).
Proof.
  intro Hok. induction d as [d IH] using Drawable_forall_ind. intro Hsub.
  rewrite makeArrowSetOn_unfold. cbv zeta.
  assert (Hcs : boundedSet
                  (fold_left
                     (fun arrowSet child =>
                        Tree.ArrowSet.concatenate arrowSet
                          (Tree.makeArrowSetOn root child fontsize))
                     (Tree.children d) Tree.ArrowSet.empty)).
  { assert (Hsub' : forall c, In c (Tree.children d) ->
                      forall x, In x (nodes c) -> In x (nodes root)).
    { intros c Hc x Hx. apply Hsub. rewrite nodes_unfold. right.
      apply in_flat_map. exists c. auto. }
    generalize boundedSet_empty. generalize Tree.ArrowSet.empty.
    induction IH as [|c r Hc Hr IHr]; intros s0 Hs0; [exact Hs0|].
    cbn [fold_left]. apply IHr.
    - intros c' Hc'. apply Hsub'. right. exact Hc'.
    - apply boundedSet_concatenate; [exact Hs0|]. apply Hc. apply Hsub'. left. reflexivity. }
  destruct (negb (Tree.is_leaf d) || (List.length (Tree.arrows d) =? 0)%nat) eqn:E;
    [exact Hcs|].
  apply orb_false_iff in E. destruct E as [E _]. apply negb_false_iff in E.
  assert (Hsrc : In d (leaves root)).
  { apply In_leaves. split; [apply Hsub; rewrite nodes_unfold; left; reflexivity | exact E]. }
  revert Hcs. generalize (fold_left
                     (fun arrowSet child =>
                        Tree.ArrowSet.concatenate arrowSet
                          (Tree.makeArrowSetOn root child fontsize))
                     (Tree.children d) Tree.ArrowSet.empty).
  induction (Tree.arrows d) as [|a ds IHds]; intros s0 Hs0; [exact Hs0|].
  cbn [fold_left]. apply IHds.
  destruct (Tree.findTarget root (Parser.target a)) as [tgt|] eqn:Et.
  - destruct (routeArrow_bottom root d tgt fontsize a Hok Hsrc Et) as [arrow [m [Er [Eb [Hm _]]]]].
    rewrite Er. apply (boundedSet_add s0 arrow (1.4 * m)); [exact Hs0 | exact Eb | lra].
  - unfold Tree.routeArrow. rewrite Et. exact Hs0.
Qed.

Lemma In_postorder (d x : Tree.Drawable) : In x (postorder d) <-> In x (nodes d).
Proof.
  induction d as [d IH] using Drawable_forall_ind.
  rewrite postorder_unfold, nodes_unfold. rewrite in_app_iff. simpl.
  rewrite !in_flat_map. rewrite Forall_forall in IH. split.
  - intros [[c [Hc Hx]] | [E|[]]]; [right; exists c; split; [exact Hc | apply IH; assumption] | left; exact E].
  - intros [E | [c [Hc Hx]]]; [right; left; exact E | left; exists c; split; [exact Hc | apply IH; assumption]].
Qed.

(** The control heights of the arrow set [s] routed on [root]: every arrow
    of [s] comes from a directive [a] of a source leaf [src] whose index
    resolves to a target leaf [tgt], and its [bottom] is 1.4 times the
    greatest top among the leaves between them; [maxBottom] bounds the
    [bottom] of every arrow, is 0 for no arrow and the [bottom] of one of
    them otherwise. *)
Definition ControlHeights (root : Tree.Drawable) (fontsize : Q) : Prop :=
  let s := Tree.makeArrowSet root fontsize in
  (forall arrow, In arrow (Tree.ArrowSet.arrows s) ->
     exists src a tgt m,
       In src (leaves root) /\ In a (Tree.arrows src) /\
       Tree.findTarget root (Parser.target a) = Some tgt /\ In tgt (leaves root) /\
       Tree.routeArrow root src fontsize a = Some arrow /\
       Tree.Arrow.bottom arrow = Tree.Val (1.4 * m) /\
       greatestTopBetween root src tgt m) /\
  (exists mb,
     Tree.ArrowSet.maxBottom s = Tree.Val mb /\
     (forall arrow, In arrow (Tree.ArrowSet.arrows s) ->
        exists b, Tree.Arrow.bottom arrow = Tree.Val b /\ b <= mb) /\
     (Tree.ArrowSet.arrows s = [] -> mb == 0) /\
     (Tree.ArrowSet.arrows s <> [] ->
      exists arrow b, In arrow (Tree.ArrowSet.arrows s) /\
                      Tree.Arrow.bottom arrow = Tree.Val b /\ b == mb)).

(** On a positioned tree the arrow set has the control heights of C6. *)
Lemma controlHeights_positioned (root : Tree.Drawable) (fontsize : Q) :
  leafCoordsOk root -> ControlHeights root fontsize.
Proof.
  intro Hok. split.
  - intros arrow Ha. unfold Tree.makeArrowSet in Ha. rewrite makeArrowSetOn_arrows in Ha.
    apply in_flat_map in Ha. destruct Ha as [src [Hsrc Ha]].
    apply In_postorder in Hsrc. unfold routedBy in Ha.
    destruct (Tree.is_leaf src) eqn:El; [|destruct Ha].
    apply in_flat_map in Ha. destruct Ha as [a [Ha Hr]].
    assert (Hs : In src (leaves root)) by (apply In_leaves; auto).
    destruct (Tree.findTarget root (Parser.target a)) as [tgt|] eqn:Et.
    + destruct (routeArrow_bottom root src tgt fontsize a Hok Hs Et)
        as [arrow' [m [Er [Eb [Hm Hg]]]]].
      rewrite Er in Hr. destruct Hr as [E|[]]. subst arrow'.
      exists src, a, tgt, m. repeat split; auto; try apply Hg.
      exact (findTarget_In root _ tgt Et).
    + unfold Tree.routeArrow in Hr. rewrite Et in Hr. destruct Hr.
  - destruct (makeArrowSetOn_bounded root root fontsize Hok (fun x H => H))
      as [mb [Em [H1 H2]]].
    exists mb. split; [exact Em|]. split; [|split].
    + intros arrow Ha. destruct (H1 arrow Ha) as [b [E1 [E2 E3]]]. exists b. auto.
    + intro En. destruct H2 as [H2 | [a [b [Ha _]]]]; [exact H2|].
      unfold Tree.makeArrowSet in En. rewrite En in Ha. destruct Ha.
    + intro Hne. destruct H2 as [H2 | [a [b [Ha [E1 E2]]]]].
      * unfold Tree.makeArrowSet in Hne.
        destruct (Tree.ArrowSet.arrows (Tree.makeArrowSetOn root root fontsize))
          as [|a r] eqn:Ea; [contradiction|].
        destruct (H1 a) as [b [E1 [E2 E3]]]; [rewrite ?Ea; left; reflexivity|].
        exists a, b. unfold Tree.makeArrowSet. rewrite ?Ea.
        repeat split; auto; [left; reflexivity | lra].
      * exists a, b. auto.
Qed.

(** ** Widths (tree.js) *)

(** Two trees of the same shape whose drawables are related by [R] place by
    place. *)
Inductive Alike (R : Tree.Drawable -> Tree.Drawable -> Prop)
    : Tree.Drawable -> Tree.Drawable -> Prop :=
| Alike_intro (d d' : Tree.Drawable) :
    R d d' -> Forall2 (Alike R) (Tree.children d) (Tree.children d') -> Alike R d d'.

(** What no step of the layout after the build changes: the width (up to
    the multiplication by [scale = 1]), the leaf flag, the arrows. *)
Definition sameBox (a b : Tree.Drawable) : Prop :=
  Tree.width b == Tree.width a /\ Tree.is_leaf b = Tree.is_leaf a /\
  Tree.arrows b = Tree.arrows a.

Lemma sameBox_refl (x : Tree.Drawable) : sameBox x x.
Proof. unfold sameBox. split; [reflexivity | split; reflexivity]. Qed.

Lemma sameBox_trans (x y z : Tree.Drawable) : sameBox x y -> sameBox y z -> sameBox x z.
Proof.
  unfold sameBox. intros [A1 [A2 A3]] [B1 [B2 B3]]. repeat split; try congruence.
  rewrite B1. exact A1.
Qed.

Lemma Alike_refl (R : Tree.Drawable -> Tree.Drawable -> Prop) (d : Tree.Drawable) :
  (forall x, R x x) -> Alike R d d.
Proof.
  intro HR. induction d as [d IH] using Drawable_forall_ind.
  constructor; [apply HR|]. induction IH; constructor; auto.
Qed.

Lemma Alike_trans (R : Tree.Drawable -> Tree.Drawable -> Prop) :
  (forall x y z, R x y -> R y z -> R x z) ->
  forall a b c, Alike R a b -> Alike R b c -> Alike R a c.
Proof.
  intros HR a. induction a as [a IH] using Drawable_forall_ind. intros b c Hab Hbc.
  inversion Hab as [? ? Rab Cab]; subst. inversion Hbc as [? ? Rbc Cbc]; subst.
  constructor; [exact (HR _ _ _ Rab Rbc)|].
  revert Cab Cbc. generalize (Tree.children b) (Tree.children c).
  induction IH as [|x r Hx Hr IHr]; intros lb lc Cab Cbc.
  - inversion Cab; subst. inversion Cbc; subst. constructor.
  - inversion Cab as [|? y ? lb' Hxy Hrest]; subst.
    inversion Cbc as [|? z ? lc' Hyz Hrest']; subst.
    constructor; [exact (Hx y z Hxy Hyz) | exact (IHr lb' lc' Hrest Hrest')].
Qed.

Lemma fold_sum_from (f : Tree.Drawable -> Q) (cs : list Tree.Drawable) (a : Q) :
  fold_left (fun sum child => sum + f child) cs a
  == a + fold_left (fun sum child => sum + f child) cs 0.
Proof.
  revert a. induction cs as [|c r IH]; intro a; simpl; [lra|].
  rewrite (IH (a + f c)), (IH (0 + f c)). lra.
Qed.

Lemma fold_sum_le {A B : Type} (f : A -> Q) (g : B -> Q) (l : list A) (k : list B)
    (a b : Q) :
  Forall2 (fun x y => g y <= f x) l k -> b <= a ->
  fold_left (fun sum y => sum + g y) k b <= fold_left (fun sum x => sum + f x) l a.
Proof.
  intro H. revert a b. induction H as [|x y l k Hxy Hr IH]; intros a b Hab; simpl.
  - exact Hab.
  - apply IH. lra.
Qed.

Lemma Alike_sameBox_sum (d d' : Tree.Drawable) :
  Alike sameBox d d' -> Tree.getDrawableChildWidth d' == Tree.getDrawableChildWidth d.
Proof.
  intro H. inversion H as [? ? _ Hc]; subst. unfold Tree.getDrawableChildWidth.
  apply Qle_antisym.
  - apply fold_sum_le; [|lra].
    induction Hc as [|x y l k Hxy Hr IH]; constructor; auto.
    inversion Hxy as [? ? Rxy _]; subst. destruct Rxy as [Rxy _]. lra.
  - apply fold_sum_le; [|lra].
    clear H. induction Hc as [|x y l k Hxy Hr IH]; constructor; auto.
    inversion Hxy as [? ? Rxy _]; subst. destruct Rxy as [Rxy _]. lra.
Qed.

(** The width of every drawable covers the widths of its children. *)
Definition widthsCover (d : Tree.Drawable) : Prop :=
  forall x, In x (nodes d) -> Tree.getDrawableChildWidth x <= Tree.width x.

Lemma widthsCover_Alike (d d' : Tree.Drawable) :
  Alike sameBox d d' -> widthsCover d -> widthsCover d'.
Proof.
  revert d'. induction d as [d IH] using Drawable_forall_ind. intros d' Hal Hd x' Hx'.
  rewrite nodes_unfold in Hx'. destruct Hx' as [E|Hx'].
  - subst x'. rewrite (Alike_sameBox_sum d d' Hal).
    inversion Hal as [? ? Rw _]; subst. destruct Rw as [Rw _]. rewrite Rw.
    apply Hd. rewrite nodes_unfold. left. reflexivity.
  - inversion Hal as [? ? _ Hc]; subst. apply in_flat_map in Hx'.
    destruct Hx' as [c' [Hc' Hx']].
    assert (Hd' : forall c, In c (Tree.children d) -> widthsCover c).
    { intros c Hin y Hy. apply Hd. rewrite nodes_unfold. right.
      apply in_flat_map. exists c. auto. }
    revert Hc' Hd'. induction Hc as [|c c2 l k Hcc Hr IHr]; intros Hc' Hd'; [destruct Hc'|].
    inversion IH as [|? ? IHc IHl]; subst.
    destruct Hc' as [E|Hc'].
    + subst c2. apply (IHc c' Hcc); [apply Hd'; left; reflexivity | exact Hx'].
    + apply IHr; auto. intros c0 H0. apply Hd'. right. exact H0.
Qed.

Lemma moveLeafsToBottom_sameBox (d : Tree.Drawable) (b : Tree.Depth) :
  Alike sameBox d (Tree.moveLeafsToBottom d b).
Proof.
  induction d as [d IH] using Drawable_forall_ind. rewrite moveLeafsToBottom_unfold.
  constructor.
  - unfold sameBox. destruct d as [? ? ? ? ? lf ? ? ? ? ? ?].
    destruct lf; simpl; (split; [reflexivity | split; reflexivity]).
  - change (Tree.children (Tree.setChildren (if Tree.is_leaf d then Tree.setDepth d b else d)
              (map (fun child => Tree.moveLeafsToBottom child b) (Tree.children d))))
      with (map (fun child => Tree.moveLeafsToBottom child b) (Tree.children d)).
    induction IH; constructor; auto.
Qed.

Lemma moveParentsDown_sameBox (d : Tree.Drawable) :
  Alike sameBox d (Tree.moveParentsDown d).
Proof.
  induction d as [d IH] using Drawable_forall_ind. rewrite moveParentsDown_unfold.
  destruct (Tree.is_leaf d).
  - apply Alike_refl. exact sameBox_refl.
  - cbv zeta.
    assert (Hc : Forall2 (Alike sameBox) (Tree.children d)
                   (map Tree.moveParentsDown (Tree.children d)))
      by (induction IH; constructor; auto).
    destruct (Tree.depthNonZero (Tree.depth d)); constructor;
      try (unfold sameBox; simpl; split; [reflexivity | split; reflexivity]); exact Hc.
Qed.

(** The loop over the children in [assignSubscripts]. *)
Definition assignEach (f : Tree.Drawable -> Tree.CountMap -> Tree.Drawable * Tree.CountMap)
    : list Tree.Drawable -> Tree.CountMap -> list Tree.Drawable * Tree.CountMap :=
  fix each (cs : list Tree.Drawable) (tally : Tree.CountMap) :=
    match cs with
    | [] => ([], tally)
    | child :: rest =>
        let '(child', tally) := f child tally in
        let '(rest', tally) := each rest tally in
        (child' :: rest', tally)
    end.

Lemma assignSubscripts_unfold (d : Tree.Drawable) (keys : list string)
    (tally : Tree.CountMap) :
  Tree.assignSubscripts d keys tally =
  let c := negb (Tree.is_leaf d) && negb (Js.truthy (Tree.subscript d)) &&
           negb (Js.truthy (Tree.superscript d)) && Tree.includes keys (Tree.label d) in
  let tally1 := if c then Tree.mapInc tally (Tree.label d) else tally in
  let d1 := if c
            then Tree.setSubscript d (Some (Js.decimal (Tree.getOr0 tally1 (Tree.label d))))
            else d in
  let r := assignEach (fun c t => Tree.assignSubscripts c keys t) (Tree.children d) tally1 in
  (Tree.setChildren d1 (fst r), snd r).
Proof.
  destruct d as [l sub sup w dp lf ar fs cf cs t lt].
  cbn [Tree.assignSubscripts Tree.is_leaf Tree.subscript Tree.superscript Tree.label
       Tree.children].
  fold (assignEach (fun c t => Tree.assignSubscripts c keys t)).
  cbv zeta.
  destruct (negb lf && negb (Js.truthy sub) && negb (Js.truthy sup) && Tree.includes keys l);
    match goal with
    | |- context [assignEach ?f ?cs ?t] => destruct (assignEach f cs t)
    end; reflexivity.
Qed.

(** Auto-subscript changes nothing but subscripts. *)
Definition sameButSubscript (a b : Tree.Drawable) : Prop :=
  Tree.width b = Tree.width a /\ Tree.depth b = Tree.depth a /\
  Tree.is_leaf b = Tree.is_leaf a /\ Tree.arrows b = Tree.arrows a /\
  Tree.label b = Tree.label a /\ Tree.caseFeature b = Tree.caseFeature a.

Lemma assignSubscripts_Alike (d : Tree.Drawable) (keys : list string)
    (tally : Tree.CountMap) :
  Alike sameButSubscript d (fst (Tree.assignSubscripts d keys tally)).
Proof.
  revert tally. induction d as [d IH] using Drawable_forall_ind. intro tally.
  rewrite assignSubscripts_unfold. cbv zeta. cbn [fst].
  assert (Hc : forall tally,
            Forall2 (Alike sameButSubscript) (Tree.children d)
              (fst (assignEach (fun c t => Tree.assignSubscripts c keys t)
                      (Tree.children d) tally))).
  { induction IH as [|x r Hx Hr IHr]; intro t; simpl; [constructor|].
    specialize (Hx t). destruct (Tree.assignSubscripts x keys t) as [x' t'].
    specialize (IHr t').
    destruct (assignEach (fun c t => Tree.assignSubscripts c keys t) r t') as [r' t''].
    simpl in *. constructor; assumption. }
  constructor.
  - destruct (negb (Tree.is_leaf d) && negb (Js.truthy (Tree.subscript d)) &&
              negb (Js.truthy (Tree.superscript d)) && Tree.includes keys (Tree.label d));
      repeat split.
  - apply Hc.
Qed.

Lemma Alike_weaken (R S : Tree.Drawable -> Tree.Drawable -> Prop) (d d' : Tree.Drawable) :
  (forall x y, R x y -> S x y) -> Alike R d d' -> Alike S d d'.
Proof.
  intro HRS. revert d'. induction d as [d IH] using Drawable_forall_ind. intros d' H.
  inversion H as [? ? Hr Hc]; subst. constructor; [auto|].
  revert Hc. generalize (Tree.children d').
  induction IH as [|x r Hx Hrr IHr]; intros l Hc; inversion Hc; subst; constructor; auto.
Qed.

Lemma assignSubscripts_sameBox (d : Tree.Drawable) (keys : list string)
    (tally : Tree.CountMap) :
  Alike sameBox d (fst (Tree.assignSubscripts d keys tally)).
Proof.
  apply (Alike_weaken sameButSubscript); [|apply assignSubscripts_Alike].
  intros x y [A [_ [B [C _]]]]. unfold sameBox. rewrite A.
  split; [reflexivity | split; assumption].
Qed.

(** The loop over the children in [calculateDrawablePositions]. *)
Definition placeEach (canvas : Tree.Canvas) (vscaler parent_offset scale : Q)
    (f : Tree.Drawable -> Q -> Tree.Drawable * bool)
    : list Tree.Drawable -> Q -> bool -> list Tree.Drawable * Q * bool :=
  fix each (cs : list Tree.Drawable) (offset : Q) (hasArrow : bool) :=
    match cs with
    | [] => ([], offset, hasArrow)
    | child :: rest =>
        let child_top :=
          Tree.numAdd
            (Tree.depthTimes (Tree.depth child) (Tree.fontsize canvas * 3 * vscaler))
            (Tree.NODE_PADDING / 2) in
        let child_left := offset + parent_offset in
        let '(child', child_has_arrow) := f child child_left in
        let child := Tree.place child' child_top (Tree.Val child_left)
                       (Tree.width child * scale) in
        let hasArrow := if child_has_arrow then true else hasArrow in
        let '(rest', offset', hasArrow') := each rest (offset + Tree.width child) hasArrow in
        (child :: rest', offset', hasArrow')
    end.

Definition scaleOf (d : Tree.Drawable) : Q :=
  if Tree.depthNonNeg (Tree.depth d) then
    if Tree.Qlt_bool (Tree.getDrawableChildWidth d) (Tree.width d) then 1 else 1
  else 1.

Lemma scaleOf_one (d : Tree.Drawable) : scaleOf d = 1.
Proof.
  unfold scaleOf. destruct (Tree.depthNonNeg (Tree.depth d)); [|reflexivity].
  destruct (Tree.Qlt_bool (Tree.getDrawableChildWidth d) (Tree.width d)); reflexivity.
Qed.

Lemma calculateDrawablePositions_loop (canvas : Tree.Canvas) (d : Tree.Drawable)
    (vscaler parent_offset : Q) :
  Tree.calculateDrawablePositions canvas d vscaler parent_offset =
  let '(cs, _, hasArrow) :=
    placeEach canvas vscaler parent_offset (scaleOf d)
      (fun c o => Tree.calculateDrawablePositions canvas c vscaler o)
      (Tree.children d) 0 (0 <? List.length (Tree.arrows d))%nat in
  (Tree.setChildren d cs, hasArrow).
Proof. destruct d; reflexivity. Qed.

Lemma calculateDrawablePositions_unfold (canvas : Tree.Canvas) (d : Tree.Drawable)
    (vscaler parent_offset : Q) :
  Tree.calculateDrawablePositions canvas d vscaler parent_offset =
  let r := placeEach canvas vscaler parent_offset (scaleOf d)
             (fun c o => Tree.calculateDrawablePositions canvas c vscaler o)
             (Tree.children d) 0 (0 <? List.length (Tree.arrows d))%nat in
  (Tree.setChildren d (fst (fst r)), snd r).
Proof.
  rewrite calculateDrawablePositions_loop. cbv zeta.
  match goal with
  | |- context [placeEach ?a ?b ?c ?e ?f ?g ?h ?i] =>
      destruct (placeEach a b c e f g h i) as [[x y] z]
  end.
  reflexivity.
Qed.

Lemma placeEach_sameBox (canvas : Tree.Canvas) (vscaler po : Q)
    (f : Tree.Drawable -> Q -> Tree.Drawable * bool) (cs : list Tree.Drawable)
    (offset : Q) (ha : bool) :
  Forall (fun c => forall o, Alike sameBox c (fst (f c o))) cs ->
  Forall2 (Alike sameBox) cs (fst (fst (placeEach canvas vscaler po 1 f cs offset ha))).
Proof.
  intro H. revert offset ha. induction H as [|x r Hx Hr IHr]; intros offset ha; simpl;
    [constructor|].
  specialize (Hx (offset + po)). destruct (f x (offset + po)) as [x' xa].
  match goal with
  | |- context [placeEach ?a ?b ?c ?e ?g ?h ?i ?j] =>
      specialize (IHr i j); destruct (placeEach a b c e g h i j) as [[rs ro] rh]
  end.
  simpl in *. constructor; [|exact IHr].
  inversion Hx as [? ? [A [B C]] Hc]; subst. constructor.
  - unfold sameBox. simpl. split; [lra | split; assumption].
  - exact Hc.
Qed.

Lemma calculateDrawablePositions_sameBox (canvas : Tree.Canvas) (d : Tree.Drawable)
    (vscaler parent_offset : Q) :
  Alike sameBox d (fst (Tree.calculateDrawablePositions canvas d vscaler parent_offset)).
Proof.
  revert parent_offset. induction d as [d IH] using Drawable_forall_ind. intro po.
  rewrite calculateDrawablePositions_unfold. cbv zeta. cbn [fst].
  constructor; [unfold sameBox; cbn [Tree.setChildren Tree.width Tree.is_leaf Tree.arrows];
                split; [reflexivity | split; reflexivity]|].
  cbn [Tree.setChildren Tree.children]. rewrite scaleOf_one.
  apply placeEach_sameBox. exact IH.
Qed.

(** The own width of a node from the width [base] of its label text: the
    part of [getNodeWidth] between the label and the children. *)
Definition ownWidth (canvas : Tree.Canvas) (node : Parser.SyntaxNode) (base : Q) : Q :=
  let label_width := base in
  let label_width :=
    match Parser.subscript node, Parser.superscript node with
    | Some sub, sup =>
        if Js.truthy (Some sub) then label_width + Tree.textWidth canvas (Js.units sub) * 3 / 4 * 2
        else match sup with
             | Some sup' =>
                 if Js.truthy (Some sup')
                 then label_width + Tree.textWidth canvas (Js.units sup') * 3 / 4 * 2
                 else label_width
             | None => label_width
             end
    | None, Some sup =>
        if Js.truthy (Some sup) then label_width + Tree.textWidth canvas (Js.units sup) * 3 / 4 * 2
        else label_width
    | None, None => label_width
    end in
  let label_width :=
    if (0 <? List.length (Parser.features node))%nat
    then Qmax label_width
           (Tree.textWidth canvas
              (Js.units ("[" ++ Js.join ", " (Parser.features node) ++ "]")%string))
    else label_width in
  match Parser.caseFeature node with
  | Some cf =>
      if Parser.eqb (Parser.type node) Parser.VALUE && Js.truthy (Some cf) then
        let caseWidth := Tree.textWidth canvas (Tree.caseTextOf cf) * 0.7 + Tree.NODE_PADDING in
        Qmax label_width caseWidth
      else label_width
  | None => label_width
  end.

Definition baseWidth (canvas : Tree.Canvas) (ty : Parser.NodeType) (label : string) : Q :=
  if negb (Parser.eqb ty Parser.ROOT)
  then Tree.textWidth canvas (Js.units label) + Tree.NODE_PADDING
  else 0.

(** The build phase: the width is the maximum of the own width and the sum
    of the widths of the children. *)
Lemma getNodeWidth_unfold (canvas : Tree.Canvas) (node : Parser.SyntaxNode) :
  Tree.getNodeWidth canvas node =
  let label_width :=
    ownWidth canvas node (baseWidth canvas (Parser.type node) (Parser.label node)) in
  if negb (Parser.eqb (Parser.type node) Parser.VALUE)
  then Qmax label_width
         (fold_left (fun sum child => sum + Tree.getNodeWidth canvas child)
            (Parser.values node) 0)
  else label_width.
Proof. destruct node; reflexivity. Qed.

Lemma ownWidth_mono (canvas : Tree.Canvas) (node : Parser.SyntaxNode) (a b : Q) :
  a <= b -> ownWidth canvas node a <= ownWidth canvas node b.
Proof.
  intro Hab. unfold ownWidth. cbv zeta.
  set (sa := match Parser.subscript node, Parser.superscript node with
             | Some sub, sup => _ | None, Some sup => _ | None, None => a end).
  set (sb := match Parser.subscript node, Parser.superscript node with
             | Some sub, sup => _ | None, Some sup => _ | None, None => b end).
  assert (Hs : sa <= sb).
  { unfold sa, sb. destruct (Parser.subscript node) as [sub|], (Parser.superscript node) as [sup|];
      repeat match goal with |- context [if ?c then _ else _] => destruct c end; lra. }
  clearbody sa sb.
  assert (Hf : (if (0 <? List.length (Parser.features node))%nat
                then Qmax sa (Tree.textWidth canvas
                       (Js.units ("[" ++ Js.join ", " (Parser.features node) ++ "]")%string))
                else sa)
               <= (if (0 <? List.length (Parser.features node))%nat
                   then Qmax sb (Tree.textWidth canvas
                          (Js.units ("[" ++ Js.join ", " (Parser.features node) ++ "]")%string))
                   else sb)).
  { destruct (0 <? List.length (Parser.features node))%nat;
      [apply Q.max_le_compat_r|]; exact Hs. }
  destruct (Parser.caseFeature node) as [cf|]; [|exact Hf].
  destruct (Parser.eqb (Parser.type node) Parser.VALUE && Js.truthy (Some cf));
    [apply Q.max_le_compat_r|]; exact Hf.
Qed.

Lemma script_width_nonneg (t : Q) : 0 <= t -> 0 <= t * 3 / 4 * 2.
Proof.
  intro H. setoid_replace (t * 3 / 4 * 2) with (t * (3 # 2)) by field. lra.
Qed.

Lemma ownWidth_ge (canvas : Tree.Canvas) (node : Parser.SyntaxNode) (a : Q) :
  (forall s, 0 <= Tree.textWidth canvas (Js.units s)) -> a <= ownWidth canvas node a.
Proof.
  intro Hpos. unfold ownWidth. cbv zeta.
  set (sa := match Parser.subscript node, Parser.superscript node with
             | Some sub, sup => _ | None, Some sup => _ | None, None => a end).
  assert (Hs : a <= sa).
  { unfold sa. destruct (Parser.subscript node) as [sub|], (Parser.superscript node) as [sup|];
      repeat match goal with |- context [if ?c then _ else _] => destruct c end;
      try lra;
      match goal with |- context [Tree.textWidth canvas (Js.units ?x)] =>
        pose proof (script_width_nonneg _ (Hpos x)); lra end. }
  clearbody sa.
  set (fa := if (0 <? List.length (Parser.features node))%nat then _ else sa).
  assert (Hf : sa <= fa).
  { unfold fa. destruct (0 <? List.length (Parser.features node))%nat;
      [apply Q.le_max_l | lra]. }
  clearbody fa.
  destruct (Parser.caseFeature node) as [cf|]; [|lra].
  destruct (Parser.eqb (Parser.type node) Parser.VALUE && Js.truthy (Some cf)); [|lra].
  pose proof (Q.le_max_l fa (Tree.textWidth canvas (Tree.caseTextOf cf) * 0.7 + Tree.NODE_PADDING)).
  lra.
Qed.

Lemma drawableFromNode_width canvas node depth forceLeaf :
  Tree.width (Tree.drawableFromNode canvas node depth forceLeaf)
  = Tree.getNodeWidth canvas
      (Tree.withLabel node
         (Tree.drawableLabelOf
            (if forceLeaf
             then negb (Parser.eqb (Parser.type node) Parser.ROOT) &&
                  negb (Parser.eqb (Parser.type node) Parser.NODE)
             else Parser.eqb (Parser.type node) Parser.VALUE) node)).
Proof. destruct node; reflexivity. Qed.

Lemma withLabel_same (canvas : Tree.Canvas) (node : Parser.SyntaxNode) :
  Tree.getNodeWidth canvas (Tree.withLabel node (Parser.label node))
  = Tree.getNodeWidth canvas node.
Proof. destruct node; reflexivity. Qed.

Lemma isLeaf_is_value (forceLeaf : bool) (ty : Parser.NodeType) :
  (if forceLeaf
   then negb (Parser.eqb ty Parser.ROOT) && negb (Parser.eqb ty Parser.NODE)
   else Parser.eqb ty Parser.VALUE) = Parser.eqb ty Parser.VALUE.
Proof. destruct forceLeaf, ty; reflexivity. Qed.

(** The canvas never measures a label as wider once its trailing case
    marker and the white space around it are removed. *)
Definition narrowing (canvas : Tree.Canvas) : Prop :=
  forall s, Tree.textWidth canvas (Js.units (Js.trim (Tree.replaceCase s)))
            <= Tree.textWidth canvas (Js.units s).

Lemma drawableFromNode_width_le canvas node depth forceLeaf :
  narrowing canvas ->
  Tree.width (Tree.drawableFromNode canvas node depth forceLeaf)
  <= Tree.getNodeWidth canvas node.
Proof.
  intro Hn. rewrite drawableFromNode_width, isLeaf_is_value.
  unfold Tree.drawableLabelOf.
  destruct (Tree.caseGuard (Parser.eqb (Parser.type node) Parser.VALUE) node) eqn:G.
  - unfold Tree.caseGuard in G.
    destruct (Parser.eqb (Parser.type node) Parser.VALUE) eqn:Ev; [|discriminate].
    rewrite !getNodeWidth_unfold. cbv zeta.
    destruct node as [ty l sub sup vs fs cf ar]. simpl in Ev.
    cbn [Tree.withLabel Parser.setLabelCase Parser.type Parser.label Parser.values].
    rewrite Ev. cbn [negb].
    apply (ownWidth_mono canvas
             (Parser.mkSyntaxNode ty l sub sup vs fs cf ar)). unfold baseWidth.
    destruct (negb (Parser.eqb ty Parser.ROOT)); [|lra].
    pose proof (Hn l). lra.
  - rewrite withLabel_same. lra.
Qed.

Lemma drawableFromNode_widthsCover canvas node depth :
  (forall s, 0 <= Tree.textWidth canvas (Js.units s)) -> narrowing canvas ->
  widthsCover (Tree.drawableFromNode canvas node depth false).
Proof.
  intros Hpos Hn. revert depth. induction node as [node IH] using SyntaxNode_forall_ind.
  intros depth x Hx. rewrite nodes_unfold in Hx. destruct Hx as [E|Hx].
  - subst x. unfold Tree.getDrawableChildWidth.
    rewrite drawableFromNode_children, drawableFromNode_width.
    unfold Tree.drawableLabelOf.
    destruct (Parser.eqb (Parser.type node) Parser.VALUE) eqn:Ev; cbn [negb].
    + cbn [fold_left]. rewrite getNodeWidth_unfold. cbv zeta.
      assert (Et : forall l, Parser.type (Tree.withLabel node l) = Parser.type node)
        by (intro l; destruct node; reflexivity).
      rewrite Et, Ev. cbn [negb].
      assert (Hb : 0 <= baseWidth canvas (Parser.type node)
                          (Parser.label (Tree.withLabel node
                             (if Tree.caseGuard true node
                              then Js.trim (Tree.replaceCase (Parser.label node))
                              else Parser.label node)))).
      { unfold baseWidth. destruct (negb (Parser.eqb (Parser.type node) Parser.ROOT)); [|lra].
        match goal with |- context [Tree.textWidth canvas (Js.units ?x)] =>
          pose proof (Hpos x) end.
        unfold Tree.NODE_PADDING. lra. }
      eapply Qle_trans; [exact Hb | apply ownWidth_ge; exact Hpos].
    + assert (G : Tree.caseGuard false node = false) by reflexivity.
      rewrite G, withLabel_same, getNodeWidth_unfold. cbv zeta. rewrite Ev. cbn [negb].
      eapply Qle_trans; [|apply Q.le_max_r].
      apply fold_sum_le; [|lra].
      clear IH. induction (Parser.values node) as [|c r IHr]; simpl; constructor; auto.
      apply drawableFromNode_width_le. exact Hn.
  - rewrite drawableFromNode_children in Hx.
    destruct (negb (Parser.eqb (Parser.type node) Parser.VALUE)); [|destruct Hx].
    apply in_flat_map in Hx. destruct Hx as [c' [Hc' Hx]].
    apply in_map_iff in Hc'. destruct Hc' as [c [E Hc]]. subst c'.
    rewrite Forall_forall in IH. exact (IH c Hc _ x Hx).
Qed.

Lemma align_sameBox (alignment : nat) (d : Tree.Drawable) :
  Alike sameBox d (Tree.align alignment d).
Proof.
  unfold Tree.align. cbv zeta.
  destruct (0 <? alignment)%nat, (1 <? alignment)%nat;
    try apply Alike_refl; try exact sameBox_refl;
    try apply moveParentsDown_sameBox; try apply moveLeafsToBottom_sameBox.
  eapply (Alike_trans sameBox sameBox_trans);
    [apply moveLeafsToBottom_sameBox | apply moveParentsDown_sameBox].
Qed.

Lemma layout_drawables (canvas : Tree.Canvas) (alignment : nat) (autoSubscript : bool)
    (vscaler treeFontsize : Q) (tree : Parser.SyntaxNode) :
  Tree.drawables (Tree.layout canvas alignment autoSubscript vscaler treeFontsize tree)
  = fst (Tree.calculateDrawablePositions canvas
           (let d := Tree.align alignment
                       (Tree.drawableFromNode canvas tree (Tree.Fin (-1)) false) in
            if autoSubscript then Tree.calculateAutoSubscript d else d)
           vscaler 0).
Proof.
  unfold Tree.layout. cbv zeta.
  destruct (Tree.calculateDrawablePositions canvas _ vscaler 0). reflexivity.
Qed.

(** The steps of the layout after the build keep the boxes. *)
Lemma layout_sameBox (canvas : Tree.Canvas) (alignment : nat) (autoSubscript : bool)
    (vscaler treeFontsize : Q) (tree : Parser.SyntaxNode) :
  Alike sameBox (Tree.drawableFromNode canvas tree (Tree.Fin (-1)) false)
    (Tree.drawables (Tree.layout canvas alignment autoSubscript vscaler treeFontsize tree)).
Proof.
  rewrite layout_drawables. cbv zeta.
  eapply (Alike_trans sameBox sameBox_trans); [|apply calculateDrawablePositions_sameBox].
  destruct autoSubscript; [|apply align_sameBox].
  eapply (Alike_trans sameBox sameBox_trans); [apply align_sameBox|].
  unfold Tree.calculateAutoSubscript. cbv zeta. apply assignSubscripts_sameBox.
Qed.

(** C5. For a canvas that measures no text as negative and no label as
    wider once its trailing case marker is removed: in the tree built by
    [drawableFromNode], and in the tree [layout] ends with, the width of
    every drawable is at least the sum of the widths of its children; the
    later steps, the positioning among them, change no width (it is
    multiplied by [scale = 1]). *)
Theorem widths_cover_children (canvas : Tree.Canvas) (alignment : nat)
    (autoSubscript : bool) (vscaler treeFontsize : Q) (tree : Parser.SyntaxNode) :
  (forall s, 0 <= Tree.textWidth canvas (Js.units s)) ->
  (forall s, Tree.textWidth canvas (Js.units (Js.trim (Tree.replaceCase s)))
             <= Tree.textWidth canvas (Js.units s)) ->
  let built := Tree.drawableFromNode canvas tree (Tree.Fin (-1)) false in
  let final :=
    Tree.drawables (Tree.layout canvas alignment autoSubscript vscaler treeFontsize tree) in
  (forall x, In x (nodes built) -> Tree.getDrawableChildWidth x <= Tree.width x) /\
  Alike sameBox built final /\
  (forall x, In x (nodes final) -> Tree.getDrawableChildWidth x <= Tree.width x).
Proof.
  intros Hpos Hn built final.
  assert (Hb : widthsCover built) by (apply drawableFromNode_widthsCover; assumption).
  assert (Ha : Alike sameBox built final) by apply layout_sameBox.
  split; [exact Hb|]. split; [exact Ha|].
  exact (widthsCover_Alike built final Ha Hb).
Qed.

(** ** The coordinates of the leaves after [layout] *)

Lemma Alike_nodes (R : Tree.Drawable -> Tree.Drawable -> Prop) (d d' x' : Tree.Drawable) :
  Alike R d d' -> In x' (nodes d') -> exists x, In x (nodes d) /\ R x x'.
Proof.
  revert d' x'. induction d as [d IH] using Drawable_forall_ind. intros d' x' H Hx'.
  inversion H as [? ? Hr Hc]; subst. rewrite nodes_unfold in Hx'. destruct Hx' as [E|Hx'].
  - subst x'. exists d. split; [rewrite nodes_unfold; left; reflexivity | exact Hr].
  - apply in_flat_map in Hx'. destruct Hx' as [c' [Hc' Hx']].
    assert (Hex : exists c, In c (Tree.children d) /\ exists x, In x (nodes c) /\ R x x').
    { revert Hc'. induction Hc as [|c c2 l k Hcc Hrest IHr]; intro Hc'; [destruct Hc'|].
      inversion IH as [|? ? IHc IHl]; subst. destruct Hc' as [E|Hc'].
      - subst c2. exists c. split; [left; reflexivity | exact (IHc c' x' Hcc Hx')].
      - destruct (IHr IHl Hc') as [c0 [H0 H1]]. exists c0. split; [right; exact H0 | exact H1]. }
    destruct Hex as [c [Hc0 [x [Hx HR]]]]. exists x. split; [|exact HR].
    rewrite nodes_unfold. right. apply in_flat_map. exists c. auto.
Qed.

Lemma Ranked_depths (d : Tree.Drawable) (z : Z) :
  Ranked d -> Tree.depth d = Tree.Fin z ->
  forall c x, In c (Tree.children d) -> In x (nodes c) ->
              exists z', Tree.depth x = Tree.Fin z' /\ (z + 1 <= z')%Z.
Proof.
  revert z. induction d as [d IH] using Drawable_forall_ind. intros z Hr Hz c x Hc Hx.
  inversion Hr as [d0 z0 Hz0 Hlc Hd Hcs]; subst d0.
  rewrite Hz in Hz0. inversion Hz0; subst z0.
  rewrite Forall_forall in IH, Hd, Hcs.
  rewrite nodes_unfold in Hx. destruct Hx as [E|Hx].
  - subst x. exists (z + 1)%Z. split; [apply Hd; exact Hc | lia].
  - apply in_flat_map in Hx. destruct Hx as [c2 [Hc2 Hx]].
    destruct (IH c Hc (z + 1)%Z (Hcs c Hc) (Hd c Hc) c2 x Hc2 Hx) as [z' [E H]].
    exists z'. split; [exact E | lia].
Qed.

(** A leaf of a tree built from a root node is not its root. *)
Lemma built_leaf_depth (canvas : Tree.Canvas) (tree : Parser.SyntaxNode) (x : Tree.Drawable) :
  Parser.type tree = Parser.ROOT ->
  In x (nodes (Tree.drawableFromNode canvas tree (Tree.Fin (-1)) false)) ->
  Tree.is_leaf x = true ->
  exists z, Tree.depth x = Tree.Fin z /\ (0 <= z)%Z.
Proof.
  intros Ht Hx Hl. rewrite nodes_unfold in Hx. destruct Hx as [E|Hx].
  - subst x. rewrite drawableFromNode_is_leaf, Ht in Hl. discriminate.
  - apply in_flat_map in Hx. destruct Hx as [c [Hc Hx]].
    destruct (Ranked_depths _ (-1) (drawableFromNode_Ranked canvas tree (-1))
                (drawableFromNode_depth _ _ _ _) c x Hc Hx) as [z [E H]].
    exists z. split; [exact E | lia].
Qed.

Lemma aligned_leaf_depth (canvas : Tree.Canvas) (tree : Parser.SyntaxNode) (alignment : nat)
    (x : Tree.Drawable) :
  Parser.type tree = Parser.ROOT ->
  In x (nodes (Tree.align alignment
                 (Tree.drawableFromNode canvas tree (Tree.Fin (-1)) false))) ->
  Tree.is_leaf x = true ->
  exists z, Tree.depth x = Tree.Fin z /\ (0 <= z)%Z.
Proof.
  intros Ht Hx Hl. set (d0 := Tree.drawableFromNode canvas tree (Tree.Fin (-1)) false) in *.
  destruct (Alike_nodes sameBox d0 _ x (align_sameBox alignment d0) Hx) as [x0 [Hx0 [_ [El _]]]].
  rewrite Hl in El. symmetry in El.
  destruct (built_leaf_depth canvas tree x0 Ht Hx0 El) as [z0 [Ez0 Hz0]].
  unfold Tree.align in Hx. cbv zeta in Hx.
  destruct (0 <? alignment)%nat eqn:E0.
  - assert (Ed : Tree.depth x = Tree.getMaxDepth d0).
    { destruct (1 <? alignment)%nat.
      - apply moveParentsDown_leaf in Hx; [|exact Hl].
        exact (moveLeafsToBottom_leaf _ _ x Hx Hl).
      - exact (moveLeafsToBottom_leaf _ _ x Hx Hl). }
    destruct (getMaxDepth_attained d0) as [y [Hy Ey]].
    pose proof (getMaxDepth_upper d0 x0 Hx0) as Hup. rewrite <- Ey, Ez0 in Hup.
    rewrite Ed, <- Ey.
    assert (Hfin : exists zy, Tree.depth y = Tree.Fin zy).
    { rewrite nodes_unfold in Hy. destruct Hy as [E|Hy].
      - subst y. exists (-1)%Z. apply drawableFromNode_depth.
      - apply in_flat_map in Hy. destruct Hy as [c [Hc Hy]].
        destruct (Ranked_depths _ (-1) (drawableFromNode_Ranked canvas tree (-1))
                    (drawableFromNode_depth _ _ _ _) c y Hc Hy) as [zy [E _]].
        exists zy. exact E. }
    destruct Hfin as [zy Ezy]. rewrite Ezy in *. simpl in Hup. exists zy. split; [reflexivity | lia].
  - assert (E1 : (1 <? alignment)%nat = false).
    { apply Nat.ltb_ge. apply Nat.ltb_ge in E0. lia. }
    rewrite E1 in Hx. exact (built_leaf_depth canvas tree x Ht Hx Hl).
Qed.

(** What the positioning changes neither. *)
Definition sameRank (a b : Tree.Drawable) : Prop :=
  Tree.depth b = Tree.depth a /\ Tree.is_leaf b = Tree.is_leaf a.

Lemma calculateDrawablePositions_depth (canvas : Tree.Canvas) (d : Tree.Drawable)
    (vscaler po : Q) :
  sameRank d (fst (Tree.calculateDrawablePositions canvas d vscaler po)).
Proof. rewrite calculateDrawablePositions_unfold. split; reflexivity. Qed.

(** The coordinates [calculateDrawablePositions] gives a drawable. *)
Definition positioned (canvas : Tree.Canvas) (vscaler : Q) (x : Tree.Drawable) : Prop :=
  Tree.top x =
  Tree.numAdd (Tree.depthTimes (Tree.depth x) (Tree.fontsize canvas * 3 * vscaler))
    (Tree.NODE_PADDING / 2) /\
  exists q, Tree.left x = Tree.Val q.

Lemma placeEach_positioned (canvas : Tree.Canvas) (vscaler po scale : Q)
    (f : Tree.Drawable -> Q -> Tree.Drawable * bool) (cs : list Tree.Drawable)
    (offset : Q) (ha : bool) :
  Forall (fun c => forall o,
            sameRank c (fst (f c o)) /\
            forall c' x, In c' (Tree.children (fst (f c o))) -> In x (nodes c') ->
                         positioned canvas vscaler x) cs ->
  Forall2 (fun c c' => sameRank c c' /\ forall x, In x (nodes c') -> positioned canvas vscaler x)
    cs (fst (fst (placeEach canvas vscaler po scale f cs offset ha))).
Proof.
  intro H. revert offset ha. induction H as [|x r Hx Hr IHr]; intros offset ha; simpl;
    [constructor|].
  specialize (Hx (offset + po)). destruct (f x (offset + po)) as [x' xa].
  match goal with
  | |- context [placeEach ?a ?b ?c ?e ?g ?h ?i ?j] =>
      specialize (IHr i j); destruct (placeEach a b c e g h i j) as [[rs ro] rh]
  end.
  simpl in *. constructor; [|exact IHr].
  destruct Hx as [[Hd Hl] Hp]. split; [split; simpl; assumption|].
  intros y Hy. rewrite nodes_unfold in Hy. destruct Hy as [E|Hy].
  - subst y. split; [simpl; rewrite Hd; reflexivity | eexists; reflexivity].
  - simpl in Hy. apply in_flat_map in Hy. destruct Hy as [c' [Hc' Hy]].
    exact (Hp c' y Hc' Hy).
Qed.

Lemma calculateDrawablePositions_positioned (canvas : Tree.Canvas) (d : Tree.Drawable)
    (vscaler po : Q) :
  Forall2 (fun c c' => sameRank c c' /\ forall x, In x (nodes c') -> positioned canvas vscaler x)
    (Tree.children d)
    (Tree.children (fst (Tree.calculateDrawablePositions canvas d vscaler po))).
Proof.
  revert po. induction d as [d IH] using Drawable_forall_ind. intro po.
  rewrite calculateDrawablePositions_unfold. cbv zeta. cbn [fst Tree.setChildren Tree.children].
  apply placeEach_positioned.
  rewrite Forall_forall in *. intros c Hc o. split; [apply calculateDrawablePositions_depth|].
  intros c' x Hc' Hx. specialize (IH c Hc o).
  clear Hc. revert Hc'. induction IH as [|a a' l l' [_ Ha] Hrest IHr]; intro Hc'; [destruct Hc'|].
  destruct Hc' as [E|Hc']; [subst a'; exact (Ha x Hx) | exact (IHr Hc')].
Qed.

Lemma placeEach_sameRank (canvas : Tree.Canvas) (vscaler po scale : Q)
    (f : Tree.Drawable -> Q -> Tree.Drawable * bool) (cs : list Tree.Drawable)
    (offset : Q) (ha : bool) :
  Forall (fun c => forall o, Alike sameRank c (fst (f c o))) cs ->
  Forall2 (Alike sameRank) cs (fst (fst (placeEach canvas vscaler po scale f cs offset ha))).
Proof.
  intro H. revert offset ha. induction H as [|x r Hx Hr IHr]; intros offset ha; simpl;
    [constructor|].
  specialize (Hx (offset + po)). destruct (f x (offset + po)) as [x' xa].
  match goal with
  | |- context [placeEach ?a ?b ?c ?e ?g ?h ?i ?j] =>
      specialize (IHr i j); destruct (placeEach a b c e g h i j) as [[rs ro] rh]
  end.
  simpl in *. constructor; [|exact IHr].
  inversion Hx as [? ? [A B] Hc]; subst. constructor; [split; simpl; assumption | exact Hc].
Qed.

Lemma calculateDrawablePositions_sameRank (canvas : Tree.Canvas) (d : Tree.Drawable)
    (vscaler po : Q) :
  Alike sameRank d (fst (Tree.calculateDrawablePositions canvas d vscaler po)).
Proof.
  revert po. induction d as [d IH] using Drawable_forall_ind. intro po.
  constructor; [apply calculateDrawablePositions_depth|].
  rewrite calculateDrawablePositions_unfold. cbv zeta.
  cbn [fst Tree.setChildren Tree.children].
  apply placeEach_sameRank. exact IH.
Qed.

Lemma Qlt_bool_true (a b : Q) : a < b -> Tree.Qlt_bool a b = true.
Proof.
  intro H. unfold Tree.Qlt_bool. destruct (Qle_bool b a) eqn:E; [|reflexivity].
  apply Qle_bool_iff in E. lra.
Qed.

(** After [layout] of a root node with a positive font size and a positive
    spacing, every leaf has a finite left and a finite top of 10 or more. *)
Lemma layout_leafCoordsOk (canvas : Tree.Canvas) (alignment : nat) (autoSubscript : bool)
    (vscaler treeFontsize : Q) (tree : Parser.SyntaxNode) :
  Parser.type tree = Parser.ROOT -> 0 < Tree.fontsize canvas -> 0 < vscaler ->
  leafCoordsOk
    (Tree.drawables (Tree.layout canvas alignment autoSubscript vscaler treeFontsize tree)).
Proof.
  intros Ht Hf Hv. rewrite layout_drawables. cbv zeta.
  set (d0 := Tree.drawableFromNode canvas tree (Tree.Fin (-1)) false).
  set (d1 := if autoSubscript then Tree.calculateAutoSubscript (Tree.align alignment d0)
             else Tree.align alignment d0).
  assert (H1 : forall x, In x (nodes d1) -> Tree.is_leaf x = true ->
                exists z, Tree.depth x = Tree.Fin z /\ (0 <= z)%Z).
  { intros x Hx Hl. unfold d1 in Hx. destruct autoSubscript.
    - unfold Tree.calculateAutoSubscript in Hx. cbv zeta in Hx.
      destruct (Alike_nodes _ _ _ x (assignSubscripts_Alike _ _ _) Hx)
        as [x0 [Hx0 [_ [Ed [El _]]]]].
      rewrite Hl in El. rewrite Ed.
      exact (aligned_leaf_depth canvas tree alignment x0 Ht Hx0 (eq_sym El)).
    - exact (aligned_leaf_depth canvas tree alignment x Ht Hx Hl). }
  assert (Hroot : Tree.is_leaf d1 = false).
  { assert (Ha : Alike sameBox d0 d1).
    { unfold d1. destruct autoSubscript; [|apply align_sameBox].
      eapply (Alike_trans sameBox sameBox_trans); [apply align_sameBox|].
      unfold Tree.calculateAutoSubscript. cbv zeta. apply assignSubscripts_sameBox. }
    inversion Ha as [? ? [_ [El _]] _]; subst. rewrite El. unfold d0.
    rewrite drawableFromNode_is_leaf, Ht. reflexivity. }
  intros l Hl. apply In_leaves in Hl. destruct Hl as [Hn Hl].
  destruct (Alike_nodes _ _ _ l (calculateDrawablePositions_sameRank canvas d1 vscaler 0) Hn)
    as [l0 [Hl0 [Ed El]]].
  rewrite Hl in El. destruct (H1 l0 Hl0 (eq_sym El)) as [z [Ez Hz]].
  rewrite nodes_unfold in Hn. destruct Hn as [E|Hn].
  - subst l. destruct (calculateDrawablePositions_depth canvas d1 vscaler 0) as [_ E].
    rewrite Hl, Hroot in E. discriminate.
  - apply in_flat_map in Hn. destruct Hn as [c' [Hc' Hn]].
    pose proof (calculateDrawablePositions_positioned canvas d1 vscaler 0) as Hp.
    assert (Hpos : positioned canvas vscaler l).
    { revert Hc'. induction Hp as [|a a' k k' [_ Ha] Hrest IHr]; intro Hc'; [destruct Hc'|].
      destruct Hc' as [E|Hc']; [subst a'; exact (Ha l Hn) | exact (IHr Hc')]. }
    destruct Hpos as [Etop [q Eleft]]. rewrite Ed, Ez in Etop. simpl in Etop.
    eexists. exists q. split; [exact Etop|]. split; [exact Eleft|].
    assert (0 <= inject_Z z) by (change 0 with (inject_Z 0); rewrite <- Zle_Qle; exact Hz).
    assert (H3 : 0 <= Tree.fontsize canvas * 3).
    { apply Qmult_le_0_compat; lra. }
    assert (Hk : 0 <= Tree.fontsize canvas * 3 * vscaler).
    { apply Qmult_le_0_compat; lra. }
    pose proof (Qmult_le_0_compat _ _ H Hk) as Hzk.
    assert (Hpad : Tree.NODE_PADDING / 2 == 10) by reflexivity.
    rewrite Hpad. lra.
Qed.

Lemma layout_arrowSet (canvas : Tree.Canvas) (alignment : nat) (autoSubscript : bool)
    (vscaler treeFontsize : Q) (tree : Parser.SyntaxNode) :
  Tree.arrowSet (Tree.layout canvas alignment autoSubscript vscaler treeFontsize tree)
  = Tree.makeArrowSet
      (Tree.drawables (Tree.layout canvas alignment autoSubscript vscaler treeFontsize tree))
      treeFontsize.
Proof.
  unfold Tree.layout. cbv zeta.
  destruct (Tree.calculateDrawablePositions canvas _ vscaler 0). reflexivity.
Qed.

(** The canvas and the phrase of the examples: a text is 8 wide per
    character, the font size is 16. *)
Definition exampleCanvas : Tree.Canvas :=
  Tree.mkCanvas (fun s => inject_Z (Z.of_nat (8 * List.length s))) 16.

Definition leaf (l : string) (ar : option (list Parser.ArrowDirective)) : Parser.SyntaxNode :=
  {| Parser.type := Parser.VALUE; Parser.label := l; Parser.subscript := None;
     Parser.superscript := None; Parser.values := []; Parser.features := [];
     Parser.caseFeature := None; Parser.arrows := ar |}.

Definition node (l : string) (vs : list Parser.SyntaxNode) : Parser.SyntaxNode :=
  {| Parser.type := Parser.NODE; Parser.label := l; Parser.subscript := None;
     Parser.superscript := None; Parser.values := vs; Parser.features := [];
     Parser.caseFeature := None; Parser.arrows := None |}.

(** The tree of [[A [B C][D E][F G ->1]]]. *)
Definition arrowTree : Parser.SyntaxNode :=
  Parser.mkRoot
    [node "A"
       [node "B" [leaf "C" None]; node "D" [leaf "E" None];
        node "F"
          [leaf "G"
             (Some [Parser.mkDirective Tokenizer.ARROW_TO (Tokenizer.VNumber 1) None])]]].

Lemma arrowTree_parsed : parsePhrase "[A [B C][D E][F G ->1]]" = OK arrowTree.
Proof. vm_compute. reflexivity. Qed.

(** C6. In the layout of a root node, for a positive font size of the
    canvas and a positive spacing: the arrow set is the one routed on the
    positioned tree; every arrow of it comes from a directive of a source
    leaf whose index resolves to a target leaf, and its control height
    [bottom] is 1.4 times the greatest top among the leaves whose left lies
    between the lefts of the source and of the target, inclusive; the
    recorded [maxBottom] bounds the control heights of the arrows of the
    set and is one of them (and 0 for a set without arrows). *)
Theorem routed_arrow_control_height (canvas : Tree.Canvas) (alignment : nat)
    (autoSubscript : bool) (vscaler treeFontsize : Q) (tree : Parser.SyntaxNode) :
  Parser.type tree = Parser.ROOT -> 0 < Tree.fontsize canvas -> 0 < vscaler ->
  let l := Tree.layout canvas alignment autoSubscript vscaler treeFontsize tree in
  Tree.arrowSet l = Tree.makeArrowSet (Tree.drawables l) treeFontsize /\
  ControlHeights (Tree.drawables l) treeFontsize.
Proof.
  intros Ht Hf Hv l. split; [apply layout_arrowSet|].
  apply controlHeights_positioned. apply layout_leafCoordsOk; assumption.
Qed.

Lemma routed_arrow_control_height_example :
  let l := Tree.layout exampleCanvas 0 true 1 16 arrowTree in
  Tree.arrowSet l = Tree.makeArrowSet (Tree.drawables l) 16 /\
  ControlHeights (Tree.drawables l) 16.
Proof.
  apply (routed_arrow_control_height exampleCanvas 0 true 1 16 arrowTree);
    reflexivity.
Defined.

(** In the example the leaves are at top 106 and the only arrow, from [G]
    to [C], has the control height 1.4 * 106. *)
Lemma arrowTree_bottom :
  map (fun a => match Tree.Arrow.bottom a with Tree.Val b => Some (Qred b) | _ => None end)
    (Tree.ArrowSet.arrows (Tree.arrowSet (Tree.layout exampleCanvas 0 true 1 16 arrowTree)))
  = [Some (Qred (1.4 * 106))].
Proof. vm_compute. reflexivity. Qed.

Lemma widths_cover_children_example :
  let canvas := Tree.mkCanvas (fun _ => 7) 16 in
  let built := Tree.drawableFromNode canvas arrowTree (Tree.Fin (-1)) false in
  let final := Tree.drawables (Tree.layout canvas 2 true 1 16 arrowTree) in
  (forall x, In x (nodes built) -> Tree.getDrawableChildWidth x <= Tree.width x) /\
  Alike sameBox built final /\
  (forall x, In x (nodes final) -> Tree.getDrawableChildWidth x <= Tree.width x).
Proof.
  apply (widths_cover_children (Tree.mkCanvas (fun _ => 7) 16) 2 true 1 16 arrowTree);
    intro s; simpl; discriminate.
Defined.

(** ** Auto-subscript (tree.js) *)

(** The tree of [[A [B^x c] [B d]]]: two nodes [B], the first with the
    superscript [x]. *)
Definition superscriptTree : Parser.SyntaxNode :=
  Parser.mkRoot
    [node "A"
       [{| Parser.type := Parser.NODE; Parser.label := "B"; Parser.subscript := None;
           Parser.superscript := Some "x"; Parser.values := [leaf "c" None];
           Parser.features := []; Parser.caseFeature := None; Parser.arrows := None |};
        node "B" [leaf "d" None]]].

(** C4, the code at the failing input.  [countNodes] counts the node [B^x]
    although it carries a superscript (it tests the subscript only), so [B]
    is counted twice; [assignSubscripts] then skips [B^x] and gives the one
    node [B] without subscript or superscript the subscript [1]. *)
Lemma autoSubscript_counts_superscript :
  parsePhrase "[A [B^x c] [B d]]" = OK superscriptTree /\
  forall canvas,
    let d := Tree.drawableFromNode canvas superscriptTree (Tree.Fin (-1)) false in
    Tree.countNodes d = [("__ROOT__", 1%nat); ("A", 1%nat); ("B", 2%nat)] /\
    map (fun x => (Tree.label x, Tree.subscript x, Tree.superscript x))
      (nodes (Tree.calculateAutoSubscript d))
    = [("__ROOT__", None, None); ("A", None, None); ("B", None, Some "x");
       ("c", None, None); ("B", Some "1", None); ("d", None, None)].
Proof.
  split; [vm_compute; reflexivity|]. intro canvas. split; reflexivity.
Qed.

(** ** The arrow directives of a leaf (parser.js) *)

(** The optional label of a directive at the position [current]: its text
    and the next position. *)
Definition labelAt (tokens : list Tokenizer.Token) (current : nat) : option string * nat :=
  match nth_error tokens current with
  | Some t =>
      if Parser.isString (Tokenizer.type t)
      then (Some (Tokenizer.text (Tokenizer.value t)), S current)
      else (None, current)
  | None => (None, current)
  end.

Lemma arrowRun_S (fuel : nat) (tokens : list Tokenizer.Token) (current : nat)
    (arrows : list Parser.ArrowDirective) :
  Parser.arrowRun (S fuel) tokens current arrows =
  match nth_error tokens current with
  | None => Err Parser.TypeError
  | Some token =>
      if Parser.isArrowType (Tokenizer.type token) then
        match nth_error tokens (S current) with
        | None => Err Parser.TypeError
        | Some target_token =>
            if negb (Tokenizer.eqb (Tokenizer.type target_token) Tokenizer.NUMBER)
            then Err (Parser.ExpectedColumnNumber (S current))
            else
              let '(label_text, next) := labelAt tokens (S (S current)) in
              let arrows :=
                arrows ++ [Parser.mkDirective (Tokenizer.type token)
                             (Tokenizer.value target_token) label_text] in
              if Parser.isComma tokens next
              then Parser.arrowRun fuel tokens (S next) arrows
              else OK (next, arrows)
        end
      else OK (current, arrows)
  end.
Proof. reflexivity. Qed.

Lemma labelAt_bounds (tokens : list Tokenizer.Token) (current : nat) :
  (current <= List.length tokens)%nat ->
  (current <= snd (labelAt tokens current) <= List.length tokens)%nat /\
  (snd (labelAt tokens current) <= S current)%nat.
Proof.
  intro H. unfold labelAt. destruct (nth_error tokens current) as [t|] eqn:E; simpl; [|lia].
  assert (current < List.length tokens)%nat by (apply nth_error_Some; congruence).
  destruct (Parser.isString (Tokenizer.type t)); simpl; lia.
Qed.

Lemma nth_error_lt {A : Type} (l : list A) (n : nat) (x : A) :
  nth_error l n = Some x -> (n < List.length l)%nat.
Proof. intro H. apply nth_error_Some. congruence. Qed.

(** More fuel does not change a result. *)
Lemma arrowRun_more (fuel : nat) (tokens : list Tokenizer.Token) (current : nat)
    (arrows : list Parser.ArrowDirective) :
  Parser.arrowRun fuel tokens current arrows <> OutOfFuel ->
  Parser.arrowRun (S fuel) tokens current arrows = Parser.arrowRun fuel tokens current arrows.
Proof.
  revert current arrows. induction fuel as [|fuel IH]; intros current arrows H.
  - exfalso. apply H. reflexivity.
  - rewrite (arrowRun_S (S fuel)). rewrite arrowRun_S in H |- *.
    destruct (nth_error tokens current) as [token|]; [|reflexivity].
    destruct (Parser.isArrowType (Tokenizer.type token)); [|reflexivity].
    destruct (nth_error tokens (S current)) as [target_token|]; [|reflexivity].
    destruct (negb (Tokenizer.eqb (Tokenizer.type target_token) Tokenizer.NUMBER));
      [reflexivity|].
    destruct (labelAt tokens (S (S current))) as [label_text next].
    destruct (Parser.isComma tokens next); [|reflexivity].
    apply IH. exact H.
Qed.

(** [arrowRun] ends when the fuel exceeds the number of tokens left; it
    ends inside the token array, and past an arrow token it has consumed
    two tokens at least. *)
Lemma arrowRun_ends (fuel : nat) (tokens : list Tokenizer.Token) (current : nat)
    (arrows : list Parser.ArrowDirective) :
  (List.length tokens - current < fuel)%nat ->
  Parser.arrowRun fuel tokens current arrows <> OutOfFuel /\
  forall current' arrows',
    Parser.arrowRun fuel tokens current arrows = OK (current', arrows') ->
    (current <= current' <= List.length tokens)%nat /\
    (Parser.typeAt tokens current Parser.isArrowType = true -> (current + 2 <= current')%nat).
Proof.
  revert current arrows. induction fuel as [|fuel IH]; intros current arrows Hf; [lia|].
  rewrite arrowRun_S. unfold Parser.typeAt.
  destruct (nth_error tokens current) as [token|] eqn:E0;
    [|split; [discriminate | intros ? ? H; discriminate]].
  apply nth_error_lt in E0.
  destruct (Parser.isArrowType (Tokenizer.type token)) eqn:Ea.
  - destruct (nth_error tokens (S current)) as [target_token|] eqn:E1;
      [|split; [discriminate | intros ? ? H; discriminate]].
    apply nth_error_lt in E1.
    destruct (negb (Tokenizer.eqb (Tokenizer.type target_token) Tokenizer.NUMBER));
      [split; [discriminate | intros ? ? H; discriminate]|].
    pose proof (labelAt_bounds tokens (S (S current))) as Hb.
    destruct (labelAt tokens (S (S current))) as [label_text next]. simpl in Hb.
    destruct Hb as [[Hb1 Hb2] Hb3]; [lia|].
    destruct (Parser.isComma tokens next) eqn:Ec.
    + assert (Hn : (next < List.length tokens)%nat).
      { unfold Parser.isComma in Ec. destruct (nth_error tokens next) eqn:En; [|discriminate].
        apply nth_error_lt in En. exact En. }
      destruct (IH (S next) (arrows ++ [Parser.mkDirective (Tokenizer.type token)
                                          (Tokenizer.value target_token) label_text]))
        as [H1 H2]; [lia|].
      split; [exact H1|]. intros c' a' H. destruct (H2 c' a' H) as [[H3 H4] _]. lia.
    + split; [discriminate|]. intros c' a' H. inversion H; subst. lia.
  - split; [discriminate|]. intros c' a' H. inversion H; subst.
    split; [lia | discriminate].
Qed.

Lemma arrowRun_fuel (fuel fuel' : nat) (tokens : list Tokenizer.Token) (current : nat)
    (arrows : list Parser.ArrowDirective) :
  (List.length tokens - current < fuel)%nat -> (fuel <= fuel')%nat ->
  Parser.arrowRun fuel' tokens current arrows = Parser.arrowRun fuel tokens current arrows.
Proof.
  intros Hf Hle. induction Hle as [|m Hle IH]; [reflexivity|].
  rewrite arrowRun_more; [exact IH|]. rewrite IH. apply arrowRun_ends. exact Hf.
Qed.

Lemma arrowLoop_S (fuel : nat) (tokens : list Tokenizer.Token) (current : nat)
    (arrows : list Parser.ArrowDirective) :
  Parser.arrowLoop (S fuel) tokens current arrows =
  if (S current <? List.length tokens)%nat then
    if Parser.typeAt tokens current Parser.isArrowType then
      match Parser.arrowRun (S (List.length tokens)) tokens current arrows with
      | OK (current', arrows') => Parser.arrowLoop fuel tokens current' arrows'
      | Err e => Err e
      | OutOfFuel => OutOfFuel
      end
    else OK (current, arrows)
  else OK (current, arrows).
Proof. reflexivity. Qed.

Lemma arrowLoop_ends (fuel : nat) (tokens : list Tokenizer.Token) (current : nat)
    (arrows : list Parser.ArrowDirective) :
  (List.length tokens - current < fuel)%nat ->
  Parser.arrowLoop fuel tokens current arrows <> OutOfFuel /\
  forall current' arrows',
    Parser.arrowLoop fuel tokens current arrows = OK (current', arrows') ->
    (current <= current')%nat /\
    ((current <= List.length tokens)%nat -> (current' <= List.length tokens)%nat).
Proof.
  revert current arrows. induction fuel as [|fuel IH]; intros current arrows Hf; [lia|].
  rewrite arrowLoop_S.
  destruct (Nat.ltb_spec (S current) (List.length tokens)) as [Hl|Hl];
    [|split; [discriminate | intros c' a' H; inversion H; subst; lia]].
  destruct (Parser.typeAt tokens current Parser.isArrowType) eqn:Ea;
    [|split; [discriminate | intros c' a' H; inversion H; subst; lia]].
  destruct (arrowRun_ends (S (List.length tokens)) tokens current arrows) as [H1 H2]; [lia|].
  destruct (Parser.arrowRun (S (List.length tokens)) tokens current arrows)
    as [[c1 a1]| e |]; [|split; [discriminate | intros ? ? H; discriminate]|contradiction].
  destruct (H2 c1 a1 eq_refl) as [[H3 H4] H5]. specialize (H5 Ea).
  destruct (IH c1 a1) as [H6 H7]; [lia|].
  split; [exact H6|]. intros c' a' H. destruct (H7 c' a' H) as [H8 H9]. lia.
Qed.

Lemma arrowLoop_more (fuel : nat) (tokens : list Tokenizer.Token) (current : nat)
    (arrows : list Parser.ArrowDirective) :
  Parser.arrowLoop fuel tokens current arrows <> OutOfFuel ->
  Parser.arrowLoop (S fuel) tokens current arrows = Parser.arrowLoop fuel tokens current arrows.
Proof.
  revert current arrows. induction fuel as [|fuel IH]; intros current arrows H.
  - exfalso. apply H. reflexivity.
  - rewrite (arrowLoop_S (S fuel)). rewrite arrowLoop_S in H |- *.
    destruct (S current <? List.length tokens)%nat; [|reflexivity].
    destruct (Parser.typeAt tokens current Parser.isArrowType); [|reflexivity].
    destruct (Parser.arrowRun (S (List.length tokens)) tokens current arrows)
      as [[c1 a1]| e |]; try reflexivity.
    apply IH. exact H.
Qed.

Lemma arrowLoop_fuel (fuel fuel' : nat) (tokens : list Tokenizer.Token) (current : nat)
    (arrows : list Parser.ArrowDirective) :
  (List.length tokens - current < fuel)%nat -> (fuel <= fuel')%nat ->
  Parser.arrowLoop fuel' tokens current arrows = Parser.arrowLoop fuel tokens current arrows.
Proof.
  intros Hf Hle. induction Hle as [|m Hle IH]; [reflexivity|].
  rewrite arrowLoop_more; [exact IH|]. rewrite IH. apply arrowLoop_ends. exact Hf.
Qed.

(** The flags of a directive by its operator, as the specification lists
    them: ([endsTo], [endsFrom], [dotted]). *)
Definition flagsOf (ty : Tokenizer.TokenType) : bool * bool * bool :=
  match ty with
  | Tokenizer.ARROW_TO => (true, false, false)
  | Tokenizer.ARROW_FROM => (false, true, false)
  | Tokenizer.ARROW_BOTH => (true, true, false)
  | Tokenizer.ARROW_DOTTED_TO => (true, false, true)
  | _ => (false, false, false)
  end.

(** The tokens of [[F G ->1 "lbl", .>2]]. *)
Definition arrowTokens : list Tokenizer.Token :=
  [Tokenizer.mkToken Tokenizer.BRACKET_OPEN Tokenizer.VNull;
   Tokenizer.mkToken Tokenizer.STRING (Tokenizer.VString "F");
   Tokenizer.mkToken Tokenizer.STRING (Tokenizer.VString "G");
   Tokenizer.mkToken Tokenizer.ARROW_TO Tokenizer.VNull;
   Tokenizer.mkToken Tokenizer.NUMBER (Tokenizer.VNumber 1);
   Tokenizer.mkToken Tokenizer.QUOTED_STRING (Tokenizer.VString "lbl");
   Tokenizer.mkToken Tokenizer.STRING (Tokenizer.VString ",");
   Tokenizer.mkToken Tokenizer.ARROW_DOTTED_TO Tokenizer.VNull;
   Tokenizer.mkToken Tokenizer.NUMBER (Tokenizer.VNumber 2);
   Tokenizer.mkToken Tokenizer.BRACKET_CLOSE Tokenizer.VNull].

Lemma arrowTokens_tokenized :
  Tokenizer.tokenize ("[F G ->1 " ++ quoted "lbl" ++ ", .>2]")%string = OK arrowTokens.
Proof. vm_compute. reflexivity. Qed.

(** The two directives the example ends with. *)
Lemma arrowTokens_directives :
  Parser.parseArrows arrowTokens 3 []
  = OK (9%nat,
        [Parser.mkDirective Tokenizer.ARROW_TO (Tokenizer.VNumber 1) (Some "lbl");
         Parser.mkDirective Tokenizer.ARROW_DOTTED_TO (Tokenizer.VNumber 2) None]).
Proof. vm_compute. reflexivity. Qed.

(** ** The parser never runs out of fuel (parser.js) *)

Lemma parseToken_S (fuel : nat) (tokens : list Tokenizer.Token) (current : nat) :
  Parser.parseToken (S fuel) tokens current =
  match nth_error tokens current with
  | None => Err Parser.TypeError
  | Some token =>
      match Tokenizer.type token with
      | Tokenizer.BRACKET_OPEN => Parser.parseNode fuel tokens current
      | Tokenizer.STRING | Tokenizer.QUOTED_STRING => Parser.parseValue tokens current
      | ty => Err (Parser.UnexpectedToken ty current)
      end
  end.
Proof. reflexivity. Qed.

(** The node [parseNode] starts from. *)
Definition newNode (label : string) (subscript superscript : option string)
    : Parser.SyntaxNode :=
  {| Parser.type := Parser.NODE; Parser.label := label; Parser.subscript := subscript;
     Parser.superscript := superscript; Parser.values := []; Parser.features := [];
     Parser.caseFeature := None; Parser.arrows := None |}.

Lemma parseNode_S (fuel : nat) (tokens : list Tokenizer.Token) (current : nat) :
  Parser.parseNode (S fuel) tokens current =
  if (List.length tokens <? current + 2)%nat then Err Parser.MissingLabel
  else
    match nth_error tokens (S current) with
    | None => Err Parser.TypeError
    | Some label_token =>
        if negb (Parser.isString (Tokenizer.type label_token)) then Err Parser.ExpectedLabel
        else
          match Parser.parseScript Parser.ExpectedNodeSubscript tokens (S (S current)) with
          | OK (current', (subscript, superscript)) =>
              Parser.parseChildren fuel tokens current'
                (newNode (Tokenizer.text (Tokenizer.value label_token)) subscript superscript)
          | Err e => Err e
          | OutOfFuel => OutOfFuel
          end
    end.
Proof. reflexivity. Qed.

Definition isClose (ty : Tokenizer.TokenType) : bool :=
  Tokenizer.eqb ty Tokenizer.BRACKET_CLOSE.

Lemma parseChildren_S (fuel : nat) (tokens : list Tokenizer.Token) (current : nat)
    (node : Parser.SyntaxNode) :
  Parser.parseChildren (S fuel) tokens current node =
  if (current <? List.length tokens)%nat && negb (Parser.typeAt tokens current isClose)
  then
    match Parser.parseToken fuel tokens current with
    | OK (current', value) =>
        Parser.parseChildren fuel tokens current' (Parser.fileChild node value)
    | Err e => Err e
    | OutOfFuel => OutOfFuel
    end
  else if (List.length tokens <=? current)%nat
  then Err (Parser.MissingClosingBracket (current - 1))
  else OK (S current, node).
Proof. reflexivity. Qed.

Lemma parseScript_bounds (err : nat -> Parser.ParseError) (tokens : list Tokenizer.Token)
    (current : nat) :
  Parser.parseScript err tokens current <> OutOfFuel /\
  forall current' r,
    Parser.parseScript err tokens current = OK (current', r) ->
    (current <= current')%nat /\
    ((current <= List.length tokens)%nat -> (current' <= List.length tokens)%nat).
Proof.
  unfold Parser.parseScript.
  destruct (Nat.ltb_spec (S current) (List.length tokens)) as [Hl|Hl]; cbn [andb];
    [|split; [discriminate | intros c' r H; inversion H; subst; lia]].
  destruct (Parser.typeAt tokens current Parser.isPrefix);
    [|split; [discriminate | intros c' r H; inversion H; subst; lia]].
  destruct (nth_error tokens (S current)) as [t|];
    [|split; [discriminate | intros c' r H; discriminate]].
  destruct (negb (Parser.isString (Tokenizer.type t)));
    [split; [discriminate | intros c' r H; discriminate]|].
  destruct (Parser.typeAt tokens current
              (fun ty => Tokenizer.eqb ty Tokenizer.SUPERSCRIPT_PREFIX));
    (split; [discriminate | intros c' r H; inversion H; subst; lia]).
Qed.

Lemma stringRun_length (rest : list Tokenizer.Token) :
  (List.length (Parser.stringRun rest) <= List.length rest)%nat.
Proof.
  induction rest as [|t r IH]; simpl; [lia|].
  destruct (Tokenizer.eqb (Tokenizer.type t) Tokenizer.STRING); simpl; lia.
Qed.

Lemma skipn_nth_error {A : Type} (l : list A) (n : nat) (x : A) :
  nth_error l n = Some x -> exists r, skipn n l = x :: r.
Proof.
  revert l. induction n as [|n IH]; intros [|y l] H; simpl in *; try discriminate.
  - inversion H; subst. exists l. reflexivity.
  - apply IH. exact H.
Qed.

(** [parseValue] ends, past at least one token and inside the array. *)
Lemma parseValue_total (tokens : list Tokenizer.Token) (current : nat) :
  Parser.parseValue tokens current <> OutOfFuel /\
  forall current' v,
    Parser.parseValue tokens current = OK (current', v) ->
    (current < current' <= List.length tokens)%nat.
Proof.
  unfold Parser.parseValue.
  destruct (nth_error tokens current) as [token|] eqn:E0;
    [|split; [discriminate | intros c' v H; discriminate]].
  pose proof (nth_error_lt _ _ _ E0) as L0.
  set (lc := if Tokenizer.eqb (Tokenizer.type token) Tokenizer.STRING then _ else _).
  assert (Hlc : (current < snd lc <= List.length tokens)%nat).
  { unfold lc. destruct (Tokenizer.eqb (Tokenizer.type token) Tokenizer.STRING) eqn:Es;
      cbn [snd]; [|lia].
    destruct (skipn_nth_error _ _ _ E0) as [r Er].
    pose proof (stringRun_length (skipn current tokens)) as Hs.
    rewrite length_skipn in Hs. rewrite Er in *. simpl. rewrite Es. simpl. simpl in Hs.
    rewrite Es in Hs. simpl in Hs. lia. }
  destruct lc as [label c1]. cbn [snd] in Hlc.
  destruct (parseScript_bounds Parser.ExpectedValueSubscript tokens c1) as [S1 S2].
  destruct (Parser.parseScript Parser.ExpectedValueSubscript tokens c1)
    as [[c2 [sub sup]]| e |]; [|split; [discriminate | intros ? ? H; discriminate]|contradiction].
  destruct (S2 c2 _ eq_refl) as [S3 S4].
  unfold Parser.parseArrows.
  destruct (arrowLoop_ends (S (List.length tokens)) tokens c2 []) as [A1 A2]; [lia|].
  destruct (Parser.arrowLoop (S (List.length tokens)) tokens c2 [])
    as [[c3 ar]| e |]; [|split; [discriminate | intros ? ? H; discriminate]|contradiction].
  destruct (A2 c3 ar eq_refl) as [A3 A4].
  split; [discriminate|]. intros c' v H. inversion H; subst. lia.
Qed.

(** The fuel that is enough for each of the three functions, and what they
    return: a position past the one they started from, inside the array. *)
Lemma parser_ends (fuel : nat) (tokens : list Tokenizer.Token) :
  (forall current,
     (2 * (List.length tokens - current) + 1 <= fuel)%nat ->
     Parser.parseToken fuel tokens current <> OutOfFuel /\
     forall current' v,
       Parser.parseToken fuel tokens current = OK (current', v) ->
       (current < current' <= List.length tokens)%nat) /\
  (forall current,
     (current < List.length tokens)%nat ->
     (2 * (List.length tokens - current) <= fuel)%nat ->
     Parser.parseNode fuel tokens current <> OutOfFuel /\
     forall current' v,
       Parser.parseNode fuel tokens current = OK (current', v) ->
       (current < current' <= List.length tokens)%nat) /\
  (forall current node,
     (2 * (List.length tokens - current) + 2 <= fuel)%nat ->
     Parser.parseChildren fuel tokens current node <> OutOfFuel /\
     forall current' v,
       Parser.parseChildren fuel tokens current node = OK (current', v) ->
       (current < current' <= List.length tokens)%nat).
Proof.
  induction fuel as [|fuel [IHt [IHn IHc]]].
  - split; [|split]; intros; lia.
  - split; [|split].
    + intros current Hf. rewrite parseToken_S.
      destruct (nth_error tokens current) as [token|] eqn:E0;
        [|split; [discriminate | intros ? ? H; discriminate]].
      pose proof (nth_error_lt _ _ _ E0) as L0.
      destruct (Tokenizer.type token);
        try (split; [discriminate | intros ? ? H; discriminate]);
        try apply parseValue_total.
      apply IHn; lia.
    + intros current Hlt Hf. rewrite parseNode_S.
      destruct (Nat.ltb_spec (List.length tokens) (current + 2)) as [Hl|Hl];
        [split; [discriminate | intros ? ? H; discriminate]|].
      destruct (nth_error tokens (S current)) as [label_token|];
        [|split; [discriminate | intros ? ? H; discriminate]].
      destruct (negb (Parser.isString (Tokenizer.type label_token)));
        [split; [discriminate | intros ? ? H; discriminate]|].
      destruct (parseScript_bounds Parser.ExpectedNodeSubscript tokens (S (S current)))
        as [S1 S2].
      destruct (Parser.parseScript Parser.ExpectedNodeSubscript tokens (S (S current)))
        as [[c2 [sub sup]]| e |];
        [|split; [discriminate | intros ? ? H; discriminate]|contradiction].
      destruct (S2 c2 _ eq_refl) as [S3 S4].
      destruct (IHc c2 (newNode (Tokenizer.text (Tokenizer.value label_token)) sub sup))
        as [H1 H2]; [lia|].
      split; [exact H1|]. intros c' v H. specialize (H2 c' v H). lia.
    + intros current node Hf. rewrite parseChildren_S.
      destruct (Nat.ltb_spec current (List.length tokens)) as [Hl|Hl]; cbn [andb].
      * destruct (negb (Parser.typeAt tokens current isClose)).
        -- destruct (IHt current) as [H1 H2]; [lia|].
           destruct (Parser.parseToken fuel tokens current) as [[c1 v1]| e |];
             [|split; [discriminate | intros ? ? H; discriminate]|contradiction].
           specialize (H2 c1 v1 eq_refl).
           destruct (IHc c1 (Parser.fileChild node v1)) as [H3 H4]; [lia|].
           split; [exact H3|]. intros c' v H. specialize (H4 c' v H). lia.
        -- destruct (Nat.leb_spec (List.length tokens) current) as [Hl2|Hl2]; [lia|].
           split; [discriminate|]. intros c' v H. inversion H; subst. lia.
      * destruct (Nat.leb_spec (List.length tokens) current) as [Hl2|Hl2]; [|lia].
        split; [discriminate | intros ? ? H; discriminate].
Qed.

Lemma parseLoop_total (fuel : nat) (tokens : list Tokenizer.Token) (current : nat)
    (values : list Parser.SyntaxNode) :
  (List.length tokens - current <= fuel)%nat ->
  Parser.parseLoop fuel tokens current values <> OutOfFuel.
Proof.
  revert current values. induction fuel as [|fuel IH]; intros current values Hf.
  - simpl. destruct (Nat.ltb_spec current (List.length tokens)); [lia | discriminate].
  - simpl. destruct (Nat.ltb_spec current (List.length tokens)) as [Hl|Hl]; [|discriminate].
    destruct (parser_ends (2 * List.length tokens + 1) tokens) as [Ht _].
    destruct (Ht current) as [H1 H2]; [lia|].
    change (List.length tokens + (List.length tokens + 0) + 1)%nat
      with (2 * List.length tokens + 1)%nat.
    destruct (Parser.parseToken (2 * List.length tokens + 1) tokens current)
      as [[c1 v1]| e |]; [|discriminate|contradiction].
    specialize (H2 c1 v1 eq_refl). apply IH. lia.
Qed.

(** [parse] ends for every token sequence. *)
Lemma parse_total (tokens : list Tokenizer.Token) : Parser.parse tokens <> OutOfFuel.
Proof.
  unfold Parser.parse. pose proof (parseLoop_total (List.length tokens) tokens 0 []) as H.
  destruct (Parser.parseLoop (List.length tokens) tokens 0 []); try discriminate.
  exfalso. apply H; [lia | reflexivity].
Qed.

(** ** The arrow directives of a leaf, as the specification words them *)

(** The directive of an operator [op] with the target [tgt] and the optional
    label [lbl]: its flags are those the specification lists. *)
Definition directiveOf (op : Tokenizer.TokenType) (tgt : Tokenizer.TokenValue)
    (lbl : option string) : Parser.ArrowDirective :=
  let '(endsTo, endsFrom, isDotted) := flagsOf op in
  {| Parser.ends := {| Parser.to := endsTo; Parser.from := endsFrom |};
     Parser.target := tgt;
     Parser.arrow_label := lbl;
     Parser.dotted := isDotted |}.

(** A directive put before the directives of a result. *)
Definition consDirective (d : Parser.ArrowDirective)
    (r : Parser.Parsed (list Parser.ArrowDirective)) : Parser.Parsed (list Parser.ArrowDirective) :=
  match r with
  | OK (c, ds) => OK (c, d :: ds)
  | Err e => Err e
  | OutOfFuel => OutOfFuel
  end.

(** [ArrowsRead tokens c r]: reading arrow directives from the position [c]
    gives [r], the position behind them and the directives, or an error.
    - Where no arrow operator stands, nothing is read.
    - An arrow operator followed by a token that is no number is the error
      that names the position of that token.
    - An arrow operator followed by a number is a directive; its label is
      the next token when that is a string or a quoted string; an unquoted
      [,] behind it is skipped; and reading goes on. *)
Inductive ArrowsRead (tokens : list Tokenizer.Token)
    : nat -> Parser.Parsed (list Parser.ArrowDirective) -> Prop :=
| read_stop (c : nat) :
    Parser.typeAt tokens c Parser.isArrowType = false ->
    ArrowsRead tokens c (OK (c, []))
| read_no_number (c : nat) (op tgt : Tokenizer.Token) :
    nth_error tokens c = Some op -> Parser.isArrowType (Tokenizer.type op) = true ->
    nth_error tokens (S c) = Some tgt -> Tokenizer.type tgt <> Tokenizer.NUMBER ->
    ArrowsRead tokens c (Err (Parser.ExpectedColumnNumber (S c)))
| read_directive (c : nat) (op tgt : Tokenizer.Token) (lbl : option string) (next : nat)
    (r : Parser.Parsed (list Parser.ArrowDirective)) :
    nth_error tokens c = Some op -> Parser.isArrowType (Tokenizer.type op) = true ->
    nth_error tokens (S c) = Some tgt -> Tokenizer.type tgt = Tokenizer.NUMBER ->
    labelAt tokens (S (S c)) = (lbl, next) ->
    ArrowsRead tokens (if Parser.isComma tokens next then S next else next) r ->
    ArrowsRead tokens c
      (consDirective (directiveOf (Tokenizer.type op) (Tokenizer.value tgt) lbl) r).

(** The last token is a closing bracket, as the pre-check requires. *)
Definition endsWithClose (tokens : list Tokenizer.Token) : Prop :=
  Parser.typeAt tokens (List.length tokens - 1) isClose = true.

Lemma endsWithClose_closedAtEnd (tokens : list Tokenizer.Token) :
  endsWithClose tokens -> closedAtEnd tokens.
Proof.
  unfold endsWithClose, Parser.typeAt. intros H i t E Hn.
  pose proof (nth_error_lt _ _ _ E) as L.
  destruct (Nat.eq_dec i (List.length tokens - 1)) as [Ei|Ei]; [|lia].
  exfalso. subst i. rewrite E in H. unfold isClose in H. apply eqb_true_iff in H. contradiction.
Qed.

Definition prepend (acc : list Parser.ArrowDirective)
    (r : Parser.Parsed (list Parser.ArrowDirective)) : Parser.Parsed (list Parser.ArrowDirective) :=
  match r with
  | OK (c, ds) => OK (c, acc ++ ds)
  | Err e => Err e
  | OutOfFuel => OutOfFuel
  end.

Lemma prepend_cons (acc : list Parser.ArrowDirective) (d : Parser.ArrowDirective)
    (r : Parser.Parsed (list Parser.ArrowDirective)) :
  prepend (acc ++ [d]) r = prepend acc (consDirective d r).
Proof. destruct r as [[c ds]| e |]; simpl; [rewrite <- app_assoc|..]; reflexivity. Qed.

Lemma prepend_nil (r : Parser.Parsed (list Parser.ArrowDirective)) : prepend [] r = r.
Proof. destruct r as [[c ds]| e |]; reflexivity. Qed.

Lemma mkDirective_directiveOf (ty : Tokenizer.TokenType) (v : Tokenizer.TokenValue)
    (l : option string) :
  Parser.isArrowType ty = true -> Parser.mkDirective ty v l = directiveOf ty v l.
Proof. destruct ty; intro H; try discriminate; reflexivity. Qed.

Lemma isArrowType_not_close (t : Tokenizer.Token) :
  Parser.isArrowType (Tokenizer.type t) = true -> Tokenizer.type t <> Tokenizer.BRACKET_CLOSE.
Proof. intros H E. rewrite E in H. discriminate. Qed.

Lemma isComma_not_close (tokens : list Tokenizer.Token) (c : nat) :
  Parser.isComma tokens c = true ->
  exists t, nth_error tokens c = Some t /\ Tokenizer.type t <> Tokenizer.BRACKET_CLOSE.
Proof.
  unfold Parser.isComma. destruct (nth_error tokens c) as [t|]; [|discriminate].
  intro H. apply andb_true_iff in H. destruct H as [H _]. apply eqb_true_iff in H.
  exists t. split; [reflexivity|]. rewrite H. discriminate.
Qed.

(** The two loops of the arrow part of [parseValue], the outer one from a
    position [c] and the inner one from a position behind a comma, read
    what [ArrowsRead] describes. *)
Lemma arrows_read (tokens : list Tokenizer.Token) :
  closedAtEnd tokens ->
  forall m c, (List.length tokens - c <= m)%nat -> (c <= List.length tokens)%nat ->
  exists r,
    ArrowsRead tokens c r /\
    (forall acc fuel, (List.length tokens - c < fuel)%nat ->
       Parser.arrowLoop fuel tokens c acc = prepend acc r) /\
    ((c < List.length tokens)%nat ->
     forall acc fr fl,
       (List.length tokens - c < fr)%nat -> (List.length tokens - c < fl)%nat ->
       match Parser.arrowRun fr tokens c acc with
       | OK (c', a') => Parser.arrowLoop fl tokens c' a'
       | Err e => Err e
       | OutOfFuel => OutOfFuel
       end = prepend acc r).
Proof.
  intro Hclosed.
  assert (Hstop : forall c, Parser.typeAt tokens c Parser.isArrowType = false ->
            ArrowsRead tokens c (OK (c, [])) /\
            (forall acc fuel, (List.length tokens - c < fuel)%nat ->
               Parser.arrowLoop fuel tokens c acc = prepend acc (OK (c, []))) /\
            ((c < List.length tokens)%nat ->
             forall acc fr fl,
               (List.length tokens - c < fr)%nat -> (List.length tokens - c < fl)%nat ->
               match Parser.arrowRun fr tokens c acc with
               | OK (c', a') => Parser.arrowLoop fl tokens c' a'
               | Err e => Err e
               | OutOfFuel => OutOfFuel
               end = prepend acc (OK (c, [])))).
  { intros c Ha. split; [constructor; exact Ha|].
    assert (Hloop : forall acc fuel, (0 < fuel)%nat ->
              Parser.arrowLoop fuel tokens c acc = OK (c, acc ++ [])).
    { intros acc [|fuel] Hf; [lia|]. rewrite arrowLoop_S, Ha, app_nil_r.
      destruct (S c <? List.length tokens)%nat; reflexivity. }
    split.
    - intros acc fuel Hf. apply Hloop. lia.
    - intros Hc acc [|fr] fl Hr Hl; [lia|]. rewrite arrowRun_S.
      unfold Parser.typeAt in Ha. destruct (nth_error tokens c) as [t|] eqn:E.
      + rewrite Ha. apply Hloop. lia.
      + apply nth_error_None in E. lia. }
  induction m as [|m IH]; intros c Hm Hc.
  - exists (OK (c, [])). apply Hstop. unfold Parser.typeAt.
    assert (E : nth_error tokens c = None) by (apply nth_error_None; lia).
    rewrite E. reflexivity.
  - destruct (Parser.typeAt tokens c Parser.isArrowType) eqn:Ha;
      [|exists (OK (c, [])); apply Hstop; exact Ha].
    unfold Parser.typeAt in Ha. destruct (nth_error tokens c) as [op|] eqn:Eop; [|discriminate].
    pose proof (Hclosed c op Eop (isArrowType_not_close op Ha)) as Lop.
    destruct (nth_error tokens (S c)) as [tgt|] eqn:Etgt;
      [|apply nth_error_None in Etgt; lia].
    assert (Hta : Parser.typeAt tokens c Parser.isArrowType = true)
      by (unfold Parser.typeAt; rewrite Eop; exact Ha).
    assert (Hlt : (S c <? List.length tokens)%nat = true) by (apply Nat.ltb_lt; lia).
    destruct (Tokenizer.eqb (Tokenizer.type tgt) Tokenizer.NUMBER) eqn:En.
    + apply eqb_true_iff in En.
      pose proof (labelAt_bounds tokens (S (S c))) as Hb.
      destruct (labelAt tokens (S (S c))) as [lbl next] eqn:El. cbn [snd] in Hb.
      destruct Hb as [[Hb1 Hb2] Hb3]; [lia|].
      set (d := directiveOf (Tokenizer.type op) (Tokenizer.value tgt) lbl).
      assert (Ed : Parser.mkDirective (Tokenizer.type op) (Tokenizer.value tgt) lbl = d)
        by (apply mkDirective_directiveOf; exact Ha).
      assert (Hrun : forall acc fr,
                Parser.arrowRun (S fr) tokens c acc =
                if Parser.isComma tokens next
                then Parser.arrowRun fr tokens (S next) (acc ++ [d])
                else OK (next, acc ++ [d])).
      { intros acc fr. rewrite arrowRun_S, Eop, Ha, Etgt.
        apply eqb_true_iff in En. rewrite En. cbn [negb]. rewrite El, Ed. reflexivity. }
      destruct (Parser.isComma tokens next) eqn:Ec.
      * destruct (isComma_not_close tokens next Ec) as [tc [Etc Htc]].
        pose proof (Hclosed next tc Etc Htc) as Lc.
        destruct (IH (S next)) as [r [R1 [R2 R3]]]; [lia | lia|].
        exists (consDirective d r). split.
        { apply (read_directive tokens c op tgt lbl next r Eop Ha Etgt En El).
          rewrite Ec. exact R1. }
        split.
        -- intros acc [|fuel] Hf; [lia|]. rewrite arrowLoop_S, Hlt, Hta, Hrun.
           rewrite <- prepend_cons. apply R3; lia.
        -- intros _ acc [|fr] fl Hr Hl; [lia|]. rewrite Hrun.
           rewrite <- prepend_cons. apply R3; lia.
      * destruct (IH next) as [r [R1 [R2 R3]]]; [lia | lia|].
        exists (consDirective d r). split.
        { apply (read_directive tokens c op tgt lbl next r Eop Ha Etgt En El).
          rewrite Ec. exact R1. }
        split.
        -- intros acc [|fuel] Hf; [lia|]. rewrite arrowLoop_S, Hlt, Hta, Hrun.
           rewrite <- prepend_cons. apply R2; lia.
        -- intros _ acc [|fr] fl Hr Hl; [lia|]. rewrite Hrun.
           rewrite <- prepend_cons. apply R2; lia.
    + exists (Err (Parser.ExpectedColumnNumber (S c))).
      assert (Hrun : forall acc fr,
                Parser.arrowRun (S fr) tokens c acc = Err (Parser.ExpectedColumnNumber (S c))).
      { intros acc fr. rewrite arrowRun_S, Eop, Ha, Etgt, En. reflexivity. }
      split; [apply (read_no_number tokens c op tgt Eop Ha Etgt);
              apply eqb_false_iff; exact En|].
      split.
      * intros acc [|fuel] Hf; [lia|]. rewrite arrowLoop_S, Hlt, Hta, Hrun. reflexivity.
      * intros _ acc [|fr] fl Hr Hl; [lia|]. rewrite Hrun. reflexivity.
Qed.

Lemma parseArrows_read (tokens : list Tokenizer.Token) (c : nat) :
  closedAtEnd tokens -> (c <= List.length tokens)%nat ->
  ArrowsRead tokens c (Parser.parseArrows tokens c []).
Proof.
  intros Hclosed Hc.
  destruct (arrows_read tokens Hclosed (List.length tokens - c) c) as [r [R1 [R2 _]]];
    [lia | exact Hc|].
  unfold Parser.parseArrows. rewrite R2; [|lia]. rewrite prepend_nil. exact R1.
Qed.

(** No arrow operator stands at the positions from [a] up to [b]. *)
Definition noArrow (tokens : list Tokenizer.Token) (a b : nat) : Prop :=
  forall i, (a <= i < b)%nat -> Parser.typeAt tokens i Parser.isArrowType = false.

Lemma isString_not_arrow (ty : Tokenizer.TokenType) :
  Parser.isString ty = true -> Parser.isArrowType ty = false.
Proof. destruct ty; intro H; try discriminate; reflexivity. Qed.

Lemma isPrefix_not_arrow (ty : Tokenizer.TokenType) :
  Parser.isPrefix ty = true -> Parser.isArrowType ty = false.
Proof. destruct ty; intro H; try discriminate; reflexivity. Qed.

Lemma stringRun_noArrow (tokens : list Tokenizer.Token) (c : nat) :
  noArrow tokens c (c + List.length (Parser.stringRun (skipn c tokens))).
Proof.
  intros i Hi. assert (Ei : i = (c + (i - c))%nat) by lia.
  assert (Hk : (i - c < List.length (Parser.stringRun (skipn c tokens)))%nat) by lia.
  unfold Parser.typeAt. rewrite Ei. rewrite <- nth_error_skipn. revert Hk.
  generalize (i - c)%nat. generalize (skipn c tokens). clear. intro rest.
  induction rest as [|t r IH]; intros k Hk; simpl in Hk; [lia|].
  destruct (Tokenizer.eqb (Tokenizer.type t) Tokenizer.STRING) eqn:Es; simpl in Hk; [|lia].
  destruct k as [|k].
  - simpl. apply eqb_true_iff in Es. rewrite Es. reflexivity.
  - simpl. apply IH. lia.
Qed.

Lemma parseScript_noArrow (err : nat -> Parser.ParseError) (tokens : list Tokenizer.Token)
    (c : nat) :
  match Parser.parseScript err tokens c with
  | OK (c', _) => (c <= c')%nat /\ noArrow tokens c c'
  | Err e => exists n, e = err n
  | OutOfFuel => False
  end.
Proof.
  unfold Parser.parseScript.
  destruct (Nat.ltb_spec (S c) (List.length tokens)) as [Hl|Hl]; cbn [andb];
    [|split; [lia | intros i Hi; lia]].
  destruct (Parser.typeAt tokens c Parser.isPrefix) eqn:Ep;
    [|split; [lia | intros i Hi; lia]].
  destruct (nth_error tokens (S c)) as [t|] eqn:Et; [|apply nth_error_None in Et; lia].
  destruct (Parser.isString (Tokenizer.type t)) eqn:Es; cbn [negb]; [|eexists; reflexivity].
  assert (Hn : noArrow tokens c (S (S c))).
  { intros i Hi. assert (Hi' : i = c \/ i = S c) by lia. destruct Hi' as [E|E]; subst i.
    - unfold Parser.typeAt in *. destruct (nth_error tokens c) as [p|]; [|reflexivity].
      apply isPrefix_not_arrow. exact Ep.
    - unfold Parser.typeAt. rewrite Et. apply isString_not_arrow. exact Es. }
  destruct (Parser.typeAt tokens c
              (fun ty => Tokenizer.eqb ty Tokenizer.SUPERSCRIPT_PREFIX));
    (split; [lia | exact Hn]).
Qed.

(** C1. For tokens that end with a closing bracket, as every token sequence
    the pre-check accepts does:
    - the arrow part of a leaf, from any position, reads the directives
      [ArrowsRead] describes: an arrow operator must be followed by a number,
      or parsing fails with the error that names the position of the token
      behind the operator; the label of the directive is the next token when
      that is a string or a quoted string; the flags are [->] ends to, [<-]
      ends from, [<>] both, [.>] ends to and dotted; an unquoted [,] behind
      the directive is skipped and the next directive is read;
    - a leaf that begins at a string token has a label and script part with
      no arrow operator in it, up to a position [c]; the leaf fails in the
      script part, or its outcome is the one of the directives read from
      [c]: their error, or a leaf whose [arrows] are those directives
      ([undefined] when there is none). *)
Theorem arrow_directive (tokens : list Tokenizer.Token) :
  endsWithClose tokens ->
  (forall c, (c <= List.length tokens)%nat ->
     ArrowsRead tokens c (Parser.parseArrows tokens c [])) /\
  (forall start, Parser.typeAt tokens start Parser.isString = true ->
     exists c, (start < c <= List.length tokens)%nat /\ noArrow tokens start c /\
       match Parser.parseValue tokens start with
       | OK (next, v) =>
           exists ds, ArrowsRead tokens c (OK (next, ds)) /\
                      Parser.arrows v = match ds with [] => None | _ :: _ => Some ds end
       | Err e => ArrowsRead tokens c (Err e) \/ exists n, e = Parser.ExpectedValueSubscript n
       | OutOfFuel => False
       end).
Proof.
  intro Hend. pose proof (endsWithClose_closedAtEnd tokens Hend) as Hclosed.
  split; [intros c Hc; apply parseArrows_read; assumption|].
  intros start Hs. unfold Parser.parseValue. unfold Parser.typeAt in Hs.
  destruct (nth_error tokens start) as [token|] eqn:E0; [|discriminate].
  pose proof (nth_error_lt _ _ _ E0) as L0.
  set (lc := if Tokenizer.eqb (Tokenizer.type token) Tokenizer.STRING then _ else _).
  assert (Hlc : (start < snd lc <= List.length tokens)%nat /\ noArrow tokens start (snd lc)).
  { unfold lc. destruct (Tokenizer.eqb (Tokenizer.type token) Tokenizer.STRING) eqn:Es;
      cbn [snd].
    - split; [|apply stringRun_noArrow].
      destruct (skipn_nth_error _ _ _ E0) as [r Er].
      pose proof (stringRun_length (skipn start tokens)) as Hr.
      rewrite length_skipn in Hr. rewrite Er in *. simpl. rewrite Es. simpl. simpl in Hr.
      rewrite Es in Hr. simpl in Hr. lia.
    - split; [lia|]. intros i Hi. assert (i = start) by lia. subst i.
      unfold Parser.typeAt. rewrite E0. apply isString_not_arrow. exact Hs. }
  destruct lc as [label c1]. cbn [snd] in Hlc. destruct Hlc as [Hc1 Hn1].
  pose proof (parseScript_noArrow Parser.ExpectedValueSubscript tokens c1) as Hscript.
  pose proof (parseScript_bounds Parser.ExpectedValueSubscript tokens c1) as [_ Hsb].
  destruct (Parser.parseScript Parser.ExpectedValueSubscript tokens c1)
    as [[c2 [sub sup]]| e |]; [| |contradiction].
  - destruct Hscript as [Hle Hn2]. destruct (Hsb c2 _ eq_refl) as [_ Hc2].
    exists c2. split; [lia|]. split.
    { intros i Hi. destruct (Nat.lt_ge_cases i c1); [apply Hn1 | apply Hn2]; lia. }
    pose proof (parseArrows_read tokens c2 Hclosed) as Hr. specialize (Hr ltac:(lia)).
    destruct (Parser.parseArrows tokens c2 []) as [[c3 ds]| e |] eqn:Ea.
    + exists ds. split; [exact Hr|]. cbn [Parser.arrows]. destruct ds; reflexivity.
    + left. exact Hr.
    + unfold Parser.parseArrows in Ea.
      destruct (arrowLoop_ends (S (List.length tokens)) tokens c2 []) as [A _]; [lia|].
      contradiction.
  - exists c1. split; [lia|]. split; [exact Hn1|]. right. exact Hscript.
Qed.

(** The example of the arrow part: in [[F G ->1 "lbl", .>2]] the leaf [G]
    carries the two directives, the first with its label. *)
Lemma arrow_directive_example :
  Parser.parseArrows arrowTokens 3 []
  = OK (9%nat,
        [directiveOf Tokenizer.ARROW_TO (Tokenizer.VNumber 1) (Some "lbl");
         directiveOf Tokenizer.ARROW_DOTTED_TO (Tokenizer.VNumber 2) None]) /\
  ArrowsRead arrowTokens 3 (Parser.parseArrows arrowTokens 3 []).
Proof.
  split; [vm_compute; reflexivity|].
  destruct (arrow_directive arrowTokens) as [H _]; [reflexivity|].
  apply H. simpl. lia.
Defined.

(** An arrow operator that is not followed by a number: in [[F G -> x]] the
    leaf [G] fails with the position 4 of the token behind the operator. *)
Lemma arrow_without_number :
  Tokenizer.tokenize "[F G -> x]"
  = OK [Tokenizer.mkToken Tokenizer.BRACKET_OPEN Tokenizer.VNull;
        Tokenizer.mkToken Tokenizer.STRING (Tokenizer.VString "F");
        Tokenizer.mkToken Tokenizer.STRING (Tokenizer.VString "G");
        Tokenizer.mkToken Tokenizer.ARROW_TO Tokenizer.VNull;
        Tokenizer.mkToken Tokenizer.STRING (Tokenizer.VString "x");
        Tokenizer.mkToken Tokenizer.BRACKET_CLOSE Tokenizer.VNull] /\
  parsePhrase "[F G -> x]" = Err (ParseFailed (Parser.ExpectedColumnNumber 4)).
Proof. split; vm_compute; reflexivity. Qed.

(** ** The children of a node (parser.js) *)

(** A feature leaf: a value whose label begins with [+]. *)
Definition isFeatureLeaf (v : Parser.SyntaxNode) : bool :=
  Parser.eqb (Parser.type v) Parser.VALUE && Parser.testFeature (Parser.label v).

(** A bare case leaf: a value whose whole label is a case marker. *)
Definition isCaseLeaf (v : Parser.SyntaxNode) : bool :=
  Parser.eqb (Parser.type v) Parser.VALUE && Parser.testCase (Parser.label v).

(** [Children tokens fuel c vs c']: from the position [c] the children loop
    of [parseNode] gets the values [vs] from [parseToken], one after the
    other, and then stands at the closing bracket of position [c']. *)
Inductive Children (tokens : list Tokenizer.Token)
    : nat -> nat -> list Parser.SyntaxNode -> nat -> Prop :=
| Children_close (fuel c : nat) :
    (c < List.length tokens)%nat ->
    Parser.typeAt tokens c isClose = true ->
    Children tokens (S fuel) c [] c
| Children_child (fuel c c1 : nat) (v : Parser.SyntaxNode) (vs : list Parser.SyntaxNode)
    (c' : nat) :
    (c < List.length tokens)%nat ->
    Parser.typeAt tokens c isClose = false ->
    Parser.parseToken fuel tokens c = OK (c1, v) ->
    Children tokens fuel c1 vs c' ->
    Children tokens (S fuel) c (v :: vs) c'.

Lemma parseChildren_Children (fuel : nat) (tokens : list Tokenizer.Token) (c c2 : nat)
    (node node' : Parser.SyntaxNode) :
  Parser.parseChildren fuel tokens c node = OK (c2, node') ->
  exists vs c', Children tokens fuel c vs c' /\ c2 = S c' /\
                node' = fold_left Parser.fileChild vs node.
Proof.
  revert c node. induction fuel as [|fuel IH]; intros c node H; [discriminate|].
  rewrite parseChildren_S in H.
  destruct (Nat.ltb_spec c (List.length tokens)) as [Hl|Hl]; cbn [andb] in H.
  - destruct (Parser.typeAt tokens c isClose) eqn:Ec; cbn [negb] in H.
    + destruct (Nat.leb_spec (List.length tokens) c) as [Hl2|Hl2]; [discriminate|].
      inversion H; subst. exists [], c. split; [constructor; assumption | split; reflexivity].
    + destruct (Parser.parseToken fuel tokens c) as [[c1 v1]| e |] eqn:Et; try discriminate.
      destruct (IH c1 _ H) as [vs [c' [Hc [E1 E2]]]].
      exists (v1 :: vs), c'. split; [econstructor; eassumption | split; assumption].
  - destruct (Nat.leb_spec (List.length tokens) c) as [Hl2|Hl2]; [discriminate | lia].
Qed.

(** [x] is [r] but for its label and its case feature. *)
Definition sameButCase (r x : Parser.SyntaxNode) : Prop :=
  Parser.type x = Parser.type r /\ Parser.subscript x = Parser.subscript r /\
  Parser.superscript x = Parser.superscript r /\ Parser.values x = Parser.values r /\
  Parser.features x = Parser.features r /\ Parser.arrows x = Parser.arrows r.

Lemma sameButCase_refl (r : Parser.SyntaxNode) : sameButCase r r.
Proof. unfold sameButCase. repeat split. Qed.

Lemma sameButCase_trans (a b c : Parser.SyntaxNode) :
  sameButCase a b -> sameButCase b c -> sameButCase a c.
Proof. unfold sameButCase. intuition congruence. Qed.

Lemma sameButCase_setLabelCase (r : Parser.SyntaxNode) (l : string) (c : option string) :
  sameButCase r (Parser.setLabelCase r l c).
Proof. unfold sameButCase. repeat split. Qed.

Lemma attachCase_cases (prev value : Parser.SyntaxNode) :
  Parser.attachCase prev value = prev \/
  exists l c, Parser.attachCase prev value = Parser.setLabelCase prev l c.
Proof.
  unfold Parser.attachCase.
  destruct (negb (Js.truthy (Parser.caseFeature prev)) &&
            Parser.eqb (Parser.type prev) Parser.VALUE); [|left; reflexivity].
  destruct (Parser.matchCase (Parser.label prev)) as [[g1 g2]|]; right; eexists; eexists;
    reflexivity.
Qed.

(** The value the last branch of the loop body pushes for [value]. *)
Definition splitCase (value : Parser.SyntaxNode) : Parser.SyntaxNode :=
  match Parser.matchCase (Parser.label value) with
  | Some (g1, g2) => Parser.setLabelCase value (Js.trim g1) (Some g2)
  | None => value
  end.

Lemma fileChild_cases (node value : Parser.SyntaxNode) :
  Parser.fileChild node value =
  if isFeatureLeaf value then Parser.pushFeature node (Parser.label value)
  else if isCaseLeaf value then
    match List.rev (Parser.values node) with
    | prev :: before =>
        Parser.setValues node (List.rev before ++ [Parser.attachCase prev value])
    | [] => node
    end
  else Parser.setValues node (Parser.values node ++ [splitCase value]).
Proof. reflexivity. Qed.

Lemma rev_cons_inv {A : Type} (l : list A) (x : A) (before : list A) :
  List.rev l = x :: before -> l = List.rev before ++ [x].
Proof.
  intro H. rewrite <- (rev_involutive l), H. reflexivity.
Qed.

Lemma fileChild_type (node value : Parser.SyntaxNode) :
  Parser.type (Parser.fileChild node value) = Parser.type node.
Proof.
  rewrite fileChild_cases. destruct (isFeatureLeaf value); [reflexivity|].
  destruct (isCaseLeaf value); [|reflexivity].
  destruct (List.rev (Parser.values node)); reflexivity.
Qed.

Lemma fileChild_features (node value : Parser.SyntaxNode) :
  Parser.features (Parser.fileChild node value) =
  Parser.features node ++ (if isFeatureLeaf value then [Parser.label value] else []).
Proof.
  rewrite fileChild_cases. destruct (isFeatureLeaf value); [reflexivity|].
  rewrite app_nil_r. destruct (isCaseLeaf value); [|reflexivity].
  destruct (List.rev (Parser.values node)); reflexivity.
Qed.

(** Where the children of a node come from, one step of the loop. *)
Lemma fileChild_origin (node value x : Parser.SyntaxNode) :
  In x (Parser.values (Parser.fileChild node value)) ->
  (exists y, In y (Parser.values node) /\ sameButCase y x) \/
  (isFeatureLeaf value = false /\ sameButCase value x).
Proof.
  rewrite fileChild_cases. destruct (isFeatureLeaf value) eqn:Ef.
  - intro H. left. exists x. split; [exact H | apply sameButCase_refl].
  - destruct (isCaseLeaf value).
    + destruct (List.rev (Parser.values node)) as [|prev before] eqn:Er.
      * intro H. left. exists x. split; [exact H | apply sameButCase_refl].
      * apply rev_cons_inv in Er. cbn [Parser.setValues Parser.values]. intro H.
        apply in_app_or in H. left. destruct H as [H|[H|[]]].
        -- exists x. split; [rewrite Er; apply in_or_app; left; exact H | apply sameButCase_refl].
        -- exists prev. split; [rewrite Er; apply in_or_app; right; left; reflexivity|].
           subst x. destruct (attachCase_cases prev value) as [E|[l [c E]]]; rewrite E;
             [apply sameButCase_refl | apply sameButCase_setLabelCase].
    + cbn [Parser.setValues Parser.values]. intro H. apply in_app_or in H.
      destruct H as [H|[H|[]]].
      * left. exists x. split; [exact H | apply sameButCase_refl].
      * right. split; [reflexivity|]. subst x. unfold splitCase.
        destruct (Parser.matchCase (Parser.label value)) as [[g1 g2]|];
          [apply sameButCase_setLabelCase | apply sameButCase_refl].
Qed.

Lemma fold_fileChild_type (vs : list Parser.SyntaxNode) (node : Parser.SyntaxNode) :
  Parser.type (fold_left Parser.fileChild vs node) = Parser.type node.
Proof.
  revert node. induction vs as [|v vs IH]; intro node; [reflexivity|].
  simpl. rewrite IH. apply fileChild_type.
Qed.

Lemma fold_fileChild_features (vs : list Parser.SyntaxNode) (node : Parser.SyntaxNode) :
  Parser.features (fold_left Parser.fileChild vs node) =
  Parser.features node ++ map Parser.label (filter isFeatureLeaf vs).
Proof.
  revert node. induction vs as [|v vs IH]; intro node; simpl; [rewrite app_nil_r; reflexivity|].
  rewrite IH, fileChild_features. destruct (isFeatureLeaf v); simpl;
    [rewrite <- app_assoc | rewrite app_nil_r]; reflexivity.
Qed.

Lemma fold_fileChild_origin (vs : list Parser.SyntaxNode) (node x : Parser.SyntaxNode) :
  In x (Parser.values (fold_left Parser.fileChild vs node)) ->
  (exists y, In y (Parser.values node) /\ sameButCase y x) \/
  (exists r, In r vs /\ isFeatureLeaf r = false /\ sameButCase r x).
Proof.
  revert node. induction vs as [|v vs IH]; intros node H; simpl in H.
  - left. exists x. split; [exact H | apply sameButCase_refl].
  - destruct (IH _ H) as [[y [Hy Sy]] | [r [Hr [Fr Sr]]]].
    + destruct (fileChild_origin node v y Hy) as [[y0 [Hy0 Sy0]] | [Fv Sv]].
      * left. exists y0. split; [exact Hy0 | exact (sameButCase_trans _ _ _ Sy0 Sy)].
      * right. exists v. split; [left; reflexivity|].
        split; [exact Fv | exact (sameButCase_trans _ _ _ Sv Sy)].
    + right. exists r. split; [right; exact Hr | split; assumption].
Qed.

(** *** An invariant of all nodes of a parsed tree *)

Section ParserInvariant.

Variable tokens : list Tokenizer.Token.
Variable Q : Parser.SyntaxNode -> Prop.

Hypothesis Q_relabel : forall n l c, Q n -> Q (Parser.setLabelCase n l c).
Hypothesis Q_value : forall c c' v, Parser.parseValue tokens c = OK (c', v) -> Q v.
Hypothesis Q_node :
  forall fuel c c' raws label sub sup,
    Children tokens fuel c raws c' ->
    Q (fold_left Parser.fileChild raws (newNode label sub sup)).

Definition allQ (v : Parser.SyntaxNode) : Prop := forall n, In n (syntaxNodes v) -> Q n.

Lemma syntaxNodes_unfold (n : Parser.SyntaxNode) :
  syntaxNodes n = n :: flat_map syntaxNodes (Parser.values n).
Proof. destruct n; reflexivity. Qed.

Lemma allQ_relabel (v : Parser.SyntaxNode) (l : string) (c : option string) :
  allQ v -> allQ (Parser.setLabelCase v l c).
Proof.
  intros H n Hn. rewrite syntaxNodes_unfold in Hn. destruct Hn as [E|Hn].
  - subst n. apply Q_relabel. apply H. rewrite syntaxNodes_unfold. left. reflexivity.
  - apply H. rewrite syntaxNodes_unfold. right. exact Hn.
Qed.

Lemma fileChild_allQ (node value : Parser.SyntaxNode) :
  (forall x, In x (Parser.values node) -> allQ x) -> allQ value ->
  forall x, In x (Parser.values (Parser.fileChild node value)) -> allQ x.
Proof.
  intros Hn Hv x. rewrite fileChild_cases. destruct (isFeatureLeaf value); [apply Hn|].
  destruct (isCaseLeaf value).
  - destruct (List.rev (Parser.values node)) as [|prev before] eqn:Er; [apply Hn|].
    apply rev_cons_inv in Er. cbn [Parser.setValues Parser.values]. intro H.
    apply in_app_or in H. destruct H as [H|[H|[]]].
    + apply Hn. rewrite Er. apply in_or_app. left. exact H.
    + subst x.
      assert (Hp : allQ prev) by (apply Hn; rewrite Er; apply in_or_app; right; left; reflexivity).
      destruct (attachCase_cases prev value) as [E|[l [c E]]]; rewrite E;
        [exact Hp | apply allQ_relabel; exact Hp].
  - cbn [Parser.setValues Parser.values]. intro H. apply in_app_or in H.
    destruct H as [H|[H|[]]]; [apply Hn; exact H|]. subst x. unfold splitCase.
    destruct (Parser.matchCase (Parser.label value)) as [[g1 g2]|];
      [apply allQ_relabel|]; exact Hv.
Qed.

Lemma fold_fileChild_allQ (vs : list Parser.SyntaxNode) (node : Parser.SyntaxNode) :
  (forall x, In x (Parser.values node) -> allQ x) -> Forall allQ vs ->
  forall x, In x (Parser.values (fold_left Parser.fileChild vs node)) -> allQ x.
Proof.
  intros Hn Hvs. revert node Hn. induction Hvs as [|v vs Hv Hr IH]; intros node Hn; [exact Hn|].
  simpl. apply IH. apply fileChild_allQ; assumption.
Qed.

Lemma parseValue_values (c c' : nat) (v : Parser.SyntaxNode) :
  Parser.parseValue tokens c = OK (c', v) ->
  Parser.type v = Parser.VALUE /\ Parser.values v = [] /\
  Parser.caseFeature v =
  (if Parser.testCase (Parser.label v) then Some (Parser.label v) else None).
Proof.
  unfold Parser.parseValue. destruct (nth_error tokens c) as [token|]; [|discriminate].
  destruct (if Tokenizer.eqb (Tokenizer.type token) Tokenizer.STRING then _ else _)
    as [label c1].
  destruct (Parser.parseScript Parser.ExpectedValueSubscript tokens c1)
    as [[c2 [sub sup]]| e |]; try discriminate.
  destruct (Parser.parseArrows tokens c2 []) as [[c3 ar]| e |]; try discriminate.
  intro H. inversion H; subst. repeat split.
Qed.

Lemma Children_allQ (fuel c c' : nat) (raws : list Parser.SyntaxNode) :
  (forall f c c' v, (f < fuel)%nat -> Parser.parseToken f tokens c = OK (c', v) -> allQ v) ->
  Children tokens fuel c raws c' -> Forall allQ raws.
Proof.
  intros IH H. induction H as [|fuel c c1 v vs c' Hl Hc Ht Hch IHch]; [constructor|].
  constructor.
  - apply (IH fuel c c1 v); [lia | exact Ht].
  - apply IHch. intros f c0 c0' v0 Hf. apply IH. lia.
Qed.

Lemma parseToken_allQ (fuel c c' : nat) (v : Parser.SyntaxNode) :
  Parser.parseToken fuel tokens c = OK (c', v) -> allQ v.
Proof.
  revert c c' v. induction fuel as [fuel IH] using lt_wf_ind. intros c c' v H.
  destruct fuel as [|fuel]; [discriminate|]. rewrite parseToken_S in H.
  destruct (nth_error tokens c) as [token|]; [|discriminate].
  assert (Hval : Parser.parseValue tokens c = OK (c', v) -> allQ v).
  { intros Hv n Hn. destruct (parseValue_values c c' v Hv) as [_ [E _]].
    rewrite syntaxNodes_unfold, E in Hn. destruct Hn as [En|[]]. subst n.
    exact (Q_value c c' v Hv). }
  destruct (Tokenizer.type token); try discriminate; try (apply Hval; exact H).
  destruct fuel as [|fuel]; [discriminate|]. rewrite parseNode_S in H.
  destruct (List.length tokens <? c + 2)%nat; [discriminate|].
  destruct (nth_error tokens (S c)) as [label_token|]; [|discriminate].
  destruct (negb (Parser.isString (Tokenizer.type label_token))); [discriminate|].
  destruct (Parser.parseScript Parser.ExpectedNodeSubscript tokens (S (S c)))
    as [[c2 [sub sup]]| e |]; try discriminate.
  destruct (parseChildren_Children _ _ _ _ _ _ H) as [raws [c3 [Hch [_ Ev]]]]. subst v.
  assert (Hraws : Forall allQ raws).
  { apply (Children_allQ fuel c2 c3); [|exact Hch].
    intros f c0 c0' v0 Hf. apply IH. lia. }
  intros n Hn. rewrite syntaxNodes_unfold in Hn. destruct Hn as [E|Hn].
  - subst n. exact (Q_node fuel c2 c3 raws _ sub sup Hch).
  - apply in_flat_map in Hn. destruct Hn as [x [Hx Hn]].
    refine (fold_fileChild_allQ raws _ _ Hraws x Hx n Hn). intros y [].
Qed.

Lemma parseLoop_allQ (fuel c : nat) (values values' : list Parser.SyntaxNode) :
  Forall allQ values ->
  Parser.parseLoop fuel tokens c values = OK values' -> Forall allQ values'.
Proof.
  revert c values. induction fuel as [|fuel IH]; intros c values Hv H; simpl in H.
  - destruct (c <? List.length tokens)%nat; [discriminate|]. inversion H; subst. exact Hv.
  - destruct (c <? List.length tokens)%nat; [|inversion H; subst; exact Hv].
    destruct (Parser.parseToken _ tokens c) as [[c1 v1]| e |] eqn:Et; try discriminate.
    apply (IH c1 (values ++ [v1])); [|exact H].
    apply Forall_app. split; [exact Hv|]. constructor; [|constructor].
    exact (parseToken_allQ _ _ _ _ Et).
Qed.

(** Every node of the tree below the root has the property [Q]. *)
Lemma parse_allQ (root : Parser.SyntaxNode) :
  Parser.parse tokens = OK root ->
  forall n, In n (syntaxNodes root) -> n = root \/ Q n.
Proof.
  unfold Parser.parse.
  destruct (Parser.parseLoop (List.length tokens) tokens 0 []) as [values| e |] eqn:E;
    try discriminate.
  intro H. inversion H; subst. intros n Hn. rewrite syntaxNodes_unfold in Hn.
  destruct Hn as [En|Hn]; [left; symmetry; exact En|]. right.
  cbn [Parser.mkRoot Parser.values] in Hn. apply in_flat_map in Hn.
  destruct Hn as [x [Hx Hn]].
  pose proof (parseLoop_allQ _ _ _ _ (Forall_nil _) E) as Hall.
  rewrite Forall_forall in Hall. exact (Hall x Hx n Hn).
Qed.

End ParserInvariant.

(** *** Feature leaves *)

(** The tree of [[X +FEAT [Y Z]]]. *)
Definition featureNode : Parser.SyntaxNode :=
  {| Parser.type := Parser.NODE; Parser.label := "X"; Parser.subscript := None;
     Parser.superscript := None; Parser.values := [node "Y" [leaf "Z" None]];
     Parser.features := ["+FEAT"]; Parser.caseFeature := None; Parser.arrows := None |}.

Definition featureTokens : list Tokenizer.Token :=
  [Tokenizer.mkToken Tokenizer.BRACKET_OPEN Tokenizer.VNull;
   Tokenizer.mkToken Tokenizer.STRING (Tokenizer.VString "X");
   Tokenizer.mkToken Tokenizer.STRING (Tokenizer.VString "+FEAT");
   Tokenizer.mkToken Tokenizer.BRACKET_OPEN Tokenizer.VNull;
   Tokenizer.mkToken Tokenizer.STRING (Tokenizer.VString "Y");
   Tokenizer.mkToken Tokenizer.STRING (Tokenizer.VString "Z");
   Tokenizer.mkToken Tokenizer.BRACKET_CLOSE Tokenizer.VNull;
   Tokenizer.mkToken Tokenizer.BRACKET_CLOSE Tokenizer.VNull].

(** *** Case markers *)

Lemma tryFrom_Some {A : Type} (n : nat) (f : nat -> option A) (x : A) :
  Parser.tryFrom n f = Some x -> exists k, (k <= n)%nat /\ f k = Some x.
Proof.
  induction n as [|n IH]; simpl; intro H.
  - destruct (f 0%nat) eqn:E; [|discriminate]. exists 0%nat. split; [lia | congruence].
  - destruct (f (S n)) eqn:E.
    + exists (S n). split; [lia | congruence].
    + destruct (IH H) as [k [Hk Hf]]. exists k. split; [lia | exact Hf].
Qed.

Lemma spacesThenBraced_braced (s g : string) :
  Parser.spacesThenBraced s = Some g -> Parser.braced g = true.
Proof.
  unfold Parser.spacesThenBraced. intro H. apply tryFrom_Some in H.
  destruct H as [k [_ H]]. destruct (Parser.braced (Js.drop k s)) eqn:E; [|discriminate].
  inversion H; subst. exact E.
Qed.

(** The second group of a match is a case marker. *)
Lemma matchCase_braced (s g1 g2 : string) :
  Parser.matchCase s = Some (g1, g2) -> Parser.braced g2 = true.
Proof.
  unfold Parser.matchCase. intro H. apply tryFrom_Some in H. destruct H as [p [_ H]].
  destruct (Parser.spacesThenBraced (Js.drop p s)) as [g|] eqn:E; [|discriminate].
  inversion H; subst. exact (spacesThenBraced_braced _ _ E).
Qed.

Lemma braced_truthy (g : string) : Parser.braced g = true -> Js.truthy (Some g) = true.
Proof. destruct g; [discriminate | reflexivity]. Qed.




(** *** The children a node is left with *)

(** A value the children loop keeps as a child: neither a feature leaf nor
    a bare case leaf. *)
Definition isKept (v : Parser.SyntaxNode) : bool :=
  negb (isFeatureLeaf v) && negb (isCaseLeaf v).

(** The child [x] as the values read behind it leave it: feature leaves
    pass it by, every bare case leaf up to the next child is offered to it
    by [attachCase]. *)
Fixpoint attachNext (x : Parser.SyntaxNode) (rest : list Parser.SyntaxNode)
    : Parser.SyntaxNode :=
  match rest with
  | [] => x
  | r :: rest' =>
      if isFeatureLeaf r then attachNext x rest'
      else if isCaseLeaf r then attachNext (Parser.attachCase x r) rest'
      else x
  end.

(** The children of a node from the values read for it, in order: the
    values kept, each after its case split and with the bare case leaves
    that follow it attached. *)
Fixpoint filed (raws : list Parser.SyntaxNode) : list Parser.SyntaxNode :=
  match raws with
  | [] => []
  | r :: rest =>
      if isKept r then attachNext (splitCase r) rest :: filed rest
      else filed rest
  end.

Lemma rev_nil_inv {A : Type} (l : list A) : List.rev l = [] -> l = [].
Proof. intro H. rewrite <- (rev_involutive l), H. reflexivity. Qed.

(** The loop of [parseNode], which rewrites the last child in place, leaves
    the children [filed] lists. *)
Lemma fold_fileChild_values (raws : list Parser.SyntaxNode) (node : Parser.SyntaxNode) :
  Parser.values (fold_left Parser.fileChild raws node) =
  match List.rev (Parser.values node) with
  | [] => filed raws
  | prev :: before => List.rev before ++ attachNext prev raws :: filed raws
  end.
Proof.
  revert node. induction raws as [|r rest IH]; intro node.
  - simpl. destruct (List.rev (Parser.values node)) as [|prev before] eqn:Er.
    + apply rev_nil_inv. exact Er.
    + apply rev_cons_inv. exact Er.
  - cbn [fold_left]. rewrite IH, fileChild_cases. cbn [filed attachNext]. unfold isKept.
    destruct (isFeatureLeaf r) eqn:Ef; cbn [negb andb].
    + reflexivity.
    + destruct (isCaseLeaf r) eqn:Ec; cbn [negb].
      * destruct (List.rev (Parser.values node)) as [|prev before] eqn:Er.
        -- rewrite Er. reflexivity.
        -- cbn [Parser.setValues Parser.values].
           rewrite rev_app_distr, rev_involutive. reflexivity.
      * cbn [Parser.setValues Parser.values]. rewrite rev_app_distr. cbn [List.rev app].
        rewrite rev_involutive.
        destruct (List.rev (Parser.values node)) as [|prev before] eqn:Er.
        -- apply rev_nil_inv in Er. rewrite Er. reflexivity.
        -- apply rev_cons_inv in Er. rewrite Er, <- app_assoc. reflexivity.
Qed.

(** A child the bare case leaves leave alone or give a case feature to:
    its label ends with no case marker, or it has a case feature. *)
Definition settled (x : Parser.SyntaxNode) : Prop :=
  Parser.matchCase (Parser.label x) = None \/ Js.truthy (Parser.caseFeature x) = true.

Lemma isCaseLeaf_braced (k : Parser.SyntaxNode) :
  isCaseLeaf k = true -> Parser.braced (Parser.label k) = true.
Proof. unfold isCaseLeaf. intro H. apply andb_true_iff in H. exact (proj2 H). Qed.

(** What a bare case leaf [k] does to a settled child. *)
Lemma attachCase_settled (x k : Parser.SyntaxNode) :
  settled x -> isCaseLeaf k = true ->
  (Parser.attachCase x k = x /\
   (Js.truthy (Parser.caseFeature x) = true \/ Parser.type x <> Parser.VALUE)) \/
  (Parser.attachCase x k = Parser.setCase x (Some (Parser.label k)) /\
   Js.truthy (Parser.caseFeature x) = false /\ Parser.type x = Parser.VALUE).
Proof.
  intros Hs Hk. unfold Parser.attachCase.
  destruct (Js.truthy (Parser.caseFeature x)) eqn:Et; cbn [negb andb];
    [left; split; [reflexivity | left; reflexivity]|].
  destruct (Parser.eqb (Parser.type x) Parser.VALUE) eqn:Ev.
  - right. destruct Hs as [Hs|Hs]; [|congruence]. rewrite Hs.
    split; [reflexivity|]. split; [reflexivity|].
    destruct (Parser.type x); try discriminate; reflexivity.
  - left. split; [reflexivity|]. right. intro E. rewrite E in Ev. discriminate.
Qed.

Lemma setCase_settled (x : Parser.SyntaxNode) (k : Parser.SyntaxNode) :
  isCaseLeaf k = true -> settled (Parser.setCase x (Some (Parser.label k))).
Proof.
  intro Hk. right. cbn [Parser.setCase Parser.setLabelCase Parser.caseFeature].
  apply braced_truthy. apply isCaseLeaf_braced. exact Hk.
Qed.

(** The child that the values behind it leave: the child itself, or, for a
    leaf without case feature, the leaf with the label of the first bare
    case leaf that follows as its case feature. *)
Lemma attachNext_settled (x : Parser.SyntaxNode) (rest : list Parser.SyntaxNode) :
  settled x ->
  attachNext x rest = x \/
  (Parser.type x = Parser.VALUE /\ Js.truthy (Parser.caseFeature x) = false /\
   exists k, In k rest /\ isCaseLeaf k = true /\
             attachNext x rest = Parser.setCase x (Some (Parser.label k))).
Proof.
  revert x. induction rest as [|r rest IH]; intros x Hs; [left; reflexivity|].
  cbn [attachNext]. destruct (isFeatureLeaf r).
  - destruct (IH x Hs) as [E | [Hv [Ht [k [Hk [Hc E]]]]]]; [left; exact E|].
    right. split; [exact Hv|]. split; [exact Ht|]. exists k. split; [right; exact Hk|].
    split; assumption.
  - destruct (isCaseLeaf r) eqn:Ec; [|left; reflexivity].
    destruct (attachCase_settled x r Hs Ec) as [[E H] | [E [Ht Hv]]]; rewrite E.
    + destruct (IH x Hs) as [E' | [Hv [Ht [k [Hk [Hc E']]]]]]; [left; exact E'|].
      right. split; [exact Hv|]. split; [exact Ht|]. exists k. split; [right; exact Hk|].
      split; assumption.
    + right. split; [exact Hv|]. split; [exact Ht|]. exists r. split; [left; reflexivity|].
      split; [exact Ec|].
      destruct (IH _ (setCase_settled x r Ec)) as [E' | [_ [Ht' _]]]; [exact E'|].
      exfalso. cbn [Parser.setCase Parser.setLabelCase Parser.caseFeature] in Ht'.
      rewrite (braced_truthy _ (isCaseLeaf_braced r Ec)) in Ht'. discriminate.
Qed.

Lemma splitCase_settled (r : Parser.SyntaxNode) : settled (splitCase r).
Proof.
  unfold splitCase, settled.
  destruct (Parser.matchCase (Parser.label r)) as [[g1 g2]|] eqn:Em; [|left; exact Em].
  right. cbn [Parser.setLabelCase Parser.caseFeature].
  apply braced_truthy. exact (matchCase_braced _ _ _ Em).
Qed.

(** How a child [x] is filed from the value [r] read for it, [rest] being
    the values read behind [r].  When the label of [r] ends with a case
    marker, the match of the case regular expression giving the groups
    [g1] and [g2], the label of [x] is [g1] trimmed and its case feature is
    [g2].  Otherwise [x] is [r], or, when [r] is a leaf without case
    feature, [r] with the label of a bare case leaf behind it as its case
    feature. *)
Definition filedAs (r : Parser.SyntaxNode) (rest : list Parser.SyntaxNode)
    (x : Parser.SyntaxNode) : Prop :=
  match Parser.matchCase (Parser.label r) with
  | Some (g1, g2) => x = Parser.setLabelCase r (Js.trim g1) (Some g2)
  | None =>
      x = r \/
      (Parser.type r = Parser.VALUE /\ Js.truthy (Parser.caseFeature r) = false /\
       exists k, In k rest /\ isCaseLeaf k = true /\
                 x = Parser.setCase r (Some (Parser.label k)))
  end.

Lemma attachNext_filedAs (r : Parser.SyntaxNode) (rest : list Parser.SyntaxNode) :
  filedAs r rest (attachNext (splitCase r) rest).
Proof.
  unfold filedAs. pose proof (attachNext_settled _ rest (splitCase_settled r)) as H.
  unfold splitCase in *.
  destruct (Parser.matchCase (Parser.label r)) as [[g1 g2]|] eqn:Em.
  - destruct H as [E | [_ [Ht _]]]; [exact E|].
    exfalso. cbn [Parser.setLabelCase Parser.caseFeature] in Ht.
    rewrite (braced_truthy _ (matchCase_braced _ _ _ Em)) in Ht. discriminate.
  - exact H.
Qed.

(** [Filed raws xs]: the children [xs] are filed, one by one and in order,
    from the values of [raws] that are kept. *)
Inductive Filed : list Parser.SyntaxNode -> list Parser.SyntaxNode -> Prop :=
| Filed_nil : Filed [] []
| Filed_skip (r : Parser.SyntaxNode) (rest xs : list Parser.SyntaxNode) :
    isKept r = false -> Filed rest xs -> Filed (r :: rest) xs
| Filed_keep (r x : Parser.SyntaxNode) (rest xs : list Parser.SyntaxNode) :
    isKept r = true -> filedAs r rest x -> Filed rest xs -> Filed (r :: rest) (x :: xs).

Lemma filed_Filed (raws : list Parser.SyntaxNode) : Filed raws (filed raws).
Proof.
  induction raws as [|r rest IH]; [constructor|].
  cbn [filed]. destruct (isKept r) eqn:Ek.
  - apply Filed_keep; [exact Ek | apply attachNext_filedAs | exact IH].
  - apply Filed_skip; [exact Ek | exact IH].
Qed.

Lemma Filed_In (raws xs : list Parser.SyntaxNode) (x : Parser.SyntaxNode) :
  Filed raws xs -> In x xs ->
  exists r rest, In r raws /\ isKept r = true /\ filedAs r rest x /\
                 (forall k, In k rest -> In k raws).
Proof.
  intro H. induction H as [|r rest xs Hk Hf IH|r y rest xs Hk Hy Hf IH]; intro Hx.
  - destruct Hx.
  - destruct (IH Hx) as [r0 [rest0 [H1 [H2 [H3 H4]]]]].
    exists r0, rest0. split; [right; exact H1|]. split; [exact H2|]. split; [exact H3|].
    intros k Hk0. right. exact (H4 k Hk0).
  - destruct Hx as [E|Hx].
    + subst y. exists r, rest. split; [left; reflexivity|]. split; [exact Hk|].
      split; [exact Hy|]. intros k Hk0. right. exact Hk0.
    + destruct (IH Hx) as [r0 [rest0 [H1 [H2 [H3 H4]]]]].
      exists r0, rest0. split; [right; exact H1|]. split; [exact H2|]. split; [exact H3|].
      intros k Hk0. right. exact (H4 k Hk0).
Qed.

(** A node is filed from the values [raws] that [parseToken] returned for
    its children: its features are the labels of the feature leaves among
    them, in order, and its children are filed from the values kept, in
    order. *)
Definition FiledFrom (raws : list Parser.SyntaxNode) (n : Parser.SyntaxNode) : Prop :=
  Parser.features n = map Parser.label (filter isFeatureLeaf raws) /\
  Parser.values n = filed raws /\
  Filed raws (Parser.values n).

(** Every Node of a parsed tree is filed from the values read for its
    children. *)
Lemma parsed_nodes_filed (tokens : list Tokenizer.Token) (root n : Parser.SyntaxNode) :
  Parser.parse tokens = OK root ->
  In n (syntaxNodes root) ->
  Parser.type n = Parser.NODE ->
  exists fuel c c' raws, Children tokens fuel c raws c' /\ FiledFrom raws n.
Proof.
  intros Hp Hn Ht.
  destruct (parse_allQ tokens
              (fun n => Parser.type n = Parser.NODE ->
                        exists fuel c c' raws, Children tokens fuel c raws c' /\ FiledFrom raws n))
    with (root := root) (n := n) as [E|HQ]; auto.
  - intros c c' v Hv Hty. destruct (parseValue_values tokens c c' v Hv) as [E _]. congruence.
  - intros fuel c c' raws label sub sup Hc _. exists fuel, c, c', raws.
    split; [exact Hc|]. split.
    + rewrite fold_fileChild_features. reflexivity.
    + assert (E : Parser.values (fold_left Parser.fileChild raws (newNode label sub sup))
                  = filed raws)
        by (rewrite fold_fileChild_values; reflexivity).
      split; [exact E | rewrite E; apply filed_Filed].
  - subst n. unfold Parser.parse in Hp.
    destruct (Parser.parseLoop (List.length tokens) tokens 0 []); try discriminate.
    inversion Hp; subst. discriminate.
Qed.

Lemma isKept_false_feature (r : Parser.SyntaxNode) :
  isKept r = true -> isFeatureLeaf r = false /\ isCaseLeaf r = false.
Proof.
  unfold isKept. intro H. apply andb_true_iff in H. destruct H as [H1 H2].
  split; [destruct (isFeatureLeaf r) | destruct (isCaseLeaf r)]; try reflexivity; discriminate.
Qed.


(** C7, amended.  In the tree of an accepted token sequence every Node was
    filed from the values its children loop got from [parseToken]:
    - each of them that is a leaf whose label, as it was read, begins with
      [+] gave its label to the features of the node, in order, and none of
      them is a child: the children are [filed] from the other values, one
      by one and in order, but for the bare case leaves;
    - a child that is a leaf whose label begins with [+] comes from a value
      whose label did not begin with [+] and ended with a case marker: its
      label is the first group of the match, trimmed. *)
Theorem feature_leaves_are_features (tokens : list Tokenizer.Token)
    (root n : Parser.SyntaxNode) :
  Parser.parse tokens = OK root ->
  In n (syntaxNodes root) ->
  Parser.type n = Parser.NODE ->
  exists fuel c c' raws,
    Children tokens fuel c raws c' /\ FiledFrom raws n /\
    forall x, In x (Parser.values n) -> isFeatureLeaf x = true ->
      exists r g1 g2,
        In r raws /\ isFeatureLeaf r = false /\
        Parser.matchCase (Parser.label r) = Some (g1, g2) /\
        x = Parser.setLabelCase r (Js.trim g1) (Some g2).
Proof.
  intros Hp Hn Ht.
  destruct (parsed_nodes_filed tokens root n Hp Hn Ht) as [fuel [c [c' [raws [Hc Hf]]]]].
  exists fuel, c, c', raws. split; [exact Hc|]. split; [exact Hf|].
  intros x Hx Hplus. destruct Hf as [_ [_ Hf]].
  destruct (Filed_In raws _ x Hf Hx) as [r [rest [Hr [Hk [Has _]]]]].
  destruct (isKept_false_feature r Hk) as [Hnf _].
  unfold filedAs in Has.
  destruct (Parser.matchCase (Parser.label r)) as [[g1 g2]|] eqn:Em.
  - exists r, g1, g2. repeat split; assumption.
  - exfalso. assert (E : isFeatureLeaf x = isFeatureLeaf r).
    { destruct Has as [E | [_ [_ [k [_ [_ E]]]]]]; subst x; reflexivity. }
    congruence.
Qed.

(** The example of C7: [+FEAT] is a feature of [X], and the only child of
    [X] is the node [Y]. *)
Lemma feature_leaves_are_features_example :
  Tokenizer.tokenize "[X +FEAT [Y Z]]" = OK featureTokens /\
  Parser.parse featureTokens = OK (Parser.mkRoot [featureNode]) /\
  Parser.features featureNode = ["+FEAT"] /\
  map Parser.label (Parser.values featureNode) = ["Y"] /\
  exists fuel c c' raws,
    Children featureTokens fuel c raws c' /\ FiledFrom raws featureNode /\
    forall x, In x (Parser.values featureNode) -> isFeatureLeaf x = true ->
      exists r g1 g2,
        In r raws /\ isFeatureLeaf r = false /\
        Parser.matchCase (Parser.label r) = Some (g1, g2) /\
        x = Parser.setLabelCase r (Js.trim g1) (Some g2).
Proof.
  split; [vm_compute; reflexivity|]. split; [vm_compute; reflexivity|].
  split; [reflexivity|]. split; [reflexivity|].
  apply (feature_leaves_are_features featureTokens (Parser.mkRoot [featureNode]) featureNode).
  - vm_compute. reflexivity.
  - simpl. right. left. reflexivity.
  - reflexivity.
Defined.

(** The tokens of [[X " +a{b}"]], the label being quoted, and the leaf of
    its tree. *)
Definition plusTokens : list Tokenizer.Token :=
  [Tokenizer.mkToken Tokenizer.BRACKET_OPEN Tokenizer.VNull;
   Tokenizer.mkToken Tokenizer.STRING (Tokenizer.VString "X");
   Tokenizer.mkToken Tokenizer.QUOTED_STRING (Tokenizer.VString " +a{b}");
   Tokenizer.mkToken Tokenizer.BRACKET_CLOSE Tokenizer.VNull].

Definition plusLeaf : Parser.SyntaxNode :=
  {| Parser.type := Parser.VALUE; Parser.label := "+a"; Parser.subscript := None;
     Parser.superscript := None; Parser.values := []; Parser.features := [];
     Parser.caseFeature := Some "{b}"; Parser.arrows := None |}.

(** The claim C7 fails: the test for a feature leaf is made on the label as
    [parseValue] returns it.  The quoted label [ +a{b}] does not begin with
    [+]; once its case marker is split off and the rest trimmed, the node
    [X] has a child leaf with the label [+a], and no feature. *)
Lemma relabelled_child_begins_with_plus :
  Tokenizer.tokenize ("[X " ++ quoted " +a{b}" ++ "]") = OK plusTokens /\
  SyntaxTree.validateTokens plusTokens = None /\
  Parser.parse plusTokens = OK (Parser.mkRoot [node "X" [plusLeaf]]) /\
  In plusLeaf (Parser.values (node "X" [plusLeaf])) /\
  Parser.type plusLeaf = Parser.VALUE /\
  Parser.testFeature (Parser.label plusLeaf) = true /\
  Parser.features (node "X" [plusLeaf]) = [].
Proof.
  split; [vm_compute; reflexivity|]. split; [vm_compute; reflexivity|].
  split; [vm_compute; reflexivity|]. split; [left; reflexivity|].
  split; [reflexivity|]. split; reflexivity.
Qed.





(** A leaf at the top level, between two bracketed nodes, is pushed by the
    loop of [parse], which splits nothing: in [[A] x{c} [B]] the leaf keeps
    the label [x{c}] and has no case feature. *)
Lemma top_level_leaf_is_not_split :
  parsePhrase "[A] x{c} [B]"
  = OK (Parser.mkRoot [node "A" []; leaf "x{c}" None; node "B" []]) /\
  Parser.matchCase "x{c}" = Some ("x", "{c}").
Proof. split; vm_compute; reflexivity. Qed.

(** ** The tokenizer ends (tokenizer.js) *)

Lemma runParsers_bounds (ps : list Tokenizer.ParseFn) (input : string) (offset : nat)
    (tokens : list Tokenizer.Token) :
  Forall (fun p => forall s, p s <> OutOfFuel) ps ->
  Tokenizer.runParsers ps input offset tokens <> OutOfFuel /\
  forall offset' tokens',
    Tokenizer.runParsers ps input offset tokens = OK (offset', tokens') ->
    (offset <= offset')%nat.
Proof.
  intro H. revert offset tokens. induction H as [|p ps Hp Hps IH]; intros offset tokens; simpl.
  - split; [discriminate | intros o t E; inversion E; subst; lia].
  - specialize (Hp (Js.drop offset input)).
    destruct (p (Js.drop offset input)) as [[token consumed]| e |];
      [|split; [discriminate | intros ? ? E; discriminate]|contradiction].
    destruct (String.length input <=? offset + consumed)%nat.
    + split; [discriminate | intros o t E; inversion E; subst; lia].
    + destruct (IH (offset + consumed)%nat
                  (match token with Some t => tokens ++ [t] | None => tokens end)) as [H1 H2].
      split; [exact H1|]. intros o t E. specialize (H2 o t E). lia.
Qed.

Lemma parsers_total : Forall (fun p => forall s, p s <> OutOfFuel) Tokenizer.parsers.
Proof.
  unfold Tokenizer.parsers. repeat constructor; intro s.
  - discriminate.
  - unfold Tokenizer.parseControlCharacters.
    destruct s as [|[[] [] [] [] [] [] [] []] r]; discriminate.
  - unfold Tokenizer.parseArrows.
    destruct s as [|[[] [] [] [] [] [] [] []] [|[[] [] [] [] [] [] [] []] r]]; discriminate.
  - unfold Tokenizer.parseNumber.
    destruct (0 <? Tokenizer.span Tokenizer.isNumber s)%nat; discriminate.
  - unfold Tokenizer.parseString.
    destruct (0 <? Tokenizer.span _ s)%nat; discriminate.
  - unfold Tokenizer.parseQuotedString. destruct s as [|c r]; [discriminate|].
    destruct (Ascii.eqb c Js.dquote); [|discriminate].
    destruct (Js.drop _ _) as [|c' r']; [discriminate|].
    destruct (Ascii.eqb c' Js.dquote); discriminate.
Qed.

Lemma tokenizeLoop_total (fuel : nat) (input : string) (offset : nat)
    (tokens : list Tokenizer.Token) :
  (String.length input - offset <= fuel)%nat ->
  Tokenizer.tokenizeLoop fuel input offset tokens <> OutOfFuel.
Proof.
  revert offset tokens. induction fuel as [|fuel IH]; intros offset tokens Hf.
  - simpl. destruct (Nat.ltb_spec offset (String.length input)); [lia | discriminate].
  - cbn [Tokenizer.tokenizeLoop].
    destruct (Nat.ltb_spec offset (String.length input)) as [Hl|Hl]; [|discriminate].
    destruct (runParsers_bounds Tokenizer.parsers input offset tokens parsers_total)
      as [H1 H2].
    destruct (Tokenizer.runParsers Tokenizer.parsers input offset tokens)
      as [[o t]| e |]; [|discriminate|contradiction].
    specialize (H2 o t eq_refl).
    destruct (Nat.eqb_spec o offset) as [E|E]; [discriminate|]. apply IH. lia.
Qed.

(** [tokenize] ends for every input. *)
Lemma tokenize_total (input : string) : Tokenizer.tokenize input <> OutOfFuel.
Proof. apply tokenizeLoop_total. lia. Qed.


(** * Further properties *)

(** ** The tokenizer (tokenizer.js) *)

(** Number of double quotes in a text. *)
Fixpoint quotes (s : string) : nat :=
  match s with
  | String c r => if Ascii.eqb c Js.dquote then S (quotes r) else quotes r
  | EmptyString => O
  end.

(** The characters of an unquoted string. *)
Definition wordChar (c : ascii) : bool :=
  negb (Tokenizer.isWhitespace c) && negb (Tokenizer.isControlCharacter c).

(** The tokens the tokenizer makes: an unquoted string is not empty and
    holds neither white space nor a control character, a quoted string
    holds no double quote, a number carries a number and every other token
    carries [null]. *)
Definition wfToken (t : Tokenizer.Token) : Prop :=
  match Tokenizer.type t, Tokenizer.value t with
  | Tokenizer.STRING, Tokenizer.VString s => s <> "" /\ Js.all wordChar s = true
  | Tokenizer.QUOTED_STRING, Tokenizer.VString s => quotes s = O
  | Tokenizer.NUMBER, Tokenizer.VNumber _ => True
  | Tokenizer.STRING, _ | Tokenizer.QUOTED_STRING, _ | Tokenizer.NUMBER, _ => False
  | _, Tokenizer.VNull => True
  | _, _ => False
  end.

Lemma drop_nil (n : nat) : Js.drop n "" = "".
Proof. destruct n; reflexivity. Qed.

Lemma drop_drop (n m : nat) (s : string) : Js.drop m (Js.drop n s) = Js.drop (n + m) s.
Proof.
  revert s. induction n as [|n IH]; intro s; [reflexivity|].
  destruct s as [|c r]; simpl; [apply drop_nil | apply IH].
Qed.

Lemma drop_length (n : nat) (s : string) :
  String.length (Js.drop n s) = (String.length s - n)%nat.
Proof.
  revert s. induction n as [|n IH]; intro s; simpl; [lia|].
  destruct s as [|c r]; simpl; [reflexivity | apply IH].
Qed.

Lemma drop_all (n : nat) (s : string) : (String.length s <= n)%nat -> Js.drop n s = "".
Proof.
  intro H. pose proof (drop_length n s) as L.
  destruct (Js.drop n s); [reflexivity | simpl in L; lia].
Qed.

Lemma span_le (p : ascii -> bool) (s : string) :
  (Tokenizer.span p s <= String.length s)%nat.
Proof. induction s as [|c r IH]; simpl; [lia|]. destruct (p c); simpl; lia. Qed.

(** The run [span] measures ends at the end or at a character outside. *)
Lemma span_stops (p : ascii -> bool) (s : string) (c : ascii) (r : string) :
  Js.drop (Tokenizer.span p s) s = String c r -> p c = false.
Proof.
  induction s as [|d t IH]; simpl; [discriminate|].
  destruct (p d) eqn:E; simpl; [exact IH|]. intro H. inversion H; subst. exact E.
Qed.

Lemma span_take_all (p : ascii -> bool) (s : string) :
  Js.all p (Js.take (Tokenizer.span p s) s) = true.
Proof.
  induction s as [|d t IH]; simpl; [reflexivity|].
  destruct (p d) eqn:E; simpl; [rewrite E; exact IH | reflexivity].
Qed.

Lemma span_quotes (p : ascii -> bool) (s : string) :
  p Js.dquote = false ->
  quotes (Js.drop (Tokenizer.span p s) s) = quotes s /\
  quotes (Js.take (Tokenizer.span p s) s) = O.
Proof.
  intro Hp. induction s as [|d t IH]; simpl; [split; reflexivity|].
  destruct (p d) eqn:E; simpl.
  - destruct (Ascii.eqb_spec d Js.dquote) as [Eq|Eq]; [subst d; congruence | exact IH].
  - split; reflexivity.
Qed.

Lemma take_nonempty (n : nat) (s : string) :
  (0 < n)%nat -> (n <= String.length s)%nat -> Js.take n s <> "".
Proof. destruct n; [lia|]. destruct s; simpl; [lia | discriminate]. Qed.

(** What a parser function does with the rest [s] of the input: it takes
    a part of [s] that holds an even number of double quotes and makes no
    token from nothing, or it reports a quoted string that has no end. *)
Definition stepOk (p : Tokenizer.ParseFn) : Prop :=
  forall s,
    match p s with
    | OK (tok, k) =>
        (k <= String.length s)%nat /\
        Nat.even (quotes (Js.drop k s)) = Nat.even (quotes s) /\
        match tok with
        | Some t => wfToken t /\ (0 < k)%nat
        | None => True
        end
    | Err e =>
        exists r, e = Tokenizer.UnterminatedQuotedString s /\
                  s = String Js.dquote r /\ quotes r = O
    | OutOfFuel => False
    end.

Lemma skipWhitespace_ok : stepOk Tokenizer.skipWhitespace.
Proof.
  intro s. unfold Tokenizer.skipWhitespace.
  destruct (span_quotes Tokenizer.isWhitespace s eq_refl) as [E _].
  split; [apply span_le|]. split; [rewrite E; reflexivity | exact I].
Qed.

Lemma parseControlCharacters_ok : stepOk Tokenizer.parseControlCharacters.
Proof.
  intros [|c r]; [simpl; repeat split; lia|].
  destruct c as [[] [] [] [] [] [] [] []]; simpl;
    repeat split; try lia; try reflexivity.
Qed.

Lemma parseArrows_ok : stepOk Tokenizer.parseArrows.
Proof.
  intros [|c1 [|c2 r]]; [simpl; repeat split; lia| |].
  - destruct c1 as [[] [] [] [] [] [] [] []]; simpl; repeat split; lia.
  - destruct c1 as [[] [] [] [] [] [] [] []];
      try (simpl; repeat split; lia);
      destruct c2 as [[] [] [] [] [] [] [] []]; simpl;
      repeat split; try lia; try reflexivity.
Qed.

Lemma parseNumber_ok : stepOk Tokenizer.parseNumber.
Proof.
  intro s. unfold Tokenizer.parseNumber. cbv zeta.
  destruct (span_quotes Tokenizer.isNumber s eq_refl) as [E _].
  destruct (Nat.ltb_spec 0 (Tokenizer.span Tokenizer.isNumber s)) as [H|H].
  - split; [apply span_le|]. split; [rewrite E; reflexivity|]. split; [exact I | exact H].
  - split; [lia|]. split; [reflexivity | exact I].
Qed.

Lemma parseString_ok : stepOk Tokenizer.parseString.
Proof.
  intro s. unfold Tokenizer.parseString. cbv zeta. fold wordChar.
  destruct (span_quotes wordChar s eq_refl) as [E _].
  destruct (Nat.ltb_spec 0 (Tokenizer.span wordChar s)) as [H|H].
  - split; [apply span_le|]. split; [rewrite E; reflexivity|]. split; [|exact H].
    split; [apply take_nonempty; [exact H | apply span_le] | apply span_take_all].
  - split; [lia|]. split; [reflexivity | exact I].
Qed.

Lemma even_SS (n : nat) : Nat.even (S (S n)) = Nat.even n.
Proof. reflexivity. Qed.

Lemma parseQuotedString_ok : stepOk Tokenizer.parseQuotedString.
Proof.
  intros [|c r]; [simpl; repeat split; lia|]. unfold Tokenizer.parseQuotedString.
  destruct (Ascii.eqb_spec c Js.dquote) as [Ec|Ec];
    [|split; [lia | split; [reflexivity | exact I]]].
  subst c. cbv zeta. set (q := fun c => negb (Ascii.eqb c Js.dquote)).
  destruct (span_quotes q r eq_refl) as [E1 E2].
  pose proof (span_le q r) as L. pose proof (drop_length (Tokenizer.span q r) r) as DL.
  change (Js.drop (S (Tokenizer.span q r)) (String Js.dquote r))
    with (Js.drop (Tokenizer.span q r) r).
  destruct (Js.drop (Tokenizer.span q r) r) as [|c' r'] eqn:Ed.
  - exists r. split; [reflexivity|]. split; [reflexivity|]. rewrite <- E1. reflexivity.
  - pose proof (span_stops q r c' r' Ed) as Hq. unfold q in Hq.
    destruct (Ascii.eqb c' Js.dquote) eqn:Eq; [|discriminate]. simpl in DL.
    split; [simpl; lia|]. split.
    + change (Js.drop (S (S (Tokenizer.span q r))) (String Js.dquote r))
        with (Js.drop (S (Tokenizer.span q r)) r).
      replace (S (Tokenizer.span q r)) with (Tokenizer.span q r + 1)%nat by lia.
      rewrite <- drop_drop, Ed. cbn [Js.drop quotes]. rewrite Ascii.eqb_refl.
      rewrite <- E1. cbn [quotes]. rewrite Eq. rewrite even_SS. reflexivity.
    + split; [|lia]. unfold wfToken. cbn [Tokenizer.type Tokenizer.value].
      replace (S (Tokenizer.span q r) - 1)%nat with (Tokenizer.span q r) by lia. exact E2.
Qed.

Lemma parsers_ok : Forall stepOk Tokenizer.parsers.
Proof.
  unfold Tokenizer.parsers.
  repeat apply Forall_cons;
    [apply skipWhitespace_ok | apply parseControlCharacters_ok | apply parseArrows_ok |
     apply parseNumber_ok | apply parseString_ok | apply parseQuotedString_ok |
     apply Forall_nil].
Qed.

(** A quoted string without end, as the error reports it: the rest of the
    input from some offset, which begins with a double quote and holds no
    other. *)
Definition openQuote (input : string) (e : Tokenizer.TokenizeError) : Prop :=
  exists k r, e = Tokenizer.UnterminatedQuotedString (Js.drop k input) /\
              Js.drop k input = String Js.dquote r /\ quotes r = O.

(** One pass over the parser functions. *)
Lemma runParsers_ok (ps : list Tokenizer.ParseFn) (input : string) (offset : nat)
    (tokens : list Tokenizer.Token) :
  Forall stepOk ps -> Forall wfToken tokens ->
  match Tokenizer.runParsers ps input offset tokens with
  | OK (offset', tokens') =>
      (offset <= offset')%nat /\
      Nat.even (quotes (Js.drop offset' input)) = Nat.even (quotes (Js.drop offset input)) /\
      Forall wfToken tokens'
  | Err e => openQuote input e /\ Nat.even (quotes (Js.drop offset input)) = false
  | OutOfFuel => False
  end.
Proof.
  intro H. revert offset tokens. induction H as [|p ps Hp Hps IH]; intros offset tokens Hw.
  - simpl. split; [lia | split; [reflexivity | exact Hw]].
  - cbn [Tokenizer.runParsers]. specialize (Hp (Js.drop offset input)).
    destruct (p (Js.drop offset input)) as [[tok k]| e |]; [| |exact Hp].
    + destruct Hp as [Hk [He Ht]]. rewrite drop_drop in He. cbv zeta.
      assert (Hw' : Forall wfToken (match tok with Some t => tokens ++ [t] | None => tokens end)).
      { destruct tok as [t|]; [|exact Hw]. apply Forall_app. split; [exact Hw|].
        constructor; [exact (proj1 Ht) | constructor]. }
      destruct (String.length input <=? offset + k)%nat.
      * split; [lia | split; [exact He | exact Hw']].
      * specialize (IH (offset + k)%nat _ Hw').
        destruct (Tokenizer.runParsers ps input (offset + k) _) as [[o' t']| e |];
          [| |exact IH].
        -- destruct IH as [I1 [I2 I3]]. split; [lia | split; [congruence | exact I3]].
        -- destruct IH as [I1 I2]. split; [exact I1 | congruence].
    + destruct Hp as [r [E1 [E2 E3]]]. split.
      * exists offset, r. split; [exact E1 | split; [exact E2 | exact E3]].
      * rewrite E2. cbn [quotes]. rewrite Ascii.eqb_refl, E3. reflexivity.
Qed.

(** A parser function takes nothing and makes no token, or takes something,
    or fails. *)
Lemma stepOk_shape (p : Tokenizer.ParseFn) (s : string) :
  stepOk p ->
  p s = OK (None, O) \/ (exists tok k, p s = OK (tok, k) /\ (0 < k)%nat) \/
  (exists e, p s = Err e).
Proof.
  intro H. specialize (H s). destruct (p s) as [[tok k]| e |]; [| |contradiction].
  - destruct tok as [t|].
    + right. left. exists (Some t), k. split; [reflexivity | exact (proj2 (proj2 (proj2 H)))].
    + destruct k as [|k]; [left; reflexivity|]. right. left.
      exists None, (S k). split; [reflexivity | lia].
  - right. right. exists e. reflexivity.
Qed.

Lemma runParsers_mono (ps : list Tokenizer.ParseFn) (input : string) (offset : nat)
    (tokens : list Tokenizer.Token) (offset' : nat) (tokens' : list Tokenizer.Token) :
  Tokenizer.runParsers ps input offset tokens = OK (offset', tokens') ->
  (offset <= offset')%nat.
Proof.
  revert offset tokens. induction ps as [|p ps IH]; intros offset tokens H; simpl in H.
  - inversion H; subst. lia.
  - destruct (p (Js.drop offset input)) as [[tok k]| e |]; try discriminate.
    destruct (String.length input <=? offset + k)%nat.
    + inversion H; subst. lia.
    + apply IH in H. lia.
Qed.

(** A pass that takes nothing found every parser function taking nothing. *)
Lemma runParsers_stuck (ps : list Tokenizer.ParseFn) (input : string) (offset : nat)
    (tokens tokens' : list Tokenizer.Token) :
  Forall stepOk ps -> (offset < String.length input)%nat ->
  Tokenizer.runParsers ps input offset tokens = OK (offset, tokens') ->
  Forall (fun p => p (Js.drop offset input) = OK (None, O)) ps.
Proof.
  intros H Hl. revert tokens. induction H as [|p ps Hp Hps IH]; intros tokens Hr;
    [constructor|].
  cbn [Tokenizer.runParsers] in Hr.
  destruct (stepOk_shape p (Js.drop offset input) Hp) as [E|[[tok [k [E Hk]]]|[e E]]];
    rewrite E in Hr.
  - cbv zeta in Hr. rewrite Nat.add_0_r in Hr.
    destruct (Nat.leb_spec (String.length input) offset) as [Hle|Hle]; [lia|].
    constructor; [exact E | exact (IH _ Hr)].
  - cbv zeta in Hr. destruct (String.length input <=? offset + k)%nat.
    + inversion Hr; lia.
    + apply runParsers_mono in Hr. lia.
  - discriminate.
Qed.

(** On a rest that is not empty one of the parser functions takes
    something or fails. *)
Lemma some_parser_bites (c : ascii) (r : string) :
  ~ Forall (fun p => p (String c r) = OK (None, O)) Tokenizer.parsers.
Proof.
  unfold Tokenizer.parsers. intro H.
  inversion H as [|? ? Hws H1]; subst. inversion H1 as [|? ? Hcc H2]; subst.
  inversion H2 as [|? ? _ H3]; subst. inversion H3 as [|? ? _ H4]; subst.
  inversion H4 as [|? ? Hstr H5]; subst. inversion H5 as [|? ? Hq _]; subst.
  clear H H1 H2 H3 H4 H5.
  unfold Tokenizer.skipWhitespace in Hws. cbn [Tokenizer.span] in Hws.
  destruct (Tokenizer.isWhitespace c) eqn:Ew; [discriminate|].
  unfold Tokenizer.parseString in Hstr. cbv zeta in Hstr. cbn [Tokenizer.span] in Hstr.
  rewrite Ew in Hstr. cbn [negb andb] in Hstr.
  destruct (Tokenizer.isControlCharacter c) eqn:Ec; [|discriminate].
  unfold Tokenizer.isControlCharacter in Ec.
  repeat (apply orb_true_iff in Ec; destruct Ec as [Ec|Ec]);
    apply Ascii.eqb_eq in Ec; subst c; try discriminate.
  unfold Tokenizer.parseQuotedString in Hq. rewrite Ascii.eqb_refl in Hq. cbv zeta in Hq.
  destruct (Js.drop _ _) as [|c' r']; [discriminate|].
  destruct (Ascii.eqb c' Js.dquote); discriminate.
Qed.

(** The loop of [tokenize] from an offset. *)
Lemma tokenizeLoop_ok (fuel : nat) (input : string) (offset : nat)
    (tokens : list Tokenizer.Token) :
  (String.length input - offset <= fuel)%nat -> Forall wfToken tokens ->
  match Tokenizer.tokenizeLoop fuel input offset tokens with
  | OK tokens' =>
      Nat.even (quotes (Js.drop offset input)) = true /\ Forall wfToken tokens'
  | Err e => openQuote input e /\ Nat.even (quotes (Js.drop offset input)) = false
  | OutOfFuel => False
  end.
Proof.
  revert offset tokens. induction fuel as [|fuel IH]; intros offset tokens Hf Hw.
  - simpl. destruct (Nat.ltb_spec offset (String.length input)) as [Hl|Hl]; [lia|].
    rewrite (drop_all _ _ Hl). split; [reflexivity | exact Hw].
  - cbn [Tokenizer.tokenizeLoop].
    destruct (Nat.ltb_spec offset (String.length input)) as [Hl|Hl];
      [|rewrite (drop_all _ _ Hl); split; [reflexivity | exact Hw]].
    pose proof (runParsers_ok Tokenizer.parsers input offset tokens parsers_ok Hw) as Hr.
    destruct (Tokenizer.runParsers Tokenizer.parsers input offset tokens)
      as [[o t]| e |] eqn:Er; [|exact Hr|exact Hr].
    destruct Hr as [R1 [R2 R3]].
    destruct (Nat.eqb_spec o offset) as [E|E].
    + exfalso. subst o.
      pose proof (runParsers_stuck _ _ _ _ _ parsers_ok Hl Er) as Hs.
      pose proof (drop_length offset input) as DL.
      destruct (Js.drop offset input) as [|c r]; [simpl in DL; lia|].
      exact (some_parser_bites c r Hs).
    + specialize (IH o t). rewrite R2 in IH. apply IH; [lia | exact R3].
Qed.

(** X1. [tokenize] ends for every input and never reports that it is
    unable to parse: it returns tokens, or it reports a quoted string
    without end, naming the rest of the input from a double quote that no
    other double quote follows. *)
Theorem tokenize_outcome (input : string) :
  (exists tokens, Tokenizer.tokenize input = OK tokens) \/
  (exists k r,
     Tokenizer.tokenize input = Err (Tokenizer.UnterminatedQuotedString (Js.drop k input)) /\
     Js.drop k input = String Js.dquote r /\ quotes r = O).
Proof.
  pose proof (tokenizeLoop_ok (String.length input) input 0 []) as H.
  unfold Tokenizer.tokenize.
  destruct (Tokenizer.tokenizeLoop (String.length input) input 0 []) as [t| e |].
  - left. exists t. reflexivity.
  - right. destruct H as [[k [r [E1 [E2 E3]]]] _]; [lia | constructor|].
    exists k, r. subst e. split; [reflexivity | split; assumption].
  - exfalso. apply H; [lia | constructor].
Qed.

(** X2. [tokenize] returns tokens exactly for the inputs that hold an even
    number of double quotes. *)
Theorem tokenize_accepts_even_quotes (input : string) :
  (exists tokens, Tokenizer.tokenize input = OK tokens) <->
  Nat.even (quotes input) = true.
Proof.
  pose proof (tokenizeLoop_ok (String.length input) input 0 []) as H.
  unfold Tokenizer.tokenize.
  destruct (Tokenizer.tokenizeLoop (String.length input) input 0 []) as [t| e |].
  - destruct H as [H _]; [lia | constructor|]. split; [intros _; exact H|].
    intros _. exists t. reflexivity.
  - destruct H as [_ H]; [lia | constructor|]. cbn [Js.drop] in H. split.
    + intros [t Ht]. discriminate.
    + intro E. congruence.
  - exfalso. apply H; [lia | constructor].
Qed.

(** X3. Every token [tokenize] returns is well formed. *)
Theorem tokens_are_well_formed (input : string) (tokens : list Tokenizer.Token) :
  Tokenizer.tokenize input = OK tokens -> Forall wfToken tokens.
Proof.
  intro E. pose proof (tokenizeLoop_ok (String.length input) input 0 []) as H.
  unfold Tokenizer.tokenize in E. rewrite E in H. apply H; [lia | constructor].
Qed.


(** ** Brackets and nodes (parser.js, syntaxtree.js) *)

Definition isBracket (ty : Tokenizer.TokenType) : bool :=
  Tokenizer.eqb ty Tokenizer.BRACKET_OPEN || Tokenizer.eqb ty Tokenizer.BRACKET_CLOSE.

(** The tokens from the position [c] up to [c'] are no brackets. *)
Definition plain (tokens : list Tokenizer.Token) (c c' : nat) : Prop :=
  forall i, (c <= i < c')%nat ->
            exists t, nth_error tokens i = Some t /\ isBracket (Tokenizer.type t) = false.

(** Number of opening and of closing brackets before the position [c]. *)
Definition opens (tokens : list Tokenizer.Token) (c : nat) : nat :=
  countType Tokenizer.BRACKET_OPEN (firstn c tokens).

Definition closes (tokens : list Tokenizer.Token) (c : nat) : nat :=
  countType Tokenizer.BRACKET_CLOSE (firstn c tokens).

Definition isNode (n : Parser.SyntaxNode) : bool := Parser.eqb (Parser.type n) Parser.NODE.

(** Number of Node nodes in a tree and in a list of trees. *)
Definition nodeCount (v : Parser.SyntaxNode) : nat :=
  List.length (filter isNode (syntaxNodes v)).

Definition nodesIn (vs : list Parser.SyntaxNode) : nat :=
  List.length (filter isNode (flat_map syntaxNodes vs)).

(** The errors of the parser that the pre-check leaves possible. *)
Definition afterCheck (e : Parser.ParseError) : bool :=
  match e with
  | Parser.ExpectedLabel | Parser.ExpectedNodeSubscript _ | Parser.ExpectedValueSubscript _
  | Parser.ExpectedColumnNumber _ | Parser.UnexpectedToken _ _ => true
  | Parser.MissingLabel | Parser.MissingClosingBracket _ | Parser.TypeError => false
  end.

Definition isMissingClose (e : Parser.ParseError) : bool :=
  match e with Parser.MissingClosingBracket _ => true | _ => false end.

Lemma firstn_S_nth {A : Type} (l : list A) (n : nat) (x : A) :
  nth_error l n = Some x -> firstn (S n) l = firstn n l ++ [x].
Proof.
  revert l. induction n as [|n IH]; intros [|y l] H; simpl in *; try discriminate.
  - inversion H; subst. reflexivity.
  - f_equal. apply IH. exact H.
Qed.

Lemma countType_app (ty : Tokenizer.TokenType) (l k : list Tokenizer.Token) :
  countType ty (l ++ k) = (countType ty l + countType ty k)%nat.
Proof. unfold countType. rewrite filter_app, length_app. reflexivity. Qed.

Lemma opens_S (tokens : list Tokenizer.Token) (c : nat) (t : Tokenizer.Token) :
  nth_error tokens c = Some t ->
  opens tokens (S c) =
  (opens tokens c + if Tokenizer.eqb (Tokenizer.type t) Tokenizer.BRACKET_OPEN then 1 else 0)%nat.
Proof.
  intro H. unfold opens. rewrite (firstn_S_nth _ _ _ H), countType_app. f_equal.
  unfold countType. simpl. destruct (Tokenizer.eqb _ _); reflexivity.
Qed.

Lemma closes_S (tokens : list Tokenizer.Token) (c : nat) (t : Tokenizer.Token) :
  nth_error tokens c = Some t ->
  closes tokens (S c) =
  (closes tokens c + if Tokenizer.eqb (Tokenizer.type t) Tokenizer.BRACKET_CLOSE then 1 else 0)%nat.
Proof.
  intro H. unfold closes. rewrite (firstn_S_nth _ _ _ H), countType_app. f_equal.
  unfold countType. simpl. destruct (Tokenizer.eqb _ _); reflexivity.
Qed.

Lemma plain_counts (tokens : list Tokenizer.Token) (c c' : nat) :
  plain tokens c c' -> (c <= c')%nat ->
  opens tokens c' = opens tokens c /\ closes tokens c' = closes tokens c.
Proof.
  intros Hp Hle. induction Hle as [|m Hle IH]; [split; reflexivity|].
  destruct (Hp m) as [t [Et Hb]]; [lia|].
  destruct IH as [I1 I2]; [intros i Hi; apply Hp; lia|].
  rewrite (opens_S _ _ _ Et), (closes_S _ _ _ Et), I1, I2.
  unfold isBracket in Hb. apply orb_false_iff in Hb. destruct Hb as [B1 B2].
  rewrite B1, B2. lia.
Qed.

Lemma plain_none (tokens : list Tokenizer.Token) (c : nat) : plain tokens c c.
Proof. intros i Hi. lia. Qed.

Lemma plain_trans (tokens : list Tokenizer.Token) (a b c : nat) :
  plain tokens a b -> plain tokens b c -> plain tokens a c.
Proof.
  intros H1 H2 i Hi. destruct (Nat.lt_ge_cases i b); [apply H1 | apply H2]; lia.
Qed.

Lemma plain_one (tokens : list Tokenizer.Token) (c : nat) (t : Tokenizer.Token) :
  nth_error tokens c = Some t -> isBracket (Tokenizer.type t) = false ->
  plain tokens c (S c).
Proof.
  intros H Hb i Hi. assert (i = c) by lia. subst i. exists t. split; assumption.
Qed.

Lemma isString_plain (ty : Tokenizer.TokenType) : Parser.isString ty = true -> isBracket ty = false.
Proof. destruct ty; simpl; intro H; try discriminate; reflexivity. Qed.

Lemma isPrefix_plain (ty : Tokenizer.TokenType) : Parser.isPrefix ty = true -> isBracket ty = false.
Proof. destruct ty; simpl; intro H; try discriminate; reflexivity. Qed.

Lemma isArrowType_plain (ty : Tokenizer.TokenType) :
  Parser.isArrowType ty = true -> isBracket ty = false.
Proof. destruct ty; simpl; intro H; try discriminate; reflexivity. Qed.

Lemma not_bracket_open_end (tokens : list Tokenizer.Token) (i : nat) (t : Tokenizer.Token) :
  closedAtEnd tokens -> nth_error tokens i = Some t -> isBracket (Tokenizer.type t) = false ->
  (S i < List.length tokens)%nat.
Proof.
  intros L E Hb. apply (L i t E). intro Ec. rewrite Ec in Hb. discriminate.
Qed.

Lemma labelAt_plain (tokens : list Tokenizer.Token) (c : nat) :
  plain tokens c (snd (labelAt tokens c)).
Proof.
  unfold labelAt. destruct (nth_error tokens c) as [t|] eqn:E; [|apply plain_none].
  destruct (Parser.isString (Tokenizer.type t)) eqn:Es; [|apply plain_none].
  exact (plain_one _ _ _ E (isString_plain _ Es)).
Qed.

Lemma arrowRun_plain (fuel : nat) (tokens : list Tokenizer.Token) (c : nat)
    (arrows : list Parser.ArrowDirective) :
  match Parser.arrowRun fuel tokens c arrows with
  | OK (c', _) => plain tokens c c'
  | Err e => closedAtEnd tokens -> (c < List.length tokens)%nat -> afterCheck e = true
  | OutOfFuel => True
  end.
Proof.
  revert c arrows. induction fuel as [|fuel IH]; intros c arrows; [exact I|].
  rewrite arrowRun_S.
  destruct (nth_error tokens c) as [token|] eqn:E0;
    [|intros _ Hc; apply nth_error_None in E0; lia].
  destruct (Parser.isArrowType (Tokenizer.type token)) eqn:Ea; [|apply plain_none].
  pose proof (isArrowType_plain _ Ea) as Hb0.
  destruct (nth_error tokens (S c)) as [target_token|] eqn:E1;
    [|intros L _; pose proof (not_bracket_open_end _ _ _ L E0 Hb0);
      apply nth_error_None in E1; lia].
  destruct (Tokenizer.eqb (Tokenizer.type target_token) Tokenizer.NUMBER) eqn:En;
    [|intros _ _; reflexivity].
  cbn [negb]. apply eqb_true_iff in En.
  assert (Hb1 : isBracket (Tokenizer.type target_token) = false) by (rewrite En; reflexivity).
  pose proof (labelAt_plain tokens (S (S c))) as Hl.
  destruct (labelAt tokens (S (S c))) as [label_text next]. cbn [snd] in Hl.
  assert (Hp : plain tokens c next).
  { apply (plain_trans _ _ (S c)); [exact (plain_one _ _ _ E0 Hb0)|].
    apply (plain_trans _ _ (S (S c))); [exact (plain_one _ _ _ E1 Hb1) | exact Hl]. }
  destruct (Parser.isComma tokens next) eqn:Ec; [|exact Hp].
  unfold Parser.isComma in Ec. destruct (nth_error tokens next) as [ct|] eqn:Ect; [|discriminate].
  apply andb_true_iff in Ec. destruct Ec as [Ec _]. apply eqb_true_iff in Ec.
  assert (Hbc : isBracket (Tokenizer.type ct) = false) by (rewrite Ec; reflexivity).
  specialize (IH (S next) (arrows ++ [Parser.mkDirective (Tokenizer.type token)
                                         (Tokenizer.value target_token) label_text])).
  destruct (Parser.arrowRun fuel tokens (S next) _) as [[c' a']| e |]; [| |exact I].
  - apply (plain_trans _ _ next); [exact Hp|].
    apply (plain_trans _ _ (S next)); [exact (plain_one _ _ _ Ect Hbc) | exact IH].
  - intros L _. apply (IH L). exact (not_bracket_open_end _ _ _ L Ect Hbc).
Qed.

Lemma arrowLoop_plain (fuel : nat) (tokens : list Tokenizer.Token) (c : nat)
    (arrows : list Parser.ArrowDirective) :
  match Parser.arrowLoop fuel tokens c arrows with
  | OK (c', _) => plain tokens c c'
  | Err e => closedAtEnd tokens -> afterCheck e = true
  | OutOfFuel => True
  end.
Proof.
  revert c arrows. induction fuel as [|fuel IH]; intros c arrows; [exact I|].
  rewrite arrowLoop_S.
  destruct (Nat.ltb_spec (S c) (List.length tokens)) as [Hl|Hl]; [|apply plain_none].
  destruct (Parser.typeAt tokens c Parser.isArrowType); [|apply plain_none].
  pose proof (arrowRun_plain (S (List.length tokens)) tokens c arrows) as Hr.
  destruct (Parser.arrowRun (S (List.length tokens)) tokens c arrows) as [[c1 a1]| e |];
    [|intro L; apply (Hr L); lia|exact I].
  specialize (IH c1 a1).
  destruct (Parser.arrowLoop fuel tokens c1 a1) as [[c' a']| e |]; [|exact IH|exact I].
  apply (plain_trans _ _ c1); [exact Hr | exact IH].
Qed.

Lemma parseScript_plain (err : nat -> Parser.ParseError) (tokens : list Tokenizer.Token)
    (c : nat) :
  (forall n, afterCheck (err n) = true) ->
  match Parser.parseScript err tokens c with
  | OK (c', (sub, sup)) => plain tokens c c' /\ (sub = None \/ sup = None)
  | Err e => afterCheck e = true
  | OutOfFuel => False
  end.
Proof.
  intro Herr. unfold Parser.parseScript.
  destruct (Nat.ltb_spec (S c) (List.length tokens)) as [Hl|Hl]; cbn [andb];
    [|split; [apply plain_none | left; reflexivity]].
  unfold Parser.typeAt.
  destruct (nth_error tokens c) as [t0|] eqn:E0; [|split; [apply plain_none | left; reflexivity]].
  destruct (Parser.isPrefix (Tokenizer.type t0)) eqn:Ep;
    [|split; [apply plain_none | left; reflexivity]].
  destruct (nth_error tokens (S c)) as [t1|] eqn:E1; [|apply nth_error_None in E1; lia].
  destruct (Parser.isString (Tokenizer.type t1)) eqn:Es; cbn [negb]; [|apply Herr].
  assert (Hp : plain tokens c (S (S c))).
  { apply (plain_trans _ _ (S c));
      [exact (plain_one _ _ _ E0 (isPrefix_plain _ Ep))
      | exact (plain_one _ _ _ E1 (isString_plain _ Es))]. }
  destruct (Tokenizer.eqb (Tokenizer.type t0) Tokenizer.SUPERSCRIPT_PREFIX);
    (split; [exact Hp|]); [left | right]; reflexivity.
Qed.

Lemma stringRun_plain (tokens : list Tokenizer.Token) (c : nat) :
  plain tokens c (c + List.length (Parser.stringRun (skipn c tokens))).
Proof.
  intros i Hi. assert (Ei : i = (c + (i - c))%nat) by lia.
  assert (Hk : (i - c < List.length (Parser.stringRun (skipn c tokens)))%nat) by lia.
  rewrite Ei. rewrite <- nth_error_skipn. revert Hk. generalize (i - c)%nat.
  generalize (skipn c tokens). clear. intro rest.
  induction rest as [|t r IH]; intros k Hk; simpl in Hk; [lia|].
  destruct (Tokenizer.eqb (Tokenizer.type t) Tokenizer.STRING) eqn:Es; simpl in Hk; [|lia].
  destruct k as [|k].
  - exists t. split; [reflexivity|]. apply eqb_true_iff in Es. rewrite Es. reflexivity.
  - simpl. apply IH. lia.
Qed.

Lemma parseValue_plain (tokens : list Tokenizer.Token) (c : nat) (t : Tokenizer.Token) :
  nth_error tokens c = Some t ->
  Parser.isString (Tokenizer.type t) = true ->
  match Parser.parseValue tokens c with
  | OK (c', v) => plain tokens c c'
  | Err e => closedAtEnd tokens -> afterCheck e = true
  | OutOfFuel => True
  end.
Proof.
  intros E Hs. unfold Parser.parseValue. rewrite E.
  set (lc := if Tokenizer.eqb (Tokenizer.type t) Tokenizer.STRING then _ else _).
  assert (Hlc : plain tokens c (snd lc)).
  { unfold lc. destruct (Tokenizer.eqb (Tokenizer.type t) Tokenizer.STRING); cbn [snd].
    - apply stringRun_plain.
    - exact (plain_one _ _ _ E (isString_plain _ Hs)). }
  destruct lc as [label c1]. cbn [snd] in Hlc.
  pose proof (parseScript_plain Parser.ExpectedValueSubscript tokens c1 (fun _ => eq_refl))
    as H1.
  destruct (Parser.parseScript Parser.ExpectedValueSubscript tokens c1)
    as [[c2 [sub sup]]| e |]; [|intros _; exact H1|exact I].
  pose proof (arrowLoop_plain (S (List.length tokens)) tokens c2 []) as H2.
  unfold Parser.parseArrows.
  destruct (Parser.arrowLoop (S (List.length tokens)) tokens c2 []) as [[c3 ar]| e |];
    [|exact H2|exact I].
  apply (plain_trans _ _ c1); [exact Hlc|]. apply (plain_trans _ _ c2); [exact (proj1 H1) | exact H2].
Qed.

Lemma nodeCount_unfold (v : Parser.SyntaxNode) :
  nodeCount v = ((if isNode v then 1 else 0) + nodesIn (Parser.values v))%nat.
Proof.
  unfold nodeCount, nodesIn. rewrite syntaxNodes_unfold. cbn [filter].
  destruct (isNode v); reflexivity.
Qed.

Lemma nodesIn_app (l k : list Parser.SyntaxNode) :
  nodesIn (l ++ k) = (nodesIn l + nodesIn k)%nat.
Proof. unfold nodesIn. rewrite flat_map_app, filter_app, length_app. reflexivity. Qed.

Lemma nodesIn_one (v : Parser.SyntaxNode) : nodesIn [v] = nodeCount v.
Proof. unfold nodesIn, nodeCount. simpl. rewrite app_nil_r. reflexivity. Qed.

Lemma nodeCount_setLabelCase (v : Parser.SyntaxNode) (l : string) (c : option string) :
  nodeCount (Parser.setLabelCase v l c) = nodeCount v.
Proof. rewrite !nodeCount_unfold. reflexivity. Qed.

(** A value as [parseToken] returns it: a leaf has no children. *)
Definition childless (v : Parser.SyntaxNode) : Prop :=
  Parser.type v = Parser.VALUE -> Parser.values v = [].

Lemma childless_count (v : Parser.SyntaxNode) :
  childless v -> Parser.type v = Parser.VALUE -> nodeCount v = O.
Proof.
  intros H Hty. rewrite nodeCount_unfold, (H Hty). unfold isNode. rewrite Hty. reflexivity.
Qed.

Lemma fileChild_nodesIn (node value : Parser.SyntaxNode) :
  childless value ->
  nodesIn (Parser.values (Parser.fileChild node value))
  = (nodesIn (Parser.values node) + nodeCount value)%nat.
Proof.
  intro Hc. rewrite fileChild_cases.
  destruct (isFeatureLeaf value) eqn:Ef.
  - unfold isFeatureLeaf in Ef. apply andb_true_iff in Ef. destruct Ef as [Ef _].
    rewrite (childless_count value Hc); [cbn [Parser.pushFeature Parser.values]; lia|].
    destruct (Parser.type value); try discriminate; reflexivity.
  - destruct (isCaseLeaf value) eqn:Ec.
    + unfold isCaseLeaf in Ec. apply andb_true_iff in Ec. destruct Ec as [Ec _].
      rewrite (childless_count value Hc);
        [|destruct (Parser.type value); try discriminate; reflexivity].
      destruct (List.rev (Parser.values node)) as [|prev before] eqn:Er; [cbv iota; lia|].
      apply rev_cons_inv in Er. cbn [Parser.setValues Parser.values].
      rewrite Er, !nodesIn_app, !nodesIn_one.
      destruct (attachCase_cases prev value) as [E|[l [c E]]]; rewrite E;
        [|rewrite nodeCount_setLabelCase]; lia.
    + cbn [Parser.setValues Parser.values]. rewrite nodesIn_app, nodesIn_one.
      unfold splitCase. destruct (Parser.matchCase (Parser.label value)) as [[g1 g2]|];
        [rewrite nodeCount_setLabelCase|]; reflexivity.
Qed.

(** The balance of brackets before a position. *)
Definition balance (tokens : list Tokenizer.Token) (c : nat) : Z :=
  (Z.of_nat (opens tokens c) - Z.of_nat (closes tokens c))%Z.

(** What a parsing function may leave at the position [c]: an error the
    pre-check leaves possible, or a missing closing bracket with brackets
    open at the end of the tokens. *)
Definition failure (tokens : list Tokenizer.Token) (c : nat) (strict : bool)
    (e : Parser.ParseError) : Prop :=
  afterCheck e = true \/
  (isMissingClose e = true /\
   if strict then (balance tokens c < balance tokens (List.length tokens))%Z
   else (balance tokens c <= balance tokens (List.length tokens))%Z).

Lemma parser_counts (fuel : nat) (tokens : list Tokenizer.Token) :
  (forall c,
     match Parser.parseToken fuel tokens c with
     | OK (c', v) =>
         childless v /\
         opens tokens c' = (opens tokens c + nodeCount v)%nat /\
         closes tokens c' = (closes tokens c + nodeCount v)%nat
     | Err e => closedAtEnd tokens -> (c < List.length tokens)%nat -> failure tokens c true e
     | OutOfFuel => True
     end) /\
  (forall c t,
     nth_error tokens c = Some t -> Tokenizer.type t = Tokenizer.BRACKET_OPEN ->
     match Parser.parseNode fuel tokens c with
     | OK (c', v) =>
         Parser.type v = Parser.NODE /\
         opens tokens c' = (opens tokens c + nodeCount v)%nat /\
         closes tokens c' = (closes tokens c + nodeCount v)%nat
     | Err e => closedAtEnd tokens -> failure tokens c true e
     | OutOfFuel => True
     end) /\
  (forall c node,
     match Parser.parseChildren fuel tokens c node with
     | OK (c', v) =>
         Parser.type v = Parser.type node /\
         (opens tokens c' + nodesIn (Parser.values node)
          = opens tokens c + nodesIn (Parser.values v))%nat /\
         (closes tokens c' + nodesIn (Parser.values node)
          = closes tokens c + nodesIn (Parser.values v) + 1)%nat
     | Err e => closedAtEnd tokens -> failure tokens c false e
     | OutOfFuel => True
     end).
Proof.
  induction fuel as [|fuel [IHt [IHn IHc]]]; [repeat split; intros; exact I|].
  assert (Hvalue : forall c token,
            nth_error tokens c = Some token ->
            Parser.isString (Tokenizer.type token) = true ->
            match Parser.parseValue tokens c with
            | OK (c', v) =>
                childless v /\
                opens tokens c' = (opens tokens c + nodeCount v)%nat /\
                closes tokens c' = (closes tokens c + nodeCount v)%nat
            | Err e =>
                closedAtEnd tokens -> (c < List.length tokens)%nat -> failure tokens c true e
            | OutOfFuel => True
            end).
  { intros c token E0 Hs.
    pose proof (parseValue_plain tokens c token E0 Hs) as Hp.
    pose proof (parseValue_values tokens c) as Hv.
    destruct (parseValue_total tokens c) as [_ Hb].
    destruct (Parser.parseValue tokens c) as [[c' v]| e |];
      [|intros L _; left; exact (Hp L)|exact I].
    destruct (Hv c' v eq_refl) as [Hty [Hvs _]].
    destruct (plain_counts tokens c c' Hp) as [Ho Hcl]; [specialize (Hb c' v eq_refl); lia|].
    assert (Hch : childless v) by (intros _; exact Hvs).
    rewrite (childless_count v Hch Hty). split; [exact Hch|]. split; lia. }
  split; [|split].
  - intros c. rewrite parseToken_S.
    destruct (nth_error tokens c) as [token|] eqn:E0;
      [|intros _ Hc; apply nth_error_None in E0; lia].
    destruct (Tokenizer.type token) eqn:Ety; try (intros _ _; left; reflexivity).
    + specialize (IHn c token E0 Ety).
      destruct (Parser.parseNode fuel tokens c) as [[c' v]| e |];
        [|intros L _; exact (IHn L)|exact I].
      destruct IHn as [Hty [Ho Hcl]]. split; [|split; assumption].
      intro Hv. rewrite Hty in Hv. discriminate.
    + apply (Hvalue c token E0). rewrite Ety. reflexivity.
    + apply (Hvalue c token E0). rewrite Ety. reflexivity.
  - intros c t E0 Ety. rewrite parseNode_S.
    pose proof (opens_S _ _ _ E0) as Ho1. pose proof (closes_S _ _ _ E0) as Hc1.
    rewrite Ety in Ho1, Hc1. cbn [Tokenizer.eqb] in Ho1, Hc1.
    destruct (Nat.ltb_spec (List.length tokens) (c + 2)) as [Hl|Hl].
    { intro L. assert (S c < List.length tokens)%nat; [|lia].
      apply (L c t E0). rewrite Ety. discriminate. }
    destruct (nth_error tokens (S c)) as [label_token|] eqn:E1;
      [|apply nth_error_None in E1; lia].
    destruct (Parser.isString (Tokenizer.type label_token)) eqn:Es; cbn [negb];
      [|intros _; left; reflexivity].
    pose proof (parseScript_plain Parser.ExpectedNodeSubscript tokens (S (S c))
                  (fun _ => eq_refl)) as Hs.
    destruct (parseScript_bounds Parser.ExpectedNodeSubscript tokens (S (S c))) as [_ Hb].
    destruct (Parser.parseScript Parser.ExpectedNodeSubscript tokens (S (S c)))
      as [[c2 [sub sup]]| e |]; [|intros _; left; exact Hs|contradiction].
    destruct Hs as [Hs _]. destruct (Hb c2 _ eq_refl) as [Hb1 _].
    assert (Hp : plain tokens (S c) c2).
    { apply (plain_trans _ _ (S (S c))); [|exact Hs].
      exact (plain_one _ _ _ E1 (isString_plain _ Es)). }
    destruct (plain_counts tokens (S c) c2 Hp) as [Ho Hcl]; [lia|].
    specialize (IHc c2 (newNode (Tokenizer.text (Tokenizer.value label_token)) sub sup)).
    destruct (Parser.parseChildren fuel tokens c2 _) as [[c' v]| e |]; [| |exact I].
    + destruct IHc as [Hty [Io Ic]]. cbn [newNode Parser.type Parser.values] in Hty, Io, Ic.
      change (nodesIn []) with O in Io, Ic. split; [exact Hty|].
      rewrite nodeCount_unfold. unfold isNode. rewrite Hty. cbn [Parser.eqb]. split; lia.
    + intro L. destruct (IHc L) as [Ha|[Hm Hbal]]; [left; exact Ha|]. right.
      split; [exact Hm|]. unfold balance in *. lia.
  - intros c node. rewrite parseChildren_S.
    destruct (Nat.ltb_spec c (List.length tokens)) as [Hl|Hl]; cbn [andb].
    + destruct (Parser.typeAt tokens c isClose) eqn:Ec; cbn [negb].
      * destruct (Nat.leb_spec (List.length tokens) c) as [Hl2|Hl2]; [lia|].
        unfold Parser.typeAt in Ec. destruct (nth_error tokens c) as [t|] eqn:E0; [|discriminate].
        unfold isClose in Ec.
        pose proof (opens_S _ _ _ E0) as Ho1. pose proof (closes_S _ _ _ E0) as Hc1.
        rewrite Ec in Hc1. apply eqb_true_iff in Ec. rewrite Ec in Ho1.
        cbn [Tokenizer.eqb] in Ho1.
        split; [reflexivity|]. split; lia.
      * specialize (IHt c).
        destruct (Parser.parseToken fuel tokens c) as [[c1 v1]| e |]; [| |exact I].
        -- destruct IHt as [Hch [Ho Hcl]].
           specialize (IHc c1 (Parser.fileChild node v1)).
           destruct (Parser.parseChildren fuel tokens c1 _) as [[c' v]| e |]; [| |exact I].
           ++ destruct IHc as [Hty [Io Ic]]. rewrite fileChild_type in Hty.
              rewrite (fileChild_nodesIn node v1 Hch) in Io, Ic.
              split; [exact Hty|]. split; lia.
           ++ intro L. destruct (IHc L) as [Ha|[Hm Hbal]]; [left; exact Ha|]. right.
              split; [exact Hm|]. unfold balance in *. lia.
        -- intro L. destruct (IHt L Hl) as [Ha|[Hm Hbal]]; [left; exact Ha|]. right.
           split; [exact Hm|]. lia.
    + destruct (Nat.leb_spec (List.length tokens) c) as [Hl2|Hl2]; [|lia].
      intros _. right. split; [reflexivity|]. unfold balance, opens, closes.
      rewrite !firstn_all2 by lia. lia.
Qed.

(** The loop of [parse]. *)
Lemma parseLoop_counts (fuel : nat) (tokens : list Tokenizer.Token) (c : nat)
    (values : list Parser.SyntaxNode) :
  match Parser.parseLoop fuel tokens c values with
  | OK values' =>
      (opens tokens (List.length tokens) + nodesIn values
       = opens tokens c + nodesIn values')%nat /\
      (closes tokens (List.length tokens) + nodesIn values
       = closes tokens c + nodesIn values')%nat
  | Err e => closedAtEnd tokens -> failure tokens c true e
  | OutOfFuel => True
  end.
Proof.
  revert c values. induction fuel as [|fuel IH]; intros c values.
  - simpl. destruct (Nat.ltb_spec c (List.length tokens)) as [Hl|Hl]; [exact I|].
    unfold opens, closes. rewrite !firstn_all2 by lia. split; reflexivity.
  - cbn [Parser.parseLoop].
    destruct (Nat.ltb_spec c (List.length tokens)) as [Hl|Hl];
      [|unfold opens, closes; rewrite !firstn_all2 by lia; split; reflexivity].
    destruct (parser_counts (2 * List.length tokens + 1) tokens) as [Ht _].
    specialize (Ht c).
    destruct (Parser.parseToken (2 * List.length tokens + 1) tokens c) as [[c1 v1]| e |];
      [|intro L; exact (Ht L Hl)|exact I].
    destruct Ht as [_ [Ho Hcl]]. specialize (IH c1 (values ++ [v1])).
    destruct (Parser.parseLoop fuel tokens c1 (values ++ [v1])) as [vs| e |]; [| |exact I].
    + rewrite nodesIn_app, nodesIn_one in IH. lia.
    + intro L. destruct (IH L) as [Ha|[Hm Hbal]]; [left; exact Ha|]. right.
      split; [exact Hm|]. unfold balance in *. lia.
Qed.

(** X4. In the tree of a parsed token sequence there are as many Node nodes
    as there are opening brackets among the tokens, and as many as there are
    closing brackets: [parse] returns a tree for balanced sequences only. *)
Theorem parse_counts_brackets (tokens : list Tokenizer.Token) (root : Parser.SyntaxNode) :
  Parser.parse tokens = OK root ->
  countType Tokenizer.BRACKET_OPEN tokens = nodeCount root /\
  countType Tokenizer.BRACKET_CLOSE tokens = nodeCount root /\
  SyntaxTree.countOpenBrackets tokens = 0%Z.
Proof.
  intro H. unfold Parser.parse in H.
  pose proof (parseLoop_counts (List.length tokens) tokens 0 []) as Hc.
  destruct (Parser.parseLoop (List.length tokens) tokens 0 []) as [vs| e |];
    try discriminate.
  inversion H; subst root. destruct Hc as [Ho Hcl].
  unfold opens, closes in Ho, Hcl. rewrite firstn_all in Ho, Hcl.
  change (nodesIn []) with O in Ho, Hcl.
  change (countType _ (firstn 0 tokens)) with O in Ho, Hcl.
  rewrite nodeCount_unfold. cbn [Parser.mkRoot Parser.values isNode Parser.type Parser.eqb].
  rewrite countOpenBrackets_signed. lia.
Qed.

(** What the pre-check has found when it accepts. *)
Lemma validateTokens_accepts (tokens : list Tokenizer.Token) :
  SyntaxTree.validateTokens tokens = None ->
  closedAtEnd tokens /\ SyntaxTree.countOpenBrackets tokens = 0%Z.
Proof.
  intro Hv. unfold SyntaxTree.validateTokens in Hv.
  destruct (List.length tokens <? 3)%nat eqn:E3; [discriminate|].
  destruct (SyntaxTree.typeIsNot tokens 0 Tokenizer.BRACKET_OPEN ||
            SyntaxTree.typeIsNot tokens (List.length tokens - 1) Tokenizer.BRACKET_CLOSE)
    eqn:Ew; [discriminate|].
  cbv zeta in Hv.
  destruct (Z.ltb_spec 0 (SyntaxTree.countOpenBrackets tokens)) as [Hp|Hp]; [discriminate|].
  destruct (Z.ltb_spec (SyntaxTree.countOpenBrackets tokens) 0) as [Hn|Hn]; [discriminate|].
  split; [|lia].
  apply orb_false_iff in Ew. destruct Ew as [_ Ew].
  intros i t Ei Hty. pose proof (nth_error_lt _ _ _ Ei) as Hi.
  destruct (Nat.eq_dec (S i) (List.length tokens)) as [E|E]; [|lia].
  exfalso. unfold SyntaxTree.typeIsNot in Ew.
  replace (List.length tokens - 1)%nat with i in Ew by lia. rewrite Ei in Ew.
  apply negb_false_iff in Ew. apply eqb_true_iff in Ew. contradiction.
Qed.

(** The errors of [parse] for balanced tokens that end with a closing
    bracket. *)
Lemma parse_fails_afterCheck (tokens : list Tokenizer.Token) (e : Parser.ParseError) :
  closedAtEnd tokens -> SyntaxTree.countOpenBrackets tokens = 0%Z ->
  Parser.parse tokens = Err e -> afterCheck e = true.
Proof.
  intros L Hz H. unfold Parser.parse in H.
  pose proof (parseLoop_counts (List.length tokens) tokens 0 []) as Hc.
  destruct (Parser.parseLoop (List.length tokens) tokens 0 []) as [vs| e' |];
    try discriminate.
  inversion H; subst e'. destruct (Hc L) as [Ha|[_ Hbal]]; [exact Ha|]. exfalso.
  rewrite countOpenBrackets_signed in Hz. unfold balance, opens, closes in Hbal.
  rewrite firstn_all in Hbal.
  change (countType _ (firstn 0 tokens)) with O in Hbal. lia.
Qed.

(** X5. For the tokens the pre-check accepts, [parse] returns a tree or
    fails with one of the errors of [afterCheck]: it does not miss a label
    or a closing bracket, and it does not read past the end of the
    tokens. *)
Theorem checked_tokens_parse_errors (tokens : list Tokenizer.Token) :
  SyntaxTree.validateTokens tokens = None ->
  (exists root, Parser.parse tokens = OK root) \/
  (exists e, Parser.parse tokens = Err e /\ afterCheck e = true).
Proof.
  intro Hv. destruct (validateTokens_accepts tokens Hv) as [L Hz].
  pose proof (parse_total tokens) as Ht.
  pose proof (parse_fails_afterCheck tokens) as Hf.
  destruct (Parser.parse tokens) as [t| e |]; [| |contradiction].
  - left. exists t. reflexivity.
  - right. exists e. split; [reflexivity | exact (Hf e L Hz eq_refl)].
Qed.

(** ** The shape of a parsed tree (parser.js) *)

(** What holds of every node below the root: it has not both a subscript
    and a superscript; a Node carries no arrows; a Value has neither
    children nor features, and its arrows, when it has some, are not an
    empty array. *)
Definition wellFormed (n : Parser.SyntaxNode) : Prop :=
  (Parser.subscript n = None \/ Parser.superscript n = None) /\
  match Parser.type n with
  | Parser.ROOT => False
  | Parser.NODE => Parser.arrows n = None
  | Parser.VALUE =>
      Parser.values n = [] /\ Parser.features n = [] /\ Parser.arrows n <> Some []
  end.

Lemma parseValue_wellFormed (tokens : list Tokenizer.Token) (c c' : nat)
    (v : Parser.SyntaxNode) :
  Parser.parseValue tokens c = OK (c', v) -> wellFormed v.
Proof.
  unfold Parser.parseValue. destruct (nth_error tokens c) as [token|]; [|discriminate].
  destruct (if Tokenizer.eqb (Tokenizer.type token) Tokenizer.STRING then _ else _)
    as [label c1].
  pose proof (parseScript_plain Parser.ExpectedValueSubscript tokens c1 (fun _ => eq_refl))
    as Hs.
  destruct (Parser.parseScript Parser.ExpectedValueSubscript tokens c1)
    as [[c2 [sub sup]]| e |]; try discriminate.
  destruct (Parser.parseArrows tokens c2 []) as [[c3 ar]| e |]; try discriminate.
  intro H. inversion H; subst. split; [exact (proj2 Hs)|]. cbn.
  split; [reflexivity|]. split; [reflexivity|]. destruct ar; simpl; discriminate.
Qed.

Lemma fileChild_kept (node value : Parser.SyntaxNode) :
  Parser.subscript (Parser.fileChild node value) = Parser.subscript node /\
  Parser.superscript (Parser.fileChild node value) = Parser.superscript node /\
  Parser.arrows (Parser.fileChild node value) = Parser.arrows node /\
  Parser.label (Parser.fileChild node value) = Parser.label node.
Proof.
  rewrite fileChild_cases. destruct (isFeatureLeaf value); [repeat split|].
  destruct (isCaseLeaf value); [|repeat split].
  destruct (List.rev (Parser.values node)); repeat split.
Qed.

Lemma fold_fileChild_kept (vs : list Parser.SyntaxNode) (node : Parser.SyntaxNode) :
  Parser.subscript (fold_left Parser.fileChild vs node) = Parser.subscript node /\
  Parser.superscript (fold_left Parser.fileChild vs node) = Parser.superscript node /\
  Parser.arrows (fold_left Parser.fileChild vs node) = Parser.arrows node /\
  Parser.label (fold_left Parser.fileChild vs node) = Parser.label node.
Proof.
  revert node. induction vs as [|v vs IH]; intro node; [repeat split|].
  simpl. destruct (IH (Parser.fileChild node v)) as [A [B [C D]]].
  destruct (fileChild_kept node v) as [A' [B' [C' D']]]. repeat split; congruence.
Qed.

Lemma parseToken_wellFormed (fuel : nat) (tokens : list Tokenizer.Token) (c c' : nat)
    (v : Parser.SyntaxNode) :
  Parser.parseToken fuel tokens c = OK (c', v) -> allQ wellFormed v.
Proof.
  revert c c' v. induction fuel as [fuel IH] using lt_wf_ind. intros c c' v H.
  destruct fuel as [|fuel]; [discriminate|]. rewrite parseToken_S in H.
  destruct (nth_error tokens c) as [token|]; [|discriminate].
  assert (Hval : Parser.parseValue tokens c = OK (c', v) -> allQ wellFormed v).
  { intros Hv n Hn. destruct (parseValue_values tokens c c' v Hv) as [_ [E _]].
    rewrite syntaxNodes_unfold, E in Hn. destruct Hn as [En|[]]. subst n.
    exact (parseValue_wellFormed tokens c c' v Hv). }
  destruct (Tokenizer.type token); try discriminate; try (apply Hval; exact H).
  destruct fuel as [|fuel]; [discriminate|]. rewrite parseNode_S in H.
  destruct (List.length tokens <? c + 2)%nat; [discriminate|].
  destruct (nth_error tokens (S c)) as [label_token|]; [|discriminate].
  destruct (negb (Parser.isString (Tokenizer.type label_token))); [discriminate|].
  pose proof (parseScript_plain Parser.ExpectedNodeSubscript tokens (S (S c))
                (fun _ => eq_refl)) as Hs.
  destruct (Parser.parseScript Parser.ExpectedNodeSubscript tokens (S (S c)))
    as [[c2 [sub sup]]| e |]; try discriminate.
  destruct (parseChildren_Children _ _ _ _ _ _ H) as [raws [c3 [Hch [_ Ev]]]]. subst v.
  assert (Hraws : Forall (allQ wellFormed) raws).
  { apply (Children_allQ tokens wellFormed fuel c2 c3); [|exact Hch].
    intros f c0 c0' v0 Hf. apply IH. lia. }
  intros n Hn. rewrite syntaxNodes_unfold in Hn. destruct Hn as [E|Hn].
  - subst n. unfold wellFormed. rewrite fold_fileChild_type.
    destruct (fold_fileChild_kept raws
                (newNode (Tokenizer.text (Tokenizer.value label_token)) sub sup))
      as [A [B [C _]]].
    rewrite A, B, C. split; [exact (proj2 Hs) | reflexivity].
  - apply in_flat_map in Hn. destruct Hn as [x [Hx Hn]].
    refine (fold_fileChild_allQ wellFormed _ raws _ _ Hraws x Hx n Hn); [|intros y []].
    intros m l k Hm. exact Hm.
Qed.

Lemma parseLoop_wellFormed (fuel : nat) (tokens : list Tokenizer.Token) (c : nat)
    (values values' : list Parser.SyntaxNode) :
  Forall (allQ wellFormed) values ->
  Parser.parseLoop fuel tokens c values = OK values' -> Forall (allQ wellFormed) values'.
Proof.
  revert c values. induction fuel as [|fuel IH]; intros c values Hv H; simpl in H.
  - destruct (c <? List.length tokens)%nat; [discriminate|]. inversion H; subst. exact Hv.
  - destruct (c <? List.length tokens)%nat; [|inversion H; subst; exact Hv].
    destruct (Parser.parseToken _ tokens c) as [[c1 v1]| e |] eqn:Et; try discriminate.
    apply (IH c1 (values ++ [v1])); [|exact H].
    apply Forall_app. split; [exact Hv|]. constructor; [|constructor].
    exact (parseToken_wellFormed _ _ _ _ _ Et).
Qed.

(** X6. The tree [parse] returns: its root is a Root node labelled
    [__ROOT__] without subscript, superscript, features, case feature or
    arrows; no node below the root is a Root; a Node below it carries no
    arrows; a Value below it has neither children nor features, and its
    arrows, when it has some, are not an empty array. *)
Theorem parsed_tree_shape (tokens : list Tokenizer.Token) (root : Parser.SyntaxNode) :
  Parser.parse tokens = OK root ->
  root = Parser.mkRoot (Parser.values root) /\
  forall x n, In x (Parser.values root) -> In n (syntaxNodes x) ->
    match Parser.type n with
    | Parser.ROOT => False
    | Parser.NODE => Parser.arrows n = None
    | Parser.VALUE =>
        Parser.values n = [] /\ Parser.features n = [] /\ Parser.arrows n <> Some []
    end.
Proof.
  unfold Parser.parse.
  destruct (Parser.parseLoop (List.length tokens) tokens 0 []) as [values| e |] eqn:E;
    try discriminate.
  intro H. inversion H; subst. split; [reflexivity|]. intros x n Hx Hn.
  pose proof (parseLoop_wellFormed _ _ _ _ _ (Forall_nil _) E) as Hall.
  rewrite Forall_forall in Hall. exact (proj2 (Hall x Hx n Hn)).
Qed.

(** X7. No node of a parsed tree has both a subscript and a superscript. *)
Theorem scripts_are_exclusive (tokens : list Tokenizer.Token) (root n : Parser.SyntaxNode) :
  Parser.parse tokens = OK root -> In n (syntaxNodes root) ->
  Parser.subscript n = None \/ Parser.superscript n = None.
Proof.
  unfold Parser.parse.
  destruct (Parser.parseLoop (List.length tokens) tokens 0 []) as [values| e |] eqn:E;
    try discriminate.
  intro H. inversion H; subst. intro Hn. rewrite syntaxNodes_unfold in Hn.
  destruct Hn as [En|Hn]; [subst n; left; reflexivity|].
  cbn [Parser.mkRoot Parser.values] in Hn. apply in_flat_map in Hn.
  destruct Hn as [x [Hx Hn]].
  pose proof (parseLoop_wellFormed _ _ _ _ _ (Forall_nil _) E) as Hall.
  rewrite Forall_forall in Hall. exact (proj1 (Hall x Hx n Hn)).
Qed.


(** ** What [update] can show (syntaxtree.js) *)

Lemma span_all (p : ascii -> bool) (s : string) :
  Js.all p s = true -> Tokenizer.span p s = String.length s.
Proof.
  induction s as [|c r IH]; simpl; [reflexivity|]. intro H.
  apply andb_true_iff in H. destruct H as [H1 H2]. rewrite H1, (IH H2). reflexivity.
Qed.

Lemma tokenizeLoop_at_end (fuel : nat) (input : string) (offset : nat)
    (tokens : list Tokenizer.Token) :
  (String.length input <= offset)%nat ->
  Tokenizer.tokenizeLoop fuel input offset tokens = OK tokens.
Proof.
  intro H. destruct fuel; simpl;
    destruct (Nat.ltb_spec offset (String.length input)); (lia || reflexivity).
Qed.

(** X8. A phrase of white space only, the empty phrase among them, has no
    tokens, and [update] shows that the phrase is too short. *)
Theorem blank_phrase_is_too_short (canvas : Tree.Canvas) (alignment : nat)
    (autoSubscript : bool) (vscaler treeFontsize : Q) (phrase : string) :
  Js.all Tokenizer.isWhitespace phrase = true ->
  Tokenizer.tokenize phrase = OK [] /\
  update canvas alignment autoSubscript vscaler treeFontsize phrase
  = Err (InvalidTokens SyntaxTree.PhraseTooShort).
Proof.
  intro H.
  assert (E : Tokenizer.tokenize phrase = OK []).
  { unfold Tokenizer.tokenize. destruct phrase as [|c r]; [reflexivity|].
    cbn [String.length Tokenizer.tokenizeLoop]. cbn [Nat.ltb Nat.leb].
    unfold Tokenizer.parsers. cbn [Tokenizer.runParsers].
    unfold Tokenizer.skipWhitespace. cbn [Js.drop]. rewrite (span_all _ _ H).
    cbn [String.length Nat.add]. rewrite Nat.leb_refl. cbn [Nat.eqb].
    apply tokenizeLoop_at_end. simpl. lia. }
  split; [exact E|]. unfold update. rewrite E. reflexivity.
Qed.

Lemma blank_phrase_is_too_short_example :
  Tokenizer.tokenize "   " = OK [] /\
  update exampleCanvas 0 true 1 16 "   " = Err (InvalidTokens SyntaxTree.PhraseTooShort).
Proof. apply (blank_phrase_is_too_short exampleCanvas 0 true 1 16 "   "). reflexivity. Defined.

(** X9. [update] ends for every phrase, and the errors it can show are: a
    quoted string without end, the errors of the pre-check, and the errors
    of the parser for a missing label string, a missing subscript string, a
    missing column number and an unexpected token.  It never shows that the
    tokenizer was unable to parse, that a label or a closing bracket is
    missing, or the type error of a read past the end of the tokens. *)
Theorem update_errors (canvas : Tree.Canvas) (alignment : nat)
    (autoSubscript : bool) (vscaler treeFontsize : Q) (phrase : string) :
  match update canvas alignment autoSubscript vscaler treeFontsize phrase with
  | OK l =>
      exists tokens syntax_tree,
        Tokenizer.tokenize phrase = OK tokens /\
        SyntaxTree.validateTokens tokens = None /\
        Parser.parse tokens = OK syntax_tree /\
        l = Tree.layout canvas alignment autoSubscript vscaler treeFontsize syntax_tree
  | Err (TokenizerError e) => exists s, e = Tokenizer.UnterminatedQuotedString s
  | Err (InvalidTokens e) => True
  | Err (ParserError e) => afterCheck e = true
  | OutOfFuel => False
  end.
Proof.
  unfold update.
  pose proof (tokenizeLoop_ok (String.length phrase) phrase 0 []) as Ht.
  unfold Tokenizer.tokenize.
  destruct (Tokenizer.tokenizeLoop (String.length phrase) phrase 0 []) as [tokens| e |] eqn:Et.
  - destruct (SyntaxTree.validateTokens tokens) as [e|] eqn:Ev; [exact I|].
    destruct (validateTokens_accepts tokens Ev) as [L Hz].
    pose proof (parse_total tokens) as Hp.
    pose proof (parse_fails_afterCheck tokens) as Hf.
    destruct (Parser.parse tokens) as [t| e |] eqn:Ep; [| |contradiction].
    + exists tokens, t. split; [reflexivity|]. split; [exact Ev|]. split; [exact Ep | reflexivity].
    + exact (Hf e L Hz eq_refl).
  - destruct Ht as [[k [r [E _]]] _]; [lia | constructor|]. eexists. exact E.
  - apply Ht; [lia | constructor].
Qed.

(** ** The case marker at the end of a label (parser.js) *)

Lemma take_drop (n : nat) (s : string) : (Js.take n s ++ Js.drop n s)%string = s.
Proof.
  revert s. induction n as [|n IH]; intro s; [reflexivity|].
  destruct s as [|c r]; simpl; [reflexivity | rewrite IH; reflexivity].
Qed.

Lemma take_span_all (p : ascii -> bool) (n : nat) (s : string) :
  (n <= Tokenizer.span p s)%nat -> Js.all p (Js.take n s) = true.
Proof.
  revert s. induction n as [|n IH]; intros s H; [reflexivity|].
  destruct s as [|c r]; simpl in *; [reflexivity|].
  destruct (p c); [|lia]. simpl. apply IH. lia.
Qed.

Lemma span_app_all (p : ascii -> bool) (a b : string) :
  Js.all p a = true -> (String.length a <= Tokenizer.span p (a ++ b))%nat.
Proof.
  induction a as [|c r IH]; simpl; [lia|]. intro H.
  apply andb_true_iff in H. destruct H as [H1 H2]. rewrite H1. specialize (IH H2). lia.
Qed.

Lemma drop_app_length (a b : string) : Js.drop (String.length a) (a ++ b) = b.
Proof. induction a as [|c r IH]; simpl; [reflexivity | exact IH]. Qed.

Lemma tryFrom_finds {A : Type} (n k : nat) (f : nat -> option A) :
  (k <= n)%nat -> f k <> None -> Parser.tryFrom n f <> None.
Proof.
  intros Hk Hf. induction n as [|n IH]; simpl.
  - assert (k = 0)%nat by lia. subst k. destruct (f 0%nat); [discriminate | exact Hf].
  - destruct (f (S n)) eqn:E; [discriminate|].
    destruct (Nat.eq_dec k (S n)) as [Ek|Ek]; [subst k; congruence|]. apply IH. lia.
Qed.

Lemma tryFrom_first {A : Type} (n : nat) (f : nat -> option A) (x : A) :
  Parser.tryFrom n f = Some x ->
  exists k, (k <= n)%nat /\ f k = Some x /\ forall j, (k < j <= n)%nat -> f j = None.
Proof.
  induction n as [|n IH]; simpl; intro H.
  - destruct (f 0%nat) eqn:E; [|discriminate]. exists 0%nat.
    split; [lia|]. split; [congruence | intros j Hj; lia].
  - destruct (f (S n)) eqn:E.
    + exists (S n). split; [lia|]. split; [congruence | intros j Hj; lia].
    + destruct (IH H) as [k [Hk [Hf Hn]]]. exists k. split; [lia|]. split; [exact Hf|].
      intros j Hj. destruct (Nat.eq_dec j (S n)) as [Ej|Ej]; [subst j; exact E|].
      apply Hn. lia.
Qed.

Lemma take_length (n : nat) (s : string) :
  (n <= String.length s)%nat -> String.length (Js.take n s) = n.
Proof.
  revert s. induction n as [|n IH]; intros s H; [reflexivity|].
  destruct s as [|c r]; simpl in *; [lia|]. rewrite IH; [reflexivity | lia].
Qed.

(** A label that can be cut is matched at the cut, if not before. *)
Lemma cut_is_tried (g1 ws g2 : string) :
  Js.all Js.isSpace ws = true -> Parser.braced g2 = true ->
  Parser.spacesThenBraced (Js.drop (String.length g1) (g1 ++ ws ++ g2)) <> None.
Proof.
  intros H2 Eb. rewrite drop_app_length. unfold Parser.spacesThenBraced.
  apply (tryFrom_finds _ (String.length ws)); [apply span_app_all; exact H2|].
  rewrite drop_app_length, Eb. discriminate.
Qed.

(** X10. The match of the case regular expression, [G1 \s* G2] up to the
    end with [G1] any characters and [G2] a case marker, on a label.  When
    it succeeds with the groups [g1] and [g2], the label is [g1], then
    white space, then [g2]; [g1] holds no line terminator, [g2] is a case
    marker, and no other such cut of the label has a longer first part (the
    first group is greedy).  When it fails, the label cannot be cut in such
    a way. *)
Theorem matchCase_cuts_the_label (s : string) :
  (forall g1 g2,
     Parser.matchCase s = Some (g1, g2) ->
     (exists ws, s = (g1 ++ ws ++ g2)%string /\
                 Js.all Parser.notLineTerminator g1 = true /\
                 Js.all Js.isSpace ws = true /\ Parser.braced g2 = true) /\
     (forall g1' ws' g2',
        s = (g1' ++ ws' ++ g2')%string -> Js.all Parser.notLineTerminator g1' = true ->
        Js.all Js.isSpace ws' = true -> Parser.braced g2' = true ->
        (String.length g1' <= String.length g1)%nat)) /\
  (Parser.matchCase s = None ->
   forall g1 ws g2,
     s = (g1 ++ ws ++ g2)%string -> Js.all Parser.notLineTerminator g1 = true ->
     Js.all Js.isSpace ws = true -> Parser.braced g2 = false).
Proof.
  split.
  - intros g1 g2 H. unfold Parser.matchCase in H. apply tryFrom_first in H.
    destruct H as [p [Hp [H Hfirst]]].
    destruct (Parser.spacesThenBraced (Js.drop p s)) as [g|] eqn:E; [|discriminate].
    inversion H; subst g1 g2. clear H. split.
    + unfold Parser.spacesThenBraced in E.
      apply tryFrom_Some in E. destruct E as [k [Hk E]].
      destruct (Parser.braced (Js.drop k (Js.drop p s))) eqn:Eb; [|discriminate].
      inversion E; subst g. clear E. exists (Js.take k (Js.drop p s)).
      split; [rewrite take_drop, take_drop; reflexivity|].
      split; [apply take_span_all; exact Hp|].
      split; [apply take_span_all; exact Hk | exact Eb].
    + intros g1' ws' g2' Es H1 H2 Eb.
      pose proof (span_le Parser.notLineTerminator s) as Hle.
      rewrite take_length by lia.
      destruct (Nat.le_gt_cases (String.length g1') p) as [Hj|Hj]; [exact Hj|]. exfalso.
      assert (Hs : (String.length g1' <= Tokenizer.span Parser.notLineTerminator s)%nat)
        by (subst s; apply span_app_all; exact H1).
      specialize (Hfirst (String.length g1') (conj Hj Hs)). cbv beta in Hfirst.
      pose proof (cut_is_tried g1' ws' g2' H2 Eb) as Hc. rewrite <- Es in Hc.
      destruct (Parser.spacesThenBraced (Js.drop (String.length g1') s));
        [discriminate | apply Hc; reflexivity].
  - intros H g1 ws g2 Es H1 H2. destruct (Parser.braced g2) eqn:Eb; [|reflexivity].
    exfalso. unfold Parser.matchCase in H. revert H.
    apply (tryFrom_finds _ (String.length g1)).
    + subst s. apply span_app_all. exact H1.
    + pose proof (cut_is_tried g1 ws g2 H2 Eb) as Hc. rewrite <- Es in Hc.
      destruct (Parser.spacesThenBraced (Js.drop (String.length g1) s));
        [discriminate | exfalso; apply Hc; reflexivity].
Qed.


(** ** The horizontal layout (tree.js) *)

(** [Ordered o cs]: the lefts of the drawables [cs] are numbers, none of
    them less than [o] and none less than the left of the one before it. *)
Inductive Ordered : Q -> list Tree.Drawable -> Prop :=
| Ordered_nil (o : Q) : Ordered o []
| Ordered_cons (o : Q) (c : Tree.Drawable) (cs : list Tree.Drawable) (q : Q) :
    Tree.left c = Tree.Val q -> o <= q -> Ordered q cs -> Ordered o (c :: cs).

(** The first of the drawables [cs], when there is one, has the left [o]. *)
Definition beginsAt (o : Q) (cs : list Tree.Drawable) : Prop :=
  match cs with
  | [] => True
  | c :: _ => exists q, Tree.left c = Tree.Val q /\ q == o
  end.

(** A drawable with a left that is not negative, whose first child begins
    at that left and whose children go from left to right. *)
Definition LeftToRight (x : Tree.Drawable) : Prop :=
  exists q, Tree.left x = Tree.Val q /\ 0 <= q /\
            beginsAt q (Tree.children x) /\ Ordered q (Tree.children x).

Lemma Ordered_weaken (o o' : Q) (cs : list Tree.Drawable) :
  o' <= o -> Ordered o cs -> Ordered o' cs.
Proof.
  intros Hle H. destruct H as [o|o c cs q Hl Hq Hr]; [constructor|].
  apply (Ordered_cons o' c cs q); [exact Hl | lra | exact Hr].
Qed.

Lemma beginsAt_from (o o' : Q) (cs : list Tree.Drawable) :
  o == o' -> beginsAt o cs -> beginsAt o' cs.
Proof.
  intros E H. destruct cs as [|c cs]; [exact I|].
  destruct H as [q [Hl Hq]]. exists q. split; [exact Hl | lra].
Qed.

(** What the positioning of a drawable gives below it, from the parent
    offset [o]. *)
Definition PlacedFrom (o : Q) (d : Tree.Drawable) : Prop :=
  beginsAt o (Tree.children d) /\ Ordered o (Tree.children d) /\
  forall c x, In c (Tree.children d) -> In x (nodes c) -> LeftToRight x.

Lemma placeEach_ordered (canvas : Tree.Canvas) (vscaler po : Q)
    (f : Tree.Drawable -> Q -> Tree.Drawable * bool) (cs : list Tree.Drawable)
    (offset : Q) (ha : bool) :
  0 <= offset + po ->
  (forall c, In c cs -> 0 <= Tree.width c) ->
  Forall (fun c => forall o, 0 <= o -> PlacedFrom o (fst (f c o))) cs ->
  let r := fst (fst (placeEach canvas vscaler po 1 f cs offset ha)) in
  beginsAt (offset + po) r /\ Ordered (offset + po) r /\
  forall c x, In c r -> In x (nodes c) -> LeftToRight x.
Proof.
  intros Ho Hw H. revert offset ha Ho.
  induction H as [|x r Hx Hr IHr]; intros offset ha Ho; simpl.
  - split; [exact I|]. split; [constructor | intros c y []].
  - specialize (Hx (offset + po) Ho). destruct (f x (offset + po)) as [x' xa].
    pose proof (Hw x (or_introl eq_refl)) as Hwx.
    match goal with
    | |- context [placeEach ?a ?b ?c ?e ?g ?h ?i ?j] =>
        specialize (IHr (fun c Hc => Hw c (or_intror Hc)) i j);
        destruct (placeEach a b c e g h i j) as [[rs ro] rh]
    end.
    cbn [Tree.place Tree.width] in IHr. simpl in *.
    destruct Hx as [Hb [Hord Hbelow]].
    destruct IHr as [_ [IH1 IH2]]; [lra|].
    split; [exists (offset + po); split; reflexivity|]. split.
    + apply (Ordered_cons _ _ _ (offset + po)); [reflexivity | lra|].
      apply (Ordered_weaken (offset + Tree.width x * 1 + po)); [lra | exact IH1].
    + intros c' y [E|Hc'] Hy; [|exact (IH2 c' y Hc' Hy)].
      subst c'. rewrite nodes_unfold in Hy. destruct Hy as [E|Hy].
      * subst y. exists (offset + po). split; [reflexivity|]. split; [exact Ho|].
        split; [exact Hb | exact Hord].
      * cbn [Tree.place Tree.children] in Hy. apply in_flat_map in Hy.
        destruct Hy as [c2 [Hc2 Hy]]. exact (Hbelow c2 y Hc2 Hy).
Qed.

Lemma calculateDrawablePositions_ordered (canvas : Tree.Canvas) (d : Tree.Drawable)
    (vscaler : Q) :
  (forall y, In y (nodes d) -> 0 <= Tree.width y) ->
  forall po, 0 <= po ->
    PlacedFrom po (fst (Tree.calculateDrawablePositions canvas d vscaler po)).
Proof.
  induction d as [d IH] using Drawable_forall_ind. intros Hw po Hpo.
  rewrite calculateDrawablePositions_unfold. cbv zeta.
  unfold PlacedFrom. cbn [fst Tree.setChildren Tree.children]. rewrite scaleOf_one.
  destruct (placeEach_ordered canvas vscaler po
              (fun c o => Tree.calculateDrawablePositions canvas c vscaler o)
              (Tree.children d) 0 (0 <? List.length (Tree.arrows d))%nat) as [H1 [H2 H3]].
  - lra.
  - intros c Hc. apply Hw. rewrite nodes_unfold. right. apply in_flat_map.
    exists c. split; [exact Hc | rewrite nodes_unfold; left; reflexivity].
  - rewrite Forall_forall in *. intros c Hc o Ho. apply (IH c Hc); [|exact Ho].
    intros y Hy. apply Hw. rewrite nodes_unfold. right. apply in_flat_map. exists c. auto.
  - split; [apply (beginsAt_from (0 + po)); [lra | exact H1]|].
    split; [apply (Ordered_weaken (0 + po)); [lra | exact H2] | exact H3].
Qed.

Lemma getNodeWidth_nonneg (canvas : Tree.Canvas) (node : Parser.SyntaxNode) :
  (forall s, 0 <= Tree.textWidth canvas (Js.units s)) -> 0 <= Tree.getNodeWidth canvas node.
Proof.
  intro Hpos. rewrite getNodeWidth_unfold. cbv zeta.
  assert (Hb : 0 <= baseWidth canvas (Parser.type node) (Parser.label node)).
  { unfold baseWidth. destruct (negb (Parser.eqb (Parser.type node) Parser.ROOT)); [|lra].
    pose proof (Hpos (Parser.label node)). unfold Tree.NODE_PADDING. lra. }
  pose proof (ownWidth_ge canvas node
                (baseWidth canvas (Parser.type node) (Parser.label node)) Hpos) as Ho.
  destruct (negb (Parser.eqb (Parser.type node) Parser.VALUE)); [|lra].
  eapply Qle_trans; [|apply Q.le_max_l]. lra.
Qed.

Lemma drawableFromNode_nonneg (canvas : Tree.Canvas) (node : Parser.SyntaxNode)
    (depth : Tree.Depth) (forceLeaf : bool) :
  (forall s, 0 <= Tree.textWidth canvas (Js.units s)) ->
  forall x, In x (nodes (Tree.drawableFromNode canvas node depth forceLeaf)) ->
            0 <= Tree.width x.
Proof.
  intro Hpos. revert depth forceLeaf.
  induction node as [node IH] using SyntaxNode_forall_ind.
  intros depth forceLeaf x Hx. rewrite nodes_unfold in Hx. destruct Hx as [E|Hx].
  - subst x. rewrite drawableFromNode_width. apply getNodeWidth_nonneg. exact Hpos.
  - rewrite drawableFromNode_children in Hx.
    destruct (negb (Parser.eqb (Parser.type node) Parser.VALUE)); [|destruct Hx].
    apply in_flat_map in Hx. destruct Hx as [c' [Hc' Hx]].
    apply in_map_iff in Hc'. destruct Hc' as [c [E Hc]]. subst c'.
    rewrite Forall_forall in IH. exact (IH c Hc _ _ x Hx).
Qed.

(** X11. For a canvas that measures no text as negative, in the tree
    [layout] ends with: the first child of the root has the left 0 and the
    first child of every other drawable has the left of that drawable; the
    children of a drawable go from left to right, no child having a left
    less than the one before it; and no left is negative. *)
Theorem children_go_left_to_right (canvas : Tree.Canvas) (alignment : nat)
    (autoSubscript : bool) (vscaler treeFontsize : Q) (tree : Parser.SyntaxNode) :
  (forall s, 0 <= Tree.textWidth canvas (Js.units s)) ->
  let final :=
    Tree.drawables (Tree.layout canvas alignment autoSubscript vscaler treeFontsize tree) in
  beginsAt 0 (Tree.children final) /\ Ordered 0 (Tree.children final) /\
  forall c x, In c (Tree.children final) -> In x (nodes c) -> LeftToRight x.
Proof.
  intros Hpos final. unfold final. rewrite layout_drawables. cbv zeta.
  apply calculateDrawablePositions_ordered; [|lra].
  set (built := Tree.drawableFromNode canvas tree (Tree.Fin (-1)) false).
  assert (Ha : Alike sameBox built
                 (if autoSubscript
                  then Tree.calculateAutoSubscript (Tree.align alignment built)
                  else Tree.align alignment built)).
  { destruct autoSubscript; [|apply align_sameBox].
    eapply (Alike_trans sameBox sameBox_trans); [apply align_sameBox|].
    unfold Tree.calculateAutoSubscript. cbv zeta. apply assignSubscripts_sameBox. }
  intros y Hy. destruct (Alike_nodes sameBox _ _ y Ha Hy) as [x [Hx [Ew _]]].
  rewrite Ew. exact (drawableFromNode_nonneg canvas tree _ _ Hpos x Hx).
Qed.

(** The example [[A [B C][D E][F G ->1]]] on a canvas that measures every
    text as 7 wide: the lefts of [B], [D] and [F], the children of [A]. *)
Lemma children_go_left_to_right_example :
  parsePhrase "[A [B C][D E][F G ->1]]" = OK arrowTree /\
  (let final :=
     Tree.drawables (Tree.layout (Tree.mkCanvas (fun _ => 7) 16) 2 true 1 16 arrowTree) in
   beginsAt 0 (Tree.children final) /\ Ordered 0 (Tree.children final) /\
   forall c x, In c (Tree.children final) -> In x (nodes c) -> LeftToRight x).
Proof.
  split; [vm_compute; reflexivity|].
  apply (children_go_left_to_right (Tree.mkCanvas (fun _ => 7) 16) 2 true 1 16 arrowTree).
  intro s. simpl. discriminate.
Defined.

(** ** The arrow flag of the layout (tree.js) *)

(** A drawable that carries an arrow directive. *)
Definition carriesArrow (x : Tree.Drawable) : bool := (0 <? List.length (Tree.arrows x))%nat.

Lemma placeEach_hasArrow (canvas : Tree.Canvas) (vscaler po scale : Q)
    (f : Tree.Drawable -> Q -> Tree.Drawable * bool) (g : Tree.Drawable -> bool)
    (cs : list Tree.Drawable) (offset : Q) (ha : bool) :
  Forall (fun c => forall o, snd (f c o) = g c) cs ->
  snd (placeEach canvas vscaler po scale f cs offset ha) = ha || existsb g cs.
Proof.
  intro H. revert offset ha. induction H as [|x r Hx Hr IHr]; intros offset ha; simpl.
  - rewrite orb_false_r. reflexivity.
  - specialize (Hx (offset + po)). destruct (f x (offset + po)) as [x' xa].
    match goal with
    | |- context [placeEach ?a ?b ?c ?e ?g ?h ?i ?j] =>
        specialize (IHr i j); destruct (placeEach a b c e g h i j) as [[rs ro] rh]
    end.
    simpl in *. subst xa rh. destruct (g x), ha; reflexivity.
Qed.

Lemma existsb_flat_map {A B : Type} (p : B -> bool) (f : A -> list B) (l : list A) :
  existsb p (flat_map f l) = existsb (fun a => existsb p (f a)) l.
Proof.
  induction l as [|a r IH]; simpl; [reflexivity|]. rewrite existsb_app, IH. reflexivity.
Qed.

Lemma calculateDrawablePositions_hasArrow (canvas : Tree.Canvas) (d : Tree.Drawable)
    (vscaler po : Q) :
  snd (Tree.calculateDrawablePositions canvas d vscaler po)
  = existsb carriesArrow (nodes d).
Proof.
  revert po. induction d as [d IH] using Drawable_forall_ind. intro po.
  rewrite calculateDrawablePositions_unfold. cbv zeta. cbn [snd].
  rewrite (placeEach_hasArrow _ _ _ _ _ (fun c => existsb carriesArrow (nodes c))).
  - rewrite nodes_unfold. cbn [existsb]. rewrite existsb_flat_map. reflexivity.
  - rewrite Forall_forall in *. intros c Hc o. exact (IH c Hc o).
Qed.

Lemma Alike_carriesArrow (a b : Tree.Drawable) :
  Alike sameBox a b -> existsb carriesArrow (nodes a) = existsb carriesArrow (nodes b).
Proof.
  revert b. induction a as [a IH] using Drawable_forall_ind. intros b H.
  inversion H as [? ? [_ [_ Ha]] Hc]; subst. rewrite (nodes_unfold a), (nodes_unfold b).
  cbn [existsb]. unfold carriesArrow at 1 3. rewrite Ha. f_equal.
  rewrite !existsb_flat_map. revert IH. induction Hc as [|x y l k Hxy Hr IHr]; intro IH;
    [reflexivity|].
  inversion IH as [|? ? IHx IHl]; subst. simpl. rewrite (IHx y Hxy), (IHr IHl). reflexivity.
Qed.

(** X13. The flag [has_arrow] of the layout is true exactly when some
    drawable of the tree carries an arrow directive, whether or not the
    directive resolves to a target. *)
Theorem has_arrow_tells_a_directive (canvas : Tree.Canvas) (alignment : nat)
    (autoSubscript : bool) (vscaler treeFontsize : Q) (tree : Parser.SyntaxNode) :
  let l := Tree.layout canvas alignment autoSubscript vscaler treeFontsize tree in
  Tree.has_arrow l = existsb carriesArrow (nodes (Tree.drawables l)).
Proof.
  cbv zeta. rewrite layout_drawables. cbv zeta.
  rewrite <- (Alike_carriesArrow _ _ (calculateDrawablePositions_sameBox canvas _ vscaler 0)).
  rewrite <- calculateDrawablePositions_hasArrow with (canvas := canvas) (vscaler := vscaler)
                                                     (po := 0).
  unfold Tree.layout. cbv zeta.
  destruct (Tree.calculateDrawablePositions canvas _ vscaler 0). reflexivity.
Qed.

(** ** Levels and the base line (tree.js) *)

Lemma Ranked_nodes (d x : Tree.Drawable) : Ranked d -> In x (nodes d) -> Ranked x.
Proof.
  revert x. induction d as [d IH] using Drawable_forall_ind. intros x Hr Hx.
  rewrite nodes_unfold in Hx. destruct Hx as [E|Hx]; [subst x; exact Hr|].
  apply in_flat_map in Hx. destruct Hx as [c [Hc Hx]].
  inversion Hr as [d0 z Hz Hl Hd Hcs]; subst d0. rewrite Forall_forall in IH, Hcs.
  exact (IH c Hc x (Hcs c Hc) Hx).
Qed.

(** X14. In the tree [drawableFromNode] builds from a syntax tree the root
    is at the depth -1, every child is one level below its parent, and a
    leaf has no children. *)
Theorem built_tree_levels (canvas : Tree.Canvas) (tree : Parser.SyntaxNode) :
  let d0 := Tree.drawableFromNode canvas tree (Tree.Fin (-1)) false in
  Tree.depth d0 = Tree.Fin (-1) /\
  forall x, In x (nodes d0) ->
    (exists z, Tree.depth x = Tree.Fin z /\ (-1 <= z)%Z) /\
    (Tree.is_leaf x = true -> Tree.children x = []) /\
    (forall c, In c (Tree.children x) -> Tree.depth c = Tree.depthSucc (Tree.depth x)).
Proof.
  cbv zeta. split; [apply drawableFromNode_depth|]. intros x Hx.
  pose proof (drawableFromNode_Ranked canvas tree (-1)) as Hr.
  pose proof (Ranked_nodes _ x Hr Hx) as Hrx.
  inversion Hrx as [d0 z Hz Hl Hd Hcs]; subst d0. split; [|split].
  - exists z. split; [exact Hz|]. rewrite nodes_unfold in Hx. destruct Hx as [E|Hx].
    + subst x. rewrite drawableFromNode_depth in Hz. inversion Hz. lia.
    + apply in_flat_map in Hx. destruct Hx as [c [Hc Hx]].
      destruct (Ranked_depths _ (-1) Hr (drawableFromNode_depth _ _ _ _) c x Hc Hx)
        as [z' [E H]].
      rewrite Hz in E. inversion E; subst. lia.
  - exact Hl.
  - intros c Hc. rewrite Forall_forall in Hd. rewrite (Hd c Hc), Hz. reflexivity.
Qed.

(** Under LeavesAligned and BottomAligned a leaf is at the greatest depth
    of the tree as built. *)
Lemma aligned_leaf_bottom (canvas : Tree.Canvas) (tree : Parser.SyntaxNode) (alignment : nat)
    (x : Tree.Drawable) :
  (0 < alignment)%nat ->
  In x (nodes (Tree.align alignment
                 (Tree.drawableFromNode canvas tree (Tree.Fin (-1)) false))) ->
  Tree.is_leaf x = true ->
  Tree.depth x = Tree.getMaxDepth (Tree.drawableFromNode canvas tree (Tree.Fin (-1)) false).
Proof.
  intros Ha Hx Hl. unfold Tree.align in Hx. cbv zeta in Hx.
  destruct (Nat.ltb_spec 0 alignment) as [_|H0]; [|lia].
  destruct (1 <? alignment)%nat.
  - apply moveParentsDown_leaf in Hx; [|exact Hl]. exact (moveLeafsToBottom_leaf _ _ x Hx Hl).
  - exact (moveLeafsToBottom_leaf _ _ x Hx Hl).
Qed.

Lemma built_max_depth (canvas : Tree.Canvas) (tree : Parser.SyntaxNode) :
  exists M, Tree.getMaxDepth (Tree.drawableFromNode canvas tree (Tree.Fin (-1)) false)
            = Tree.Fin M.
Proof.
  set (d0 := Tree.drawableFromNode canvas tree (Tree.Fin (-1)) false).
  destruct (getMaxDepth_attained d0) as [y [Hy Ey]]. rewrite <- Ey.
  rewrite nodes_unfold in Hy. destruct Hy as [E|Hy].
  - subst y. exists (-1)%Z. apply drawableFromNode_depth.
  - apply in_flat_map in Hy. destruct Hy as [c [Hc Hy]].
    destruct (Ranked_depths _ (-1) (drawableFromNode_Ranked canvas tree (-1))
                (drawableFromNode_depth _ _ _ _) c y Hc Hy) as [zy [E _]].
    exists zy. exact E.
Qed.

(** X15. Under LeavesAligned and BottomAligned all leaves of the layout of
    a root node stand on one line: each is at the greatest depth [M] of the
    tree as built, and its top is [M * (fontsize * 3 * vscaler) + 10]. *)
Theorem aligned_leaves_share_a_line (canvas : Tree.Canvas) (alignment : nat)
    (autoSubscript : bool) (vscaler treeFontsize : Q) (tree : Parser.SyntaxNode) :
  Parser.type tree = Parser.ROOT -> (0 < alignment)%nat ->
  let l := Tree.layout canvas alignment autoSubscript vscaler treeFontsize tree in
  exists M,
    Tree.max_depth l = Tree.Fin M /\
    forall x, In x (leaves (Tree.drawables l)) ->
      Tree.depth x = Tree.Fin M /\
      Tree.top x = Tree.Val (inject_Z M * (Tree.fontsize canvas * 3 * vscaler)
                             + Tree.NODE_PADDING / 2).
Proof.
  intros Ht Ha l. destruct (built_max_depth canvas tree) as [M EM]. exists M.
  set (d0 := Tree.drawableFromNode canvas tree (Tree.Fin (-1)) false) in *.
  split.
  { unfold l, Tree.layout. cbv zeta.
    destruct (Tree.calculateDrawablePositions canvas _ vscaler 0). exact EM. }
  unfold l. rewrite layout_drawables. cbv zeta. fold d0.
  set (d1 := if autoSubscript then Tree.calculateAutoSubscript (Tree.align alignment d0)
             else Tree.align alignment d0).
  assert (H1 : forall x, In x (nodes d1) -> Tree.is_leaf x = true -> Tree.depth x = Tree.Fin M).
  { intros x Hx Hl. rewrite <- EM. unfold d1 in Hx. destruct autoSubscript.
    - unfold Tree.calculateAutoSubscript in Hx. cbv zeta in Hx.
      destruct (Alike_nodes _ _ _ x (assignSubscripts_Alike _ _ _) Hx)
        as [x0 [Hx0 [_ [Ed [El _]]]]].
      rewrite Hl in El. rewrite Ed.
      exact (aligned_leaf_bottom canvas tree alignment x0 Ha Hx0 (eq_sym El)).
    - exact (aligned_leaf_bottom canvas tree alignment x Ha Hx Hl). }
  assert (Hroot : Tree.is_leaf d1 = false).
  { assert (Hal : Alike sameBox d0 d1).
    { unfold d1. destruct autoSubscript; [|apply align_sameBox].
      eapply (Alike_trans sameBox sameBox_trans); [apply align_sameBox|].
      unfold Tree.calculateAutoSubscript. cbv zeta. apply assignSubscripts_sameBox. }
    inversion Hal as [? ? [_ [El _]] _]; subst. rewrite El. unfold d0.
    rewrite drawableFromNode_is_leaf, Ht. reflexivity. }
  intros x Hx. apply In_leaves in Hx. destruct Hx as [Hn Hl].
  destruct (Alike_nodes _ _ _ x (calculateDrawablePositions_sameRank canvas d1 vscaler 0) Hn)
    as [x0 [Hx0 [Ed El]]].
  rewrite Hl in El. pose proof (H1 x0 Hx0 (eq_sym El)) as Ez. rewrite Ez in Ed.
  split; [exact Ed|].
  rewrite nodes_unfold in Hn. destruct Hn as [E|Hn].
  - subst x. destruct (calculateDrawablePositions_depth canvas d1 vscaler 0) as [_ E].
    rewrite Hl, Hroot in E. discriminate.
  - apply in_flat_map in Hn. destruct Hn as [c' [Hc' Hn]].
    pose proof (calculateDrawablePositions_positioned canvas d1 vscaler 0) as Hp.
    assert (Hpos : positioned canvas vscaler x).
    { revert Hc'. induction Hp as [|a a' k k' [_ Hq] Hrest IHr]; intro Hc'; [destruct Hc'|].
      destruct Hc' as [E|Hc']; [subst a'; exact (Hq x Hn) | exact (IHr Hc')]. }
    destruct Hpos as [Etop _]. rewrite Ed in Etop. exact Etop.
Qed.

Lemma aligned_leaves_share_a_line_example :
  exists M,
    Tree.max_depth (Tree.layout exampleCanvas 1 true 1 16 arrowTree) = Tree.Fin M /\
    forall x, In x (leaves (Tree.drawables (Tree.layout exampleCanvas 1 true 1 16 arrowTree))) ->
      Tree.depth x = Tree.Fin M /\
      Tree.top x = Tree.Val (inject_Z M * (Tree.fontsize exampleCanvas * 3 * 1)
                             + Tree.NODE_PADDING / 2).
Proof.
  apply (aligned_leaves_share_a_line exampleCanvas 1 true 1 16 arrowTree);
    [reflexivity | lia].
Defined.


(** ** Counting and numbering the labels (tree.js) *)

Lemma mapGet_mapSet (m : Tree.CountMap) (k k' : string) (v : nat) :
  Tree.mapGet (Tree.mapSet m k v) k' = if String.eqb k k' then Some v else Tree.mapGet m k'.
Proof.
  induction m as [|[a b] r IH]; simpl.
  - destruct (String.eqb k k'); reflexivity.
  - destruct (String.eqb_spec a k) as [E|E]; simpl.
    + subst a. destruct (String.eqb k k'); reflexivity.
    + rewrite IH. destruct (String.eqb_spec a k') as [E'|E']; [|reflexivity].
      subst a. destruct (String.eqb_spec k k') as [E2|E2]; [congruence | reflexivity].
Qed.

Lemma getOr0_mapSet (m : Tree.CountMap) (k k' : string) (v : nat) :
  Tree.getOr0 (Tree.mapSet m k v) k' = if String.eqb k k' then v else Tree.getOr0 m k'.
Proof. unfold Tree.getOr0. rewrite mapGet_mapSet. destruct (String.eqb k k'); reflexivity. Qed.

(** [mapInc] adds one to the count of its key and leaves the others. *)
Lemma getOr0_mapInc (m : Tree.CountMap) (k k' : string) :
  Tree.getOr0 (Tree.mapInc m k) k' =
  (Tree.getOr0 m k' + if String.eqb k k' then 1 else 0)%nat.
Proof.
  unfold Tree.mapInc. rewrite getOr0_mapSet.
  destruct (String.eqb_spec k k') as [E|E]; [subst; reflexivity | lia].
Qed.

(** The keys of a map, in insertion order. *)
Definition keys (m : Tree.CountMap) : list string := map fst m.

Lemma keys_mapSet (m : Tree.CountMap) (k : string) (v : nat) :
  keys (Tree.mapSet m k v) = if existsb (String.eqb k) (keys m) then keys m else keys m ++ [k].
Proof.
  induction m as [|[a b] r IH]; simpl; [reflexivity|].
  rewrite (String.eqb_sym k a). destruct (String.eqb a k); simpl; [reflexivity|].
  unfold keys in *. rewrite IH. destruct (existsb (String.eqb k) (map fst r)); reflexivity.
Qed.

Lemma NoDup_mapSet (m : Tree.CountMap) (k : string) (v : nat) :
  NoDup (keys m) -> NoDup (keys (Tree.mapSet m k v)).
Proof.
  intro H. rewrite keys_mapSet. destruct (existsb (String.eqb k) (keys m)) eqn:E; [exact H|].
  apply NoDup_app; [exact H | repeat constructor; intros [] |].
  intros x Hx [Ek|[]]. subst x.
  assert (existsb (String.eqb k) (keys m) = true); [|congruence].
  apply existsb_exists. exists k. split; [exact Hx | apply String.eqb_refl].
Qed.

(** The sum of the values a list of entries holds for a key. *)
Definition sumFor (k : string) (b : Tree.CountMap) : nat :=
  list_sum (map snd (filter (fun kv => String.eqb (fst kv) k) b)).

Lemma mapMerge_from (a b : Tree.CountMap) (k : string) :
  Tree.getOr0 (Tree.mapMerge a b) k = (Tree.getOr0 a k + sumFor k b)%nat.
Proof.
  unfold Tree.mapMerge. revert a. induction b as [|[x v] r IH]; intro a; simpl.
  - unfold sumFor. simpl. lia.
  - rewrite IH, getOr0_mapSet. unfold sumFor. simpl.
    destruct (String.eqb_spec x k) as [E|E]; simpl; [subst x|]; lia.
Qed.

Lemma sumFor_absent (k : string) (b : Tree.CountMap) : ~ In k (keys b) -> sumFor k b = O.
Proof.
  induction b as [|[x v] r IH]; intro H; [reflexivity|]. unfold sumFor in *. simpl in *.
  destruct (String.eqb_spec x k) as [E|E]; [exfalso; apply H; left; exact E|].
  apply IH. intro Hin. apply H. right. exact Hin.
Qed.

Lemma getOr0_absent (k : string) (b : Tree.CountMap) : ~ In k (keys b) -> Tree.getOr0 b k = O.
Proof.
  unfold Tree.getOr0. induction b as [|[x v] r IH]; intro H; [reflexivity|]. simpl in *.
  destruct (String.eqb_spec x k) as [E|E]; [exfalso; apply H; left; exact E|].
  apply IH. intro Hin. apply H. right. exact Hin.
Qed.

Lemma sumFor_unique (k : string) (b : Tree.CountMap) :
  NoDup (keys b) -> sumFor k b = Tree.getOr0 b k.
Proof.
  induction b as [|[x v] r IH]; intro H; [reflexivity|].
  inversion H as [|? ? Hx Hr]; subst. unfold sumFor, Tree.getOr0 in *. simpl.
  destruct (String.eqb_spec x k) as [E|E]; simpl.
  - subst x. fold (sumFor k r). rewrite (sumFor_absent k r Hx). lia.
  - apply IH. exact Hr.
Qed.

Lemma NoDup_mapMerge (a b : Tree.CountMap) : NoDup (keys a) -> NoDup (keys (Tree.mapMerge a b)).
Proof.
  unfold Tree.mapMerge. revert a. induction b as [|[x v] r IH]; intros a H; simpl; [exact H|].
  apply IH. apply NoDup_mapSet. exact H.
Qed.

(** [mapMerge a b] adds the counts of [b] to those of [a]. *)
Lemma getOr0_mapMerge (a b : Tree.CountMap) (k : string) :
  NoDup (keys b) ->
  Tree.getOr0 (Tree.mapMerge a b) k = (Tree.getOr0 a k + Tree.getOr0 b k)%nat.
Proof. intro H. rewrite mapMerge_from, (sumFor_unique k b H). reflexivity. Qed.

Lemma countNodes_unfold (d : Tree.Drawable) :
  Tree.countNodes d =
  if Tree.is_leaf d then []
  else fold_left (fun m child => Tree.mapMerge m (Tree.countNodes child)) (Tree.children d)
         (if negb (Js.truthy (Tree.subscript d)) then Tree.mapInc [] (Tree.label d) else []).
Proof. destruct d; reflexivity. Qed.

Lemma NoDup_countNodes (d : Tree.Drawable) : NoDup (keys (Tree.countNodes d)).
Proof.
  destruct d as [l sub sup w dp lf ar fs cf cs t lt]. rewrite countNodes_unfold.
  cbn [Tree.is_leaf Tree.children Tree.subscript Tree.label].
  destruct lf; [constructor|].
  assert (H0 : NoDup (keys (if negb (Js.truthy sub) then Tree.mapInc [] l else []))).
  { destruct (negb (Js.truthy sub)); [|constructor]. repeat constructor. intros []. }
  revert H0. generalize (if negb (Js.truthy sub) then Tree.mapInc [] l else []).
  induction cs as [|c r IH]; intros m Hm; simpl; [exact Hm|].
  apply IH. apply NoDup_mapMerge. exact Hm.
Qed.

(** A drawable [countNodes] counts for the label [l]. *)
Definition countedAs (l : string) (x : Tree.Drawable) : bool :=
  negb (Tree.is_leaf x) && negb (Js.truthy (Tree.subscript x)) && String.eqb (Tree.label x) l.

Lemma fold_mapMerge_count (l : string) (cs : list Tree.Drawable) (m : Tree.CountMap) :
  Forall (fun c => Tree.getOr0 (Tree.countNodes c) l
                   = List.length (filter (countedAs l) (nodes c))) cs ->
  Tree.getOr0 (fold_left (fun m child => Tree.mapMerge m (Tree.countNodes child)) cs m) l
  = (Tree.getOr0 m l + List.length (filter (countedAs l) (flat_map nodes cs)))%nat.
Proof.
  intro H. revert m. induction H as [|c r Hc Hr IH]; intro m; simpl; [lia|].
  rewrite IH, getOr0_mapMerge by apply NoDup_countNodes.
  rewrite filter_app, length_app, Hc. lia.
Qed.

(** The leaves of a tree have no children. *)
Definition leavesChildless (d : Tree.Drawable) : Prop :=
  forall x, In x (nodes d) -> Tree.is_leaf x = true -> Tree.children x = [].

Lemma countNodes_count (l : string) (d : Tree.Drawable) :
  leavesChildless d ->
  Tree.getOr0 (Tree.countNodes d) l = List.length (filter (countedAs l) (nodes d)).
Proof.
  induction d as [d IH] using Drawable_forall_ind. intro Hl. rewrite countNodes_unfold.
  rewrite nodes_unfold. cbn [filter].
  destruct (Tree.is_leaf d) eqn:El.
  - rewrite (Hl d) by (try exact El; rewrite nodes_unfold; left; reflexivity).
    unfold countedAs. rewrite El. reflexivity.
  - assert (Ec : countedAs l d
                 = negb (Js.truthy (Tree.subscript d)) && String.eqb (Tree.label d) l)
      by (unfold countedAs; rewrite El; reflexivity).
    rewrite Ec, fold_mapMerge_count.
    + destruct (negb (Js.truthy (Tree.subscript d))); cbn [andb].
      * rewrite getOr0_mapInc. change (Tree.getOr0 [] l) with O.
        destruct (String.eqb (Tree.label d) l); simpl; lia.
      * change (Tree.getOr0 [] l) with O. lia.
    + rewrite Forall_forall in *. intros c Hc. apply (IH c Hc).
      intros x Hx. apply Hl. rewrite nodes_unfold. right. apply in_flat_map. exists c. auto.
Qed.

(** X16. In a tree whose leaves have no children, [countNodes] counts for
    every label the drawables that are no leaves, have no subscript and
    carry the label, whether or not they have a superscript; and every key
    of the map it returns occurs once. *)
Theorem countNodes_counts_labels (d : Tree.Drawable) :
  leavesChildless d ->
  NoDup (keys (Tree.countNodes d)) /\
  forall l, Tree.getOr0 (Tree.countNodes d) l
            = List.length (filter (countedAs l) (nodes d)).
Proof.
  intro H. split; [apply NoDup_countNodes | intro l; apply countNodes_count; exact H].
Qed.

(** A drawable [assignSubscripts] gives a subscript, for the labels [ks]. *)
Definition numbered (ks : list string) (x : Tree.Drawable) : bool :=
  negb (Tree.is_leaf x) && negb (Js.truthy (Tree.subscript x)) &&
  negb (Js.truthy (Tree.superscript x)) && Tree.includes ks (Tree.label x).

(** The tally after the drawables [xs], taken in order. *)
Definition tallyAfter (ks : list string) (tally : Tree.CountMap) (xs : list Tree.Drawable)
    : Tree.CountMap :=
  fold_left (fun t x => if numbered ks x then Tree.mapInc t (Tree.label x) else t) xs tally.

(** The subscripts of the drawables [xs] once they are numbered in order. *)
Fixpoint subscriptsOf (ks : list string) (tally : Tree.CountMap) (xs : list Tree.Drawable)
    : list (option string) :=
  match xs with
  | [] => []
  | x :: r =>
      if numbered ks x then
        let t := Tree.mapInc tally (Tree.label x) in
        Some (Js.decimal (Tree.getOr0 t (Tree.label x))) :: subscriptsOf ks t r
      else Tree.subscript x :: subscriptsOf ks tally r
  end.

Lemma subscriptsOf_app (ks : list string) (tally : Tree.CountMap) (xs ys : list Tree.Drawable) :
  subscriptsOf ks tally (xs ++ ys)
  = subscriptsOf ks tally xs ++ subscriptsOf ks (tallyAfter ks tally xs) ys.
Proof.
  revert tally. induction xs as [|x r IH]; intro tally; [reflexivity|].
  simpl. unfold tallyAfter. simpl. destruct (numbered ks x); cbv zeta; simpl; rewrite IH;
    reflexivity.
Qed.

Lemma tallyAfter_app (ks : list string) (tally : Tree.CountMap) (xs ys : list Tree.Drawable) :
  tallyAfter ks tally (xs ++ ys) = tallyAfter ks (tallyAfter ks tally xs) ys.
Proof. unfold tallyAfter. apply fold_left_app. Qed.

Lemma assignEach_flat (ks : list string)
    (f : Tree.Drawable -> Tree.CountMap -> Tree.Drawable * Tree.CountMap)
    (cs : list Tree.Drawable) (tally : Tree.CountMap) :
  Forall (fun c => forall t,
            map Tree.subscript (nodes (fst (f c t))) = subscriptsOf ks t (nodes c) /\
            snd (f c t) = tallyAfter ks t (nodes c)) cs ->
  map Tree.subscript (flat_map nodes (fst (assignEach f cs tally)))
  = subscriptsOf ks tally (flat_map nodes cs) /\
  snd (assignEach f cs tally) = tallyAfter ks tally (flat_map nodes cs).
Proof.
  intro H. revert tally. induction H as [|c r Hc Hr IH]; intro tally; simpl;
    [split; reflexivity|].
  destruct (Hc tally) as [C1 C2]. destruct (f c tally) as [c' t1]. cbn [fst snd] in C1, C2.
  destruct (IH t1) as [I1 I2]. destruct (assignEach f r t1) as [r' t2].
  cbn [fst snd] in *. cbn [flat_map].
  rewrite map_app, subscriptsOf_app, tallyAfter_app, C1, I1, I2, C2.
  split; reflexivity.
Qed.

(** Numbering the tree is numbering its drawables in the order of
    [nodes], parents before children. *)
Lemma assignSubscripts_flat (ks : list string) (d : Tree.Drawable) (tally : Tree.CountMap) :
  map Tree.subscript (nodes (fst (Tree.assignSubscripts d ks tally)))
  = subscriptsOf ks tally (nodes d) /\
  snd (Tree.assignSubscripts d ks tally) = tallyAfter ks tally (nodes d).
Proof.
  revert tally. induction d as [d IH] using Drawable_forall_ind. intro tally.
  rewrite assignSubscripts_unfold. cbv zeta. cbn [fst snd].
  rewrite (nodes_unfold d), nodes_unfold. cbn [Tree.setChildren Tree.children map].
  cbn [subscriptsOf]. unfold tallyAfter. cbn [fold_left]. fold (tallyAfter ks).
  fold (numbered ks d).
  destruct (numbered ks d); cbv zeta.
  - destruct (assignEach_flat ks (fun c t => Tree.assignSubscripts c ks t) (Tree.children d)
                (Tree.mapInc tally (Tree.label d)) IH) as [E1 E2].
    rewrite E1, E2. split; reflexivity.
  - destruct (assignEach_flat ks (fun c t => Tree.assignSubscripts c ks t) (Tree.children d)
                tally IH) as [E1 E2].
    rewrite E1, E2. destruct d; split; reflexivity.
Qed.

(** A drawable numbered with the label [l]. *)
Definition numberedAs (ks : list string) (l : string) (x : Tree.Drawable) : bool :=
  numbered ks x && String.eqb (Tree.label x) l.

Lemma tallyAfter_count (ks : list string) (tally : Tree.CountMap) (xs : list Tree.Drawable)
    (l : string) :
  Tree.getOr0 (tallyAfter ks tally xs) l
  = (Tree.getOr0 tally l + List.length (filter (numberedAs ks l) xs))%nat.
Proof.
  revert tally. induction xs as [|x r IH]; intro tally; [simpl; lia|].
  change (tallyAfter ks tally (x :: r))
    with (tallyAfter ks (if numbered ks x then Tree.mapInc tally (Tree.label x) else tally) r).
  rewrite IH. cbn [filter]. unfold numberedAs at 2. destruct (numbered ks x); cbn [andb]; [|lia].
  rewrite getOr0_mapInc. destruct (String.eqb (Tree.label x) l); simpl; lia.
Qed.

Lemma subscriptsOf_nth (ks : list string) (tally : Tree.CountMap) (xs : list Tree.Drawable)
    (i : nat) (x : Tree.Drawable) :
  nth_error xs i = Some x ->
  nth_error (subscriptsOf ks tally xs) i
  = Some (if numbered ks x
          then Some (Js.decimal
                       (Tree.getOr0 tally (Tree.label x)
                        + List.length (filter (numberedAs ks (Tree.label x)) (firstn i xs))
                        + 1))
          else Tree.subscript x).
Proof.
  revert tally i. induction xs as [|y r IH]; intros tally i H; [destruct i; discriminate|].
  destruct i as [|i].
  - inversion H; subst y. cbn [subscriptsOf firstn filter List.length].
    destruct (numbered ks x); cbv zeta; cbn [nth_error]; [|reflexivity].
    rewrite getOr0_mapInc, String.eqb_refl. do 3 f_equal. lia.
  - cbn [nth_error] in H. cbn [subscriptsOf firstn filter].
    destruct (numbered ks y) eqn:Ey; cbv zeta; cbn [nth_error]; rewrite (IH _ i H).
    + destruct (numbered ks x); [|reflexivity]. unfold numberedAs at 2. rewrite Ey.
      cbn [andb]. rewrite getOr0_mapInc.
      destruct (String.eqb (Tree.label y) (Tree.label x)); cbn [List.length];
        do 3 f_equal; lia.
    + destruct (numbered ks x); [|reflexivity]. unfold numberedAs at 2. rewrite Ey.
      reflexivity.
Qed.

Lemma Alike_labels (a b : Tree.Drawable) :
  Alike sameButSubscript a b -> map Tree.label (nodes b) = map Tree.label (nodes a).
Proof.
  revert b. induction a as [a IH] using Drawable_forall_ind. intros b H.
  inversion H as [? ? [_ [_ [_ [_ [Hl _]]]]] Hc]; subst.
  rewrite (nodes_unfold a), (nodes_unfold b). cbn [map]. rewrite Hl. f_equal.
  rewrite !flat_map_concat_map, !concat_map, !map_map. f_equal.
  revert IH. induction Hc as [|x y l k Hxy Hr IHr]; intro IH; [reflexivity|].
  inversion IH as [|? ? IHx IHl]; subst. simpl. rewrite (IHx y Hxy), (IHr IHl). reflexivity.
Qed.

(** The keys [calculateAutoSubscript] keeps: the labels counted, but not
    once. *)
Definition keptKeys (d : Tree.Drawable) : list string :=
  map fst (filter (fun kv => negb (snd kv =? 1)%nat) (Tree.countNodes d)).

(** X17. [calculateAutoSubscript] changes no label, and it numbers the
    drawables in the order of the traversal, parents before children and
    children from left to right: a drawable that is no leaf, has neither
    subscript nor superscript and carries one of the kept labels gets as
    subscript one more than the number of such drawables with its label
    before it; every other drawable keeps its subscript. *)
Theorem auto_subscripts_count_up (d : Tree.Drawable) (i : nat) (x : Tree.Drawable) :
  nth_error (nodes d) i = Some x ->
  map Tree.label (nodes (Tree.calculateAutoSubscript d)) = map Tree.label (nodes d) /\
  nth_error (map Tree.subscript (nodes (Tree.calculateAutoSubscript d))) i
  = Some (if numbered (keptKeys d) x
          then Some (Js.decimal
                       (List.length (filter (numberedAs (keptKeys d) (Tree.label x))
                                       (firstn i (nodes d))) + 1))
          else Tree.subscript x).
Proof.
  intro H. unfold Tree.calculateAutoSubscript. cbv zeta. fold (keptKeys d). split.
  - apply Alike_labels. apply assignSubscripts_Alike.
  - destruct (assignSubscripts_flat (keptKeys d) d []) as [E _]. rewrite E.
    rewrite (subscriptsOf_nth _ _ _ i x H). reflexivity.
Qed.

Definition allPositive (m : Tree.CountMap) : Prop := Forall (fun kv => (1 <= snd kv)%nat) m.

Lemma allPositive_mapSet (m : Tree.CountMap) (k : string) (v : nat) :
  (1 <= v)%nat -> allPositive m -> allPositive (Tree.mapSet m k v).
Proof.
  intros Hv H. induction H as [|[a b] r Hab Hr IH]; simpl.
  - repeat constructor. exact Hv.
  - destruct (String.eqb a k); constructor; auto.
Qed.

Lemma allPositive_mapMerge (a b : Tree.CountMap) :
  allPositive a -> allPositive b -> allPositive (Tree.mapMerge a b).
Proof.
  unfold Tree.mapMerge. intros Ha Hb. revert a Ha.
  induction Hb as [|[x v] r Hxv Hr IH]; intros a Ha; simpl; [exact Ha|].
  apply IH. apply allPositive_mapSet; [simpl in Hxv; lia | exact Ha].
Qed.

Lemma allPositive_countNodes (d : Tree.Drawable) : allPositive (Tree.countNodes d).
Proof.
  induction d as [d IH] using Drawable_forall_ind. rewrite countNodes_unfold.
  destruct (Tree.is_leaf d); [constructor|].
  assert (H0 : allPositive (if negb (Js.truthy (Tree.subscript d))
                            then Tree.mapInc [] (Tree.label d) else [])).
  { destruct (negb (Js.truthy (Tree.subscript d))); [|constructor].
    repeat constructor. }
  revert H0. generalize (if negb (Js.truthy (Tree.subscript d))
                         then Tree.mapInc [] (Tree.label d) else []).
  induction IH as [|c r Hc Hr IHr]; intros m Hm; simpl; [exact Hm|].
  apply IHr. apply allPositive_mapMerge; assumption.
Qed.

(** The keys kept of a map: those whose count is two or more. *)
Lemma includes_kept (m : Tree.CountMap) (l : string) :
  NoDup (keys m) -> allPositive m ->
  Tree.includes (map fst (filter (fun kv => negb (snd kv =? 1)%nat) m)) l
  = (2 <=? Tree.getOr0 m l)%nat.
Proof.
  intros Hn Hp. induction m as [|[k v] r IH]; [reflexivity|].
  inversion Hn as [|? ? Hk Hr]; subst. inversion Hp as [|? ? Hv Hpr]; subst.
  cbn [snd] in Hv. unfold Tree.getOr0. cbn [filter snd Tree.mapGet].
  destruct (String.eqb_spec k l) as [E|E].
  - subst k. destruct (Nat.eqb_spec v 1) as [E1|E1]; cbn [negb].
    + subst v. rewrite (IH Hr Hpr), (getOr0_absent l r Hk). reflexivity.
    + cbn [map fst]. unfold Tree.includes. cbn [existsb]. rewrite String.eqb_refl.
      symmetry. apply Nat.leb_le. lia.
  - fold (Tree.getOr0 r l). rewrite <- (IH Hr Hpr).
    destruct (negb (v =? 1)%nat); [|reflexivity].
    cbn [map fst]. unfold Tree.includes. cbn [existsb].
    destruct (String.eqb_spec l k) as [E'|E']; [congruence | reflexivity].
Qed.

(** The kept keys are the labels that [countNodes] counts twice or more. *)
Lemma includes_keptKeys (d : Tree.Drawable) (l : string) :
  leavesChildless d ->
  Tree.includes (keptKeys d) l
  = (2 <=? List.length (filter (countedAs l) (nodes d)))%nat.
Proof.
  intro H. unfold keptKeys.
  rewrite (includes_kept _ l (NoDup_countNodes d) (allPositive_countNodes d)).
  rewrite (countNodes_count l d H). reflexivity.
Qed.

(** A drawable that is no leaf and has neither subscript nor superscript. *)
Definition unscripted (x : Tree.Drawable) : bool :=
  negb (Tree.is_leaf x) && negb (Js.truthy (Tree.subscript x)) &&
  negb (Js.truthy (Tree.superscript x)).

(** An unscripted drawable with the label [l]. *)
Definition unscriptedAs (l : string) (x : Tree.Drawable) : bool :=
  unscripted x && String.eqb (Tree.label x) l.

Lemma numberedAs_kept (ks : list string) (l : string) (xs : list Tree.Drawable) :
  Tree.includes ks l = true ->
  filter (numberedAs ks l) xs = filter (unscriptedAs l) xs.
Proof.
  intro H. apply filter_ext. intro y. unfold numberedAs, numbered, unscriptedAs, unscripted.
  destruct (String.eqb_spec (Tree.label y) l) as [E|E].
  - rewrite E, H, !andb_true_r. reflexivity.
  - rewrite !andb_false_r. reflexivity.
Qed.

(** X18. In a tree whose leaves have no children, [calculateAutoSubscript]
    gives a number to a drawable exactly when it is no leaf, has neither
    subscript nor superscript, and its label is the label of two drawables
    or more that are no leaves and have no subscript, those with a
    superscript among them.  The number is one more than the number of
    drawables before it, in the order of the traversal, that are no leaves,
    have neither subscript nor superscript and carry the same label.  Every
    other drawable keeps its subscript. *)
Theorem numbered_labels_are_counted_twice (d : Tree.Drawable) (i : nat) (x : Tree.Drawable) :
  leavesChildless d ->
  nth_error (nodes d) i = Some x ->
  nth_error (map Tree.subscript (nodes (Tree.calculateAutoSubscript d))) i
  = Some (if unscripted x &&
             (2 <=? List.length (filter (countedAs (Tree.label x)) (nodes d)))%nat
          then Some (Js.decimal
                       (List.length (filter (unscriptedAs (Tree.label x))
                                       (firstn i (nodes d))) + 1))
          else Tree.subscript x).
Proof.
  intros Hl H. unfold Tree.calculateAutoSubscript. cbv zeta. fold (keptKeys d).
  destruct (assignSubscripts_flat (keptKeys d) d []) as [E _]. rewrite E.
  rewrite (subscriptsOf_nth _ _ _ i x H).
  rewrite <- (includes_keptKeys d (Tree.label x) Hl).
  change (numbered (keptKeys d) x)
    with (unscripted x && Tree.includes (keptKeys d) (Tree.label x)).
  destruct (unscripted x); cbn [andb]; [|reflexivity].
  destruct (Tree.includes (keptKeys d) (Tree.label x)) eqn:Ek; [|reflexivity].
  rewrite (numberedAs_kept _ _ _ Ek). reflexivity.
Qed.


(** ** Arrows drawn from features (tree.js) *)

Lemma tryFrom_head {A : Type} (n : nat) (f : nat -> option A) (x : A) :
  f n = Some x -> Parser.tryFrom n f = Some x.
Proof. intro H. destruct n; simpl; rewrite H; reflexivity. Qed.

Lemma matchFeature_not_plus (c : ascii) (r : string) :
  c <> "+"%char -> Tree.matchFeature (String c r) = None.
Proof.
  intro H. destruct c as [[] [] [] [] [] [] [] []]; try reflexivity.
  exfalso. apply H. reflexivity.
Qed.

Lemma span_app_stop (p : ascii -> bool) (a : string) (c : ascii) (b : string) :
  Js.all p a = true -> p c = false -> Tokenizer.span p (a ++ String c b) = String.length a.
Proof.
  intros Ha Hc. induction a as [|d r IH]; simpl; [rewrite Hc; reflexivity|].
  simpl in Ha. apply andb_true_iff in Ha. destruct Ha as [H1 H2]. rewrite H1, (IH H2).
  reflexivity.
Qed.

Lemma take_app_length (a b : string) : Js.take (String.length a) (a ++ b) = a.
Proof. induction a as [|c r IH]; simpl; [destruct b; reflexivity | rewrite IH; reflexivity]. Qed.

(** X19. The arrow [drawLabel] draws from a feature.  For a feature without
    white space, [+PAST->1] for one, the first group takes the whole text
    and no arrow is drawn.  For a [+], a name, white space, an arrow [->]
    or [.>] and digits, the arrow goes to the leaf that the number counts
    among the leaves below the drawable of the feature itself; and in no
    case does it go to a leaf that is not below that drawable. *)
Theorem feature_arrow_needs_white_space (drawable : Tree.Drawable) (feat : string) :
  (Js.all Tree.notSpace feat = true ->
   forall rootDrawable, Tree.featureArrowTarget rootDrawable drawable feat = None) /\
  (forall name ws a ds,
     feat = ("+" ++ name ++ ws ++ String a (String ">" ds))%string ->
     name <> "" -> Js.all Tree.notSpace name = true ->
     ws <> "" -> Js.all Js.isSpace ws = true ->
     a = "-"%char \/ a = "."%char ->
     ds <> "" -> Js.all Tokenizer.isNumber ds = true ->
     Tree.featureArrowTarget None drawable feat
     = Tree.findTarget drawable (Tokenizer.VNumber (Tokenizer.parseIntFrom 0 ds))) /\
  (forall t, Tree.featureArrowTarget None drawable feat = Some t -> In t (leaves drawable)).
Proof.
  split; [|split].
  - intros H rd. unfold Tree.featureArrowTarget.
    destruct feat as [|c r]; [reflexivity|].
    destruct (Ascii.eqb_spec c "+") as [E|E]; [|rewrite (matchFeature_not_plus c r E); reflexivity].
    subst c. simpl in H. cbn [Tree.matchFeature]. rewrite (span_all _ _ H).
    destruct r as [|c r]; [reflexivity|].
    rewrite (tryFrom_head _ _ (String "+" (Js.take (String.length (String c r)) (String c r)),
                               None)); [reflexivity|].
    cbn [String.length Nat.eqb]. rewrite (drop_all (S (String.length r)) (String c r));
      [reflexivity | simpl; lia].
  - intros name ws a ds Ef Hn1 Hn2 Hw1 Hw2 Ha Hd1 Hd2. subst feat.
    unfold Tree.featureArrowTarget. cbn [String.append Tree.matchFeature].
    destruct ws as [|w ws']; [exfalso; apply Hw1; reflexivity|].
    assert (Hw : Tree.notSpace w = false).
    { simpl in Hw2. apply andb_true_iff in Hw2. unfold Tree.notSpace. rewrite (proj1 Hw2).
      reflexivity. }
    cbn [String.append].
    rewrite (span_app_stop Tree.notSpace name w _ Hn2 Hw).
    rewrite (tryFrom_head _ _ (String "+" name, Some (String a ">", ds))); [reflexivity|].
    destruct (String.length name) eqn:El; [destruct name; [exfalso; apply Hn1; reflexivity | discriminate]|].
    cbn [Nat.eqb]. rewrite <- El. rewrite drop_app_length, take_app_length.
    change (String w (ws' ++ String a (String ">" ds))%string)
      with ((String w ws') ++ String a (String ">" ds))%string.
    unfold Tree.arrowGroup.
    assert (Hsa : Js.isSpace a = false) by (destruct Ha; subst a; reflexivity).
    rewrite (span_app_stop Js.isSpace (String w ws') a _ Hw2 Hsa).
    rewrite (tryFrom_head _ _ (String a ">", ds)); [reflexivity|].
    rewrite drop_app_length.
    assert (Hc : (Ascii.eqb a "-" || Ascii.eqb a ".") = true)
      by (destruct Ha; subst a; reflexivity).
    rewrite Hc. unfold Tree.digitsToEnd. rewrite Hd2.
    destruct ds; [exfalso; apply Hd1; reflexivity | reflexivity].
  - intros t H. unfold Tree.featureArrowTarget in H.
    destruct (Tree.matchFeature feat) as [[g1 [[op ds]|]]|]; try discriminate.
    exact (findTarget_In _ _ _ H).
Qed.

(** The feature [+PAST ->2], given as a quoted string, has an arrow. *)
Lemma spaced_feature_has_arrow :
  Tree.matchFeature "+PAST ->2" = Some ("+PAST", Some ("->", "2")) /\
  Tree.matchFeature "+PAST->2" = Some ("+PAST->2", None).
Proof. split; reflexivity. Qed.


(** ** Words and numbers (tokenizer.js) *)

Definition startsWithDigit (s : string) : bool :=
  match s with
  | String c _ => Tokenizer.isNumber c
  | EmptyString => false
  end.

(** An unquoted string token does not begin with a digit. *)
Definition wordToken (t : Tokenizer.Token) : Prop :=
  Tokenizer.type t = Tokenizer.STRING ->
  exists s, Tokenizer.value t = Tokenizer.VString s /\ startsWithDigit s = false.

(** A parser function that makes no unquoted string token. *)
Definition noWord (p : Tokenizer.ParseFn) : Prop :=
  forall s tok k, p s = OK (Some tok, k) -> Tokenizer.type tok <> Tokenizer.STRING.

Definition keepsWords (ps : list Tokenizer.ParseFn) : Prop :=
  forall input o tokens o' tokens',
    Tokenizer.runParsers ps input o tokens = OK (o', tokens') ->
    Forall wordToken tokens -> Forall wordToken tokens'.

Lemma runParsers_cons (p : Tokenizer.ParseFn) (ps : list Tokenizer.ParseFn) (input : string)
    (o : nat) (tokens : list Tokenizer.Token) :
  Tokenizer.runParsers (p :: ps) input o tokens =
  match p (Js.drop o input) with
  | OK (token, consumed) =>
      if (String.length input <=? o + consumed)%nat
      then OK ((o + consumed)%nat, match token with Some t => tokens ++ [t] | None => tokens end)
      else Tokenizer.runParsers ps input (o + consumed)
             (match token with Some t => tokens ++ [t] | None => tokens end)
  | Err e => Err e
  | OutOfFuel => OutOfFuel
  end.
Proof. reflexivity. Qed.

Lemma keepsWords_nil : keepsWords [].
Proof. intros input o tokens o' tokens' H Hw. inversion H; subst. exact Hw. Qed.

Lemma keepsWords_cons (p : Tokenizer.ParseFn) (ps : list Tokenizer.ParseFn) :
  noWord p -> keepsWords ps -> keepsWords (p :: ps).
Proof.
  intros Hp Hps input o tokens o' tokens' H Hw. rewrite runParsers_cons in H.
  destruct (p (Js.drop o input)) as [[tok k]| e |] eqn:E; try discriminate.
  assert (Hw' : Forall wordToken (match tok with Some t => tokens ++ [t] | None => tokens end)).
  { destruct tok as [t|]; [|exact Hw]. apply Forall_app. split; [exact Hw|].
    constructor; [|constructor]. intro Hty. exfalso. exact (Hp _ _ _ E Hty). }
  destruct (String.length input <=? o + k)%nat; [inversion H; subst; exact Hw'|].
  exact (Hps _ _ _ _ _ H Hw').
Qed.

Lemma noWord_skipWhitespace : noWord Tokenizer.skipWhitespace.
Proof. intros s tok k H. discriminate. Qed.

Lemma noWord_parseControlCharacters : noWord Tokenizer.parseControlCharacters.
Proof.
  intros [|c r] tok k H; [discriminate|].
  destruct c as [[] [] [] [] [] [] [] []]; simpl in H; inversion H; subst; discriminate.
Qed.

Lemma noWord_parseArrows : noWord Tokenizer.parseArrows.
Proof.
  intros [|c1 [|c2 r]] tok k H; [discriminate| |].
  - destruct c1 as [[] [] [] [] [] [] [] []]; discriminate.
  - destruct c1 as [[] [] [] [] [] [] [] []]; try discriminate;
      destruct c2 as [[] [] [] [] [] [] [] []]; simpl in H; inversion H; subst; discriminate.
Qed.

Lemma noWord_parseQuotedString : noWord Tokenizer.parseQuotedString.
Proof.
  intros [|c r] tok k H; [discriminate|]. unfold Tokenizer.parseQuotedString in H.
  destruct (Ascii.eqb c Js.dquote); [|discriminate]. cbv zeta in H.
  destruct (Js.drop _ _) as [|c' r']; [discriminate|].
  destruct (Ascii.eqb c' Js.dquote); inversion H; subst; discriminate.
Qed.

Lemma take_starts (n : nat) (s : string) :
  (0 < n)%nat -> startsWithDigit (Js.take n s) = startsWithDigit s.
Proof. destruct n; [lia|]. destruct s; reflexivity. Qed.

(** Behind [parseNumber] no digit is left for [parseString] to begin with. *)
Lemma keepsWords_from_number :
  keepsWords [Tokenizer.parseNumber; Tokenizer.parseString; Tokenizer.parseQuotedString].
Proof.
  intros input o tokens o' tokens' H Hw. rewrite runParsers_cons in H.
  unfold Tokenizer.parseNumber at 1 in H. cbv zeta in H.
  set (s0 := Js.drop o input) in *. set (k := Tokenizer.span Tokenizer.isNumber s0) in *.
  assert (Hrest : startsWithDigit (Js.drop k s0) = false).
  { destruct (Js.drop k s0) as [|c r] eqn:Ed; [reflexivity|].
    exact (span_stops Tokenizer.isNumber s0 c r Ed). }
  assert (Hstr : forall o1 tokens1,
            Js.drop o1 input = Js.drop k s0 -> Forall wordToken tokens1 ->
            Tokenizer.runParsers [Tokenizer.parseString; Tokenizer.parseQuotedString]
              input o1 tokens1 = OK (o', tokens') ->
            Forall wordToken tokens').
  { intros o1 tokens1 Eo Hw1 H1. rewrite runParsers_cons in H1.
    unfold Tokenizer.parseString at 1 in H1. cbv zeta in H1. rewrite Eo in H1.
    set (s1 := Js.drop k s0) in *.
    set (c := Tokenizer.span
                (fun c => negb (Tokenizer.isWhitespace c) && negb (Tokenizer.isControlCharacter c))
                s1) in *.
    destruct (Nat.ltb_spec 0 c) as [Hc|Hc].
    - assert (Hw2 : Forall wordToken
                      (tokens1 ++ [Tokenizer.mkToken Tokenizer.STRING
                                     (Tokenizer.VString (Js.take c s1))])).
      { apply Forall_app. split; [exact Hw1|]. constructor; [|constructor].
        intros _. exists (Js.take c s1). split; [reflexivity|].
        rewrite (take_starts c s1 Hc). exact Hrest. }
      destruct (String.length input <=? o1 + c)%nat; [inversion H1; subst; exact Hw2|].
      exact (keepsWords_cons _ _ noWord_parseQuotedString keepsWords_nil _ _ _ _ _ H1 Hw2).
    - destruct (String.length input <=? o1 + 0)%nat; [inversion H1; subst; exact Hw1|].
      exact (keepsWords_cons _ _ noWord_parseQuotedString keepsWords_nil _ _ _ _ _ H1 Hw1). }
  destruct (Nat.ltb_spec 0 k) as [Hk|Hk].
  - assert (Hw1 : Forall wordToken
                    (tokens ++ [Tokenizer.mkToken Tokenizer.NUMBER
                                  (Tokenizer.VNumber
                                     (Tokenizer.parseIntFrom 0 (Js.take k s0)))])).
    { apply Forall_app. split; [exact Hw|]. constructor; [|constructor]. intro Hty.
      discriminate. }
    destruct (String.length input <=? o + k)%nat; [inversion H; subst; exact Hw1|].
    refine (Hstr (o + k)%nat _ _ Hw1 H). unfold s0. rewrite drop_drop. reflexivity.
  - destruct (String.length input <=? o + 0)%nat; [inversion H; subst; exact Hw|].
    refine (Hstr (o + 0)%nat _ _ Hw H).
    assert (Ek : k = 0%nat) by lia. rewrite Ek. unfold s0. rewrite drop_drop. reflexivity.
Qed.

Lemma keepsWords_parsers : keepsWords Tokenizer.parsers.
Proof.
  unfold Tokenizer.parsers.
  apply keepsWords_cons; [exact noWord_skipWhitespace|].
  apply keepsWords_cons; [exact noWord_parseControlCharacters|].
  apply keepsWords_cons; [exact noWord_parseArrows|].
  exact keepsWords_from_number.
Qed.

Lemma tokenizeLoop_words (fuel : nat) (input : string) (offset : nat)
    (tokens tokens' : list Tokenizer.Token) :
  Tokenizer.tokenizeLoop fuel input offset tokens = OK tokens' ->
  Forall wordToken tokens -> Forall wordToken tokens'.
Proof.
  revert offset tokens. induction fuel as [|fuel IH]; intros offset tokens H Hw.
  - simpl in H. destruct (offset <? String.length input)%nat; [discriminate|].
    inversion H; subst. exact Hw.
  - cbn [Tokenizer.tokenizeLoop] in H.
    destruct (offset <? String.length input)%nat; [|inversion H; subst; exact Hw].
    destruct (Tokenizer.runParsers Tokenizer.parsers input offset tokens)
      as [[o t]| e |] eqn:Er; try discriminate.
    destruct (o =? offset)%nat; [discriminate|].
    exact (IH o t H (keepsWords_parsers _ _ _ _ _ Er Hw)).
Qed.

(** X20. No unquoted string token begins with a digit: the digits at the
    beginning of a word become a number token of their own, so that a word
    such as [3rd] gives a number and a string. *)
Theorem words_do_not_begin_with_digits (input : string) (tokens : list Tokenizer.Token) :
  Tokenizer.tokenize input = OK tokens -> Forall wordToken tokens.
Proof. intro H. exact (tokenizeLoop_words _ _ _ _ _ H (Forall_nil _)). Qed.

Lemma words_do_not_begin_with_digits_example :
  Tokenizer.tokenize "[N 3rd]"
  = OK [Tokenizer.mkToken Tokenizer.BRACKET_OPEN Tokenizer.VNull;
        Tokenizer.mkToken Tokenizer.STRING (Tokenizer.VString "N");
        Tokenizer.mkToken Tokenizer.NUMBER (Tokenizer.VNumber 3);
        Tokenizer.mkToken Tokenizer.STRING (Tokenizer.VString "rd");
        Tokenizer.mkToken Tokenizer.BRACKET_CLOSE Tokenizer.VNull] /\
  Forall wordToken
    [Tokenizer.mkToken Tokenizer.BRACKET_OPEN Tokenizer.VNull;
     Tokenizer.mkToken Tokenizer.STRING (Tokenizer.VString "N");
     Tokenizer.mkToken Tokenizer.NUMBER (Tokenizer.VNumber 3);
     Tokenizer.mkToken Tokenizer.STRING (Tokenizer.VString "rd");
     Tokenizer.mkToken Tokenizer.BRACKET_CLOSE Tokenizer.VNull].
Proof.
  split; [vm_compute; reflexivity|].
  apply (words_do_not_begin_with_digits "[N 3rd]"). vm_compute. reflexivity.
Defined.


(** ** Examples *)

Lemma tokens_are_well_formed_example : Forall wfToken arrowTokens.
Proof.
  apply (tokens_are_well_formed ("[F G ->1 " ++ quoted "lbl" ++ ", .>2]")%string arrowTokens).
  vm_compute. reflexivity.
Defined.

Lemma checked_tokens_parse_errors_example :
  (exists root, Parser.parse featureTokens = OK root) \/
  (exists e, Parser.parse featureTokens = Err e /\ afterCheck e = true).
Proof. apply (checked_tokens_parse_errors featureTokens). vm_compute. reflexivity. Defined.

(** The tokens of [[X +FEAT [Y Z]]] have two opening and two closing
    brackets, and the tree has the two Nodes [X] and [Y]. *)
Lemma parse_counts_brackets_example :
  countType Tokenizer.BRACKET_OPEN featureTokens = nodeCount (Parser.mkRoot [featureNode]) /\
  countType Tokenizer.BRACKET_CLOSE featureTokens = nodeCount (Parser.mkRoot [featureNode]) /\
  SyntaxTree.countOpenBrackets featureTokens = 0%Z.
Proof.
  apply (parse_counts_brackets featureTokens (Parser.mkRoot [featureNode])).
  vm_compute. reflexivity.
Defined.

Lemma parsed_tree_shape_example :
  Parser.mkRoot [featureNode] = Parser.mkRoot (Parser.values (Parser.mkRoot [featureNode])) /\
  forall x n, In x (Parser.values (Parser.mkRoot [featureNode])) -> In n (syntaxNodes x) ->
    match Parser.type n with
    | Parser.ROOT => False
    | Parser.NODE => Parser.arrows n = None
    | Parser.VALUE =>
        Parser.values n = [] /\ Parser.features n = [] /\ Parser.arrows n <> Some []
    end.
Proof.
  apply (parsed_tree_shape featureTokens (Parser.mkRoot [featureNode])).
  vm_compute. reflexivity.
Defined.

(** The tokens of [[A [B^x c] [B d]]]. *)
Definition superscriptTokens : list Tokenizer.Token :=
  [Tokenizer.mkToken Tokenizer.BRACKET_OPEN Tokenizer.VNull;
   Tokenizer.mkToken Tokenizer.STRING (Tokenizer.VString "A");
   Tokenizer.mkToken Tokenizer.BRACKET_OPEN Tokenizer.VNull;
   Tokenizer.mkToken Tokenizer.STRING (Tokenizer.VString "B");
   Tokenizer.mkToken Tokenizer.SUPERSCRIPT_PREFIX Tokenizer.VNull;
   Tokenizer.mkToken Tokenizer.STRING (Tokenizer.VString "x");
   Tokenizer.mkToken Tokenizer.STRING (Tokenizer.VString "c");
   Tokenizer.mkToken Tokenizer.BRACKET_CLOSE Tokenizer.VNull;
   Tokenizer.mkToken Tokenizer.BRACKET_OPEN Tokenizer.VNull;
   Tokenizer.mkToken Tokenizer.STRING (Tokenizer.VString "B");
   Tokenizer.mkToken Tokenizer.STRING (Tokenizer.VString "d");
   Tokenizer.mkToken Tokenizer.BRACKET_CLOSE Tokenizer.VNull;
   Tokenizer.mkToken Tokenizer.BRACKET_CLOSE Tokenizer.VNull].

(** The node [B^x] of the tree. *)
Definition superscriptNode : Parser.SyntaxNode :=
  {| Parser.type := Parser.NODE; Parser.label := "B"; Parser.subscript := None;
     Parser.superscript := Some "x"; Parser.values := [leaf "c" None];
     Parser.features := []; Parser.caseFeature := None; Parser.arrows := None |}.

Lemma scripts_are_exclusive_example :
  Tokenizer.tokenize "[A [B^x c] [B d]]" = OK superscriptTokens /\
  (Parser.subscript superscriptNode = None \/ Parser.superscript superscriptNode = None).
Proof.
  split; [vm_compute; reflexivity|].
  apply (scripts_are_exclusive superscriptTokens superscriptTree superscriptNode).
  - vm_compute. reflexivity.
  - simpl. right. right. left. reflexivity.
Defined.

(** The drawables built for [[A [B^x c] [B d]]]. *)
Definition superscriptDrawables : Tree.Drawable :=
  Tree.drawableFromNode exampleCanvas superscriptTree (Tree.Fin (-1)) false.

Lemma countNodes_counts_labels_example :
  NoDup (keys (Tree.countNodes superscriptDrawables)) /\
  forall l, Tree.getOr0 (Tree.countNodes superscriptDrawables) l
            = List.length (filter (countedAs l) (nodes superscriptDrawables)).
Proof.
  apply (countNodes_counts_labels superscriptDrawables).
  intros x Hx Hl. vm_compute in Hx.
  repeat (destruct Hx as [Hx|Hx];
          [subst x; first [reflexivity | vm_compute in Hl; discriminate Hl]|]).
  destruct Hx.
Defined.

(** In the example the label [B] is kept: it is counted twice, one of the
    two drawables having a superscript. *)


(** The drawable of the second [B] of the example. *)
Definition secondB : Tree.Drawable :=
  Tree.drawableFromNode exampleCanvas (node "B" [leaf "d" None]) (Tree.Fin 1) false.

(** The second [B] of the example is the first drawable numbered with its
    label and gets the subscript [1]. *)
Lemma auto_subscripts_count_up_example :
  map Tree.label (nodes (Tree.calculateAutoSubscript superscriptDrawables))
  = map Tree.label (nodes superscriptDrawables) /\
  nth_error (map Tree.subscript (nodes (Tree.calculateAutoSubscript superscriptDrawables))) 4
  = Some (if numbered (keptKeys superscriptDrawables) secondB
          then Some (Js.decimal
                       (List.length
                          (filter (numberedAs (keptKeys superscriptDrawables)
                                     (Tree.label secondB))
                             (firstn 4 (nodes superscriptDrawables))) + 1))
          else Tree.subscript secondB).
Proof.
  apply (auto_subscripts_count_up superscriptDrawables 4 secondB). vm_compute. reflexivity.
Defined.

Lemma secondB_subscript :
  nth_error (map Tree.subscript (nodes (Tree.calculateAutoSubscript superscriptDrawables))) 4
  = Some (Some "1").
Proof. vm_compute. reflexivity. Qed.

(** In [[A [B^x c] [B d]]] the label [B] is counted twice, the node [B^x]
    keeps its lack of subscript, and the second [B], at the position 4 of
    the traversal, is numbered 1. *)
Lemma numbered_labels_are_counted_twice_example :
  nth_error (map Tree.subscript (nodes (Tree.calculateAutoSubscript superscriptDrawables))) 4
  = Some (if unscripted secondB &&
             (2 <=? List.length (filter (countedAs (Tree.label secondB))
                                   (nodes superscriptDrawables)))%nat
          then Some (Js.decimal
                       (List.length (filter (unscriptedAs (Tree.label secondB))
                                       (firstn 4 (nodes superscriptDrawables))) + 1))
          else Tree.subscript secondB).
Proof.
  apply (numbered_labels_are_counted_twice superscriptDrawables 4 secondB).
  - intros x Hx Hl. vm_compute in Hx.
    repeat (destruct Hx as [Hx|Hx];
            [subst x; first [reflexivity | vm_compute in Hl; discriminate Hl]|]).
    destruct Hx.
  - vm_compute. reflexivity.
Defined.

(** A label counted twice of which no drawable is numbered: in
    [[A [B^x c] [B^y d]]] both nodes [B] have a superscript. *)
Lemma counted_twice_but_not_numbered :
  exists root,
    parsePhrase "[A [B^x c] [B^y d]]" = OK root /\
    let d := Tree.drawableFromNode exampleCanvas root (Tree.Fin (-1)) false in
    List.length (filter (countedAs "B") (nodes d)) = 2%nat /\
    map Tree.subscript (nodes (Tree.calculateAutoSubscript d))
    = [None; None; None; None; None; None].
Proof. eexists. split; [vm_compute; reflexivity|]. split; vm_compute; reflexivity. Qed.
